(** * Organic tree supports: a shallow embedding of
      [src/libslic3r/Support/OrganicSupport.cpp]

    The development follows the source file from top to bottom:
    - the arithmetic the source computes with ([float], [double], [int]);
    - support elements, [move_bounds] and pointers into it;
    - [triangulate_strip] of the tube mesher;
    - the sphere solver [organic_smooth_branches_avoid_collisions];
    - the branch extractor [TreeVisitor::visit_recursive] and the loop
      that starts it;
    - the downward propagation of a root slice in [organic_draw_branches].

    All definitions come first, the theorems about them follow. *)

From Stdlib Require Import ZArith List Bool Lia Arith.
From Stdlib Require Import Reals Lra Psatz.
From Stdlib Require PrimFloat SpecFloat FloatOps FloatAxioms.
Import ListNotations.

(* ===================================================================== *)
(** * Vectors indexed the way C++ indexes them *)
(* ===================================================================== *)

(** [v[i]] with [i] an [int] or [size_t]: a negative index converts to a
    huge [size_t], so it is out of range like any index past the end.
    Reading out of range is undefined behaviour in the source; the model
    answers [None] there and every caller turns [None] into its own
    "undefined" outcome. *)
Definition lookupZ {A : Type} (l : list A) (i : Z) : option A :=
  if (i <? 0)%Z then None else nth_error l (Z.to_nat i).

Fixpoint update_nth {A : Type} (n : nat) (f : A -> A) (l : list A) : list A :=
  match l, n with
  | [], _ => []
  | x :: r, O => f x :: r
  | x :: r, S k => x :: update_nth k f r
  end.

(** In-place update of [v[i]]; only ever used after [lookupZ] succeeded. *)
Definition updateZ {A : Type} (l : list A) (i : Z) (f : A -> A) : list A :=
  if (i <? 0)%Z then l else update_nth (Z.to_nat i) f l.

(** [x mod 2^32]: the value of an [int] expression converted to [uint32_t]. *)
Definition wrap32 (x : Z) : Z := (x mod 2 ^ 32)%Z.

(* ===================================================================== *)
(** * Floating-point arithmetic *)
(* ===================================================================== *)

(** The source computes in [double] and stores sphere data in [float].
    The embedding is written once over an interpretation of the arithmetic
    and is instantiated twice:
    - [FloatArith]: IEEE 754 binary64 through Rocq's primitive floats, with
      binary32 values as the doubles that [to_float] leaves fixed; this
      instance runs;
    - [RealArith]: exact real arithmetic, the idealisation in which the
      numeric claims are stated (no rounding, [to_float] is the identity).

    Theorems about control flow are proved for every interpretation. *)
Class Arith (F : Type) : Type := {
  of_Z     : Z -> F;            (* conversion of an integer to double *)
  fadd     : F -> F -> F;
  fsub     : F -> F -> F;
  fmul     : F -> F -> F;
  fdiv     : F -> F -> F;
  fsqrt    : F -> F;
  fltb     : F -> F -> bool;    (* a < b *)
  fleb     : F -> F -> bool;    (* a <= b *)
  to_float : F -> F;            (* rounding of a double to float *)
  dbl_max  : F;                 (* std::numeric_limits<double>::max() *)
  flt_max  : F;                 (* std::numeric_limits<float>::max() *)
  m_pi     : F                  (* M_PI *)
}.

Section Numeric.
Context {F : Type} {A : Arith F}.

Definition fzero : F := of_Z 0.
Definition fopp (a : F) : F := fsub fzero a.

(** [std::min(a, b)] is [(b < a) ? b : a], [std::max(a, b)] is
    [(a < b) ? b : a]. *)
Definition fmin (a b : F) : F := if fltb b a then b else a.
Definition fmax (a b : F) : F := if fltb a b then b else a.

(** [sqr(x)] of libslic3r. *)
Definition sqr (a : F) : F := fmul a a.

(** A decimal literal [n/d]: the correctly rounded quotient of two
    exactly represented integers is the double the literal denotes. *)
Definition lit (n d : Z) : F := fdiv (of_Z n) (of_Z d).

(** Arithmetic on [float] operands: the exact result rounded to float.
    Computing in double and rounding once more gives the same value for
    [+], [-], [*]. *)
Definition fadd32 (a b : F) : F := to_float (fadd a b).
Definition fsub32 (a b : F) : F := to_float (fsub a b).
Definition fmul32 (a b : F) : F := to_float (fmul a b).

(** ** Eigen vectors *)

Record Vec2 : Type := mkVec2 { vx : F; vy : F }.
Record Vec3 : Type := mkVec3 { px : F; py : F; pz : F }.

Definition to_2d (p : Vec3) : Vec2 := mkVec2 (px p) (py p).
Definition to_3d (v : Vec2) (z : F) : Vec3 := mkVec3 (vx v) (vy v) z.

Definition v2add (a b : Vec2) : Vec2 := mkVec2 (fadd (vx a) (vx b)) (fadd (vy a) (vy b)).
Definition v2sub (a b : Vec2) : Vec2 := mkVec2 (fsub (vx a) (vx b)) (fsub (vy a) (vy b)).
Definition v2scale (v : Vec2) (k : F) : Vec2 := mkVec2 (fmul (vx v) k) (fmul (vy v) k).
Definition v2div (v : Vec2) (k : F) : Vec2 := mkVec2 (fdiv (vx v) k) (fdiv (vy v) k).
Definition v2sub32 (a b : Vec2) : Vec2 := mkVec2 (fsub32 (vx a) (vx b)) (fsub32 (vy a) (vy b)).
Definition v2add32 (a b : Vec2) : Vec2 := mkVec2 (fadd32 (vx a) (vx b)) (fadd32 (vy a) (vy b)).
(** [.cast<float>()] of a vector of doubles. *)
Definition v2cast32 (v : Vec2) : Vec2 := mkVec2 (to_float (vx v)) (to_float (vy v)).

Definition squaredNorm (v : Vec2) : F := fadd (fmul (vx v) (vx v)) (fmul (vy v) (vy v)).
Definition norm (v : Vec2) : F := fsqrt (squaredNorm v).

(** Eigen's [normalized()]: the vector divided by its norm, and the
    vector itself when its squared norm is not positive. *)
Definition normalized (v : Vec2) : Vec2 :=
  let z := squaredNorm v in
  if fltb fzero z then v2div v (fsqrt z) else v.

(** [p.head<2>() += d] on a [Vec3f]. *)
Definition add_head2 (p : Vec3) (d : Vec2) : Vec3 :=
  mkVec3 (fadd32 (px p) (vx d)) (fadd32 (py p) (vy d)) (pz p).

Definition v3sub32 (a b : Vec3) : Vec3 :=
  mkVec3 (fsub32 (px a) (px b)) (fsub32 (py a) (py b)) (fsub32 (pz a) (pz b)).
Definition squaredNorm3_32 (v : Vec3) : F :=
  fadd32 (fadd32 (fmul32 (px v) (px v)) (fmul32 (py v) (py v))) (fmul32 (pz v) (pz v)).
End Numeric.

Arguments Vec2 F : clear implicits.
Arguments Vec3 F : clear implicits.

(** ** The two interpretations *)

(** Rounding of a binary64 value to the nearest binary32 value. *)
Definition round_to_single (x : PrimFloat.float) : PrimFloat.float :=
  match FloatOps.Prim2SF x with
  | SpecFloat.S754_finite s m e =>
      FloatOps.SF2Prim
        (SpecFloat.binary_normalize 24 128 (if s then Zneg m else Zpos m) e s)
  | _ => x
  end.

#[export] Instance FloatArith : Arith PrimFloat.float := {|
  of_Z z   := FloatOps.SF2Prim (SpecFloat.binary_normalize 53 1024 z 0 false);
  fadd     := PrimFloat.add;
  fsub     := PrimFloat.sub;
  fmul     := PrimFloat.mul;
  fdiv     := PrimFloat.div;
  fsqrt    := PrimFloat.sqrt;
  fltb     := PrimFloat.ltb;
  fleb     := PrimFloat.leb;
  to_float := round_to_single;
  dbl_max  := FloatOps.SF2Prim (SpecFloat.binary_normalize 53 1024 (2 ^ 53 - 1) 971 false);
  flt_max  := FloatOps.SF2Prim (SpecFloat.binary_normalize 53 1024 (2 ^ 24 - 1) 104 false);
  (* 0x1.921fb54442d18p+1 *)
  m_pi     := FloatOps.SF2Prim (SpecFloat.binary_normalize 53 1024 7074237752028440 (-51) false)
|}.

Definition Rltb (a b : R) : bool := if Rlt_dec a b then true else false.
Definition Rleb (a b : R) : bool := if Rle_dec a b then true else false.

#[export] Instance RealArith : Arith R := {|
  of_Z     := IZR;
  fadd     := Rplus;
  fsub     := Rminus;
  fmul     := Rmult;
  fdiv     := Rdiv;
  fsqrt    := sqrt;
  fltb     := Rltb;
  fleb     := Rleb;
  to_float := fun x => x;
  dbl_max  := ((2 ^ 1024 - 2 ^ 971)%R);
  flt_max  := ((2 ^ 128 - 2 ^ 104)%R);
  m_pi     := PI
|}.

(* ===================================================================== *)
(** * Support elements *)
(* ===================================================================== *)

(** The fields of [SupportElementState] that this file reads or writes.
    [layer_idx] is a [LayerIndex] (an [int]), [result_on_layer] a point in
    scaled integer coordinates. *)
Record SupportElementState : Type := mkState {
  layer_idx          : Z;
  result_on_layer    : Z * Z;
  to_model_gracious  : bool;
  lost               : bool;
  verylost           : bool;
  marked             : bool
}.

(** [parents] are indices into the layer above. *)
Record SupportElement : Type := mkElement {
  state   : SupportElementState;
  parents : list Z
}.

Definition SupportElements : Type := list SupportElement.

(** [std::vector<SupportElements> move_bounds], one vector per layer. *)
Definition MoveBounds : Type := list SupportElements.

(** A [SupportElement*] or [SupportElement&] into [move_bounds]:
    [&move_bounds[l][i]] is the pair [(l, i)]. *)
Definition ElemRef : Type := (Z * Z)%type.

Definition get_element (mb : MoveBounds) (r : ElemRef) : option SupportElement :=
  match lookupZ mb (fst r) with
  | Some layer => lookupZ layer (snd r)
  | None => None
  end.

Definition update_element (mb : MoveBounds) (r : ElemRef)
    (f : SupportElement -> SupportElement) : MoveBounds :=
  updateZ mb (fst r) (fun layer => updateZ layer (snd r) f).

Definition set_marked (b : bool) (e : SupportElement) : SupportElement :=
  let s := state e in
  mkElement
    (mkState (layer_idx s) (result_on_layer s) (to_model_gracious s)
             (lost s) (verylost s) b)
    (parents e).

Definition set_result_on_layer (p : Z * Z) (e : SupportElement) : SupportElement :=
  let s := state e in
  mkElement
    (mkState (layer_idx s) p (to_model_gracious s)
             (lost s) (verylost s) (marked s))
    (parents e).

(* ===================================================================== *)
(** * The tube mesher: [triangulate_strip] *)
(* ===================================================================== *)

(** A face of an [indexed_triangle_set]: three vertex indices. *)
Definition Triangle : Type := (Z * Z * Z)%type.

Section Mesher.
Context {F : Type} {A : Arith F}.

(** [indexed_triangle_set]: [Vec3f] vertices and [Vec3i] faces. *)
Record indexed_triangle_set : Type := mkITS {
  vertices : list (Vec3 F);
  indices  : list Triangle
}.

(** [(a - b).squaredNorm()] on [Vec3f]. *)
Definition squared_distance32 (a b : Vec3 F) : F :=
  squaredNorm3_32 (v3sub32 a b).

(** The indices [b, b+1, ..., e-1] of a loop [for (i = b; i < e; ++i)]. *)
Definition index_range (b e : Z) : list Z :=
  map (fun k => (b + Z.of_nat k)%Z) (seq 0 (Z.to_nat (e - b))).

(** Lines 80 to 92: the vertex of the second ring closest to the first
    vertex of the first ring. The state of the loop is [(d2min, istart2)];
    [closest_step] is its body. *)
Definition closest_step (vs : list (Vec3 F)) (p1 : Vec3 F)
    (acc : option (F * Z)) (i : Z) : option (F * Z) :=
  match acc, lookupZ vs i with
  | Some (d2min, istart2), Some p2 =>
      let d2 := squared_distance32 p2 p1 in
      if fltb d2 d2min then Some (d2, i) else Some (d2min, istart2)
  | _, _ => None
  end.

Definition closest_on_second (vs : list (Vec3 F)) (ibegin1 ibegin2 iend2 : Z)
    : option Z :=
  match lookupZ vs ibegin1 with
  | None => None
  | Some p1 =>
      option_map snd
        (fold_left (closest_step vs p1) (index_range ibegin2 iend2)
                   (Some (flt_max, ibegin2)))
  end.

(** [update_u2] and [update_v2]: the next index on a ring, wrapping. *)
Definition next_on_ring (ibegin iend i : Z) : Z :=
  if (i + 1 =? iend)%Z then ibegin else (i + 1)%Z.

(** Lines 95 to 130, the zig-zag loop. The loop has no counter; the model
    gives it [fuel] and answers [None] when the fuel runs out before the
    loop condition [n1 > 0 || n2 > 0] turns false. *)
Fixpoint strip_loop (fuel : nat) (vs : list (Vec3 F))
    (ibegin1 iend1 ibegin2 iend2 : Z) (u v n1 n2 : Z) (idx : list Triangle)
    : option (list Triangle) :=
  if ((0 <? n1)%Z || (0 <? n2)%Z)%bool then
    match fuel with
    | O => None
    | S fuel' =>
        let u2 := next_on_ring ibegin1 iend1 u in
        let v2 := next_on_ring ibegin2 iend2 v in
        let take_first : option bool :=
          if (n1 =? 0)%Z then Some false
          else if (n2 =? 0)%Z then Some true
          else
            match lookupZ vs u2, lookupZ vs v, lookupZ vs v2, lookupZ vs u with
            | Some pu2, Some pv, Some pv2, Some pu =>
                let l1 := squared_distance32 pu2 pv in
                let l2 := squared_distance32 pv2 pu in
                Some (fltb l1 l2)
            | _, _, _, _ => None
            end in
        match take_first with
        | None => None
        | Some true =>
            strip_loop fuel' vs ibegin1 iend1 ibegin2 iend2
                       u2 v (n1 - 1)%Z n2 (idx ++ [(u, u2, v)])
        | Some false =>
            strip_loop fuel' vs ibegin1 iend1 ibegin2 iend2
                       u v2 n1 (n2 - 1)%Z (idx ++ [(u, v2, v)])
        end
    end
  else Some idx.

(** [triangulate_strip(its, ibegin1, iend1, ibegin2, iend2)]. *)
Definition triangulate_strip (fuel : nat) (its : indexed_triangle_set)
    (ibegin1 iend1 ibegin2 iend2 : Z) : option indexed_triangle_set :=
  let n1 := (iend1 - ibegin1)%Z in
  let n2 := (iend2 - ibegin2)%Z in
  match closest_on_second (vertices its) ibegin1 ibegin2 iend2 with
  | None => None
  | Some istart2 =>
      match strip_loop fuel (vertices its) ibegin1 iend1 ibegin2 iend2
                       ibegin1 istart2 n1 n2 (indices its) with
      | None => None
      | Some idx => Some (mkITS (vertices its) idx)
      end
  end.

(** An index of one of the two rings. *)
Definition on_rings (ibegin1 iend1 ibegin2 iend2 : Z) (i : Z) : Prop :=
  (ibegin1 <= i < iend1)%Z \/ (ibegin2 <= i < iend2)%Z.

Definition triangle_on_rings (ibegin1 iend1 ibegin2 iend2 : Z) (t : Triangle) : Prop :=
  let '(a, b, c) := t in
  on_rings ibegin1 iend1 ibegin2 iend2 a /\
  on_rings ibegin1 iend1 ibegin2 iend2 b /\
  on_rings ibegin1 iend1 ibegin2 iend2 c.
End Mesher.

Arguments indexed_triangle_set F : clear implicits.

(** Two rings of four vertices each, one above the other. *)
Definition two_squares : indexed_triangle_set PrimFloat.float :=
  let c (x y z : Z) : Vec3 PrimFloat.float := mkVec3 (of_Z x) (of_Z y) (of_Z z) in
  mkITS
    [ c 1 0 0; c 0 1 0; c (-1) 0 0; c 0 (-1) 0;
      c 1 0 1; c 0 1 1; c (-1) 0 1; c 0 (-1) 1 ]%Z
    [].

(* ===================================================================== *)
(** * The sphere solver: [organic_smooth_branches_avoid_collisions] *)
(* ===================================================================== *)

Section Solver.
Context {F : Type} {A : Arith F}.

(** [Exn]: what the cancellation probe throws. [Polygons]: the polygon
    sets of libslic3r, which the solver only passes on. *)
Context {Exn : Type} {Polygons : Type}.

(** [Linef]: a segment in unscaled coordinates. *)
Definition Linef : Type := (Vec2 F * Vec2 F)%type.

(** What the solver calls and reads that is declared outside this file. *)
Record Externals : Type := mkExternals {
  (** [getRadius(config, state)], a [coord_t]. *)
  getRadius : SupportElementState -> Z;
  (** [layer_z(slicing_params, config, layer_idx)], a [double]. *)
  layer_z : Z -> F;
  (** [layer_idx_ceil] and [layer_idx_floor] of a height. *)
  layer_idx_ceil : F -> Z;
  layer_idx_floor : F -> Z;
  (** [slicing_params.layer_height]. *)
  layer_height : F;
  (** [unscaled<float>], [unscaled<double>] and [scaled<coord_t>]. *)
  unscaled_float : Z -> F;
  unscaled_double : Z -> F;
  scaled_coord : F -> Z;
  (** [std::numeric_limits<coord_t>::max()]. *)
  coord_t_max : Z;
  (** [EPSILON] of libslic3r. *)
  EPSILON : F;
  (** [volumes.get_collision_lower_bound_area(layer_idx, radius)]. *)
  get_collision_lower_bound_area : Z -> Z -> option (Z * Polygons);
  (** [to_lines(polygons)], in scaled coordinates. *)
  to_lines : Polygons -> list ((Z * Z) * (Z * Z));
  (** [AABBTreeLines::squared_distance_to_indexed_lines(lines, tree,
      point, hit_idx_out, hit_point_out, max_sqr_dist)]: the squared
      distance, negative when nothing is hit, and [hit_point_out]. The
      tree is a function of the lines it indexes. *)
  squared_distance_to_indexed_lines : list Linef -> Vec2 F -> F -> F * Vec2 F
}.

Variable X : Externals.

(** [throw_on_cancel]: what its [k]-th call does, [Some e] for "throws
    [e]". Any probe behaves in one run like one such function. *)
Variable probe : nat -> option Exn.

(** The value an uninitialised [Vec3f] happens to hold. *)
Variable indeterminate : Vec3 F.

(** ** The effects of the solver

    The solver reads [move_bounds] through the element pointers, writes
    [result_on_layer] at its end, and calls the probe. A computation
    takes the world and returns its outcome with the world it leaves
    behind, also when it throws. *)
Record World : Type := mkWorld {
  heap        : MoveBounds;
  probe_calls : nat
}.

Inductive Outcome (T : Type) : Type :=
| Done (t : T)
| Raised (e : Exn)
| Undefined.
Arguments Done {T} t.
Arguments Raised {T} e.
Arguments Undefined {T}.

Definition M (T : Type) : Type := World -> Outcome T * World.

Definition ret {T : Type} (t : T) : M T := fun w => (Done t, w).

Definition bind {T U : Type} (m : M T) (k : T -> M U) : M U :=
  fun w =>
    match m w with
    | (Done t, w') => k t w'
    | (Raised e, w') => (Raised e, w')
    | (Undefined, w') => (Undefined, w')
    end.

Notation "x <- m ;; k" := (bind m (fun x => k))
  (at level 100, m at next level, right associativity).

(** A call of [throw_on_cancel()]. *)
Definition throw_on_cancel : M unit :=
  fun w =>
    let w' := mkWorld (heap w) (S (probe_calls w)) in
    match probe (probe_calls w) with
    | Some e => (Raised e, w')
    | None => (Done tt, w')
    end.

(** A read that is undefined behaviour when out of range. *)
Definition defined {T : Type} (o : option T) : M T :=
  fun w => match o with Some t => (Done t, w) | None => (Undefined, w) end.

(** [*p] for an element pointer [p]. *)
Definition deref (r : ElemRef) : M SupportElement :=
  fun w => defined (get_element (heap w) r) w.

(** [p->state.result_on_layer = v]. *)
Definition store_result_on_layer (r : ElemRef) (v : Z * Z) : M unit :=
  fun w =>
    match get_element (heap w) r with
    | Some _ =>
        (Done tt,
         mkWorld (update_element (heap w) r (set_result_on_layer v)) (probe_calls w))
    | None => (Undefined, w)
    end.

Fixpoint mapM {T U : Type} (f : T -> M U) (l : list T) : M (list U) :=
  match l with
  | [] => ret []
  | x :: r => y <- f x ;; ys <- mapM f r ;; ret (y :: ys)
  end.

Fixpoint foldM {T U : Type} (f : U -> T -> M U) (l : list T) (u : U) : M U :=
  match l with
  | [] => ret u
  | x :: r => u' <- f u x ;; foldM f r u'
  end.

(** ** The per-layer collision cache, lines 271 to 310 *)

Record LayerCollisionCache : Type := mkLayerCache {
  min_element_radius : Z;
  collision_radius   : Z;
  lines              : list Linef
}.

Definition empty_layer_cache : LayerCollisionCache :=
  mkLayerCache (coord_t_max X) 0 [].

Definition min_element_radius_known (l : LayerCollisionCache) : bool :=
  negb (min_element_radius l =? coord_t_max X)%Z.

(** The body of the loop at line 282. A negative [layer_idx] makes
    [layer_collision_cache[layer_idx]] undefined. *)
Definition cache_add_element (cache : list LayerCollisionCache) (rl : ElemRef * Z)
    : M (list LayerCollisionCache) :=
  e <- deref (fst rl) ;;
  let l := layer_idx (state e) in
  if (l <? 0)%Z then defined None
  else
    let num_layers := Z.to_nat (l + 1) in
    let cache1 :=
      if (length cache <? num_layers)%nat
      then cache ++ repeat empty_layer_cache (num_layers - length cache)
      else cache in
    ret (updateZ cache1 l
           (fun c => mkLayerCache
                       (Z.min (min_element_radius c) (getRadius X (state e)))
                       (collision_radius c) (lines c))).

Definition unscaled_point (p : Z * Z) : Vec2 F :=
  mkVec2 (unscaled_double X (fst p)) (unscaled_double X (snd p)).

(** The body of the loop at line 295. *)
Definition fill_layer_cache (li : nat * LayerCollisionCache) : M LayerCollisionCache :=
  let (i, l) := li in
  if negb (min_element_radius_known l) then
    ret (mkLayerCache 0 (collision_radius l) (lines l))
  else
    match get_collision_lower_bound_area X (Z.of_nat i) 0 with
    | None => defined None
    | Some (r, polygons) =>
        let alines := to_lines X polygons in
        let l' := mkLayerCache 0 r
                    (lines l ++ map (fun ab => (unscaled_point (fst ab),
                                                unscaled_point (snd ab))) alines) in
        _ <- throw_on_cancel ;;
        ret l'
    end.

(** ** [struct CollisionSphere] *)

Record CollisionSphere : Type := mkSphere {
  element              : ElemRef;
  element_below_id     : Z;
  locked               : bool;
  radius               : F;
  position             : Vec3 F;
  prev_position        : Vec3 F;
  last_collision       : Vec3 F;
  last_collision_depth : F;
  min_z                : F;
  max_z                : F;
  layer_begin          : Z;
  layer_end            : Z
}.

Definition set_position (p : Vec3 F) (s : CollisionSphere) : CollisionSphere :=
  mkSphere (element s) (element_below_id s) (locked s) (radius s)
           p (prev_position s) (last_collision s) (last_collision_depth s)
           (min_z s) (max_z s) (layer_begin s) (layer_end s).

Definition set_prev_position (p : Vec3 F) (s : CollisionSphere) : CollisionSphere :=
  mkSphere (element s) (element_below_id s) (locked s) (radius s)
           (position s) p (last_collision s) (last_collision_depth s)
           (min_z s) (max_z s) (layer_begin s) (layer_end s).

Definition set_collision (depth : F) (hit : Vec3 F) (s : CollisionSphere)
    : CollisionSphere :=
  mkSphere (element s) (element_below_id s) (locked s) (radius s)
           (position s) (prev_position s) hit depth
           (min_z s) (max_z s) (layer_begin s) (layer_end s).

Definition set_min_z (z : F) (s : CollisionSphere) : CollisionSphere :=
  mkSphere (element s) (element_below_id s) (locked s) (radius s)
           (position s) (prev_position s) (last_collision s) (last_collision_depth s)
           z (max_z s) (layer_begin s) (layer_end s).

Definition set_max_z (z : F) (s : CollisionSphere) : CollisionSphere :=
  mkSphere (element s) (element_below_id s) (locked s) (radius s)
           (position s) (prev_position s) (last_collision s) (last_collision_depth s)
           (min_z s) z (layer_begin s) (layer_end s).

Definition set_span (z0 z1 : F) (l0 l1 : Z) (s : CollisionSphere) : CollisionSphere :=
  mkSphere (element s) (element_below_id s) (locked s) (radius s)
           (position s) (prev_position s) (last_collision s) (last_collision_depth s)
           z0 z1 l0 l1.

Definition no_parents (e : SupportElement) : bool :=
  match parents e with [] => true | _ => false end.

(** The position of a new sphere: the element's [result_on_layer] in
    unscaled [float] coordinates at the height of its layer. *)
Definition initial_position (e : SupportElement) : Vec3 F :=
  to_3d (mkVec2 (unscaled_float X (fst (result_on_layer (state e))))
                (unscaled_float X (snd (result_on_layer (state e)))))
        (to_float (layer_z X (layer_idx (state e)))).

(** The initialiser at line 339. The members it does not name are
    value-initialised: the two vectors stay indeterminate, the depth is
    zero, [min_z] and [max_z] take their default member initialisers. *)
Definition new_sphere (r : ElemRef) (e : SupportElement) (link_down : Z)
    : CollisionSphere :=
  mkSphere r link_down
    (no_parents e || ((link_down =? -1)%Z && (0 <? layer_idx (state e))%Z))
    (unscaled_float X (getRadius X (state e)))
    (initial_position e)
    indeterminate indeterminate fzero
    (fopp flt_max) flt_max 0 0.

(** The body of the loop at line 336: push the sphere, then take [min_z]
    from the sphere below or from the sphere's own height. *)
Definition push_sphere (linear_data_layers : list Z)
    (spheres : list CollisionSphere) (rl : ElemRef * Z) : M (list CollisionSphere) :=
  let (r, link_down) := rl in
  e <- deref r ;;
  let s := new_sphere r e link_down in
  if negb (link_down =? -1)%Z then
    offset_below <- defined (lookupZ linear_data_layers (layer_idx (state e) - 1)) ;;
    below <- defined (lookupZ (spheres ++ [s]) (offset_below + link_down)) ;;
    ret (spheres ++ [set_min_z (min_z below) s])
  else
    ret (spheres ++ [set_min_z (pz (position s)) s]).

(** The body of the loop at line 357, for the sphere at index [id]. *)
Definition propagate_max_z (linear_data_layers : list Z)
    (spheres : list CollisionSphere) (id : nat) : M (list CollisionSphere) :=
  s <- defined (nth_error spheres id) ;;
  e <- deref (element s) ;;
  if no_parents e then
    ret (update_nth id (set_max_z (pz (position s))) spheres)
  else
    offset_above <- defined (lookupZ linear_data_layers (layer_idx (state e) + 1)) ;;
    foldM
      (fun (sph : list CollisionSphere) (iparent : Z) =>
         parent <- defined (lookupZ sph (offset_above + iparent)) ;;
         ret (update_nth id (fun c => set_max_z (fmin (max_z c) (max_z parent)) c) sph))
      (parents e) spheres.

(** The body of the loop at line 373. [layer_begin] and [layer_end] are
    [uint32_t]. *)
Definition limit_span (num_layers : Z) (s : CollisionSphere) : M CollisionSphere :=
  e <- deref (element s) ;;
  let z0 := fmax (min_z s) (fsub32 (pz (position s)) (radius s)) in
  let z1 := fmin (max_z s) (fadd32 (pz (position s)) (radius s)) in
  let l0 := Z.min (layer_idx (state e)) (layer_idx_ceil X z0) in
  let l1 := Z.min num_layers
                  (Z.max (layer_idx (state e)) (layer_idx_floor X z1) + 1) in
  ret (set_span z0 z1 (wrap32 l0) (wrap32 l1) s).

(** ** One pass, lines 389 to 456 *)

Definition collision_extra_gap : F := lit 1 10.
Definition max_nudge_collision_avoidance : F := lit 5 10.
Definition max_nudge_smoothing : F := lit 2 10.
Definition smoothing_factor : F := lit 5 10.
Definition num_iter : nat := 100.

(** The layers of [for (layer_id = layer_begin; layer_id != layer_end;
    ++layer_id)] with a [uint32_t] counter. *)
Definition scanned_layers (s : CollisionSphere) : list Z :=
  map (fun k => wrap32 (layer_begin s + Z.of_nat k))
      (seq 0 (Z.to_nat (wrap32 (layer_end s - layer_begin s)))).

(** The body of that loop, lines 400 to 415. [layer_id - layer_idx] is
    computed in [unsigned]. The source tests [sqrt(d2) >= 0.] on the
    squared distance [d2] it gets back; that holds exactly when
    [d2 >= 0.] (the square root of a negative number is a NaN, which
    compares false), and the model tests [d2]. *)
Definition scan_layer (cache : list LayerCollisionCache) (e : SupportElement)
    (s : CollisionSphere) (layer_id : Z) : M CollisionSphere :=
  let dz := fmul (of_Z (wrap32 (layer_id - layer_idx (state e)))) (layer_height X) in
  let r2 := fsub (fmul32 (radius s) (radius s)) (sqr dz) in
  if fltb fzero r2 then
    item <- defined (lookupZ cache layer_id) ;;
    match lines item with
    | [] => ret s
    | _ =>
        let (d2, hit_point_out) :=
          squared_distance_to_indexed_lines X (lines item) (to_2d (position s)) r2 in
        if fleb fzero d2 then
          let dist := fsqrt d2 in
          let collision_depth := fsub (fsqrt r2) dist in
          if fltb (last_collision_depth s) collision_depth then
            ret (set_collision collision_depth
                   (to_3d (v2cast32 hit_point_out) (to_float (layer_z X layer_id))) s)
          else ret s
        else ret s
    end
  else ret s.

(** Lines 417 to 427: the nudge away from the deepest collision, and
    whether the sphere counts in [num_moved]. *)
Definition nudge_away (s : CollisionSphere) : CollisionSphere * bool :=
  if fltb fzero (last_collision_depth s) then
    let moved := fltb (EPSILON X) (last_collision_depth s) in
    let nudge_dist :=
      fmin (fmax fzero (fadd (last_collision_depth s) collision_extra_gap))
           max_nudge_collision_avoidance in
    let nudge_vector :=
      v2scale (normalized (v2sub32 (to_2d (position s)) (to_2d (last_collision s))))
              nudge_dist in
    (set_position
       (add_head2 (position s) (v2cast32 (v2scale nudge_vector nudge_dist))) s,
     moved)
  else (s, false).

(** [w * v] for a scalar [w]. *)
Definition v2lscale (w : F) (v : Vec2 F) : Vec2 F :=
  mkVec2 (fmul w (vx v)) (fmul w (vy v)).

(** Lines 433 to 437: the contribution of the parents to [avg] and
    [weight]. *)
Definition add_parents (spheres : list CollisionSphere) (offset_above : Z)
    (s : CollisionSphere) (ps : list Z) (acc : Vec2 F * F) : M (Vec2 F * F) :=
  foldM
    (fun (aw : Vec2 F * F) (iparent : Z) =>
       parent <- defined (lookupZ spheres (offset_above + iparent)) ;;
       let w := radius s in
       ret (v2add (fst aw) (v2lscale w (to_2d (prev_position parent))),
            fadd (snd aw) w))
    ps acc.

(** Lines 438 to 443: the contribution of the sphere below. *)
Definition add_below (linear_data_layers : list Z) (spheres : list CollisionSphere)
    (e : SupportElement) (s : CollisionSphere) (aw : Vec2 F * F) : M (Vec2 F * F) :=
  if negb (element_below_id s =? -1)%Z then
    offset_below <- defined (lookupZ linear_data_layers (layer_idx (state e) - 1)) ;;
    below <- defined (lookupZ spheres (offset_below + element_below_id s)) ;;
    let w := snd aw in
    ret (v2add (fst aw) (v2lscale w (to_2d (prev_position below))),
         fadd (snd aw) w)
  else ret aw.

(** Lines 444 to 452: from [avg] and [weight] to the new position. *)
Definition smooth_towards (aw : Vec2 F * F) (s : CollisionSphere) : CollisionSphere :=
  let avg := v2div (fst aw) (snd aw) in
  let old_pos := to_2d (position s) in
  let new_pos := v2add (v2lscale (fsub (of_Z 1) smoothing_factor) old_pos)
                       (v2lscale smoothing_factor avg) in
  let shift := v2sub new_pos old_pos in
  let nudge_dist_max := norm shift in
  let nudge_dist := fmin (fmax fzero nudge_dist_max) max_nudge_smoothing in
  set_position
    (add_head2 (position s) (v2cast32 (v2scale (normalized shift) nudge_dist))) s.

(** Lines 429 to 443: [avg] before the division, and [weight]. The
    reference [above] bound at line 430 is never read. *)
Definition laplacian_weights (linear_data_layers : list Z)
    (spheres : list CollisionSphere) (e : SupportElement) (s : CollisionSphere)
    : M (Vec2 F * F) :=
  offset_above <- defined (lookupZ linear_data_layers (layer_idx (state e) + 1)) ;;
  aw <- add_parents spheres offset_above s (parents e) (mkVec2 fzero fzero, fzero) ;;
  add_below linear_data_layers spheres e s aw.

(** Lines 428 to 452, Laplacian smoothing. *)
Definition laplacian_smoothing (linear_data_layers : list Z)
    (spheres : list CollisionSphere) (e : SupportElement) (s : CollisionSphere)
    : M CollisionSphere :=
  aw <- laplacian_weights linear_data_layers spheres e s ;;
  ret (smooth_towards aw s).

(** The body of the parallel loop for one sphere, with whether it was
    counted in [num_moved]. Of the other spheres it reads
    [prev_position] only, which no worker writes, so [spheres] is the
    vector as the serial loop at line 390 left it. *)
Definition update_sphere (cache : list LayerCollisionCache)
    (linear_data_layers : list Z) (spheres : list CollisionSphere)
    (s : CollisionSphere) : M (CollisionSphere * bool) :=
  if locked s then ret (s, false)
  else
    e <- deref (element s) ;;
    let s0 := set_collision (fopp dbl_max) (last_collision s) s in
    s1 <- foldM (scan_layer cache e) (scanned_layers s0) s0 ;;
    let (s2, moved) := nudge_away s1 in
    s3 <- laplacian_smoothing linear_data_layers spheres e s2 ;;
    _ <- throw_on_cancel ;;
    ret (s3, moved).

Definition backup_position (s : CollisionSphere) : CollisionSphere :=
  set_prev_position (position s) s.

(** One iteration of the loop at line 388: the spheres after the pass
    and [num_moved]. [tbb::parallel_for] is run in index order; an
    exception of a worker leaves the loop. *)
Definition solver_pass (cache : list LayerCollisionCache)
    (linear_data_layers : list Z) (spheres : list CollisionSphere)
    : M (list CollisionSphere * nat) :=
  let spheres1 := map backup_position spheres in
  rs <- mapM (update_sphere cache linear_data_layers spheres1) spheres1 ;;
  ret (map fst rs, length (filter snd rs)).

(** What the disabled [printf] at line 463 would report, pass by pass:
    [num_moved] and the spheres at the end of the pass. *)
Definition PassLog : Type := list (nat * list CollisionSphere).

(** The loop at line 388, [n] iterations left. *)
Fixpoint iterate (n : nat) (cache : list LayerCollisionCache)
    (linear_data_layers : list Z) (spheres : list CollisionSphere)
    : M (list CollisionSphere * PassLog) :=
  match n with
  | O => ret (spheres, [])
  | S n' =>
      r <- solver_pass cache linear_data_layers spheres ;;
      let (spheres', num_moved) := r in
      if (num_moved =? 0)%nat then ret (spheres', [(num_moved, spheres')])
      else
        rest <- iterate n' cache linear_data_layers spheres' ;;
        ret (fst rest, (num_moved, spheres') :: snd rest)
  end.

(** Lines 469 to 470, the write-back. *)
Definition write_back (elements_with_link_down : list (ElemRef * Z))
    (spheres : list CollisionSphere) : M unit :=
  foldM
    (fun (_ : unit) (i : nat) =>
       rl <- defined (nth_error elements_with_link_down i) ;;
       s <- defined (nth_error spheres i) ;;
       store_result_on_layer (fst rl)
         (scaled_coord X (px (position s)), scaled_coord X (py (position s))))
    (seq 0 (length spheres)) tt.

(** Lines 279 to 382: the cache and the spheres before the first pass. *)
Definition prepare_spheres (elements_with_link_down : list (ElemRef * Z))
    (linear_data_layers : list Z)
    : M (list LayerCollisionCache * list CollisionSphere) :=
  cache0 <- foldM cache_add_element elements_with_link_down [] ;;
  _ <- throw_on_cancel ;;
  cache <- mapM fill_layer_cache (combine (seq 0 (length cache0)) cache0) ;;
  sph0 <- foldM (push_sphere linear_data_layers) elements_with_link_down [] ;;
  sph1 <- foldM (propagate_max_z linear_data_layers) (rev (seq 0 (length sph0))) sph0 ;;
  sph2 <- mapM (limit_span (Z.of_nat (length cache))) sph1 ;;
  _ <- throw_on_cancel ;;
  ret (cache, sph2).

(** [organic_smooth_branches_avoid_collisions]; the log of the passes is
    returned for the statements about them. *)
Definition organic_smooth_branches_avoid_collisions
    (elements_with_link_down : list (ElemRef * Z)) (linear_data_layers : list Z)
    : M PassLog :=
  cs <- prepare_spheres elements_with_link_down linear_data_layers ;;
  r <- iterate num_iter (fst cs) linear_data_layers (snd cs) ;;
  _ <- write_back elements_with_link_down (fst r) ;;
  ret (snd r).

End Solver.


Arguments Done {Exn T} t.
Arguments Raised {Exn T} e.
Arguments Undefined {Exn T}.
Arguments Linef F : clear implicits.
Arguments Externals F Polygons : clear implicits.
Arguments Outcome Exn T : clear implicits.
Arguments M Exn T : clear implicits.
Arguments LayerCollisionCache F : clear implicits.
Arguments CollisionSphere F : clear implicits.
Arguments PassLog F : clear implicits.

(** ** Predicates used in the statements about the solver *)

Section SolverPredicates.
Context {Exn : Type}.
Variable probe : nat -> option Exn.

(** The probe calls between two worlds are accounted for by an outcome:
    no call threw, except the last one when the outcome is [Raised e],
    and that call threw [e]. *)
Definition accounted {T : Type} (w : World) (o : Outcome Exn T) (w' : World) : Prop :=
  match o with
  | Raised e =>
      exists k, probe_calls w' = S k /\ (probe_calls w <= k)%nat /\
                probe k = Some e /\
                forall j, (probe_calls w <= j < k)%nat -> probe j = None
  | _ =>
      (probe_calls w <= probe_calls w')%nat /\
      forall j, (probe_calls w <= j < probe_calls w')%nat -> probe j = None
  end.

Definition probe_sound {T : Type} (m : M Exn T) : Prop :=
  forall w, accounted w (fst (m w)) (snd (m w)).

(** The computation leaves [move_bounds] alone. *)
Definition heap_pure {T : Type} (m : M Exn T) : Prop :=
  forall w, heap (snd (m w)) = heap w.

Definition quiet {T : Type} (m : M Exn T) : Prop :=
  probe_sound m /\ heap_pure m.

(** When the computation throws, [move_bounds] is as it was. *)
Definition raised_heap {T : Type} (m : M Exn T) : Prop :=
  forall w e w', m w = (Raised e, w') -> heap w' = heap w.

(** The computation neither calls the probe nor throws. *)
Definition silent {T : Type} (m : M Exn T) : Prop :=
  forall w, probe_calls (snd (m w)) = probe_calls w /\
            forall e, fst (m w) <> Raised e.
End SolverPredicates.

Section SpherePredicates.
Context {F : Type} {A : Arith F} {Polygons : Type}.
Variable X : Externals F Polygons.

(** The locking rule of the initialiser at line 343. *)
Definition locked_rule (e : SupportElement) (link_down : Z) : bool :=
  no_parents e || ((link_down =? -1)%Z && (0 <? layer_idx (state e))%Z).

(** The sphere is the one built for the pair [(r, link_down)] of
    [elements_with_link_down], as far as the passes are concerned. *)
Definition built_for (mb : MoveBounds) (rl : ElemRef * Z) (s : CollisionSphere F)
    : Prop :=
  exists e,
    get_element mb (fst rl) = Some e /\
    element s = fst rl /\
    element_below_id s = snd rl /\
    locked s = locked_rule e (snd rl) /\
    radius s = unscaled_float X (getRadius X (state e)).

(** The scan for collisions writes [last_collision] and
    [last_collision_depth] only. *)
Definition same_body (s s' : CollisionSphere F) : Prop :=
  element s' = element s /\
  element_below_id s' = element_below_id s /\
  locked s' = locked s /\
  radius s' = radius s /\
  position s' = position s.

(** What a pass keeps of a sphere: who it is, and everything about it
    when it is locked. *)
Definition kept_by_pass (s s' : CollisionSphere F) : Prop :=
  element s' = element s /\
  element_below_id s' = element_below_id s /\
  locked s' = locked s /\
  radius s' = radius s /\
  (locked s = true ->
     position s' = position s /\
     last_collision_depth s' = last_collision_depth s).

(** The sphere as the initialiser left it, for the pair [(r, link_down)]
    of [elements_with_link_down]. *)
Definition freshly_built (mb : MoveBounds) (rl : ElemRef * Z) (s : CollisionSphere F)
    : Prop :=
  built_for mb rl s /\
  last_collision_depth s = fzero /\
  exists e, get_element mb (fst rl) = Some e /\ position s = initial_position X e.

(** Equal but for the search span ([min_z], [max_z], [layer_begin],
    [layer_end]) and the last hit point. *)
Definition same_core (s s' : CollisionSphere F) : Prop :=
  same_body s s' /\ last_collision_depth s' = last_collision_depth s.

(** "The sphere's [last_collision_depth] exceeds [EPSILON]." *)
Definition deeper_than_epsilon (s : CollisionSphere F) : bool :=
  fltb (EPSILON X) (last_collision_depth s).

(** A locked sphere still has the depth it was initialised with. *)
Definition locked_at_rest (s : CollisionSphere F) : Prop :=
  locked s = true -> last_collision_depth s = fzero.
End SpherePredicates.

(** ** Vocabulary of the statements about the steps of a pass *)

Section PassStages.
Context {F : Type} {A : Arith F} {Exn : Type} {Polygons : Type}.
Variable X : Externals F Polygons.

(** [s1] is the sphere [s] as the search for its deepest collision,
    lines 394 to 416, leaves it: the search starts from a depth of
    [-max] and goes through the layers of the sphere. *)
Definition scanned (cache : list (LayerCollisionCache F)) (e : SupportElement)
    (s s1 : CollisionSphere F) : Prop :=
  exists w1 w2 : World,
    (foldM (scan_layer X cache e)
           (scanned_layers (set_collision (fopp dbl_max) (last_collision s) s))
           (set_collision (fopp dbl_max) (last_collision s) s) : M Exn _) w1
    = (Done s1, w2).

(** [s'] is the sphere [s] as the smoothing of lines 428 to 452 leaves
    it, [spheres] being the spheres with the positions of before the
    pass. *)
Definition smoothed (linear_data_layers : list Z)
    (spheres : list (CollisionSphere F)) (e : SupportElement)
    (s s' : CollisionSphere F) : Prop :=
  exists w1 w2 : World,
    (laplacian_smoothing linear_data_layers spheres e s : M Exn _) w1
    = (Done s', w2).

(** The collision step as the claim words it, for the sphere [s] of a
    pass over [spheres] on the forest [mb], and [s'] the sphere at the
    end of the pass. The search leaves the sphere where it is and comes
    back with [last_collision] and [last_collision_depth]; when the
    depth is positive, [nudge_dist] is the depth plus 0.1 between 0 and
    0.5, and the position moves in XY by the normalised vector from
    [last_collision] to the position, times [nudge_dist], times
    [nudge_dist] again, rounded to float; otherwise the sphere stays.
    The smoothing goes on from there. *)
Definition nudged_in_pass (cache : list (LayerCollisionCache F))
    (linear_data_layers : list Z) (spheres : list (CollisionSphere F))
    (mb : MoveBounds) (s s' : CollisionSphere F) : Prop :=
  locked s = false ->
  exists e s1 nudged,
    get_element mb (element s) = Some e /\
    scanned cache e (set_prev_position (position s) s) s1 /\
    position s1 = position s /\
    (let depth := last_collision_depth s1 in
     let nudge_dist := fmin (fmax fzero (fadd depth (lit 1 10))) (lit 5 10) in
     let away := v2sub32 (to_2d (position s)) (to_2d (last_collision s1)) in
     nudged =
       if fltb fzero depth
       then set_position
              (add_head2 (position s)
                 (v2cast32 (v2scale (v2scale (normalized away) nudge_dist) nudge_dist)))
              s1
       else s1) /\
    smoothed linear_data_layers (map (fun c => set_prev_position (position c) c) spheres)
             e nudged s'.

(** The sum of the loop over the parents, lines 433 to 437: [avg]
    before the division, and [weight]. Every parent enters with the
    radius [r] of the sphere and its position of before the pass. *)
Definition sum_over_parents (r : F) (Ps : list (CollisionSphere F)) : Vec2 F * F :=
  fold_left
    (fun aw P => (v2add (fst aw) (v2lscale r (to_2d (position P))),
                  fadd (snd aw) r))
    Ps (mkVec2 fzero fzero, fzero).

(** Lines 438 to 443: the sphere below enters with the weight
    accumulated over the parents. *)
Definition sum_with_below (above : Vec2 F * F) (below : option (CollisionSphere F))
    : Vec2 F * F :=
  match below with
  | Some c =>
      (v2add (fst above) (v2lscale (snd above) (to_2d (position c))),
       fadd (snd above) (snd above))
  | None => above
  end.

(** The smoothing step as the claim words it, for the sphere [s] of a
    pass over [spheres] on the forest [mb], and [s'] the sphere at the
    end of the pass: [current] is the sphere after the collision step;
    [Ps] are the spheres of the parents and [below] the sphere of the
    link down, when there is one, all with their positions of before
    the pass; the position moves in XY from where it is, along the
    normalised shift towards [(1 - 0.5) position + 0.5 avg], by
    [min(max(0, |shift|), 0.2)], rounded to float. *)
Definition smoothed_in_pass (cache : list (LayerCollisionCache F))
    (linear_data_layers : list Z) (spheres : list (CollisionSphere F))
    (mb : MoveBounds) (s s' : CollisionSphere F) : Prop :=
  locked s = false ->
  exists e s1 offset_above Ps below,
    get_element mb (element s) = Some e /\
    scanned cache e (set_prev_position (position s) s) s1 /\
    lookupZ linear_data_layers (layer_idx (state e) + 1) = Some offset_above /\
    Forall2 (fun ip P => lookupZ spheres (offset_above + ip) = Some P)
            (parents e) Ps /\
    (if (element_below_id s =? -1)%Z then below = None
     else exists offset_below c,
            lookupZ linear_data_layers (layer_idx (state e) - 1) = Some offset_below /\
            lookupZ spheres (offset_below + element_below_id s) = Some c /\
            below = Some c) /\
    let current := fst (nudge_away X s1) in
    let sum := sum_with_below (sum_over_parents (radius s) Ps) below in
    let avg := v2div (fst sum) (snd sum) in
    let p := to_2d (position current) in
    let target := v2add (v2lscale (fsub (of_Z 1) (lit 5 10)) p)
                        (v2lscale (lit 5 10) avg) in
    let shift := v2sub target p in
    let step := fmin (fmax fzero (norm shift)) (lit 2 10) in
    s' = set_position
           (add_head2 (position current)
                      (v2cast32 (v2scale (normalized shift) step)))
           current.

(** The spheres that pass [i] of the loop at line 388 starts from:
    those the loop was entered with, or those that pass [i - 1] has
    left. *)
Definition spheres_before_pass (spheres : list (CollisionSphere F))
    (log : list (nat * list (CollisionSphere F))) (i : nat)
    : list (CollisionSphere F) :=
  match i with
  | O => spheres
  | S j => nth j (map snd log) spheres
  end.
End PassStages.

(** ** Vocabulary of the statements in real arithmetic *)

(** The sum of a list of vectors. *)
Definition vsum (l : list (Vec2 R)) : Vec2 R :=
  fold_right v2add (mkVec2 0%R 0%R) l.

(** What the parents contribute to [avg]: the sphere's own radius times
    the previous position of each parent. *)
Definition parents_sum (r : R) (ps : list (CollisionSphere R)) : Vec2 R :=
  vsum (map (fun p => v2lscale r (to_2d (prev_position p))) ps).

(** The weight accumulated over the parents. *)
Definition parents_weight (r : R) (ps : list (CollisionSphere R)) : R :=
  (INR (length ps) * r)%R.

(** [avg] before the division and [weight], with the sphere below when
    there is one: it enters with the weight accumulated so far. *)
Definition weighted_sum (r : R) (ps : list (CollisionSphere R))
    (below : option (CollisionSphere R)) : Vec2 R * R :=
  match below with
  | Some c =>
      (v2add (parents_sum r ps)
             (v2lscale (parents_weight r ps) (to_2d (prev_position c))),
       (parents_weight r ps + parents_weight r ps)%R)
  | None => (parents_sum r ps, parents_weight r ps)
  end.

(** ** An example in real arithmetic

    One sphere with one parent above and one sphere below, with
    stand-ins for the externals. *)
Module RealExample.

Definition externals : Externals R unit :=
  mkExternals
    (fun _ => 1000000%Z)
    (fun l => (IZR (l + 1) * (2 / 10))%R)
    (fun z => (up (z / (2 / 10)) - 1)%Z)
    (fun z => (up (z / (2 / 10)) - 2)%Z)
    (2 / 10)%R
    (fun c => (IZR c / 1000000)%R)
    (fun c => (IZR c / 1000000)%R)
    (fun x => (up (x * 1000000) - 1)%Z)
    (2 ^ 31 - 1)%Z
    (1 / 10000)%R
    (fun _ _ => Some (0%Z, tt))
    (fun _ => [])
    (fun _ p _ => ((-1)%R, p)).

Definition element_at (l : Z) (ps : list Z) : SupportElement :=
  mkElement (mkState l (0, 0)%Z false false false false) ps.

Definition move_bounds : MoveBounds :=
  [ [ element_at 0 [0%Z] ]; [ element_at 1 [0%Z] ]; [ element_at 2 [] ] ].

Definition linear_data_layers : list Z := [0; 1; 2; 3]%Z.

Definition sphere_at (l : Z) (below : Z) (lock : bool) (x y : R) : CollisionSphere R :=
  mkSphere (l, 0)%Z below lock 1%R
    (mkVec3 x y (IZR (l + 1) * (2 / 10)))%R
    (mkVec3 x y (IZR (l + 1) * (2 / 10)))%R
    (mkVec3 0 0 0)%R 0%R (-1)%R 1%R 0%Z 3%Z.

(** The spheres of the three elements, after the backup of positions. *)
Definition spheres : list (CollisionSphere R) :=
  [ sphere_at 0 (-1) false 0 0; sphere_at 1 0 false 1 0; sphere_at 2 0 true 0 2 ]%R.

Definition middle : CollisionSphere R := sphere_at 1 0 false 1 0.

Definition world0 : World := mkWorld move_bounds 0.

Definition value_or {T : Type} (d : T) (o : Outcome nat T) : T :=
  match o with Done t => t | _ => d end.

(** The Laplacian step on the middle sphere. *)
Definition weights : Outcome nat (Vec2 R * R) * World :=
  laplacian_weights linear_data_layers spheres (element_at 1 [0%Z]) middle world0.

End RealExample.

(** ** A scenario that runs: a chain of three elements beside a wall

    Elements at layers 0, 1 and 2, all at the origin, radius 1 mm, layer
    height 0.2 mm; the object outline at layer 1 is the segment from
    (-2, 0.2) to (2, 0.2). The tip (layer 2) is locked, the two elements
    below it are not. The externals are stand-ins written for this
    scenario, in binary64 arithmetic. *)
Module Scenario.

Definition FP : Type := PrimFloat.float.

(** The integer nearest to a float (ties and non-finite values are of no
    concern here). *)
Definition float_to_Z (x : FP) : Z :=
  match FloatOps.Prim2SF x with
  | SpecFloat.S754_finite s m e =>
      let n := (if (0 <=? e)%Z then Zpos m * 2 ^ e
                else (2 * Zpos m + 2 ^ (- e)) / (2 * 2 ^ (- e)))%Z in
      if s then (- n)%Z else n
  | _ => 0%Z
  end.

Definition scale_factor : FP := lit 1 1000000.

Definition layer_z (l : Z) : FP := fmul (of_Z (l + 1)) (lit 2 10).

Definition layers_below (z : FP) : Z :=
  Z.of_nat (length (filter (fun l => fltb (layer_z (Z.of_nat l)) z) (seq 0 16))).

Definition layers_up_to (z : FP) : Z :=
  Z.of_nat (length (filter (fun l => fleb (layer_z (Z.of_nat l)) z) (seq 0 16))).

(** The closest point of a segment, and its squared distance to [p]. *)
Definition closest_on_segment (p : Vec2 FP) (ab : Linef FP) : FP * Vec2 FP :=
  let (a, b) := ab in
  let v := v2sub b a in
  let l2 := squaredNorm v in
  let t0 := fdiv (fadd (fmul (vx (v2sub p a)) (vx v)) (fmul (vy (v2sub p a)) (vy v))) l2 in
  let t := fmin (fmax fzero t0) (of_Z 1) in
  let c := if fltb fzero l2 then v2add a (v2scale v t) else a in
  (squaredNorm (v2sub p c), c).

Definition nearest (ls : list (Linef FP)) (p : Vec2 FP) (max_sqr_dist : FP)
    : FP * Vec2 FP :=
  fold_left
    (fun best ab =>
       let cand := closest_on_segment p ab in
       if fltb (fst cand) max_sqr_dist
       then (if fleb fzero (fst best)
             then (if fltb (fst cand) (fst best) then cand else best)
             else cand)
       else best)
    ls (of_Z (-1), p).

Definition wall (l : Z) : list ((Z * Z) * (Z * Z)) :=
  if (l =? 1)%Z then [((-2000000, 200000), (2000000, 200000))%Z] else [].

Definition externals : Externals FP (list ((Z * Z) * (Z * Z))) :=
  mkExternals
    (fun _ => 1000000%Z)
    layer_z
    layers_below
    (fun z => (layers_up_to z - 1)%Z)
    (lit 2 10)
    (fun c => to_float (fmul (of_Z c) scale_factor))
    (fun c => fmul (of_Z c) scale_factor)
    (fun x => float_to_Z (fdiv x scale_factor))
    (2 ^ 31 - 1)%Z
    (lit 1 10000)
    (fun l _ => Some (0%Z, wall l))
    (fun polygons => polygons)
    nearest.

Definition element_at (l : Z) (ps : list Z) : SupportElement :=
  mkElement (mkState l (0, 0)%Z false false false false) ps.

Definition move_bounds : MoveBounds :=
  [ [ element_at 0 [0%Z] ]; [ element_at 1 [0%Z] ]; [ element_at 2 [] ] ].

Definition elements_with_link_down : list (ElemRef * Z) :=
  [ ((0, 0), -1); ((1, 0), 0); ((2, 0), 0) ]%Z.

Definition linear_data_layers : list Z := [0; 1; 2; 3]%Z.

Definition origin3 : Vec3 FP := mkVec3 fzero fzero fzero.

(** A probe that never throws, and one that throws [7] at its [k]-th
    call. *)
Definition never : nat -> option nat := fun _ => None.
Definition throws_at (k : nat) : nat -> option nat :=
  fun i => if (i =? k)%nat then Some 7%nat else None.

Definition world0 : World := mkWorld move_bounds 0.

Definition run (probe : nat -> option nat) : Outcome nat (PassLog FP) * World :=
  organic_smooth_branches_avoid_collisions externals probe origin3
    elements_with_link_down linear_data_layers world0.

(** The value of a computation that ended normally. *)
Definition value_or {T : Type} (d : T) (o : Outcome nat T) : T :=
  match o with Done t => t | _ => d end.

(** The log of the run that is never cancelled. *)
Definition log : PassLog FP := value_or [] (fst (run never)).

(** The same run in its two stages: the spheres before the first pass,
    and the spheres after the last. *)
Definition prepared
    : Outcome nat (list (LayerCollisionCache FP) * list (CollisionSphere FP)) * World :=
  prepare_spheres externals never origin3 elements_with_link_down
    linear_data_layers world0.

Definition cache : list (LayerCollisionCache FP) :=
  fst (value_or ([], []) (fst prepared)).

Definition spheres : list (CollisionSphere FP) :=
  snd (value_or ([], []) (fst prepared)).

Definition iterated : Outcome nat (list (CollisionSphere FP) * PassLog FP) * World :=
  iterate externals never num_iter cache linear_data_layers spheres (snd prepared).

Definition final_spheres : list (CollisionSphere FP) :=
  fst (value_or ([], []) (fst iterated)).

End Scenario.

(** ** The first pass of the scenario *)
Module FirstPass.

(** What the log of the run holds for its first pass. *)
Definition entry : nat * list (CollisionSphere Scenario.FP) :=
  hd (O, []) Scenario.log.

End FirstPass.

(** ** The claim about the collision step, as the specification words it

    In exact arithmetic: the XY position [p] goes to [p'], a shift along
    a unit vector by the square of the clamped distance. *)
Definition shifted_by_squared_nudge (p p' : Vec2 R) (depth : R) : Prop :=
  exists u : Vec2 R,
    squaredNorm u = 1%R /\
    p' = v2add p (v2scale u (Rmin (Rmax 0 (depth + 1 / 10)) (1 / 2)
                             * Rmin (Rmax 0 (depth + 1 / 10)) (1 / 2))%R).

(** The claim for the sphere [s1] that the search for collisions has
    left with a positive depth. *)
Definition collision_step_as_claimed {Polygons : Type} (X : Externals R Polygons)
    (s1 : CollisionSphere R) : Prop :=
  (0 < last_collision_depth s1)%R ->
  shifted_by_squared_nudge (to_2d (position s1))
                           (to_2d (position (fst (nudge_away X s1))))
                           (last_collision_depth s1).

(** ** A sphere whose centre lies on the outline

    In exact arithmetic: a sphere of radius 1 at (1/2, 0) on layer 1,
    where the outline is the segment from (0, 0) to (1, 0). The distance
    query answers what it has to: the distance 0 and the centre itself
    as the point hit. *)
Module Touching.

Definition externals : Externals R unit :=
  mkExternals
    (fun _ => 1000000%Z)
    (fun l => (IZR (l + 1) * (2 / 10))%R)
    (fun z => (up (z / (2 / 10)) - 1)%Z)
    (fun z => (up (z / (2 / 10)) - 2)%Z)
    (2 / 10)%R
    (fun c => (IZR c / 1000000)%R)
    (fun c => (IZR c / 1000000)%R)
    (fun x => (up (x * 1000000) - 1)%Z)
    (2 ^ 31 - 1)%Z
    (1 / 10000)%R
    (fun _ _ => Some (0%Z, tt))
    (fun _ => [])
    (fun _ p _ => (0%R, p)).

Definition cache : list (LayerCollisionCache R) :=
  [ mkLayerCache 0 0 [];
    mkLayerCache 0 0 [ (mkVec2 0%R 0%R, mkVec2 1%R 0%R) ] ].

Definition element : SupportElement :=
  mkElement (mkState 1 (500000, 0)%Z false false false false) [0%Z].

Definition centre : Vec3 R := mkVec3 (1 / 2)%R 0%R (4 / 10)%R.

Definition sphere : CollisionSphere R :=
  mkSphere (1, 0)%Z 0%Z false 1%R centre centre (mkVec3 0 0 0)%R 0%R
           (-1)%R 1%R 1%Z 2%Z.

(** The sphere as the search leaves it: hit at its centre, 1 deep. *)
Definition hit : CollisionSphere R :=
  mkSphere (1, 0)%Z 0%Z false 1%R centre centre centre 1%R
           (-1)%R 1%R 1%Z 2%Z.

End Touching.

(* ===================================================================== *)
(** * Branch extraction: [TreeVisitor::visit_recursive] *)
(* ===================================================================== *)

(** [struct Branch]: the path holds pointers to elements. *)
Record Branch : Type := mkBranch {
  path     : list ElemRef;
  has_root : bool;
  has_tip  : bool
}.

(** [struct Tree]; its [slices] and [first_layer_id] are filled by the
    slicer and stay empty during extraction. *)
Record Tree : Type := mkTree {
  branches : list Branch
}.

Definition empty_tree : Tree := mkTree [].

(** The result of a traversal step. [None] stands for a run the model does
    not follow: an index out of range (undefined behaviour in the source)
    or the fuel of the model used up. The assertions of the source are
    compiled out of a release build and are not modelled. *)
Definition Visit (A : Type) : Type := option A.

(** The loop [for (SupportElement *parent = &first_parent;;)]: walk up a
    chain of single parents, marking and collecting, until a bifurcation
    (returned as [Some next_branch]) or a tip ([None]). *)
Fixpoint walk_single_parents (fuel : nat) (mb : MoveBounds) (parent : ElemRef)
    (pth : list ElemRef) : Visit (MoveBounds * list ElemRef * option ElemRef) :=
  match fuel with
  | O => None
  | S fuel' =>
      match get_element mb parent with
      | None => None
      | Some p =>
          match parents p with
          | [] => None (* parents.front() of an empty vector *)
          | front :: _ =>
              let next_ref : ElemRef := ((layer_idx (state p) + 1)%Z, front) in
              match get_element mb next_ref with
              | None => None
              | Some next_parent =>
                  let pth' := pth ++ [next_ref] in
                  if (1 <? length (parents next_parent))%nat then
                    Some (mb, pth', Some next_ref)
                  else
                    let mb' := update_element mb next_ref (set_marked true) in
                    if (length (parents next_parent) =? 0)%nat then
                      Some (mb', pth', None)
                    else
                      walk_single_parents fuel' mb' next_ref pth'
              end
          end
      end
  end.

(** One branch, from [start] through its parent [parent_idx]:
    lines 683 to 717. *)
Definition trace_branch (fuel : nat) (mb : MoveBounds) (start : ElemRef)
    (layer_above : Z) (root : bool) (parent_idx : Z)
    : Visit (MoveBounds * Branch * option ElemRef) :=
  let first_ref : ElemRef := (layer_above, parent_idx) in
  match get_element mb first_ref with
  | None => None
  | Some first_parent =>
      let pth := [start; first_ref] in
      let n := length (parents first_parent) in
      let mb1 := if (n <? 2)%nat
                 then update_element mb first_ref (set_marked true) else mb in
      let walked :=
        if (n =? 1)%nat then walk_single_parents fuel mb1 first_ref pth
        else if (1 <? n)%nat then Some (mb1, pth, Some first_ref)
        else Some (mb1, pth, None) in
      match walked with
      | None => None
      | Some (mb2, pth', next_branch) =>
          let has_tip := match next_branch with None => true | Some _ => false end in
          Some (mb2, mkBranch pth' root has_tip, next_branch)
      end
  end.

(** The loop over [start_element.parents], with the recursive call passed
    in as [recurse]. *)
Fixpoint visit_parents
    (recurse : MoveBounds -> ElemRef -> Tree -> Visit (MoveBounds * Tree))
    (fuel : nat) (start : ElemRef) (layer_above : Z) (root : bool)
    (ps : list Z) (mb : MoveBounds) (out : Tree) : Visit (MoveBounds * Tree) :=
  match ps with
  | [] => Some (mb, out)
  | p :: rest =>
      match trace_branch fuel mb start layer_above root p with
      | None => None
      | Some (mb1, branch, next_branch) =>
          let out1 := mkTree (branches out ++ [branch]) in
          let after :=
            match next_branch with
            | Some nb => recurse mb1 nb out1
            | None => Some (mb1, out1)
            end in
          match after with
          | None => None
          | Some (mb2, out2) =>
              visit_parents recurse fuel start layer_above root rest mb2 out2
          end
      end
  end.

(** [visit_recursive(move_bounds, start_element, out)]. [root] is read
    once, before the loop over the parents. *)
Fixpoint visit_recursive (fuel : nat) (mb : MoveBounds) (start : ElemRef)
    (out : Tree) : Visit (MoveBounds * Tree) :=
  match fuel with
  | O => None
  | S fuel' =>
      match get_element mb start with
      | None => None
      | Some start_element =>
          let mb1 := update_element mb start (set_marked true) in
          let layer_above := (layer_idx (state start_element) + 1)%Z in
          let root := match branches out with [] => true | _ => false end in
          visit_parents (visit_recursive fuel') fuel' start layer_above root
            (parents start_element) mb1 out
      end
  end.

(** "Unmark all nodes." *)
Definition unmark_all (mb : MoveBounds) : MoveBounds :=
  map (map (set_marked false)) mb.

(** The body of the loop over the start elements, lines 728 to 752: a new
    tree is pushed, filled by [visit_recursive], and popped again unless
    the start element is [lost] or [verylost]. *)
Definition visit_start (fuel : nat) (st : MoveBounds * list Tree) (start : ElemRef)
    : Visit (MoveBounds * list Tree) :=
  let (mb, trees) := st in
  match get_element mb start with
  | None => None
  | Some start_element =>
      if negb (marked (state start_element))
         && negb (match parents start_element with [] => true | _ => false end)
      then
        match visit_recursive fuel mb start empty_tree with
        | None => None
        | Some (mb', tree) =>
            let pushed := trees ++ [tree] in
            match get_element mb' start with
            | None => None
            | Some e' =>
                if lost (state e') then Some (mb', pushed)
                else if verylost (state e') then Some (mb', pushed)
                else Some (mb', removelast pushed)
            end
        end
      else Some (mb, trees)
  end.

Fixpoint visit_all (fuel : nat) (st : MoveBounds * list Tree) (starts : list ElemRef)
    : Visit (MoveBounds * list Tree) :=
  match starts with
  | [] => Some st
  | r :: rest =>
      match visit_start fuel st r with
      | None => None
      | Some st' => visit_all fuel st' rest
      end
  end.

(** The start elements in the order of the two nested loops:
    [layer_idx + 1 < move_bounds.size()], every element of the layer. *)
Definition start_refs (mb : MoveBounds) : list ElemRef :=
  flat_map
    (fun l => map (fun i => (Z.of_nat l, Z.of_nat i))
                  (seq 0 (length (nth l mb []))))
    (seq 0 (length mb - 1)).

(** Lines 645 to 755 of [organic_draw_branches]: the trees handed to the
    mesher and the slicer. *)
Definition extract_trees (fuel : nat) (mb : MoveBounds) : Visit (MoveBounds * list Tree) :=
  let mb0 := unmark_all mb in
  visit_all fuel (mb0, []) (start_refs mb0).

(** ** Scenario S3: a bifurcation at the root *)

Definition tip_state (l : Z) : SupportElementState :=
  mkState l (0, 0)%Z false false false false.

Definition s3_move_bounds : MoveBounds :=
  [ [ mkElement (mkState 0 (0, 0)%Z false true false false) [0; 1]%Z ];
    [ mkElement (tip_state 1) []; mkElement (tip_state 1) [] ] ].

(** ** A forest of two roots

    Two chains of two elements side by side; the root of the first is
    [lost], the root of the second is not. *)
Definition two_roots_first : SupportElement :=
  mkElement (mkState 0 (0, 0)%Z false true false false) [0%Z].

Definition two_roots_second : SupportElement :=
  mkElement (mkState 0 (0, 0)%Z false false false false) [1%Z].

Definition two_roots_move_bounds : MoveBounds :=
  [ [ two_roots_first; two_roots_second ];
    [ mkElement (tip_state 1) []; mkElement (tip_state 1) [] ] ].

(** The forest and the trees after the loop has been through the first
    root, and the forest after it has been through both. *)
Definition two_roots_marks_after_first : MoveBounds :=
  match visit_all 2 (two_roots_move_bounds, []) [(0, 0)%Z] with
  | Some st => fst st
  | None => []
  end.

Definition two_roots_trees_after_first : list Tree :=
  match visit_all 2 (two_roots_move_bounds, []) [(0, 0)%Z] with
  | Some st => snd st
  | None => []
  end.

Definition two_roots_marks_after_second : MoveBounds :=
  match visit_all 2 (two_roots_move_bounds, []) [(0, 0)%Z; (0, 1)%Z] with
  | Some st => fst st
  | None => []
  end.


(* ===================================================================== *)
(** * Predicates used in the statements about extraction *)
(* ===================================================================== *)

(** Two elements that differ at most in [marked]. *)
Definition same_but_marked (e e' : SupportElement) : Prop :=
  parents e' = parents e /\
  layer_idx (state e') = layer_idx (state e) /\
  result_on_layer (state e') = result_on_layer (state e) /\
  to_model_gracious (state e') = to_model_gracious (state e) /\
  lost (state e') = lost (state e) /\
  verylost (state e') = verylost (state e).

Definition marks_only (mb mb' : MoveBounds) : Prop :=
  forall r,
    match get_element mb r, get_element mb' r with
    | Some e, Some e' => same_but_marked e e'
    | None, None => True
    | _, _ => False
    end.

(** What one call adds to [out.branches]: [n] branches flagged
    [has_root] when [root] holds and none otherwise, each of them
    starting at [start], the first added branch carrying [root]. *)
Definition added_branches (start : ElemRef) (root : bool) (n : nat)
    (new : list Branch) : Prop :=
  length (filter has_root new) = (if root then n else O) /\
  Forall (fun b => has_root b = true -> hd_error (path b) = Some start) new /\
  (n <> O -> exists b rest, new = b :: rest /\ has_root b = root).

(** The callee of [visit_parents] is entered with a non-empty [out] and
    then adds no rooted branch. *)
Definition adds_no_root
    (recurse : MoveBounds -> ElemRef -> Tree -> Visit (MoveBounds * Tree)) : Prop :=
  forall mb s out mb' out',
    recurse mb s out = Some (mb', out') ->
    branches out <> [] ->
    exists new, branches out' = branches out ++ new /\ filter has_root new = [].

(** The reading of the specification: within a tree, the first recorded
    branch, and no other, carries [has_root]. *)
Definition only_first_branch_has_root (t : Tree) : Prop :=
  forall i b, nth_error (branches t) i = Some b -> has_root b = (i =? 0)%nat.

(** Every element sits in the layer its [layer_idx] names. *)
Definition layers_consistent (mb : MoveBounds) : Prop :=
  forall r e, get_element mb r = Some e -> layer_idx (state e) = fst r.

(** Every branch of [new] starts in layer [l] or above. *)
Definition heads_from (l : Z) (new : list Branch) : Prop :=
  Forall (fun b => exists r, hd_error (path b) = Some r /\ (l <= fst r)%Z) new.


(** A forest of [n] layers in which every element sits in the layer its
    [layer_idx] names and every parent index names an element of the
    layer above. *)
Definition well_formed (n : Z) (mb : MoveBounds) : Prop :=
  layers_consistent mb /\
  (forall r e, get_element mb r = Some e -> (0 <= fst r < n)%Z) /\
  (forall r e p,
      get_element mb r = Some e -> In p (parents e) ->
      exists e', get_element mb ((fst r + 1)%Z, p) = Some e').

(** [layers_consistent] as a check that runs. *)
Definition check_layers (mb : MoveBounds) : bool :=
  forallb
    (fun li => forallb (fun e => (layer_idx (state e) =? Z.of_nat (fst li))%Z) (snd li))
    (combine (seq 0 (length mb)) mb).

(** Every parent index of every element names an element of the layer
    above, as a check that runs. *)
Definition check_parents (mb : MoveBounds) : bool :=
  forallb
    (fun li =>
       forallb
         (fun e =>
            forallb
              (fun p => (0 <=? p)%Z
                        && (p <? Z.of_nat (length (nth (S (fst li)) mb [])))%Z)
              (parents e))
         (snd li))
    (combine (seq 0 (length mb)) mb).

(** [well_formed] as a check that runs. *)
Definition check_well_formed (n : Z) (mb : MoveBounds) : bool :=
  check_layers mb && (Z.of_nat (length mb) <=? n)%Z && check_parents mb.

(** What scenario S3 produces: the marked forest and its single tree. *)
Definition s3_marked : MoveBounds :=
  [ [ mkElement (mkState 0 (0, 0)%Z false true false true) [0; 1]%Z ];
    [ mkElement (mkState 1 (0, 0)%Z false false false true) [];
      mkElement (mkState 1 (0, 0)%Z false false false true) [] ] ].

Definition s3_tree : Tree :=
  mkTree [ mkBranch [(0, 0); (1, 0)]%Z true true;
           mkBranch [(0, 0); (1, 1)]%Z true true ].

(* ===================================================================== *)
(** * The slicer: the root of a branch, lines 795 to 855 *)
(* ===================================================================== *)

Section Slicer.
Context {F : Type} {A : Arith F}.

(** [Polygon] of libslic3r; [Polygons] is a [std::vector<Polygon>]. *)
Context {Polygon : Type}.
Local Abbreviation Polygons := (list Polygon).

(** What this part of [organic_draw_branches] reads of [config] and
    [volumes], and the polygon operations it calls; all of them are
    declared outside this file. *)
Record SlicerExternals : Type := mkSlicerExternals {
  (** [getRadius(config, state)], a [coord_t]. *)
  radius_of : SupportElementState -> Z;
  (** [config.layer_height] and [config.branch_radius], both [coord_t]. *)
  config_layer_height : Z;
  config_branch_radius : Z;
  (** [config.settings.support_floor_layers]. *)
  support_floor_layers : Z;
  (** [volumes.getCollision(radius, layer_idx, min_xy_dist)]. *)
  getCollision : Z -> Z -> bool -> Polygons;
  (** [volumes.getPlaceableAreas(radius, layer_idx, throw_on_cancel)]. *)
  getPlaceableAreas : Z -> Z -> Polygons;
  diff_clipped : Polygons -> Polygons -> Polygons;
  intersection_clipped : Polygons -> Polygons -> Polygons;
  (** [area(polygons)], a [double]. *)
  area : Polygons -> F
}.

Variable V : SlicerExternals.

(** [struct BottomExtraSlice]. *)
Record BottomExtraSlice : Type := mkBottomExtraSlice {
  polygons   : Polygons;
  slice_area : F
}.

Definition is_empty (p : Polygons) : bool :=
  match p with [] => true | _ => false end.

(** [layers_propagate_max = 5 * bottom_radius / config.layer_height], in
    [coord_t] arithmetic (the division truncates; it is not modelled for
    a zero layer height or an overflowing product). *)
Definition layers_propagate_max (bottom_radius : Z) : Z :=
  Z.quot (5 * bottom_radius) (config_layer_height V).

(** [layer_bottommost], line 812. *)
Definition layer_bottommost (is_verylost : bool) (layer_begin bottom_radius : Z) : Z :=
  if is_verylost then 0%Z
  else Z.max 0 (layer_begin - layers_propagate_max bottom_radius).

(** [support_area_stop], lines 817 and 818. *)
Definition support_area_min_radius : F :=
  fmul m_pi (sqr (of_Z (config_branch_radius V))).

Definition support_area_stop (bottom_radius : Z) : F :=
  fmax (fmul (fmul (lit 2 10) m_pi) (sqr (of_Z bottom_radius)))
       (fmul (lit 5 10) support_area_min_radius).

(** The layers [from, from - 1, ..., down_to] of a loop
    [for (l = from; l >= down_to; --l)]. *)
Definition layers_down (from down_to : Z) : list Z :=
  map (fun k => (from - Z.of_nat k)%Z) (seq 0 (Z.to_nat (from - down_to + 1))).

(** The loop at line 821 over the layers still to visit. Its state is
    [rest_support] and [bottom_extra_slices]; [break] ends it. *)
Fixpoint propagate_down (front : Polygons) (stop : F) (layers : list Z)
    (rest_support : Polygons) (bottom_extra_slices : list BottomExtraSlice)
    : list BottomExtraSlice :=
  match layers with
  | [] => bottom_extra_slices
  | layer_idx :: below =>
      let rest :=
        diff_clipped V (if is_empty rest_support then front else rest_support)
                     (getCollision V 0 layer_idx false) in
      let rest_support_area := area V rest in
      if fltb rest_support_area stop then bottom_extra_slices
      else propagate_down front stop below rest
             (bottom_extra_slices ++ [mkBottomExtraSlice rest rest_support_area])
  end.

(** Lines 806 to 828: the slices that continue a root downwards. *)
Definition bottom_extra_slices_of (first : SupportElementState) (front : Polygons)
    (layer_begin : Z) : list BottomExtraSlice :=
  let bottom_radius := radius_of V first in
  propagate_down front (support_area_stop bottom_radius)
    (layers_down (layer_begin - 1)
                 (layer_bottommost (verylost first) layer_begin bottom_radius))
    [] [].

(** The indices [size - 2, ..., 0] of the loop at line 846. *)
Definition contact_indices (size : nat) : list nat := rev (seq 0 (size - 1)).

(** Lines 795 to 855, entered when the front slice is not empty: the
    bottom contacts, the new [layer_begin] and the new slices. *)
Definition root_extension (has_root_flag : bool) (first : SupportElementState)
    (slices : list Polygons) (layer_begin : Z)
    : list Polygons * Z * list Polygons :=
  let front := hd [] slices in
  if has_root_flag then
    if to_model_gracious first then
      if (0 <? support_floor_layers V)%Z then
        ([intersection_clipped V front (getPlaceableAreas V 0 layer_begin)],
         layer_begin, slices)
      else ([], layer_begin, slices)
    else if (0 <? layer_begin)%Z then
      let extra := bottom_extra_slices_of first front layer_begin in
      let bottom_contacts :=
        if (0 <? support_floor_layers V)%Z then
          map (fun i =>
                 intersection_clipped V
                   (polygons (nth i extra (mkBottomExtraSlice [] fzero)))
                   (getPlaceableAreas V 0 (layer_begin - Z.of_nat i - 1)))
              (contact_indices (length extra))
        else [] in
      (bottom_contacts,
       (layer_begin - Z.of_nat (length extra))%Z,
       rev (map polygons extra) ++ slices)
    else ([], layer_begin, slices)
  else ([], layer_begin, slices).

(** ** Vocabulary of the statement about the propagation *)

(** The specification's recurrence: the front slice minus the collision
    of the [k + 1] layers below [layer_begin]. *)
Fixpoint rest_below (front : Polygons) (layer_begin : Z) (k : nat) : Polygons :=
  match k with
  | O => diff_clipped V front (getCollision V 0 (layer_begin - 1) false)
  | S k' =>
      diff_clipped V (rest_below front layer_begin k')
                   (getCollision V 0 (layer_begin - 1 - Z.of_nat k) false)
  end.

(** The entry the loop pushes at its step [k]. *)
Definition pushed_entry (front : Polygons) (layer_begin : Z) (k : nat)
    : BottomExtraSlice :=
  mkBottomExtraSlice (rest_below front layer_begin k)
                     (area V (rest_below front layer_begin k)).

End Slicer.

Arguments SlicerExternals F Polygon : clear implicits.
Arguments BottomExtraSlice F Polygon : clear implicits.

(** ** Scenario S4: a root slice that shrinks by a tenth per layer

    A polygon is stood in for by its area; the collision of a layer takes
    a tenth of every polygon. The root is at layer 10, with a bottom
    radius and a branch radius of 2 mm and a layer height of 0.2 mm. *)
Module ScenarioS4.

Definition FP : Type := PrimFloat.float.

Definition externals : SlicerExternals FP FP :=
  mkSlicerExternals
    (fun _ => 2000000%Z)
    200000%Z
    2000000%Z
    1%Z
    (fun _ _ _ => [])
    (fun _ _ => [])
    (fun p _ => map (fun a => fmul a (lit 9 10)) p)
    (fun p _ => p)
    (fun p => fold_left fadd p fzero).

Definition root : SupportElementState :=
  mkState 10 (0, 0)%Z false false false false.

(** A disk of radius 2 mm, in squared scaled units. *)
Definition front : list FP := [fmul m_pi (sqr (of_Z 2000000))].

Definition slices : list (list FP) := [front; front].

End ScenarioS4.

From Stdlib Require Import Permutation Sorted RNsatz.

(* ===================================================================== *)
(** * Vocabulary: the shape of an extracted branch *)
(* ===================================================================== *)

(** [parent] is a parent of [child]: it sits in the layer above the one
    that [child]'s [layer_idx] names, at an index listed in
    [child.parents]. *)
Definition parent_link (mb : MoveBounds) (child parent : ElemRef) : Prop :=
  exists e, get_element mb child = Some e /\
            fst parent = (layer_idx (state e) + 1)%Z /\
            In (snd parent) (parents e).

(** The elements of [rest] climb from [a]: each is a parent of the one
    before it. *)
Fixpoint linked_from (mb : MoveBounds) (a : ElemRef) (rest : list ElemRef) : Prop :=
  match rest with
  | [] => True
  | b :: rest' => parent_link mb a b /\ linked_from mb b rest'
  end.

(** The element at [r] has [n] parents. *)
Definition parent_count (mb : MoveBounds) (r : ElemRef) (n : nat) : Prop :=
  exists e, get_element mb r = Some e /\ length (parents e) = n.

(** A branch as the extractor builds it: a path of at least two
    elements linked parent by parent, whose inner elements have exactly
    one parent each, and whose last element is a tip (no parents) when
    [has_tip] is set and a bifurcation (two parents or more) when it is
    not. *)
Definition branch_shape (mb : MoveBounds) (b : Branch) : Prop :=
  exists start mid top,
    path b = start :: mid ++ [top] /\
    linked_from mb start (mid ++ [top]) /\
    Forall (fun r => parent_count mb r 1) mid /\
    exists e, get_element mb top = Some e /\
              (has_tip b = true -> parents e = []) /\
              (has_tip b = false -> (2 <= length (parents e))%nat).

(** The tree was started at an element that is [lost] or [verylost] and
    has parents, and its first branch leaves that element. *)
Definition rooted_at_lost (mb : MoveBounds) (t : Tree) : Prop :=
  exists b rest start e,
    branches t = b :: rest /\
    hd_error (path b) = Some start /\
    get_element mb start = Some e /\
    (lost (state e) || verylost (state e))%bool = true /\
    parents e <> [].

(** A forest of height three: a trunk that is [verylost], a bifurcation
    above it, and two tips. *)
Definition fork_move_bounds : MoveBounds :=
  [ [ mkElement (mkState 0 (0, 0)%Z false false true false) [0]%Z ];
    [ mkElement (mkState 1 (0, 0)%Z false false false false) [0; 1]%Z ];
    [ mkElement (mkState 2 (0, 0)%Z false false false false) [];
      mkElement (mkState 2 (0, 0)%Z false false false false) [] ] ].

(* ===================================================================== *)
(** * Vocabulary: what the solver leaves behind *)
(* ===================================================================== *)

Section SolverVocabulary.
Context {F : Type} {A : Arith F} {Polygons : Type}.
Variable X : Externals F Polygons.

(** What the write-back at line 470 stores for a sphere. *)
Definition written_position (s : CollisionSphere F) : Z * Z :=
  (scaled_coord X (px (position s)), scaled_coord X (py (position s))).

(** A scaled point taken to unscaled [float] coordinates and back. *)
Definition there_and_back (p : Z * Z) : Z * Z :=
  (scaled_coord X (unscaled_float X (fst p)),
   scaled_coord X (unscaled_float X (snd p))).

(** The sphere of the pair [rl] sits at the height of the layer of its
    element and has the radius of its element. *)
Definition in_layer_plane (mb : MoveBounds) (rl : ElemRef * Z)
    (s : CollisionSphere F) : Prop :=
  exists e,
    get_element mb (fst rl) = Some e /\
    element s = fst rl /\
    pz (position s) = to_float (layer_z X (layer_idx (state e))) /\
    radius s = unscaled_float X (getRadius X (state e)).

(** What a pass keeps of every sphere, locked or not. *)
Definition same_height (s s' : CollisionSphere F) : Prop :=
  element s' = element s /\
  radius s' = radius s /\
  pz (position s') = pz (position s).

(** Every listed element is locked by the rule of line 343. *)
Definition all_locked (mb : MoveBounds) (ewld : list (ElemRef * Z)) : Prop :=
  Forall (fun rl => exists e, get_element mb (fst rl) = Some e /\
                              locked_rule e (snd rl) = true) ewld.
End SolverVocabulary.

(** A forest of two tips on the first layer and nothing else: every
    sphere is locked. *)
Module LockedScenario.

Definition move_bounds : MoveBounds :=
  [ [ mkElement (mkState 0 (1500000, -250000)%Z false false false false) [];
      mkElement (mkState 0 (-3000000, 4000000)%Z false false false false) [] ] ].

Definition elements_with_link_down : list (ElemRef * Z) :=
  [ ((0, 0), -1); ((0, 1), -1) ]%Z.

Definition linear_data_layers : list Z := [0; 2]%Z.

Definition world0 : World := mkWorld move_bounds 0.

Definition run : Outcome nat (PassLog Scenario.FP) * World :=
  organic_smooth_branches_avoid_collisions Scenario.externals Scenario.never
    Scenario.origin3 elements_with_link_down linear_data_layers world0.

Definition log : PassLog Scenario.FP := Scenario.value_or [] (fst run).

End LockedScenario.

(* ===================================================================== *)
(** * [organic_draw_branches]: the elements in linear order, lines 591 to 629 *)
(* ===================================================================== *)

(** [l.first < r.first] on element pointers. Within one layer the
    elements lie in one vector and their pointers compare as their
    indices do; the sorted vector only ever holds pointers into one
    layer. Across layers the model orders by layer first. *)
Definition ref_ltb (a b : ElemRef) : bool :=
  ((fst a <? fst b)%Z || ((fst a =? fst b)%Z && (snd a <? snd b)%Z))%bool.

Definition ref_eqb (a b : ElemRef) : bool :=
  ((fst a =? fst b)%Z && (snd a =? snd b)%Z)%bool.

Section Flatten.

(** [SupportElementState::result_on_layer_is_set()], declared in a
    header outside this file. *)
Variable result_on_layer_is_set : SupportElementState -> bool.

(** [std::sort] with the comparison of the pointers. It leaves the order
    of entries with equal pointers open, so it is a parameter here; what
    is known of it is [sorts_by_pointer] below. *)
Variable sort_links : list (ElemRef * Z) -> list (ElemRef * Z).

(** Lines 611 to 616: [std::lower_bound] finds the first entry whose
    pointer is not below [&elem]; [child] is its second component when
    its pointer is [&elem], and [-1] otherwise. *)
Definition find_child (map_downwards_old : list (ElemRef * Z)) (elem : ElemRef) : Z :=
  match find (fun l => negb (ref_ltb (fst l) elem)) map_downwards_old with
  | Some it => if ref_eqb (fst it) elem then snd it else (-1)%Z
  | None => (-1)%Z
  end.

(** Lines 624 to 628: one entry of [map_downwards_new] for every parent
    whose [result_on_layer] is set. [layer_above] is null on the last
    layer, and an index out of range is undefined behaviour: [None]. *)
Fixpoint links_up (mb : MoveBounds) (layer_idx elem_idx : Z) (ps : list Z)
    (map_downwards_new : list (ElemRef * Z)) : option (list (ElemRef * Z)) :=
  match ps with
  | [] => Some map_downwards_new
  | parent_idx :: rest =>
      let parent_ref : ElemRef := ((layer_idx + 1)%Z, parent_idx) in
      match get_element mb parent_ref with
      | None => None
      | Some parent =>
          links_up mb layer_idx elem_idx rest
            (if result_on_layer_is_set (state parent)
             then map_downwards_new ++ [(parent_ref, elem_idx)]
             else map_downwards_new)
      end
  end.

(** The body of the loop over the elements of a layer, lines 607 to 631.
    Its state is [map_downwards_new] and [elements_with_link_down]. *)
Definition flatten_element (mb : MoveBounds) (layer_idx : Z)
    (map_downwards_old : list (ElemRef * Z))
    (st : list (ElemRef * Z) * list (ElemRef * Z)) (ie : nat * SupportElement)
    : option (list (ElemRef * Z) * list (ElemRef * Z)) :=
  let (map_downwards_new, elements_with_link_down) := st in
  let (elem_idx, elem) := ie in
  let r : ElemRef := (layer_idx, Z.of_nat elem_idx) in
  let child := if (0 <? layer_idx)%Z then find_child map_downwards_old r
               else (-1)%Z in
  match links_up mb layer_idx (Z.of_nat elem_idx) (parents elem) map_downwards_new with
  | None => None
  | Some new' => Some (new', elements_with_link_down ++ [(r, child)])
  end.

Fixpoint flatten_elements (mb : MoveBounds) (layer_idx : Z)
    (map_downwards_old : list (ElemRef * Z))
    (ies : list (nat * SupportElement))
    (st : list (ElemRef * Z) * list (ElemRef * Z))
    : option (list (ElemRef * Z) * list (ElemRef * Z)) :=
  match ies with
  | [] => Some st
  | ie :: rest =>
      match flatten_element mb layer_idx map_downwards_old st ie with
      | None => None
      | Some st' => flatten_elements mb layer_idx map_downwards_old rest st'
      end
  end.

(** The body of the loop over the layers, lines 601 to 634. Its state is
    [map_downwards_old], [elements_with_link_down] and
    [linear_data_layers]. *)
Definition flatten_layer (mb : MoveBounds)
    (st : list (ElemRef * Z) * list (ElemRef * Z) * list Z)
    (il : nat * SupportElements)
    : option (list (ElemRef * Z) * list (ElemRef * Z) * list Z) :=
  let '(map_downwards_old, elements_with_link_down, linear_data_layers) := st in
  let (layer_idx, layer) := il in
  let sorted := sort_links map_downwards_old in
  match flatten_elements mb (Z.of_nat layer_idx) sorted
          (combine (seq 0 (length layer)) layer) ([], elements_with_link_down) with
  | None => None
  | Some (map_downwards_new, ewld) =>
      Some (map_downwards_new, ewld,
            linear_data_layers ++ [Z.of_nat (length ewld)])
  end.

Fixpoint flatten_layers (mb : MoveBounds) (ils : list (nat * SupportElements))
    (st : list (ElemRef * Z) * list (ElemRef * Z) * list Z)
    : option (list (ElemRef * Z) * list (ElemRef * Z) * list Z) :=
  match ils with
  | [] => Some st
  | il :: rest =>
      match flatten_layer mb st il with
      | None => None
      | Some st' => flatten_layers mb rest st'
      end
  end.

(** Lines 596 to 635: [elements_with_link_down] and
    [linear_data_layers]. *)
Definition link_elements_down (mb : MoveBounds)
    : option (list (ElemRef * Z) * list Z) :=
  match flatten_layers mb (combine (seq 0 (length mb)) mb) ([], [], [0%Z]) with
  | None => None
  | Some (_, elements_with_link_down, linear_data_layers) =>
      Some (elements_with_link_down, linear_data_layers)
  end.

(** What is known of [std::sort]: the result is a rearrangement of the
    input in which no entry has a pointer below that of an earlier
    entry. *)
Definition sorts_by_pointer : Prop :=
  forall l,
    Permutation l (sort_links l) /\
    StronglySorted (fun a b => ref_ltb (fst b) (fst a) = false) (sort_links l).

End Flatten.

(** The number of elements in the layers below layer [l]. *)
Definition elements_below (mb : MoveBounds) (l : nat) : Z :=
  Z.of_nat (length (concat (firstn l mb))).

(** A sort that meets [sorts_by_pointer]: insertion into a sorted list. *)
Fixpoint insert_link (x : ElemRef * Z) (l : list (ElemRef * Z)) : list (ElemRef * Z) :=
  match l with
  | [] => [x]
  | y :: rest =>
      if ref_ltb (fst x) (fst y) then x :: y :: rest
      else y :: insert_link x rest
  end.

Definition insertion_sort (l : list (ElemRef * Z)) : list (ElemRef * Z) :=
  fold_right insert_link [] l.

(** A stand-in for [result_on_layer_is_set] in the examples: the point
    is set unless both its coordinates are [coord_t_max]. *)
Definition not_the_unset_point (coord_t_max : Z) (s : SupportElementState) : bool :=
  negb (((fst (result_on_layer s) =? coord_t_max)%Z
         && (snd (result_on_layer s) =? coord_t_max)%Z)%bool).

(** A forest in which two branches of the upper layer merge below: the
    elements 0 and 2 of layer 1 are parents of the element 1 of layer 0,
    the element 1 of layer 1 is a parent of the element 0 of layer 0, and
    the element 3 of layer 1 has no element below. *)
Definition merging_move_bounds : MoveBounds :=
  [ [ mkElement (mkState 0 (0, 0)%Z false false false false) [1]%Z;
      mkElement (mkState 0 (5, 5)%Z false false false false) [2; 0]%Z ];
    [ mkElement (mkState 1 (1, 0)%Z false false false false) [];
      mkElement (mkState 1 (2, 0)%Z false false false false) [];
      mkElement (mkState 1 (3, 0)%Z false false false false) [];
      mkElement (mkState 1 (4, 0)%Z false false false false) [] ] ].

(** ** Vocabulary of the statements about the linear order *)

(** Every parent index names an element of the next layer. *)
Definition parents_in_range (mb : MoveBounds) : Prop :=
  forall r e p,
    get_element mb r = Some e -> In p (parents e) ->
    exists e', get_element mb ((fst r + 1)%Z, p) = Some e'.

(** The element pointers of the layers [ls], the first of which is layer
    [k], layer by layer and index by index. *)
Fixpoint refs_from (k : nat) (ls : list SupportElements) : list ElemRef :=
  match ls with
  | [] => []
  | layer :: rest =>
      map (fun i => (Z.of_nat k, Z.of_nat i)) (seq 0 (length layer))
      ++ refs_from (S k) rest
  end.

Section FlattenVocabulary.
Variable result_on_layer_is_set : SupportElementState -> bool.
Variable sort_links : list (ElemRef * Z) -> list (ElemRef * Z).

(** The parent [p] of an element of layer [l] has its result set. *)
Definition parent_is_set (mb : MoveBounds) (l p : Z) : bool :=
  match get_element mb ((l + 1)%Z, p) with
  | Some e => result_on_layer_is_set (state e)
  | None => false
  end.

(** What an element contributes to [map_downwards_new]. *)
Definition links_of_element (mb : MoveBounds) (l i : Z) (ps : list Z)
    : list (ElemRef * Z) :=
  map (fun p => (((l + 1)%Z, p), i)) (filter (parent_is_set mb l) ps).

(** [map_downwards_new] after the elements [ies] of layer [l]. *)
Definition links_of_elements (mb : MoveBounds) (l : Z)
    (ies : list (nat * SupportElement)) : list (ElemRef * Z) :=
  flat_map (fun ie => links_of_element mb l (Z.of_nat (fst ie)) (parents (snd ie))) ies.

Definition links_of_layer (mb : MoveBounds) (l : nat) (layer : SupportElements)
    : list (ElemRef * Z) :=
  links_of_elements mb (Z.of_nat l) (combine (seq 0 (length layer)) layer).

(** The [child] that line 609 to 616 computes for element [i] of layer
    [l], given the links collected on the layer below. *)
Definition child_of (links_below : list (ElemRef * Z)) (l : Z) (i : nat) : Z :=
  if (0 <? l)%Z then find_child (sort_links links_below) (l, Z.of_nat i)
  else (-1)%Z.

(** The entries pushed for the layers [ls], the first of which is layer
    [k], given the links collected on the layer below layer [k]. *)
Fixpoint entries_from (mb : MoveBounds) (links_below : list (ElemRef * Z))
    (k : nat) (ls : list SupportElements) : list (ElemRef * Z) :=
  match ls with
  | [] => []
  | layer :: rest =>
      map (fun i => ((Z.of_nat k, Z.of_nat i), child_of links_below (Z.of_nat k) i))
          (seq 0 (length layer))
      ++ entries_from mb (links_of_layer mb k layer) (S k) rest
  end.
End FlattenVocabulary.

(* ===================================================================== *)
(** * The tube mesher: [triangulate_fan], lines 52 to 66 *)
(* ===================================================================== *)

Section MesherFan.
Context {F : Type} {A : Arith F}.

(** The loop [for (int v = ibegin, u = iend - 1; v < iend; u = v ++)]:
    [vs] are the values of [v] still to come and [u] is the previous
    vertex. *)
Fixpoint fan_loop (flip_normals : bool) (ifan : Z) (vs : list Z) (u : Z)
    (idx : list Triangle) : list Triangle :=
  match vs with
  | [] => idx
  | v :: rest =>
      fan_loop flip_normals ifan rest v
        (idx ++ [if flip_normals then (ifan, u, v) else (ifan, v, u)])
  end.

(** [triangulate_fan<flip_normals>(its, ifan, ibegin, iend)]. The
    argument of [reserve] is computed in [size_t]: when
    [size + 3 * (iend - ibegin)] is negative it wraps around to a number
    beyond [max_size()] and [reserve] throws [std::length_error], which
    is the [None] of the model. *)
Definition triangulate_fan (flip_normals : bool) (its : indexed_triangle_set F)
    (ifan ibegin iend : Z) : option (indexed_triangle_set F) :=
  let num_faces := (iend - ibegin)%Z in
  if (Z.of_nat (length (indices its)) + num_faces * 3 <? 0)%Z then None
  else
    Some (mkITS (vertices its)
                (fan_loop flip_normals ifan (index_range ibegin iend) (iend - 1)%Z
                          (indices its))).

(** The vertex before [v] on the ring [[ibegin, iend)]. *)
Definition prev_on_ring (ibegin iend v : Z) : Z :=
  if (v =? ibegin)%Z then (iend - 1)%Z else (v - 1)%Z.
End MesherFan.

(** ** Vocabulary of the statements about the strip *)

(** [n] edges of the ring [[ibegin, iend)], walked from [x] on. *)
Fixpoint ring_walk (ibegin iend : Z) (n : nat) (x : Z) : list (Z * Z) :=
  match n with
  | O => []
  | S n' =>
      (x, next_on_ring ibegin iend x)
      :: ring_walk ibegin iend n' (next_on_ring ibegin iend x)
  end.

Definition in_ring (ibegin iend i : Z) : bool :=
  ((ibegin <=? i)%Z && (i <? iend)%Z)%bool.

(** The edges that the faces have on the first ring: a face whose second
    vertex lies on the first ring goes along its edge [(first, second)]. *)
Definition first_ring_edges (ibegin1 iend1 : Z) (faces : list Triangle)
    : list (Z * Z) :=
  flat_map (fun t : Triangle =>
              let '(a, b, c) := t in
              if in_ring ibegin1 iend1 b then [(a, b)] else []) faces.

(** The edges that the faces have on the second ring: a face whose
    second vertex lies on the second ring goes along its edge
    [(third, second)]. *)
Definition second_ring_edges (ibegin2 iend2 : Z) (faces : list Triangle)
    : list (Z * Z) :=
  flat_map (fun t : Triangle =>
              let '(a, b, c) := t in
              if in_ring ibegin2 iend2 b then [(c, b)] else []) faces.

(** A face of the strip: its first vertex lies on the first ring, its
    third on the second, and its second vertex follows one of the two on
    its ring. *)
Definition strip_face (ibegin1 iend1 ibegin2 iend2 : Z) (t : Triangle) : Prop :=
  let '(a, b, c) := t in
  (ibegin1 <= a < iend1)%Z /\ (ibegin2 <= c < iend2)%Z /\
  (b = next_on_ring ibegin1 iend1 a \/ b = next_on_ring ibegin2 iend2 c).

(** Every edge of the list leads from a vertex to the next on the ring. *)
Definition ring_edges (ibegin iend : Z) (edges : list (Z * Z)) : Prop :=
  Forall (fun ab => snd ab = next_on_ring ibegin iend (fst ab)) edges.

(** Three points on a line, in real arithmetic: the second ring
    [[1, 3)] holds the points at distance 2 and 1 of the first. *)
Definition three_points : list (Vec3 R) :=
  [ mkVec3 0 0 0; mkVec3 2 0 0; mkVec3 1 0 0 ]%R.

(* ===================================================================== *)
(** * [organic_draw_branches]: the slices of a branch join its tree,
      lines 789 to 900 *)
(* ===================================================================== *)

Section TreeSlices.
Context {F : Type} {A : Arith F} {Polygon : Type}.
Local Abbreviation Polygons := (list Polygon).
Variable V : SlicerExternals F Polygon.

(** [struct Slice]. *)
Record Slice : Type := mkSlice {
  slice_polygons        : Polygons;
  slice_bottom_contacts : Polygons;
  num_branches          : nat
}.

Definition empty_slice : Slice := mkSlice [] [] 0.

(** The members [slices] and [first_layer_id] of [struct Tree]. *)
Record TreeSlices : Type := mkTreeSlices {
  tree_slices    : list Slice;
  first_layer_id : Z
}.

(** A tree before its first branch was sliced. *)
Definition no_slices : TreeSlices := mkTreeSlices [] (-1).

(** Lines 791 and 792: every slice minus the collision of its layer. *)
Definition clip_to_collision (layer_begin : Z) (slices : list Polygons)
    : list Polygons :=
  map (fun ip => diff_clipped V (snd ip)
                   (getCollision V 0 (layer_begin + Z.of_nat (fst ip)) true))
      (combine (seq 0 (length slices)) slices).

(** [std::find_if] for the first slice that is not empty, as a count. *)
Fixpoint count_leading_empty (slices : list Polygons) : nat :=
  match slices with
  | [] => O
  | s :: rest => if is_empty s then S (count_leading_empty rest) else O
  end.

(** Lines 794 to 862: [num_empty] when the front slice is empty, and the
    extension of the root when it is not. The result is
    [bottom_contacts], [layer_begin], [slices] and [num_empty];
    [slices.front()] of an empty vector is undefined behaviour. *)
Definition after_front (has_root_flag : bool) (first : SupportElementState)
    (slices : list Polygons) (layer_begin : Z)
    : option (list Polygons * Z * list Polygons * nat) :=
  match slices with
  | [] => None
  | front :: _ =>
      if is_empty front then
        Some ([], layer_begin, slices, count_leading_empty slices)
      else
        let '(bottom_contacts, layer_begin', slices') :=
          root_extension V has_root_flag first slices layer_begin in
        Some (bottom_contacts, layer_begin', slices', O)
  end.

(** Lines 864 to 868, on the reversed vector: the empty slices at the
    back are popped and [layer_end] goes down with them. *)
Fixpoint drop_leading_empty (reversed : list Polygons) (layer_end : Z)
    : list Polygons * Z :=
  match reversed with
  | [] => ([], layer_end)
  | s :: rest =>
      if is_empty s then drop_leading_empty rest (layer_end - 1)%Z
      else (reversed, layer_end)
  end.

Definition pop_trailing_empty (slices : list Polygons) (layer_end : Z)
    : list Polygons * Z :=
  let (reversed, layer_end') := drop_leading_empty (rev slices) layer_end in
  (rev reversed, layer_end').

(** Lines 872 to 883: [tree.slices] grows to [new_size] entries, with
    new entries in front when the tree began above [new_begin]. Either
    way of growing gives the same vector. The count of the entries added
    at the back is computed in [size_t]; were it negative it would wrap
    around and the insertion would throw [std::length_error], which is
    the [None] of the model. *)
Definition grow_tree_slices (t : TreeSlices) (new_begin new_end : Z)
    : option (list Slice) :=
  let new_size := (new_end - new_begin)%Z in
  let fronted :=
    if (first_layer_id t =? -1)%Z then tree_slices t
    else
      let dif := (first_layer_id t - new_begin)%Z in
      if (0 <? dif)%Z then repeat empty_slice (Z.to_nat dif) ++ tree_slices t
      else tree_slices t in
  if (new_size <? Z.of_nat (length fronted))%Z then None
  else Some (fronted
             ++ repeat empty_slice (Z.to_nat (new_size - Z.of_nat (length fronted)))).

(** Lines 888 to 896: a slice of the branch joins the slice of its
    layer. [contacts] is [bottom_contacts[j]] when [j] is in range. *)
Definition join_slice (dst : Slice) (src : Polygons) (contacts : option Polygons)
    : Slice :=
  let n := S (num_branches dst) in
  if (1 <? n)%nat then
    mkSlice (slice_polygons dst ++ src)
            (match contacts with
             | Some c => slice_bottom_contacts dst ++ c
             | None => slice_bottom_contacts dst
             end)
            n
  else
    mkSlice src
            (match contacts with
             | Some c => c
             | None => slice_bottom_contacts dst
             end)
            n.

(** The loop at line 885, over [j = i - layer_begin]. Reading
    [slices[j]] or [tree.slices[i - new_begin]] out of range is undefined
    behaviour. *)
Fixpoint join_slices (js : list nat) (layer_begin new_begin : Z)
    (slices bottom_contacts : list Polygons) (dsts : list Slice)
    : option (list Slice) :=
  match js with
  | [] => Some dsts
  | j :: rest =>
      match nth_error slices j with
      | None => None
      | Some src =>
          if is_empty src then
            join_slices rest layer_begin new_begin slices bottom_contacts dsts
          else
            let k := (layer_begin + Z.of_nat j - new_begin)%Z in
            match lookupZ dsts k with
            | None => None
            | Some dst =>
                join_slices rest layer_begin new_begin slices bottom_contacts
                  (updateZ dsts k
                     (fun _ => join_slice dst src (nth_error bottom_contacts j)))
            end
      end
  end.

(** Lines 863 to 899: [layer_begin] is the first layer of [slices],
    [layer_end] the layer behind the last one after the empty slices at
    the back were popped. *)
Definition merge_branch_slices (t : TreeSlices)
    (slices bottom_contacts : list Polygons) (layer_begin layer_end : Z)
    (num_empty : nat) : option TreeSlices :=
  let first_filled := (layer_begin + Z.of_nat num_empty)%Z in
  if (first_filled <? layer_end)%Z then
    let unset := (first_layer_id t =? -1)%Z in
    let new_begin :=
      if unset then first_filled else Z.min (first_layer_id t) first_filled in
    let new_end :=
      if unset then layer_end
      else Z.max (first_layer_id t + Z.of_nat (length (tree_slices t))) layer_end in
    match grow_tree_slices t new_begin new_end with
    | None => None
    | Some grown =>
        match join_slices (seq 0 (Z.to_nat (layer_end - layer_begin)))
                layer_begin new_begin slices bottom_contacts grown with
        | None => None
        | Some joined => Some (mkTreeSlices joined new_begin)
        end
    end
  else Some t.

(** Lines 789 to 899 for one branch, from the slices that [slice_mesh]
    returned for the layers [[layer_begin, layer_end)]. *)
Definition place_branch_slices (t : TreeSlices) (has_root_flag : bool)
    (first : SupportElementState) (sliced : list Polygons)
    (layer_begin layer_end : Z) : option TreeSlices :=
  match after_front has_root_flag first
          (clip_to_collision layer_begin sliced) layer_begin with
  | None => None
  | Some (bottom_contacts, layer_begin', slices, num_empty) =>
      let (slices', layer_end') := pop_trailing_empty slices layer_end in
      merge_branch_slices t slices' bottom_contacts layer_begin' layer_end' num_empty
  end.

(** ** Vocabulary of the statements about the slices of a tree *)

(** The slice at index [k] of a vector of slices, and an empty slice
    where the vector has none. *)
Definition get_slice (slices : list Slice) (k : Z) : Slice :=
  match lookupZ slices k with
  | Some s => s
  | None => empty_slice
  end.

(** The slice that the tree has for layer [l]. *)
Definition slice_at (t : TreeSlices) (l : Z) : Slice :=
  get_slice (tree_slices t) (l - first_layer_id t).

(** The polygons that a branch has for layer [l]. *)
Definition polygons_at (slices : list Polygons) (layer_begin l : Z) : Polygons :=
  match lookupZ slices (l - layer_begin) with
  | Some p => p
  | None => []
  end.

(** A slice that no branch has joined holds nothing. *)
Definition slice_ok (s : Slice) : Prop :=
  num_branches s = O -> slice_polygons s = [] /\ slice_bottom_contacts s = [].

(** The slices of a tree as a run of the loop leaves them: no tree
    without slices has a first layer, and every tree with slices has
    one. *)
Definition tree_slices_ok (t : TreeSlices) : Prop :=
  Forall slice_ok (tree_slices t) /\
  (first_layer_id t = (-1)%Z -> tree_slices t = []) /\
  (first_layer_id t <> (-1)%Z -> (0 <= first_layer_id t)%Z).

(** The slices of a branch as lines 794 to 868 leave them: they cover
    the layers [[layer_begin, layer_end)], and the first [num_empty] of
    them are empty. *)
Definition branch_slices_ok (slices : list Polygons) (layer_begin layer_end : Z)
    (num_empty : nat) : Prop :=
  (0 <= layer_begin)%Z /\
  Z.of_nat (length slices) = (layer_end - layer_begin)%Z /\
  (forall j p, (j < num_empty)%nat -> nth_error slices j = Some p -> p = []).

End TreeSlices.

Arguments Slice Polygon : clear implicits.
Arguments TreeSlices Polygon : clear implicits.

(** What a branch adds to the slice of layer [l] of its tree: its
    polygons, a count of one when it has any, and the bottom contacts at
    the same index. *)
Definition joined_at {Polygon : Type} (t t' : TreeSlices Polygon)
    (slices bottom_contacts : list (list Polygon)) (layer_begin l : Z) : Prop :=
  slice_polygons (slice_at t' l)
  = slice_polygons (slice_at t l) ++ polygons_at slices layer_begin l /\
  slice_bottom_contacts (slice_at t' l)
  = slice_bottom_contacts (slice_at t l)
    ++ (if is_empty (polygons_at slices layer_begin l) then []
        else polygons_at bottom_contacts layer_begin l) /\
  num_branches (slice_at t' l)
  = (num_branches (slice_at t l)
     + (if is_empty (polygons_at slices layer_begin l) then 0 else 1))%nat.

(** A tree with slices for the layers 4 and 5, and the slices of a branch
    for the layers 2 to 6, the first and the last of them empty;
    polygons are stood in for by numbers. *)
Definition sliced_tree : TreeSlices nat :=
  mkTreeSlices [ mkSlice [10%nat] [] 1; mkSlice [11%nat; 12%nat] [] 2 ] 4.

Definition branch_slices : list (list nat) :=
  [ []; [20%nat]; [21%nat]; []; [] ].

(* ===================================================================== *)
(** * [organic_draw_branches]: the slices of all trees, lines 918 to 936 *)
(* ===================================================================== *)

Section AllSlices.
Context {Polygon : Type}.
Local Abbreviation Polygons := (list Polygon).

(** Lines 918 to 921: [num_layers], a [size_t]. *)
Definition num_layers (trees : list (TreeSlices Polygon)) : nat :=
  fold_left
    (fun n t =>
       if (0 <=? first_layer_id t)%Z
       then Nat.max n (Z.to_nat (first_layer_id t
                                 + Z.of_nat (length (tree_slices t))))
       else n)
    trees O.

(** The loop at line 925 over the slices of one tree, [i] the layer of
    the first of [srcs]. Lines 929 to 934 are lines 889 to 896 once more,
    with the bottom contacts of the slice always at hand. *)
Fixpoint gather_slices (srcs : list (Slice Polygon)) (i : Z)
    (dsts : list (Slice Polygon)) : option (list (Slice Polygon)) :=
  match srcs with
  | [] => Some dsts
  | src :: rest =>
      if is_empty (slice_polygons src) then gather_slices rest (i + 1) dsts
      else
        match lookupZ dsts i with
        | None => None
        | Some dst =>
            gather_slices rest (i + 1)
              (updateZ dsts i
                 (fun _ => join_slice dst (slice_polygons src)
                                      (Some (slice_bottom_contacts src))))
        end
  end.

(** Lines 923 to 936 for one tree. *)
Definition gather_tree (dsts : list (Slice Polygon)) (t : TreeSlices Polygon)
    : option (list (Slice Polygon)) :=
  if (0 <=? first_layer_id t)%Z
  then gather_slices (tree_slices t) (first_layer_id t) dsts
  else Some dsts.

Fixpoint gather_trees (trees : list (TreeSlices Polygon))
    (dsts : list (Slice Polygon)) : option (list (Slice Polygon)) :=
  match trees with
  | [] => Some dsts
  | t :: rest =>
      match gather_tree dsts t with
      | None => None
      | Some dsts' => gather_trees rest dsts'
      end
  end.

(** Lines 918 to 936: [slices]. *)
Definition gathered_slices (trees : list (TreeSlices Polygon))
    : option (list (Slice Polygon)) :=
  gather_trees trees (repeat empty_slice (num_layers trees)).

(** ** Vocabulary *)

(** What a tree gives to layer [l]: the slice it has there when it has
    a first layer and polygons there, and nothing otherwise. *)
Definition given_to (t : TreeSlices Polygon) (l : Z) : Slice Polygon :=
  if (0 <=? first_layer_id t)%Z then
    if is_empty (slice_polygons (slice_at t l)) then empty_slice
    else slice_at t l
  else empty_slice.

Definition gives_polygons (t : TreeSlices Polygon) (l : Z) : bool :=
  negb (is_empty (slice_polygons (given_to t l))).
End AllSlices.

(* ===================================================================== *)
(** * The tube mesher: [discretize_circle] and [extrude_branch],
      lines 133 to 257 *)
(* ===================================================================== *)

Section Tube.
Context {F : Type} {A : Arith F} {Polygons : Type}.
Variable X : Externals F Polygons.

(** What the mesher calls of the C library: [acos] and [ceil] on a
    double, [cos] and [sin] on a [float] angle, and the conversion
    [int(x)] of a double. *)
Record Libm : Type := mkLibm {
  acos   : F -> F;
  ceil   : F -> F;
  cos32  : F -> F;
  sin32  : F -> F;
  int_of : F -> Z
}.

Variable L : Libm.

(** A quotient or a square root of [float] operands, rounded to float;
    computing in double and rounding once more gives the same value. *)
Definition fdiv32 (a b : F) : F := to_float (fdiv a b).
Definition fsqrt32 (a : F) : F := to_float (fsqrt a).

(** ** [Vec3d] *)

Definition v3add (a b : Vec3 F) : Vec3 F :=
  mkVec3 (fadd (px a) (px b)) (fadd (py a) (py b)) (fadd (pz a) (pz b)).
Definition v3sub (a b : Vec3 F) : Vec3 F :=
  mkVec3 (fsub (px a) (px b)) (fsub (py a) (py b)) (fsub (pz a) (pz b)).
Definition v3scale (v : Vec3 F) (k : F) : Vec3 F :=
  mkVec3 (fmul (px v) k) (fmul (py v) k) (fmul (pz v) k).
Definition v3div (v : Vec3 F) (k : F) : Vec3 F :=
  mkVec3 (fdiv (px v) k) (fdiv (py v) k) (fdiv (pz v) k).
Definition squaredNorm3 (v : Vec3 F) : F :=
  fadd (fadd (fmul (px v) (px v)) (fmul (py v) (py v))) (fmul (pz v) (pz v)).

(** Eigen's [normalized()], as for [Vec2d]. *)
Definition normalized3 (v : Vec3 F) : Vec3 F :=
  let z := squaredNorm3 v in
  if fltb fzero z then v3div v (fsqrt z) else v.

(** [.cast<float>()]. *)
Definition v3cast32 (v : Vec3 F) : Vec3 F :=
  mkVec3 (to_float (px v)) (to_float (py v)) (to_float (pz v)).

(** ** [Vec3f] *)

Definition v3add32 (a b : Vec3 F) : Vec3 F :=
  mkVec3 (fadd32 (px a) (px b)) (fadd32 (py a) (py b)) (fadd32 (pz a) (pz b)).
Definition v3scale32 (v : Vec3 F) (k : F) : Vec3 F :=
  mkVec3 (fmul32 (px v) k) (fmul32 (py v) k) (fmul32 (pz v) k).
Definition v3div32 (v : Vec3 F) (k : F) : Vec3 F :=
  mkVec3 (fdiv32 (px v) k) (fdiv32 (py v) k) (fdiv32 (pz v) k).
Definition cross32 (a b : Vec3 F) : Vec3 F :=
  mkVec3 (fsub32 (fmul32 (py a) (pz b)) (fmul32 (pz a) (py b)))
         (fsub32 (fmul32 (pz a) (px b)) (fmul32 (px a) (pz b)))
         (fsub32 (fmul32 (px a) (py b)) (fmul32 (py a) (px b))).
Definition normalized3_32 (v : Vec3 F) : Vec3 F :=
  let z := squaredNorm3_32 v in
  if fltb fzero z then v3div32 v (fsqrt32 z) else v.

(** ** [discretize_circle], lines 134 to 157 *)

(** Line 137, and lines 191 and 214: the angle under which a chord
    deviates by [eps] from a circle of the radius. *)
Definition chord_angle (eps radius : F) : F :=
  to_float (fmul (of_Z 2) (acos L (fsub (of_Z 1) (fdiv32 eps radius)))).

(** Line 138: [nsteps]. *)
Definition circle_steps (eps radius : F) : Z :=
  int_of L (ceil L (fdiv (fmul (of_Z 2) m_pi) (chord_angle eps radius))).

(** Line 139: [angle_step]. *)
Definition circle_angle_step (eps radius : F) : F :=
  to_float (fdiv (fmul (of_Z 2) m_pi) (of_Z (circle_steps eps radius))).

(** The loop at line 152, [n] rounds of it. *)
Fixpoint circle_points (n : nat) (center x y : Vec3 F) (angle angle_step : F)
    : list (Vec3 F) :=
  match n with
  | O => []
  | S n' =>
      v3add32 (v3add32 center (v3scale32 x (cos32 L angle)))
              (v3scale32 y (sin32 L angle))
      :: circle_points n' center x y (fadd32 angle angle_step) angle_step
  end.

(** [discretize_circle(center, normal, radius, eps, pts)]: the range of
    the points added, and [pts]. The argument of [reserve] is computed
    in [size_t]: a negative [pts.size() + nsteps] wraps around and
    [reserve] throws [std::length_error], the [None] of the model. *)
Definition discretize_circle (center normal : Vec3 F) (radius eps : F)
    (pts : list (Vec3 F)) : option (Z * Z * list (Vec3 F)) :=
  let nsteps := circle_steps eps radius in
  let angle_step := circle_angle_step eps radius in
  let x := normalized3_32 (cross32 normal (mkVec3 (of_Z 0) (of_Z (-1)) (of_Z 0))) in
  let y := normalized3_32 (cross32 normal x) in
  let begin := Z.of_nat (length pts) in
  if (begin + nsteps <? 0)%Z then None
  else
    let pts' :=
      pts ++ circle_points (Z.to_nat nsteps) center
                           (v3scale32 x radius) (v3scale32 y radius)
                           fzero angle_step in
    Some (begin, Z.of_nat (length pts'), pts').

(** ** [extrude_branch], lines 160 to 257 *)

(** [eps = 0.015f]. *)
Definition tube_eps : F := to_float (lit 15 1000).

(** [to_3d(unscaled<double>(e.state.result_on_layer),
          layer_z(slicing_params, config, e.state.layer_idx))]. *)
Definition position3 (e : SupportElement) : Vec3 F :=
  to_3d (unscaled_point X (result_on_layer (state e)))
        (layer_z X (layer_idx (state e))).

(** [unscaled<float>(getRadius(config, e.state))]. *)
Definition element_radius (e : SupportElement) : F :=
  unscaled_float X (getRadius X (state e)).

(** Lines 191 to 193 and 214 to 216: [nsteps] and [angle_step] of a
    half sphere. *)
Definition cap_steps (radius : F) : Z * F :=
  let angle_step := chord_angle tube_eps radius in
  let nsteps := int_of L (ceil L (fdiv m_pi (fmul (of_Z 2) angle_step))) in
  (nsteps, to_float (fdiv m_pi (fmul (of_Z 2) (of_Z nsteps)))).

(** [triangulate_strip] between two rings; its loop runs once for each
    vertex of the rings. *)
Definition strip_between (its : indexed_triangle_set F) (prev_strip strip : Z * Z)
    : option (indexed_triangle_set F) :=
  triangulate_strip
    (Z.to_nat ((snd prev_strip - fst prev_strip) + (snd strip - fst strip)))
    its (fst prev_strip) (snd prev_strip) (fst strip) (snd strip).

(** The loop at line 198 over the values [ivals] of [i] still to come. *)
Fixpoint bottom_rings (ivals : list Z) (p1 nprev : Vec3 F)
    (radius angle angle_step : F) (ifan : Z) (prev_strip : Z * Z)
    (its : indexed_triangle_set F)
    : option ((Z * Z) * indexed_triangle_set F) :=
  match ivals with
  | [] => Some (prev_strip, its)
  | i :: rest =>
      match discretize_circle
              (v3cast32 (v3sub p1 (v3scale (v3scale nprev radius) (cos32 L angle))))
              (v3cast32 nprev) (fmul32 radius (sin32 L angle)) tube_eps
              (vertices its) with
      | None => None
      | Some (b, e, pts) =>
          let its1 := mkITS pts (indices its) in
          match (if (i =? 1)%Z then triangulate_fan false its1 ifan b e
                 else strip_between its1 prev_strip (b, e)) with
          | None => None
          | Some its2 =>
              bottom_rings rest p1 nprev radius (fadd32 angle angle_step)
                           angle_step ifan (b, e) its2
          end
      end
  end.

(** Lines 187 to 208, the bottom half sphere: [prev_strip], [zmin] and
    the mesh. *)
Definition bottom_half_sphere (prev : SupportElement) (p1 v1 : Vec3 F)
    (prev_strip : Z * Z) (its : indexed_triangle_set F)
    : option ((Z * Z) * F * indexed_triangle_set F) :=
  let nprev := v1 in
  let radius := element_radius prev in
  let '(nsteps, angle_step) := cap_steps radius in
  let ifan := Z.of_nat (length (vertices its)) in
  let pole := v3cast32 (v3sub p1 (v3scale nprev radius)) in
  let its1 := mkITS (vertices its ++ [pole]) (indices its) in
  let zmin := pz pole in
  match bottom_rings (index_range 1 nsteps) p1 nprev radius angle_step angle_step
                     ifan prev_strip its1 with
  | None => None
  | Some (prev_strip', its2) => Some (prev_strip', zmin, its2)
  end.

(** The loop at line 218, [n] rounds of it. *)
Fixpoint top_rings (n : nat) (p2 ncurrent : Vec3 F)
    (radius angle angle_step : F) (prev_strip : Z * Z)
    (its : indexed_triangle_set F)
    : option ((Z * Z) * indexed_triangle_set F) :=
  match n with
  | O => Some (prev_strip, its)
  | S n' =>
      match discretize_circle
              (v3cast32 (v3add p2 (v3scale (v3scale ncurrent radius) (cos32 L angle))))
              (v3cast32 ncurrent) (fmul32 radius (sin32 L angle)) tube_eps
              (vertices its) with
      | None => None
      | Some (b, e, pts) =>
          match strip_between (mkITS pts (indices its)) prev_strip (b, e) with
          | None => None
          | Some its2 =>
              top_rings n' p2 ncurrent radius (fsub32 angle angle_step)
                        angle_step (b, e) its2
          end
      end
  end.

(** Lines 209 to 230, the top half sphere: [zmax] and the mesh. *)
Definition top_half_sphere (current : SupportElement) (p2 v1 : Vec3 F)
    (prev_strip : Z * Z) (its : indexed_triangle_set F)
    : option (F * indexed_triangle_set F) :=
  let ncurrent := v1 in
  let radius := element_radius current in
  let '(nsteps, angle_step) := cap_steps radius in
  match top_rings (Z.to_nat nsteps) p2 ncurrent radius
                  (to_float (fdiv m_pi (of_Z 2))) angle_step prev_strip its with
  | None => None
  | Some (prev_strip', its1) =>
      let ifan := Z.of_nat (length (vertices its1)) in
      let pole := v3cast32 (v3add p2 (v3scale ncurrent radius)) in
      let its2 := mkITS (vertices its1 ++ [pole]) (indices its1) in
      let zmax := pz pole in
      match triangulate_fan true its2 ifan (fst prev_strip') (snd prev_strip') with
      | None => None
      | Some its3 => Some (zmax, its3)
      end
  end.

(** Lines 231 to 243, a ring between two segments of the path. *)
Definition middle_ring (current next : SupportElement) (p2 v1 : Vec3 F)
    (prev_strip : Z * Z) (its : indexed_triangle_set F)
    : option ((Z * Z) * indexed_triangle_set F) :=
  let p3 := position3 next in
  let v2 := normalized3 (v3sub p3 p2) in
  let ncurrent := normalized3 (v3add v1 v2) in
  let radius := element_radius current in
  match discretize_circle (v3cast32 p2) (v3cast32 ncurrent) radius tube_eps
                          (vertices its) with
  | None => None
  | Some (b, e, pts) =>
      match strip_between (mkITS pts (indices its)) prev_strip (b, e) with
      | None => None
      | Some its2 => Some ((b, e), its2)
      end
  end.

(** The loop at line 180: [prev] is [*path[ipath - 1]], [rest] the
    elements from [*path[ipath]] on, [first] tells [ipath == 1], and
    [zmin] is unset until the bottom half sphere is made. Returning
    [zmin] or [zmax] unset is undefined. *)
Fixpoint extrude_loop (first : bool) (prev : SupportElement)
    (rest : list SupportElement) (prev_strip : Z * Z) (zmin : option F)
    (its : indexed_triangle_set F)
    : option (F * F * indexed_triangle_set F) :=
  match rest with
  | [] => None
  | current :: rest' =>
      let p1 := position3 prev in
      let p2 := position3 current in
      let v1 := normalized3 (v3sub p2 p1) in
      match (if first then
               match bottom_half_sphere prev p1 v1 prev_strip its with
               | None => None
               | Some (prev_strip', z, its') => Some (prev_strip', Some z, its')
               end
             else Some (prev_strip, zmin, its)) with
      | None => None
      | Some (prev_strip1, zmin1, its1) =>
          match rest' with
          | [] =>
              match top_half_sphere current p2 v1 prev_strip1 its1, zmin1 with
              | Some (zmax, its2), Some z => Some (z, zmax, its2)
              | _, _ => None
              end
          | next :: _ =>
              match middle_ring current next p2 v1 prev_strip1 its1 with
              | None => None
              | Some (strip, its2) =>
                  extrude_loop false current rest' strip zmin1 its2
              end
          end
      end
  end.

(** [extrude_branch(path, config, slicing_params, move_bounds, result)]:
    [path] holds the elements that the pointers of the path designate.
    [prev_strip] is a pair of zeros at first. *)
Definition extrude_branch (path : list SupportElement)
    (result : indexed_triangle_set F)
    : option (F * F * indexed_triangle_set F) :=
  match path with
  | [] => None
  | prev :: rest => extrude_loop true prev rest (0, 0)%Z None result
  end.

(** ** Vocabulary *)

(** The radii of the circles of a half sphere: [n] rounds from [angle]
    on, [next] the step of the angle. *)
Fixpoint cap_radii (next : F -> F -> F) (n : nat) (radius angle angle_step : F)
    : list F :=
  match n with
  | O => []
  | S n' =>
      fmul32 radius (sin32 L angle)
      :: cap_radii next n' radius (next angle angle_step) angle_step
  end.

Definition bottom_radii (prev : SupportElement) : list F :=
  let radius := element_radius prev in
  cap_radii fadd32 (Z.to_nat (fst (cap_steps radius) - 1)) radius
            (snd (cap_steps radius)) (snd (cap_steps radius)).

Definition top_radii (current : SupportElement) : list F :=
  let radius := element_radius current in
  cap_radii fsub32 (Z.to_nat (fst (cap_steps radius))) radius
            (to_float (fdiv m_pi (of_Z 2))) (snd (cap_steps radius)).

(** The radii of the circles from [*path[ipath]] on. *)
Fixpoint tube_radii (rest : list SupportElement) : list F :=
  match rest with
  | [] => []
  | current :: rest' =>
      match rest' with
      | [] => top_radii current
      | _ :: _ => element_radius current :: tube_radii rest'
      end
  end.

(** The radii of all circles that [extrude_branch] discretizes, in the
    order of the calls. *)
Definition ring_radii (path : list SupportElement) : list F :=
  match path with
  | [] => []
  | prev :: rest => bottom_radii prev ++ tube_radii rest
  end.

(** The scalar product. *)
Definition dot3 (a b : Vec3 F) : F :=
  fadd (fadd (fmul (px a) (px b)) (fmul (py a) (py b))) (fmul (pz a) (pz b)).

(** A face whose three indices are below [n]. *)
Definition face_in_range (n : Z) (t : Triangle) : Prop :=
  let '(a, b, c) := t in
  (0 <= a < n)%Z /\ (0 <= b < n)%Z /\ (0 <= c < n)%Z.

(** Every face of the mesh joins three of its vertices. *)
Definition mesh_indexed (its : indexed_triangle_set F) : Prop :=
  Forall (face_in_range (Z.of_nat (length (vertices its)))) (indices its).

(** What [prev_strip] is between two steps on a mesh of [n] vertices: a
    range of vertices, or an empty range at a vertex. *)
Definition ring_ok (n : Z) (ps : Z * Z) : Prop :=
  (0 <= fst ps <= snd ps)%Z /\ (snd ps <= n)%Z /\ (fst ps < n)%Z.

Definition ring_size (ps : Z * Z) : Z := (snd ps - fst ps)%Z.

(** The steps of all the circles of the given radii. *)
Definition total_steps (radii : list F) : Z :=
  fold_right (fun r n => (circle_steps tube_eps r + n)%Z) 0%Z radii.

(** Some steps of the mesher lead from the mesh [its] with the last
    ring [ps] to the mesh [its'] with the last ring [ps']: they add [n]
    vertices and some faces, the faces join vertices of [its'], and each
    ring vertex accounts for two faces, one of them still to come for
    the vertices of the last ring. *)
Definition grows (n : Z) (its its' : indexed_triangle_set F) (ps ps' : Z * Z)
    : Prop :=
  exists dv df,
    vertices its' = vertices its ++ dv /\
    indices its' = indices its ++ df /\
    Z.of_nat (length dv) = n /\
    (Z.of_nat (length df) + ring_size ps' = 2 * n + ring_size ps)%Z /\
    Forall (face_in_range (Z.of_nat (length (vertices its')))) df /\
    ring_ok (Z.of_nat (length (vertices its'))) ps'.

(** The steps that end a tube lead from [its] with the last ring [ps]
    to [its']: they add [n] ring vertices and a last vertex of height
    [zmax], and two faces for each ring vertex. *)
Definition closes (n : Z) (its its' : indexed_triangle_set F) (ps : Z * Z)
    (zmax : F) : Prop :=
  exists dv df pole,
    vertices its' = vertices its ++ dv ++ [pole] /\
    zmax = pz pole /\
    indices its' = indices its ++ df /\
    Z.of_nat (length dv) = n /\
    (Z.of_nat (length df) = 2 * n + ring_size ps)%Z /\
    Forall (face_in_range (Z.of_nat (length (vertices its')))) df.
End Tube.

Arguments Libm F : clear implicits.

(** The C library in exact arithmetic; [int(x)] rounds towards zero. *)
Definition real_libm : Libm R :=
  mkLibm Ratan.acos (fun x => IZR (Zceil x)) cos sin
         (fun x => if Rle_dec 0 x then Zfloor x else Zceil x).

(** ** A tube of three elements

    The C library is stood in for by the first terms of the series of
    its functions, which are good to a few digits on the angles of the
    example. The elements have a radius of 1 mm (the externals of the
    scenario of the solver) and climb by a layer and 0.1 mm each. *)
Module TubeExample.

Definition FP : Type := PrimFloat.float.

(** The integer part of a float. *)
Definition truncate (x : FP) : Z :=
  match FloatOps.Prim2SF x with
  | SpecFloat.S754_finite s m e =>
      let n := (if (0 <=? e)%Z then Zpos m * 2 ^ e else Zpos m / 2 ^ (- e))%Z in
      if s then (- n)%Z else n
  | _ => 0%Z
  end.

Definition ceiling (x : FP) : FP :=
  let t : FP := of_Z (truncate x) in
  if fltb t x then fadd t (of_Z 1) else t.

Definition cosine (x : FP) : FP :=
  let x2 := fmul x x in
  fsub (of_Z 1)
       (fmul x2 (fsub (lit 1 2)
                      (fmul x2 (fsub (lit 1 24)
                                     (fmul x2 (fsub (lit 1 720)
                                                    (fmul x2 (lit 1 40320)))))))).

Definition sine (x : FP) : FP :=
  let x2 := fmul x x in
  fmul x
       (fsub (of_Z 1)
             (fmul x2 (fsub (lit 1 6)
                            (fmul x2 (fsub (lit 1 120)
                                           (fmul x2 (fsub (lit 1 5040)
                                                          (fmul x2 (lit 1 362880))))))))).

(** [acos] of a number a little below 1. *)
Definition arccos (x : FP) : FP :=
  let d := fsub (of_Z 1) x in
  fmul (fsqrt (fmul (of_Z 2) d))
       (fadd (of_Z 1) (fmul d (fadd (lit 1 12) (fmul d (lit 3 160))))).

Definition libm : Libm FP :=
  mkLibm arccos ceiling
         (fun x => to_float (cosine x)) (fun x => to_float (sine x))
         truncate.

Definition element_at (l x : Z) : SupportElement :=
  mkElement (mkState l (x, 0)%Z false false false false) [0%Z].

Definition path : list SupportElement :=
  [ element_at 0 0; element_at 1 100000; element_at 2 200000 ].

Definition empty_mesh : indexed_triangle_set FP := mkITS [] [].
End TubeExample.

(* ===================================================================== *)
(** * Lemmas: indexing and in-place updates *)
(* ===================================================================== *)

Section IndexingFacts.
Context {A : Type}.

Lemma nth_error_update_nth_eq :
  forall (f : A -> A) (l : list A) (n : nat),
    nth_error (update_nth n f l) n = option_map f (nth_error l n).
Proof.
  intros f. induction l as [|x l IH]; intros [|n]; simpl; auto.
Qed.

Lemma nth_error_update_nth_ne :
  forall (f : A -> A) (l : list A) (n m : nat),
    n <> m -> nth_error (update_nth n f l) m = nth_error l m.
Proof.
  intros f. induction l as [|x l IH]; intros [|n] [|m] H; simpl; auto;
    congruence.
Qed.

Lemma length_update_nth :
  forall (f : A -> A) (l : list A) (n : nat),
    length (update_nth n f l) = length l.
Proof.
  intros f. induction l as [|x l IH]; intros [|n]; simpl; auto.
Qed.

Lemma lookupZ_updateZ_eq :
  forall (f : A -> A) (l : list A) (i : Z),
    lookupZ (updateZ l i f) i = option_map f (lookupZ l i).
Proof.
  intros f l i. unfold lookupZ, updateZ.
  destruct (i <? 0)%Z; [reflexivity|]. apply nth_error_update_nth_eq.
Qed.

Lemma lookupZ_updateZ_ne :
  forall (f : A -> A) (l : list A) (i j : Z),
    i <> j -> lookupZ (updateZ l i f) j = lookupZ l j.
Proof.
  intros f l i j H. unfold lookupZ, updateZ.
  destruct (i <? 0)%Z eqn:Hi; [reflexivity|].
  destruct (j <? 0)%Z eqn:Hj; [reflexivity|].
  apply nth_error_update_nth_ne.
  apply Z.ltb_ge in Hi. apply Z.ltb_ge in Hj. lia.
Qed.

Lemma lookupZ_Some_range :
  forall (l : list A) (i : Z) (x : A),
    lookupZ l i = Some x -> (0 <= i < Z.of_nat (length l))%Z.
Proof.
  unfold lookupZ. intros l i x H.
  destruct (i <? 0)%Z eqn:Hi; [discriminate|].
  apply Z.ltb_ge in Hi.
  assert (nth_error l (Z.to_nat i) <> None) by congruence.
  apply nth_error_Some in H0. lia.
Qed.

Lemma lookupZ_in_range :
  forall (l : list A) (i : Z),
    (0 <= i < Z.of_nat (length l))%Z -> exists x, lookupZ l i = Some x.
Proof.
  unfold lookupZ. intros l i H.
  destruct (i <? 0)%Z eqn:Hi; [apply Z.ltb_lt in Hi; lia|].
  destruct (nth_error l (Z.to_nat i)) eqn:E; [eauto|].
  apply nth_error_None in E. lia.
Qed.

Lemma length_updateZ :
  forall (f : A -> A) (l : list A) (i : Z), length (updateZ l i f) = length l.
Proof.
  intros. unfold updateZ. destruct (i <? 0)%Z; [reflexivity|].
  apply length_update_nth.
Qed.
End IndexingFacts.

(* ===================================================================== *)
(** * Theorems: the strip triangulation *)
(* ===================================================================== *)

Section MesherFacts.
Context {F : Type} {A : Arith F}.

Lemma index_range_bounds :
  forall b e i, In i (index_range b e) -> (b <= i < e)%Z.
Proof.
  unfold index_range. intros b e i H.
  apply in_map_iff in H. destruct H as (k & <- & Hk).
  apply in_seq in Hk. lia.
Qed.

Lemma next_on_ring_bounds :
  forall ibegin iend i,
    (ibegin <= i < iend)%Z -> (ibegin <= next_on_ring ibegin iend i < iend)%Z.
Proof.
  unfold next_on_ring. intros ibegin iend i H.
  destruct (Z.eqb_spec (i + 1) iend); lia.
Qed.

Lemma closest_fold_bounds :
  forall (vs : list (Vec3 F)) (p1 : Vec3 F) (lo hi : Z) (l : list Z) (d : F) (i0 : Z),
    (0 <= lo)%Z -> (hi <= Z.of_nat (length vs))%Z ->
    (forall i, In i l -> (lo <= i < hi)%Z) ->
    (lo <= i0 < hi)%Z ->
    exists d' i',
      fold_left (closest_step vs p1) l (Some (d, i0)) = Some (d', i') /\
      (lo <= i' < hi)%Z.
Proof.
  intros vs p1 lo hi l. induction l as [|i l IH]; intros d i0 Hlo Hhi Hr Hi; simpl.
  - eauto.
  - assert (Hb : (lo <= i < hi)%Z) by (apply Hr; left; reflexivity).
    destruct (lookupZ_in_range vs i) as [p2 ->]; [lia|]. cbv zeta.
    destruct (fltb _ d); apply IH; auto; intros j Hj; apply Hr; right; exact Hj.
Qed.

(** The search for the closest vertex ends on an index of the second ring. *)
Lemma closest_on_second_bounds :
  forall (vs : list (Vec3 F)) ibegin1 ibegin2 iend2,
    (0 <= ibegin1 < Z.of_nat (length vs))%Z ->
    (0 <= ibegin2)%Z -> (ibegin2 < iend2)%Z ->
    (iend2 <= Z.of_nat (length vs))%Z ->
    exists istart2,
      closest_on_second vs ibegin1 ibegin2 iend2 = Some istart2 /\
      (ibegin2 <= istart2 < iend2)%Z.
Proof.
  intros vs ibegin1 ibegin2 iend2 H1 H2 H3 H4. unfold closest_on_second.
  destruct (lookupZ_in_range vs ibegin1 H1) as [p1 ->].
  destruct (closest_fold_bounds vs p1 ibegin2 iend2 (index_range ibegin2 iend2)
              flt_max ibegin2 H2 H4 (index_range_bounds ibegin2 iend2))
    as (d' & i' & -> & Hi); [lia|].
  exists i'. split; [reflexivity | exact Hi].
Qed.

(** The zig-zag loop, entered with [n1] and [n2] vertices left on rings
    that lie inside the vertex buffer, ends when the fuel is at least
    [n1 + n2] and appends exactly that many triangles, all indexed on the
    two rings. *)
Lemma strip_loop_spec :
  forall (vs : list (Vec3 F)) ibegin1 iend1 ibegin2 iend2,
    (0 <= ibegin1)%Z -> (iend1 <= Z.of_nat (length vs))%Z ->
    (0 <= ibegin2)%Z -> (iend2 <= Z.of_nat (length vs))%Z ->
    forall fuel u v n1 n2 idx,
      (ibegin1 <= u < iend1)%Z -> (ibegin2 <= v < iend2)%Z ->
      (0 <= n1)%Z -> (0 <= n2)%Z ->
      (Z.to_nat (n1 + n2) <= fuel)%nat ->
      exists new,
        strip_loop fuel vs ibegin1 iend1 ibegin2 iend2 u v n1 n2 idx
          = Some (idx ++ new) /\
        length new = Z.to_nat (n1 + n2) /\
        Forall (triangle_on_rings ibegin1 iend1 ibegin2 iend2) new.
Proof.
  intros vs ibegin1 iend1 ibegin2 iend2 Hb1 He1 Hb2 He2.
  induction fuel as [|fuel IH]; intros u v n1 n2 idx Hu Hv Hn1 Hn2 Hf;
    cbn [strip_loop].
  - assert (n1 = 0 /\ n2 = 0)%Z as [-> ->] by lia. simpl.
    exists []. rewrite app_nil_r. repeat split. constructor.
  - destruct ((0 <? n1)%Z || (0 <? n2)%Z)%bool eqn:Hc.
    + pose proof (next_on_ring_bounds ibegin1 iend1 u Hu) as Hu2.
      pose proof (next_on_ring_bounds ibegin2 iend2 v Hv) as Hv2.
      set (u2 := next_on_ring ibegin1 iend1 u) in *.
      set (v2 := next_on_ring ibegin2 iend2 v) in *.
      assert (Htake1 :
        (0 < n1)%Z ->
        exists new,
          strip_loop fuel vs ibegin1 iend1 ibegin2 iend2 u2 v (n1 - 1) n2
                     (idx ++ [(u, u2, v)]) = Some (idx ++ new) /\
          length new = Z.to_nat (n1 + n2) /\
          Forall (triangle_on_rings ibegin1 iend1 ibegin2 iend2) new).
      { intros Hpos.
        destruct (IH u2 v (n1 - 1)%Z n2 (idx ++ [(u, u2, v)])) as (new' & E & Hl & Hall);
          try lia.
        exists ((u, u2, v) :: new'). split; [|split].
        - rewrite E, <- app_assoc. reflexivity.
        - cbn [length]. rewrite Hl. lia.
        - constructor; [|exact Hall].
          unfold triangle_on_rings, on_rings. lia. }
      assert (Htake2 :
        (0 < n2)%Z ->
        exists new,
          strip_loop fuel vs ibegin1 iend1 ibegin2 iend2 u v2 n1 (n2 - 1)
                     (idx ++ [(u, v2, v)]) = Some (idx ++ new) /\
          length new = Z.to_nat (n1 + n2) /\
          Forall (triangle_on_rings ibegin1 iend1 ibegin2 iend2) new).
      { intros Hpos.
        destruct (IH u v2 n1 (n2 - 1)%Z (idx ++ [(u, v2, v)])) as (new' & E & Hl & Hall);
          try lia.
        exists ((u, v2, v) :: new'). split; [|split].
        - rewrite E, <- app_assoc. reflexivity.
        - cbn [length]. rewrite Hl. lia.
        - constructor; [|exact Hall].
          unfold triangle_on_rings, on_rings. lia. }
      apply orb_true_iff in Hc. rewrite !Z.ltb_lt in Hc.
      destruct (Z.eqb_spec n1 0) as [E1|E1].
      * apply Htake2. lia.
      * destruct (Z.eqb_spec n2 0) as [E2|E2].
        -- apply Htake1. lia.
        -- destruct (lookupZ_in_range vs u2) as [pu2 ->]; [lia|].
           destruct (lookupZ_in_range vs v) as [pv ->]; [lia|].
           destruct (lookupZ_in_range vs v2) as [pv2 ->]; [lia|].
           destruct (lookupZ_in_range vs u) as [pu ->]; [lia|].
           destruct (fltb _ _); [apply Htake1 | apply Htake2]; lia.
    + apply orb_false_iff in Hc. rewrite !Z.ltb_ge in Hc.
      assert (n1 = 0 /\ n2 = 0)%Z as [-> ->] by lia. simpl.
      exists []. rewrite app_nil_r. repeat split. constructor.
Qed.

End MesherFacts.

(** C9. For two vertex rings [[ibegin1, iend1)] and [[ibegin2, iend2)] of
    at least three vertices each, lying inside the vertex buffer (the
    assertions at the head of [triangulate_strip]), the call returns, the
    vertices are untouched, exactly [n1 + n2] triangles are appended to
    the index buffer, and every index of every appended triangle lies in
    one of the two rings. This holds whatever the floating-point
    comparisons answer, and for every amount of fuel of at least
    [n1 + n2]. *)
Theorem triangulate_strip_appends :
  forall (F : Type) (A : Arith F) (its : indexed_triangle_set F)
         (ibegin1 iend1 ibegin2 iend2 : Z) (fuel : nat),
    (ibegin1 + 3 <= iend1)%Z ->
    (0 <= ibegin1)%Z -> (iend1 <= Z.of_nat (length (vertices its)))%Z ->
    (ibegin2 + 3 <= iend2)%Z ->
    (0 <= ibegin2)%Z -> (iend2 <= Z.of_nat (length (vertices its)))%Z ->
    (Z.to_nat ((iend1 - ibegin1) + (iend2 - ibegin2)) <= fuel)%nat ->
    exists new,
      triangulate_strip fuel its ibegin1 iend1 ibegin2 iend2
        = Some (mkITS (vertices its) (indices its ++ new)) /\
      Z.of_nat (length new) = ((iend1 - ibegin1) + (iend2 - ibegin2))%Z /\
      Forall (triangle_on_rings ibegin1 iend1 ibegin2 iend2) new.
Proof.
  intros F A its ibegin1 iend1 ibegin2 iend2 fuel H1 H2 H3 H4 H5 H6 Hf.
  unfold triangulate_strip.
  destruct (closest_on_second_bounds (vertices its) ibegin1 ibegin2 iend2)
    as (istart2 & -> & Hs); try lia.
  destruct (strip_loop_spec (vertices its) ibegin1 iend1 ibegin2 iend2 H2 H3 H5 H6
              fuel ibegin1 istart2 (iend1 - ibegin1)%Z (iend2 - ibegin2)%Z (indices its))
    as (new & -> & Hl & Hall); try lia.
  exists new. repeat split; [lia | exact Hall].
Qed.

(** Two squares of four vertices satisfy the hypotheses of
    [triangulate_strip_appends]; eight triangles are appended. *)
Lemma triangulate_strip_appends_two_squares :
  exists new,
    triangulate_strip 8 two_squares 0 4 4 8
      = Some (mkITS (vertices two_squares) (indices two_squares ++ new)) /\
    Z.of_nat (length new) = ((4 - 0) + (8 - 4))%Z /\
    Forall (triangle_on_rings 0 4 4 8) new.
Proof.
  apply (triangulate_strip_appends PrimFloat.float FloatArith two_squares 0 4 4 8 8);
    simpl; lia.
Defined.

(* ===================================================================== *)
(** * Theorems: branch extraction *)
(* ===================================================================== *)

Section ExtractorFacts.

Ltac inv H := inversion H; subst; clear H.

(** ** Marking changes nothing but the [marked] flag *)

Lemma get_update_element :
  forall mb r f r',
    get_element (update_element mb r f) r' =
    if (Z.eqb (fst r) (fst r') && Z.eqb (snd r) (snd r'))%bool
    then option_map f (get_element mb r')
    else get_element mb r'.
Proof.
  intros mb [l i] f [l' i']. unfold get_element, update_element. simpl.
  destruct (Z.eqb_spec l l') as [<-|Hl]; simpl.
  - rewrite lookupZ_updateZ_eq.
    destruct (lookupZ mb l) as [layer|]; simpl.
    + destruct (Z.eqb_spec i i') as [<-|Hi].
      * apply lookupZ_updateZ_eq.
      * apply lookupZ_updateZ_ne; assumption.
    + destruct (i =? i')%Z; reflexivity.
  - rewrite lookupZ_updateZ_ne by assumption. reflexivity.
Qed.

Lemma marks_only_refl : forall mb, marks_only mb mb.
Proof.
  intros mb r. destruct (get_element mb r); [|exact I].
  unfold same_but_marked. tauto.
Qed.

Lemma marks_only_trans :
  forall a b c, marks_only a b -> marks_only b c -> marks_only a c.
Proof.
  intros a b c H1 H2 r. specialize (H1 r). specialize (H2 r).
  destruct (get_element a r), (get_element b r), (get_element c r);
    try tauto.
  unfold same_but_marked in *. intuition congruence.
Qed.

Lemma marks_only_set_marked :
  forall mb r b, marks_only mb (update_element mb r (set_marked b)).
Proof.
  intros mb r b r'. rewrite get_update_element.
  destruct (get_element mb r') as [e|];
    destruct ((fst r =? fst r')%Z && (snd r =? snd r')%Z)%bool; simpl; auto;
    unfold same_but_marked; simpl; tauto.
Qed.

Lemma walk_single_parents_marks_only :
  forall fuel mb parent pth mb' pth' nb,
    walk_single_parents fuel mb parent pth = Some (mb', pth', nb) ->
    marks_only mb mb'.
Proof.
  induction fuel as [|fuel IH]; simpl; intros mb parent pth mb' pth' nb H.
  - discriminate.
  - destruct (get_element mb parent) as [p|]; [|discriminate H].
    destruct (parents p) as [|front ?]; [discriminate|].
    destruct (get_element mb _) as [np|]; [|discriminate H].
    destruct (1 <? length (parents np))%nat.
    + inv H. apply marks_only_refl.
    + destruct (length (parents np) =? 0)%nat.
      * inv H. apply marks_only_set_marked.
      * apply IH in H.
        eapply marks_only_trans; [apply marks_only_set_marked | exact H].
Qed.

Lemma trace_branch_marks_only :
  forall fuel mb start la root p mb1 b nb,
    trace_branch fuel mb start la root p = Some (mb1, b, nb) ->
    marks_only mb mb1.
Proof.
  unfold trace_branch. intros fuel mb start la root p mb1 b nb H.
  destruct (get_element mb _) as [fp|]; [|discriminate H].
  cbv zeta in H.
  assert (Hm : marks_only mb
                 (if (length (parents fp) <? 2)%nat
                  then update_element mb (la, p) (set_marked true) else mb)).
  { destruct (length (parents fp) <? 2)%nat;
      [apply marks_only_set_marked | apply marks_only_refl]. }
  destruct (length (parents fp) =? 1)%nat; cbv beta iota in H.
  - destruct (walk_single_parents _ _ _ _)
      as [[[m q] n]|] eqn:W; [|discriminate H].
    inv H. apply walk_single_parents_marks_only in W.
    eapply marks_only_trans; eassumption.
  - destruct (1 <? length (parents fp))%nat; cbv beta iota in H;
      inv H; assumption.
Qed.

Lemma visit_parents_marks_only :
  forall recurse fuel start la root,
    (forall mb s out mb' out',
        recurse mb s out = Some (mb', out') -> marks_only mb mb') ->
    forall ps mb out mb' out',
      visit_parents recurse fuel start la root ps mb out = Some (mb', out') ->
      marks_only mb mb'.
Proof.
  intros recurse fuel start la root Hrec.
  induction ps as [|p ps IH]; simpl; intros mb out mb' out' H.
  - inv H. apply marks_only_refl.
  - destruct (trace_branch _ _ _ _ _ _) as [[[mb1 b] nb]|] eqn:T;
      [|discriminate H].
    apply trace_branch_marks_only in T.
    destruct nb as [nb|].
    + destruct (recurse _ _ _) as [[mb2 out2]|] eqn:R; [|discriminate H].
      apply Hrec in R. apply IH in H.
      eapply marks_only_trans; [exact T|].
      eapply marks_only_trans; eassumption.
    + apply IH in H. eapply marks_only_trans; eassumption.
Qed.

Lemma visit_recursive_marks_only :
  forall fuel mb start out mb' out',
    visit_recursive fuel mb start out = Some (mb', out') ->
    marks_only mb mb'.
Proof.
  induction fuel as [|fuel IH]; simpl; intros mb start out mb' out' H.
  - discriminate.
  - destruct (get_element mb start) as [e|]; [|discriminate H].
    apply visit_parents_marks_only in H; [|exact IH].
    eapply marks_only_trans; [apply marks_only_set_marked | exact H].
Qed.

(** ** Which branches carry [has_root] *)

(** Walking up a chain of single parents only appends to the path. *)
Lemma walk_single_parents_path :
  forall fuel mb parent pth mb' pth' nb,
    walk_single_parents fuel mb parent pth = Some (mb', pth', nb) ->
    exists ext, pth' = pth ++ ext.
Proof.
  induction fuel as [|fuel IH]; simpl; intros mb parent pth mb' pth' nb H.
  - discriminate.
  - destruct (get_element mb parent) as [p|]; [|discriminate H].
    destruct (parents p) as [|front ?]; [discriminate|].
    destruct (get_element mb _) as [np|]; [|discriminate H].
    destruct (1 <? length (parents np))%nat.
    + inv H. eauto.
    + destruct (length (parents np) =? 0)%nat.
      * inv H. eauto.
      * apply IH in H. destruct H as [ext ->].
        rewrite <- app_assoc. eauto.
Qed.

(** A traced branch starts at the split point it was traced from and
    carries the [root] flag it was given. *)
Lemma trace_branch_spec :
  forall fuel mb start la root p mb1 b nb,
    trace_branch fuel mb start la root p = Some (mb1, b, nb) ->
    has_root b = root /\ hd_error (path b) = Some start /\
    has_tip b = match nb with None => true | Some _ => false end.
Proof.
  unfold trace_branch. intros fuel mb start la root p mb1 b nb H.
  destruct (get_element mb _) as [fp|]; [|discriminate H].
  cbv zeta in H.
  remember (if (length (parents fp) <? 2)%nat
            then update_element mb (la, p) (set_marked true) else mb) as mbm.
  destruct (length (parents fp) =? 1)%nat; cbv beta iota in H.
  - destruct (walk_single_parents _ _ _ _)
      as [[[m q] n]|] eqn:W; [|discriminate H].
    inv H. apply walk_single_parents_path in W. destruct W as [ext ->].
    simpl. auto.
  - destruct (1 <? length (parents fp))%nat; cbv beta iota in H;
      inv H; simpl; auto.
Qed.

Lemma visit_parents_added :
  forall recurse fuel start la root,
    adds_no_root recurse ->
    forall ps mb out mb' out',
      visit_parents recurse fuel start la root ps mb out = Some (mb', out') ->
      exists new,
        branches out' = branches out ++ new /\
        added_branches start root (length ps) new.
Proof.
  intros recurse fuel start la root Hrec.
  induction ps as [|p ps IH]; simpl; intros mb out mb' out' H.
  - inv H. exists []. rewrite app_nil_r. split; [reflexivity|].
    repeat split; [destruct root; reflexivity | constructor | congruence].
  - destruct (trace_branch fuel mb start la root p) as [[[mb1 b] nb]|] eqn:T;
      [|discriminate H].
    apply trace_branch_spec in T. destruct T as (Hr & Hh & _).
    set (out1 := mkTree (branches out ++ [b])) in *.
    assert (Hne : branches out1 <> []).
    { unfold out1; simpl. destruct (branches out); discriminate. }
    assert (Hmid : exists mb2 out2 mid,
               visit_parents recurse fuel start la root ps mb2 out2 = Some (mb', out')
               /\ branches out2 = branches out1 ++ mid
               /\ filter has_root mid = []).
    { destruct nb as [nb|].
      - destruct (recurse mb1 nb out1) as [[mb2 out2]|] eqn:R; [|discriminate H].
        destruct (Hrec _ _ _ _ _ R Hne) as (mid & E & Hf).
        exists mb2, out2, mid. auto.
      - exists mb1, out1, []. rewrite app_nil_r. auto. }
    destruct Hmid as (mb2 & out2 & mid & V & E2 & Hmid).
    destruct (IH _ _ _ _ V) as (new & E & Hc & Hall & Hfirst).
    exists (b :: mid ++ new). split.
    + rewrite E, E2. unfold out1; simpl.
      rewrite <- !app_assoc. reflexivity.
    + repeat split.
      * simpl. rewrite Hr, filter_app, Hmid. simpl.
        destruct root; simpl; [rewrite Hc; reflexivity | exact Hc].
      * constructor; [auto|].
        apply Forall_app. split; [|exact Hall].
        apply Forall_forall. intros x Hx Hroot.
        assert (In x (filter has_root mid)) by (apply filter_In; auto).
        rewrite Hmid in H0. destruct H0.
      * intros _. exists b, (mid ++ new). auto.
Qed.

Lemma visit_recursive_added :
  forall fuel mb start out mb' out',
    visit_recursive fuel mb start out = Some (mb', out') ->
    exists e new,
      get_element mb start = Some e /\
      branches out' = branches out ++ new /\
      added_branches start (match branches out with [] => true | _ => false end)
                     (length (parents e)) new.
Proof.
  induction fuel as [|fuel IH]; simpl; intros mb start out mb' out' H.
  - discriminate.
  - destruct (get_element mb start) as [e|] eqn:G; [|discriminate H].
    apply visit_parents_added in H.
    + destruct H as (new & E & Hsp). exists e, new. auto.
    + intros m s o m' o' R Hne.
      destruct (IH _ _ _ _ _ R) as (e' & new & _ & E & Hc & _).
      exists new. split; [exact E|].
      destruct (branches o); [congruence|].
      destruct (filter has_root new); [reflexivity|discriminate].
Qed.

(** ** Branches of bifurcations start above the start element *)

Lemma marks_only_layers_consistent :
  forall mb mb', marks_only mb mb' -> layers_consistent mb -> layers_consistent mb'.
Proof.
  intros mb mb' Hm Hc r e' G. specialize (Hm r). rewrite G in Hm.
  destruct (get_element mb r) as [e|] eqn:G0; [|contradiction].
  destruct Hm as (_ & Hl & _). rewrite Hl. apply (Hc r e G0).
Qed.

Lemma walk_single_parents_above :
  forall fuel mb parent pth mb' pth' nb,
    layers_consistent mb ->
    walk_single_parents fuel mb parent pth = Some (mb', pth', Some nb) ->
    (fst parent < fst nb)%Z.
Proof.
  induction fuel as [|fuel IH]; simpl; intros mb parent pth mb' pth' nb Hc H.
  - discriminate.
  - destruct (get_element mb parent) as [p|] eqn:G; [|discriminate H].
    apply Hc in G.
    destruct (parents p) as [|front ?]; [discriminate|].
    destruct (get_element mb _) as [np|]; [|discriminate H].
    destruct (1 <? length (parents np))%nat.
    + inv H. simpl. lia.
    + destruct (length (parents np) =? 0)%nat; [discriminate|].
      apply IH in H.
      * simpl in H. lia.
      * eapply marks_only_layers_consistent;
          [apply marks_only_set_marked | exact Hc].
Qed.

Lemma trace_branch_above :
  forall fuel mb start la root p mb1 b nb,
    layers_consistent mb ->
    trace_branch fuel mb start la root p = Some (mb1, b, Some nb) ->
    (la <= fst nb)%Z.
Proof.
  unfold trace_branch. intros fuel mb start la root p mb1 b nb Hc H.
  destruct (get_element mb _) as [fp|]; [|discriminate H].
  cbv zeta in H.
  assert (Hm : layers_consistent
                 (if (length (parents fp) <? 2)%nat
                  then update_element mb (la, p) (set_marked true) else mb)).
  { destruct (length (parents fp) <? 2)%nat; [|exact Hc].
    eapply marks_only_layers_consistent;
      [apply marks_only_set_marked | exact Hc]. }
  destruct (length (parents fp) =? 1)%nat; cbv beta iota in H.
  - destruct (walk_single_parents _ _ _ _)
      as [[[m q] n]|] eqn:W; [|discriminate H].
    inv H. apply walk_single_parents_above in W; [|exact Hm].
    simpl in W. lia.
  - destruct (1 <? length (parents fp))%nat; cbv beta iota in H;
      inv H. simpl. lia.
Qed.

Lemma heads_from_weaken :
  forall l l' new, (l <= l')%Z -> heads_from l' new -> heads_from l new.
Proof.
  intros l l' new Hl H. unfold heads_from in *.
  eapply Forall_impl; [|exact H].
  intros b (r & Hr & Hle). exists r. split; [exact Hr | lia].
Qed.

Lemma visit_parents_heads :
  forall recurse fuel start la root,
    (fst start <= la)%Z ->
    (forall mb s out mb' out',
        recurse mb s out = Some (mb', out') -> marks_only mb mb') ->
    (forall mb s out mb' out',
        layers_consistent mb ->
        recurse mb s out = Some (mb', out') ->
        exists new, branches out' = branches out ++ new /\ heads_from (fst s) new) ->
    forall ps mb out mb' out',
      layers_consistent mb ->
      visit_parents recurse fuel start la root ps mb out = Some (mb', out') ->
      exists new,
        branches out' = branches out ++ new /\
        heads_from (fst start) new /\
        Forall (fun b => has_root b = root \/
                         exists r, hd_error (path b) = Some r /\ (la <= fst r)%Z) new.
Proof.
  intros recurse fuel start la root Hla Hmarks Hrec.
  induction ps as [|p ps IH]; simpl; intros mb out mb' out' Hc H.
  - inv H. exists []. rewrite app_nil_r.
    repeat split; constructor.
  - destruct (trace_branch _ _ _ _ _ _) as [[[mb1 b] nb]|] eqn:T;
      [|discriminate H].
    pose proof (trace_branch_spec _ _ _ _ _ _ _ _ _ T) as (Hr & Hh & _).
    pose proof (trace_branch_marks_only _ _ _ _ _ _ _ _ _ T) as Hm1.
    assert (Hc1 : layers_consistent mb1)
      by (eapply marks_only_layers_consistent; eassumption).
    set (out1 := mkTree (branches out ++ [b])) in *.
    assert (Hmid : exists mb2 out2 mid,
               visit_parents recurse fuel start la root ps mb2 out2 = Some (mb', out')
               /\ branches out2 = branches out1 ++ mid
               /\ heads_from la mid /\ layers_consistent mb2).
    { destruct nb as [nb|].
      - destruct (recurse _ _ _) as [[mb2 out2]|] eqn:R; [|discriminate H].
        destruct (Hrec _ _ _ _ _ Hc1 R) as (mid & E & Hf).
        exists mb2, out2, mid. repeat split; auto.
        + apply heads_from_weaken with (l' := fst nb); [|exact Hf].
          eapply trace_branch_above; [exact Hc | exact T].
        + eapply marks_only_layers_consistent; [|exact Hc1]. eauto.
      - exists mb1, out1, []. rewrite app_nil_r.
        repeat split; auto. constructor. }
    destruct Hmid as (mb2 & out2 & mid & V & E2 & Hmid & Hc2).
    destruct (IH _ _ _ _ Hc2 V) as (new & E & Hall & Hor).
    exists (b :: mid ++ new). split; [|split].
    + rewrite E, E2. unfold out1; simpl.
      rewrite <- !app_assoc. reflexivity.
    + constructor.
      * exists start. split; [exact Hh | lia].
      * apply Forall_app. split; [|exact Hall].
        apply heads_from_weaken with (l' := la); assumption.
    + constructor; [left; exact Hr|].
      apply Forall_app. split; [|exact Hor].
      eapply Forall_impl; [|exact Hmid]. intros x Hx. right. exact Hx.
Qed.

Lemma visit_recursive_heads :
  forall fuel mb start out mb' out',
    layers_consistent mb ->
    visit_recursive fuel mb start out = Some (mb', out') ->
    exists new,
      branches out' = branches out ++ new /\
      heads_from (fst start) new /\
      Forall (fun b => has_root b = match branches out with [] => true | _ => false end \/
                       exists r, hd_error (path b) = Some r /\ (fst start < fst r)%Z) new.
Proof.
  induction fuel as [|fuel IH]; simpl; intros mb start out mb' out' Hc H.
  - discriminate.
  - destruct (get_element mb start) as [e|] eqn:G; [|discriminate H].
    pose proof (Hc _ _ G) as Hl.
    apply visit_parents_heads in H.
    + destruct H as (new & E & Hh & Hor). exists new. repeat split; auto.
      eapply Forall_impl; [|exact Hor].
      intros b [Hb|(r & Hr & Hle)]; [left; exact Hb|].
      right. exists r. split; [exact Hr | lia].
    + lia.
    + apply visit_recursive_marks_only.
    + intros m s o m' o' Hcm R.
      destruct (IH _ _ _ _ _ Hcm R) as (new & E & Hh & _). eauto.
    + eapply marks_only_layers_consistent;
        [apply marks_only_set_marked | exact Hc].
Qed.

Lemma nth_error_combine_seq :
  forall (A : Type) (l : list A) (s n : nat) (x : A),
    nth_error l n = Some x -> In ((s + n)%nat, x) (combine (seq s (length l)) l).
Proof.
  intros A. induction l as [|y l IH]; intros s [|n] x H; simpl in *;
    try discriminate.
  - inv H. left. f_equal. lia.
  - right. replace (s + S n)%nat with (S s + n)%nat by lia. apply IH. exact H.
Qed.

Lemma check_layers_sound :
  forall mb, check_layers mb = true -> layers_consistent mb.
Proof.
  unfold check_layers, layers_consistent, get_element, lookupZ.
  intros mb H [l i] e G. simpl in *.
  destruct (l <? 0)%Z eqn:Hl; [discriminate G|]. apply Z.ltb_ge in Hl.
  destruct (nth_error mb (Z.to_nat l)) as [layer|] eqn:E; [|discriminate G].
  destruct (i <? 0)%Z; [discriminate G|].
  rewrite forallb_forall in H.
  specialize (H _ (nth_error_combine_seq _ mb 0%nat _ _ E)). simpl in H.
  rewrite forallb_forall in H.
  apply nth_error_In in G. apply H in G.
  apply Z.eqb_eq in G. lia.
Qed.

Lemma check_parents_sound :
  forall mb r e p,
    check_parents mb = true ->
    get_element mb r = Some e -> In p (parents e) ->
    exists e', get_element mb ((fst r + 1)%Z, p) = Some e'.
Proof.
  unfold check_parents, get_element, lookupZ.
  intros mb [l i] e p H G Hp. simpl in *.
  destruct (l <? 0)%Z eqn:Hl; [discriminate G|]. apply Z.ltb_ge in Hl.
  destruct (nth_error mb (Z.to_nat l)) as [layer|] eqn:E; [|discriminate G].
  destruct (i <? 0)%Z; [discriminate G|].
  rewrite forallb_forall in H.
  specialize (H _ (nth_error_combine_seq _ mb 0%nat _ _ E)). simpl in H.
  rewrite forallb_forall in H.
  apply nth_error_In in G. apply H in G.
  rewrite forallb_forall in G. apply G in Hp.
  apply andb_prop in Hp. destruct Hp as [H0 H1].
  apply Z.leb_le in H0. apply Z.ltb_lt in H1.
  destruct (l + 1 <? 0)%Z eqn:Hl1; [apply Z.ltb_lt in Hl1; lia|].
  replace (Z.to_nat (l + 1)) with (S (Z.to_nat l)) by lia.
  destruct (nth_error mb (S (Z.to_nat l))) as [above|] eqn:Ea.
  - rewrite (nth_error_nth _ _ _ Ea) in H1.
    destruct (p <? 0)%Z eqn:Hp0; [apply Z.ltb_lt in Hp0; lia|].
    destruct (nth_error above (Z.to_nat p)) as [e'|] eqn:Ep; [eauto|].
    apply nth_error_None in Ep. lia.
  - apply nth_error_None in Ea. rewrite nth_overflow in H1 by exact Ea.
    simpl in H1. lia.
Qed.

Lemma check_well_formed_sound :
  forall n mb, check_well_formed n mb = true -> well_formed n mb.
Proof.
  unfold check_well_formed. intros n mb H.
  apply andb_prop in H. destruct H as [H Hp].
  apply andb_prop in H. destruct H as [Hc Hn]. apply Z.leb_le in Hn.
  split; [apply check_layers_sound; exact Hc|]. split.
  - intros [l i] e G. unfold get_element, lookupZ in G. simpl in *.
    destruct (l <? 0)%Z eqn:Hl; [discriminate G|]. apply Z.ltb_ge in Hl.
    destruct (nth_error mb (Z.to_nat l)) as [layer|] eqn:E; [|discriminate G].
    assert (Hlt : (Z.to_nat l < length mb)%nat).
    { apply nth_error_Some. rewrite E. discriminate. }
    lia.
  - intros r e p G Hin. eapply check_parents_sound; eassumption.
Qed.

(** ** The test on [lost] and [verylost] *)

Lemma visit_start_spec :
  forall fuel mb trees start e mb' trees',
    get_element mb start = Some e ->
    marked (state e) = false ->
    parents e <> [] ->
    visit_start fuel (mb, trees) start = Some (mb', trees') ->
    exists tree,
      visit_recursive fuel mb start empty_tree = Some (mb', tree) /\
      trees' = trees ++ (if lost (state e) || verylost (state e) then [tree] else []).
Proof.
  unfold visit_start. intros fuel mb trees start e mb' trees' G Hm Hp H.
  rewrite G, Hm in H.
  destruct (parents e) as [|p ps] eqn:Ep; [congruence|]. simpl in H.
  destruct (visit_recursive fuel mb start empty_tree) as [[mb1 tree]|] eqn:V;
    [|discriminate H].
  pose proof (visit_recursive_marks_only _ _ _ _ _ _ V start) as Hs.
  rewrite G in Hs.
  destruct (get_element mb1 start) as [e'|]; [|contradiction].
  destruct Hs as (_ & _ & _ & _ & Hlost & Hvery).
  rewrite Hlost, Hvery in H. exists tree.
  destruct (lost (state e)); simpl.
  - inv H. auto.
  - destruct (verylost (state e)); inv H; split; auto.
    rewrite removelast_last, app_nil_r. reflexivity.
Qed.

Lemma visit_start_skip :
  forall fuel mb trees start e mb' trees',
    get_element mb start = Some e ->
    marked (state e) = true \/ parents e = [] ->
    visit_start fuel (mb, trees) start = Some (mb', trees') ->
    mb' = mb /\ trees' = trees.
Proof.
  unfold visit_start. intros fuel mb trees start e mb' trees' G Hs H.
  rewrite G in H.
  destruct Hs as [Hm|Hp].
  - rewrite Hm in H. simpl in H. inv H. auto.
  - rewrite Hp in H. rewrite andb_false_r in H. inv H. auto.
Qed.

(** Later start elements only push behind the trees already kept. *)
Lemma visit_start_extends :
  forall fuel mb trees start mb' trees',
    visit_start fuel (mb, trees) start = Some (mb', trees') ->
    exists more, trees' = trees ++ more.
Proof.
  intros fuel mb trees start mb' trees' H.
  destruct (get_element mb start) as [e|] eqn:G.
  - destruct (marked (state e)) eqn:Hm.
    + eapply visit_start_skip in H; eauto.
      destruct H as [_ ->]. exists []. rewrite app_nil_r. reflexivity.
    + destruct (parents e) as [|p ps] eqn:Hp.
      * eapply visit_start_skip in H; eauto.
        destruct H as [_ ->]. exists []. rewrite app_nil_r. reflexivity.
      * eapply visit_start_spec in H; eauto; [|congruence].
        destruct H as (tree & _ & ->). eauto.
  - unfold visit_start in H. rewrite G in H. discriminate.
Qed.

Lemma visit_all_extends :
  forall fuel starts mb trees mb' trees',
    visit_all fuel (mb, trees) starts = Some (mb', trees') ->
    exists more, trees' = trees ++ more.
Proof.
  intros fuel. induction starts as [|r rest IH]; intros mb trees mb' trees' H;
    cbn [visit_all] in H.
  - inv H. exists []. rewrite app_nil_r. reflexivity.
  - destruct (visit_start fuel (mb, trees) r) as [[mb1 trees1]|] eqn:V;
      [|discriminate H].
    apply visit_start_extends in V. destruct V as [m1 ->].
    apply IH in H. destruct H as [m2 ->].
    exists (m1 ++ m2). rewrite app_assoc. reflexivity.
Qed.

Lemma visit_all_app :
  forall fuel before after st st',
    visit_all fuel st (before ++ after) = Some st' ->
    exists mid, visit_all fuel st before = Some mid /\
                visit_all fuel mid after = Some st'.
Proof.
  intros fuel. induction before as [|r rest IH]; intros after st st' H;
    cbn [visit_all app] in *.
  - eauto.
  - destruct (visit_start fuel st r) as [st1|]; [|discriminate H].
    apply IH. exact H.
Qed.

Lemma visit_all_app_eq :
  forall fuel before after st,
    visit_all fuel st (before ++ after)
    = match visit_all fuel st before with
      | Some mid => visit_all fuel mid after
      | None => None
      end.
Proof.
  intros fuel. induction before as [|r rest IH]; intros after st;
    cbn [visit_all app].
  - reflexivity.
  - destruct (visit_start fuel st r) as [st1|]; [apply IH | reflexivity].
Qed.

End ExtractorFacts.

(* ===================================================================== *)
(** * Theorems: the traversal ends on a well-formed forest *)
(* ===================================================================== *)

Section ExtractorTotal.

Ltac inv H := inversion H; subst; clear H.

Lemma well_formed_marks_only :
  forall n mb mb', marks_only mb mb' -> well_formed n mb -> well_formed n mb'.
Proof.
  intros n mb mb' Hm (Hc & Hb & Hp). split; [|split].
  - eapply marks_only_layers_consistent; eassumption.
  - intros r e' G. pose proof (Hm r) as Hr. rewrite G in Hr.
    destruct (get_element mb r) as [e|] eqn:G0; [|contradiction].
    eapply Hb. exact G0.
  - intros r e' p G Hin. pose proof (Hm r) as Hr. rewrite G in Hr.
    destruct (get_element mb r) as [e|] eqn:G0; [|contradiction].
    destruct Hr as (Ep & _). rewrite Ep in Hin.
    destruct (Hp r e p G0 Hin) as (e1 & G1).
    pose proof (Hm ((fst r + 1)%Z, p)) as Hr1. rewrite G1 in Hr1.
    destruct (get_element mb' ((fst r + 1)%Z, p)) as [e1'|]; [eauto | contradiction].
Qed.

Lemma marks_only_valid :
  forall mb mb' r e,
    marks_only mb mb' -> get_element mb r = Some e ->
    exists e', get_element mb' r = Some e' /\ parents e' = parents e.
Proof.
  intros mb mb' r e Hm G. specialize (Hm r). rewrite G in Hm.
  destruct (get_element mb' r) as [e'|]; [|contradiction].
  destruct Hm as (Ep & _). eauto.
Qed.

(** The walk up a chain of single parents ends within the layers above. *)
Lemma walk_single_parents_total :
  forall n fuel mb parent pth p,
    well_formed n mb ->
    get_element mb parent = Some p ->
    parents p <> [] ->
    (Z.to_nat (n - 1 - fst parent) <= fuel)%nat ->
    exists mb' pth' nb,
      walk_single_parents fuel mb parent pth = Some (mb', pth', nb) /\
      match nb with
      | Some r => exists e, get_element mb' r = Some e
      | None => True
      end.
Proof.
  intros n. induction fuel as [|fuel IH]; intros mb parent pth p Hw G Hp Hf.
  - exfalso. destruct Hw as (Hc & Hb & Hpar).
    destruct (parents p) as [|front ps] eqn:Ep; [congruence|].
    destruct (Hpar parent p front G) as (e' & G'); [rewrite Ep; left; reflexivity|].
    apply Hb in G'. simpl in G'. lia.
  - cbn [walk_single_parents]. rewrite G.
    destruct (parents p) as [|front ps] eqn:Ep; [congruence|].
    pose proof Hw as (Hc & Hb & Hpar).
    destruct (Hpar parent p front G) as (np & Gn); [rewrite Ep; left; reflexivity|].
    rewrite (Hc _ _ G). rewrite Gn.
    destruct (1 <? length (parents np))%nat eqn:H1.
    + do 3 eexists. split; [reflexivity|]. cbv beta iota. eauto.
    + set (next_ref := ((fst parent + 1)%Z, front)) in *.
      pose proof (marks_only_set_marked mb next_ref true) as Hm.
      destruct (length (parents np) =? 0)%nat eqn:H0.
      * do 3 eexists. split; [reflexivity | exact I].
      * destruct (marks_only_valid _ _ _ _ Hm Gn) as (np' & Gn' & Epn).
        apply (IH _ next_ref (pth ++ [next_ref]) np').
        -- eapply well_formed_marks_only; eassumption.
        -- exact Gn'.
        -- rewrite Epn. apply Nat.eqb_neq in H0.
           destruct (parents np); simpl in *; congruence.
        -- simpl. apply Hb in Gn. simpl in Gn. lia.
Qed.

Lemma trace_branch_total :
  forall n fuel mb start la root p first,
    well_formed n mb ->
    get_element mb (la, p) = Some first ->
    (Z.to_nat (n - 1 - la) <= fuel)%nat ->
    exists mb1 b nb,
      trace_branch fuel mb start la root p = Some (mb1, b, nb) /\
      match nb with
      | Some r => exists e, get_element mb1 r = Some e
      | None => True
      end.
Proof.
  intros n fuel mb start la root p first Hw G Hf.
  unfold trace_branch. rewrite G. cbv zeta.
  set (mb1 := if (length (parents first) <? 2)%nat
              then update_element mb (la, p) (set_marked true) else mb).
  assert (Hm : marks_only mb mb1).
  { unfold mb1. destruct (length (parents first) <? 2)%nat;
      [apply marks_only_set_marked | apply marks_only_refl]. }
  destruct (marks_only_valid _ _ _ _ Hm G) as (first' & G' & Ep).
  destruct (length (parents first) =? 1)%nat eqn:H1.
  - match goal with
    | |- context [walk_single_parents ?f ?m ?r ?l] =>
        destruct (walk_single_parents_total n f m r l first')
          as (mb' & pth' & nb & W & Hnb)
    end.
    + eapply well_formed_marks_only; eassumption.
    + exact G'.
    + rewrite Ep. apply Nat.eqb_eq in H1. destruct (parents first); simpl in *; congruence.
    + exact Hf.
    + do 3 eexists. rewrite W. split; [reflexivity | exact Hnb].
  - destruct (1 <? length (parents first))%nat.
    + do 3 eexists. split; [reflexivity|]. cbv beta iota. eauto.
    + do 3 eexists. split; [reflexivity | exact I].
Qed.

Lemma visit_parents_total :
  forall n recurse fuel start la root,
    (Z.to_nat (n - 1 - la) <= fuel)%nat ->
    (forall mb s out mb' out',
        recurse mb s out = Some (mb', out') -> marks_only mb mb') ->
    (forall mb s out e,
        well_formed n mb -> get_element mb s = Some e -> (la <= fst s)%Z ->
        exists res, recurse mb s out = Some res) ->
    forall ps mb out,
      well_formed n mb ->
      (forall p, In p ps -> exists e, get_element mb (la, p) = Some e) ->
      exists res, visit_parents recurse fuel start la root ps mb out = Some res.
Proof.
  intros n recurse fuel start la root Hf Hmarks Hrec.
  induction ps as [|p ps IH]; intros mb out Hw Hps; cbn [visit_parents].
  - eauto.
  - destruct (Hps p (or_introl eq_refl)) as (first & G).
    destruct (trace_branch_total n fuel mb start la root p first Hw G Hf)
      as (mb1 & b & nb & T & Hnb).
    rewrite T.
    pose proof (trace_branch_marks_only _ _ _ _ _ _ _ _ _ T) as Hm1.
    pose proof (well_formed_marks_only n _ _ Hm1 Hw) as Hw1.
    assert (Hnext : forall mb2 out2,
               marks_only mb1 mb2 ->
               exists res,
                 visit_parents recurse fuel start la root ps mb2 out2 = Some res).
    { intros mb2 out2 Hm2. apply IH.
      - eapply well_formed_marks_only; eassumption.
      - intros q Hq. destruct (Hps q (or_intror Hq)) as (e & Ge).
        destruct (marks_only_valid _ _ _ _ Hm1 Ge) as (e1 & Ge1 & _).
        destruct (marks_only_valid _ _ _ _ Hm2 Ge1) as (e2 & Ge2 & _). eauto. }
    cbv zeta. destruct nb as [r|].
    + destruct Hnb as (e & Ge).
      destruct (Hrec mb1 r (mkTree (branches out ++ [b])) e Hw1 Ge) as ([mb2 out2] & R).
      * eapply trace_branch_above; [|exact T]. apply Hw.
      * rewrite R. apply Hnext. eapply Hmarks. exact R.
    + apply Hnext. apply marks_only_refl.
Qed.

(** On a well-formed forest of [n] layers, [visit_recursive] returns
    when its fuel covers the layers from the start element upwards. *)
Lemma visit_recursive_total :
  forall n fuel mb start out e,
    well_formed n mb ->
    get_element mb start = Some e ->
    (Z.to_nat (n - fst start) <= fuel)%nat ->
    exists res, visit_recursive fuel mb start out = Some res.
Proof.
  intros n. induction fuel as [|fuel IH]; intros mb start out e Hw G Hf.
  - exfalso. destruct Hw as (_ & Hb & _). apply Hb in G. lia.
  - cbn [visit_recursive]. rewrite G.
    pose proof Hw as (Hc & Hb & Hpar).
    pose proof (marks_only_set_marked mb start true) as Hm.
    rewrite (Hc _ _ G).
    apply visit_parents_total with (n := n).
    + lia.
    + apply visit_recursive_marks_only.
    + intros m s o e' Hwm Ge Hle. eapply IH; [exact Hwm | exact Ge | lia].
    + eapply well_formed_marks_only; eassumption.
    + intros p Hp. destruct (Hpar start e p G Hp) as (e1 & G1).
      destruct (marks_only_valid _ _ _ _ Hm G1) as (e2 & G2 & _). eauto.
Qed.

Lemma lookupZ_of_nat :
  forall (T : Type) (l : list T) (i : nat),
    lookupZ l (Z.of_nat i) = nth_error l i.
Proof.
  intros T l i. unfold lookupZ.
  destruct (Z.of_nat i <? 0)%Z eqn:H; [apply Z.ltb_lt in H; lia|].
  rewrite Nat2Z.id. reflexivity.
Qed.

Lemma lookupZ_map :
  forall (T U : Type) (f : T -> U) (l : list T) (i : Z),
    lookupZ (map f l) i = option_map f (lookupZ l i).
Proof.
  intros T U f l i. unfold lookupZ. destruct (i <? 0)%Z; [reflexivity|].
  apply nth_error_map.
Qed.

Lemma marks_only_unmark_all : forall mb, marks_only mb (unmark_all mb).
Proof.
  intros mb r. unfold unmark_all, get_element. rewrite lookupZ_map.
  unfold MoveBounds, SupportElements in *.
  destruct (lookupZ mb (fst r)) as [layer|]; simpl; [|exact I].
  rewrite lookupZ_map. destruct (lookupZ layer (snd r)) as [e|]; simpl; [|exact I].
  unfold same_but_marked. simpl. tauto.
Qed.

Lemma start_refs_valid :
  forall mb r, In r (start_refs mb) -> exists e, get_element mb r = Some e.
Proof.
  unfold start_refs. intros mb r H.
  apply in_flat_map in H. destruct H as (l & Hl & H).
  apply in_map_iff in H. destruct H as (i & <- & Hi).
  apply in_seq in Hl. apply in_seq in Hi.
  unfold get_element. simpl. rewrite lookupZ_of_nat.
  rewrite (nth_error_nth' mb [] (n := l)) by lia.
  rewrite lookupZ_of_nat.
  destruct (nth_error (nth l mb []) i) as [e|] eqn:E; [eauto|].
  apply nth_error_None in E. lia.
Qed.

Lemma visit_start_total :
  forall n fuel mb trees start e,
    well_formed n mb ->
    get_element mb start = Some e ->
    (Z.to_nat n <= fuel)%nat ->
    exists mb' trees',
      visit_start fuel (mb, trees) start = Some (mb', trees') /\ marks_only mb mb'.
Proof.
  intros n fuel mb trees start e Hw G Hf. unfold visit_start. rewrite G.
  destruct (negb (marked (state e)) && _)%bool.
  - destruct (visit_recursive_total n fuel mb start empty_tree e Hw G)
      as ([mb' tree] & V).
    + destruct Hw as (_ & Hb & _). apply Hb in G. lia.
    + rewrite V. pose proof (visit_recursive_marks_only _ _ _ _ _ _ V) as Hm.
      destruct (marks_only_valid _ _ _ _ Hm G) as (e' & -> & _).
      destruct (lost (state e')); [eauto|].
      destruct (verylost (state e')); eauto.
  - exists mb, trees. split; [reflexivity | apply marks_only_refl].
Qed.

Lemma visit_all_total :
  forall n fuel starts mb trees,
    well_formed n mb ->
    (Z.to_nat n <= fuel)%nat ->
    (forall r, In r starts -> exists e, get_element mb r = Some e) ->
    exists res, visit_all fuel (mb, trees) starts = Some res.
Proof.
  intros n fuel. induction starts as [|r starts IH]; intros mb trees Hw Hf Hv;
    cbn [visit_all].
  - eauto.
  - destruct (Hv r (or_introl eq_refl)) as (e & G).
    destruct (visit_start_total n fuel mb trees r e Hw G Hf) as (mb' & trees' & -> & Hm).
    apply IH.
    + eapply well_formed_marks_only; eassumption.
    + exact Hf.
    + intros q Hq. destruct (Hv q (or_intror Hq)) as (eq & Gq).
      destruct (marks_only_valid _ _ _ _ Hm Gq) as (eq' & Gq' & _). eauto.
Qed.

(** On a well-formed forest of [n] layers the extraction returns when
    its fuel is at least [n]: the fuel of the model is not what ends a
    traversal. *)
Lemma extract_trees_total :
  forall n fuel mb,
    well_formed n mb ->
    (Z.to_nat n <= fuel)%nat ->
    exists res, extract_trees fuel mb = Some res.
Proof.
  intros n fuel mb Hw Hf. unfold extract_trees.
  apply visit_all_total with (n := n).
  - eapply well_formed_marks_only; [apply marks_only_unmark_all | exact Hw].
  - exact Hf.
  - apply start_refs_valid.
Qed.

End ExtractorTotal.

(** What a finished call of [visit_recursive] on an empty tree has
    recorded, whatever fuel it was given. *)
Lemma visit_recursive_rooted_branches :
  forall fuel mb start mb' out,
    layers_consistent mb ->
    visit_recursive fuel mb start empty_tree = Some (mb', out) ->
    exists e,
      get_element mb start = Some e /\
      length (filter has_root (branches out)) = length (parents e) /\
      (forall b, In b (branches out) ->
         (has_root b = true <-> hd_error (path b) = Some start)) /\
      (parents e <> [] ->
         exists b rest, branches out = b :: rest /\ has_root b = true).
Proof.
  intros fuel mb start mb' out Hc H.
  destruct (visit_recursive_added _ _ _ _ _ _ H) as (e & new & G & E & Hn & Hall & Hfirst).
  destruct (visit_recursive_heads _ _ _ _ _ _ Hc H) as (new' & E' & _ & Hor).
  simpl in E, E'. subst new' new.
  rewrite Forall_forall in Hall, Hor.
  exists e. split; [exact G|]. split; [exact Hn|]. split.
  - intros b Hb. split; [apply Hall; exact Hb|].
    intros Hhd. destruct (Hor b Hb) as [Hr|(r & Hr & Hlt)]; [exact Hr|].
    rewrite Hhd in Hr. inversion Hr; subst. lia.
  - intros Hp. apply Hfirst. destruct (parents e); simpl; congruence.
Qed.

(** C1, as amended. [root] is read once per call of [visit_recursive],
    before the loop over the parents of the start element. On a
    well-formed forest the call on a start element returns a tree, and in
    that tree the branches with [has_root = true] are exactly the
    branches whose path begins at [start], one for each parent of the
    start element (so there are as many of them as the start element has
    parents); every branch traced from a bifurcation above has
    [has_root = false]; and the first recorded branch has
    [has_root = true]. *)
Theorem visit_recursive_has_root :
  forall n fuel mb start e,
    well_formed n mb ->
    get_element mb start = Some e ->
    (Z.to_nat (n - fst start) <= fuel)%nat ->
    exists mb' out,
      visit_recursive fuel mb start empty_tree = Some (mb', out) /\
      length (filter has_root (branches out)) = length (parents e) /\
      (forall b, In b (branches out) ->
         (has_root b = true <-> hd_error (path b) = Some start)) /\
      (parents e <> [] ->
         exists b rest, branches out = b :: rest /\ has_root b = true).
Proof.
  intros n fuel mb start e Hw G Hf.
  destruct (visit_recursive_total n fuel mb start empty_tree e Hw G Hf)
    as ([mb' out] & V).
  exists mb', out. split; [exact V|].
  destruct (visit_recursive_rooted_branches _ _ _ _ _ (proj1 Hw) V)
    as (e' & G' & Hn & Hall & Hfirst).
  rewrite G in G'. inversion G'; subst e'.
  split; [exact Hn|]. split; [exact Hall | exact Hfirst].
Qed.

(** Scenario S3 satisfies the hypotheses of [visit_recursive_has_root]:
    its root element has two parents and both branches of its tree carry
    [has_root]. *)
Lemma visit_recursive_has_root_s3 :
  exists mb' out,
    visit_recursive 2 s3_move_bounds (0, 0)%Z empty_tree = Some (mb', out) /\
    length (filter has_root (branches out))
      = length (parents (mkElement (mkState 0 (0, 0)%Z false true false false)
                                   [0; 1]%Z)) /\
    (forall b, In b (branches out) ->
       (has_root b = true <-> hd_error (path b) = Some (0, 0)%Z)) /\
    (parents (mkElement (mkState 0 (0, 0)%Z false true false false) [0; 1]%Z) <> [] ->
       exists b rest, branches out = b :: rest /\ has_root b = true).
Proof.
  apply (visit_recursive_has_root 2 2 s3_move_bounds (0, 0)%Z
           (mkElement (mkState 0 (0, 0)%Z false true false false) [0; 1]%Z)).
  - apply check_well_formed_sound. reflexivity.
  - reflexivity.
  - simpl. lia.
Defined.

(** C1, as the specification states it, fails on scenario S3 (one root
    element with two parents that are tips): the extractor yields one tree
    with two branches and the second branch has [has_root = true] as well. *)
Lemma s3_second_branch_has_root :
  extract_trees 3 s3_move_bounds = Some (s3_marked, [s3_tree]) /\
  map has_root (branches s3_tree) = [true; true] /\
  ~ only_first_branch_has_root s3_tree.
Proof.
  split; [reflexivity|]. split; [reflexivity|].
  intros H. specialize (H 1%nat (mkBranch [(0, 0); (1, 1)]%Z true true) eq_refl).
  discriminate H.
Qed.

(** C2. On a well-formed forest the loop over the start elements
    returns. When it reaches an unmarked element with parents, the tree
    built from it by [visit_recursive] is pushed and stays the last tree
    of the list exactly when the element is [lost] or [verylost];
    otherwise it is popped and the list is the one of before. The loop
    goes on from that list: when the tree is popped, the trees of the
    end are those that the loop makes of the trees kept before alone,
    and nothing of the popped tree is among them. *)
Theorem tree_kept_iff_lost_or_verylost :
  forall n fuel before start after mb0 trees0 mb1 trees1 e,
    well_formed n mb0 ->
    (Z.to_nat n <= fuel)%nat ->
    (forall r, In r (before ++ start :: after) ->
       exists e0, get_element mb0 r = Some e0) ->
    visit_all fuel (mb0, trees0) before = Some (mb1, trees1) ->
    get_element mb1 start = Some e ->
    marked (state e) = false ->
    parents e <> [] ->
    exists mb2 tree mb_end later,
      visit_recursive fuel mb1 start empty_tree = Some (mb2, tree) /\
      visit_all fuel (mb0, trees0) (before ++ [start])
        = Some (mb2,
                if lost (state e) || verylost (state e)
                then trees1 ++ [tree] else trees1) /\
      visit_all fuel
        (mb2, if lost (state e) || verylost (state e) then trees1 ++ [tree] else trees1)
        after
        = Some (mb_end,
                (if lost (state e) || verylost (state e)
                 then trees1 ++ [tree] else trees1) ++ later) /\
      visit_all fuel (mb0, trees0) (before ++ start :: after)
        = Some (mb_end,
                (if lost (state e) || verylost (state e)
                 then trees1 ++ [tree] else trees1) ++ later).
Proof.
  intros n fuel before start after mb0 trees0 mb1 trees1 e Hw Hf Hv Hb G Hm Hp.
  destruct (visit_all_total n fuel (before ++ start :: after) mb0 trees0 Hw Hf Hv)
    as ([mb_end trees_end] & H).
  pose proof H as H'.
  apply visit_all_app in H'. destruct H' as (mid & Hb' & Hrest).
  rewrite Hb in Hb'. inversion Hb'; subst mid. clear Hb'.
  cbn [visit_all] in Hrest.
  destruct (visit_start fuel (mb1, trees1) start) as [[mb2 trees2]|] eqn:V;
    [|discriminate Hrest].
  destruct (visit_start_spec _ _ _ _ _ _ _ G Hm Hp V) as (tree & Vr & E).
  assert (E2 : trees2 = if lost (state e) || verylost (state e)
                        then trees1 ++ [tree] else trees1).
  { rewrite E. destruct (lost (state e) || verylost (state e))%bool;
      [reflexivity | apply app_nil_r]. }
  clear E. subst trees2.
  destruct (visit_all_extends _ _ _ _ _ _ Hrest) as [later ->].
  exists mb2, tree, mb_end, later.
  split; [exact Vr|]. split; [|split; [exact Hrest | exact H]].
  rewrite visit_all_app_eq, Hb. cbn [visit_all]. rewrite V. reflexivity.
Qed.

(** A forest of two roots satisfies the hypotheses of
    [tree_kept_iff_lost_or_verylost] at its second root, which is not
    lost: the tree of the first root, which is lost, is kept, and the
    tree of the second is popped. *)
Lemma tree_kept_iff_lost_or_verylost_two_roots :
  (exists tree1,
     two_roots_trees_after_first = [tree1] /\
     visit_all 2 (two_roots_move_bounds, []) [(0, 0)%Z; (0, 1)%Z]
     = Some (two_roots_marks_after_second, [tree1])) /\
  exists mb2 tree mb_end later,
    visit_recursive 2 two_roots_marks_after_first (0, 1)%Z empty_tree
    = Some (mb2, tree) /\
    visit_all 2 (two_roots_move_bounds, []) ([(0, 0)%Z] ++ [(0, 1)%Z])
    = Some (mb2,
            if lost (state two_roots_second) || verylost (state two_roots_second)
            then two_roots_trees_after_first ++ [tree]
            else two_roots_trees_after_first) /\
    visit_all 2
      (mb2, if lost (state two_roots_second) || verylost (state two_roots_second)
            then two_roots_trees_after_first ++ [tree]
            else two_roots_trees_after_first)
      []
    = Some (mb_end,
            (if lost (state two_roots_second) || verylost (state two_roots_second)
             then two_roots_trees_after_first ++ [tree]
             else two_roots_trees_after_first) ++ later) /\
    visit_all 2 (two_roots_move_bounds, []) ([(0, 0)%Z] ++ (0, 1)%Z :: [])
    = Some (mb_end,
            (if lost (state two_roots_second) || verylost (state two_roots_second)
             then two_roots_trees_after_first ++ [tree]
             else two_roots_trees_after_first) ++ later).
Proof.
  split.
  - eexists. split; vm_compute; reflexivity.
  - apply (tree_kept_iff_lost_or_verylost 2 2 [(0, 0)%Z] (0, 1)%Z []
             two_roots_move_bounds [] two_roots_marks_after_first
             two_roots_trees_after_first two_roots_second).
    + apply check_well_formed_sound. reflexivity.
    + simpl. lia.
    + intros r [<-|[<-|[]]]; eexists; reflexivity.
    + vm_compute. reflexivity.
    + vm_compute. reflexivity.
    + reflexivity.
    + discriminate.
Defined.

(* ===================================================================== *)
(** * Theorems: the effects of the solver *)
(* ===================================================================== *)

Section SolverEffects.
Context {F : Type} {A : Arith F} {Exn : Type} {Polygons : Type}.
Variable X : Externals F Polygons.
Variable probe : nat -> option Exn.
Variable indeterminate : Vec3 F.

Local Notation "x <- m ;; k" := (bind m (fun x => k))
  (at level 100, m at next level, right associativity).

(** ** Running a sequence *)

Lemma bind_Done :
  forall (T U : Type) (m : M Exn T) (k : T -> M Exn U) w u w',
    bind m k w = (Done u, w') ->
    exists t w1, m w = (Done t, w1) /\ k t w1 = (Done u, w').
Proof.
  unfold bind. intros T U m k w u w' H.
  destruct (m w) as [[t|e|] w1]; try discriminate H. eauto.
Qed.

Lemma bind_Raised :
  forall (T U : Type) (m : M Exn T) (k : T -> M Exn U) w e w',
    bind m k w = (Raised e, w') ->
    m w = (Raised e, w') \/
    exists t w1, m w = (Done t, w1) /\ k t w1 = (Raised e, w').
Proof.
  unfold bind. intros T U m k w e w' H.
  destruct (m w) as [[t|e0|] w1]; try discriminate H; [right; eauto|].
  left. inversion H; subst. reflexivity.
Qed.

Lemma mapM_Done :
  forall (T U : Type) (f : T -> M Exn U) (l : list T) w ys w',
    mapM f l w = (Done ys, w') ->
    Forall2 (fun x y => exists w1 w2, f x w1 = (Done y, w2)) l ys.
Proof.
  intros T U f. induction l as [|x l IH]; cbn [mapM]; intros w ys w' H.
  - inversion H; subst. constructor.
  - apply bind_Done in H. destruct H as (y & w1 & Hx & H).
    apply bind_Done in H. destruct H as (ys' & w2 & Hl & H).
    inversion H; subst. constructor; eauto.
Qed.

Lemma ret_Done :
  forall (T : Type) (t u : T) (w w' : World),
    (ret t : M Exn T) w = (Done u, w') -> u = t /\ w' = w.
Proof. unfold ret. intros. inversion H; auto. Qed.

Lemma defined_Done :
  forall (T : Type) (o : option T) (t : T) (w w' : World),
    (defined o : M Exn T) w = (Done t, w') -> o = Some t /\ w' = w.
Proof. unfold defined. intros T [x|] t w w' H; inversion H; auto. Qed.

Lemma deref_Done :
  forall r e (w w' : World),
    (deref r : M Exn SupportElement) w = (Done e, w') ->
    get_element (heap w) r = Some e /\ w' = w.
Proof. unfold deref. intros r e w w' H. apply defined_Done in H. exact H. Qed.

Lemma foldM_invariant :
  forall (T U : Type) (f : U -> T -> M Exn U)
         (Inv : list T -> U -> World -> Prop),
    (forall before x u w1 u1 w2,
        Inv before u w1 -> f u x w1 = (Done u1, w2) -> Inv (before ++ [x]) u1 w2) ->
    forall l before u w u' w',
      Inv before u w ->
      foldM f l u w = (Done u', w') ->
      Inv (before ++ l) u' w'.
Proof.
  intros T U f Inv Hstep. induction l as [|x l IH]; cbn [foldM];
    intros before u w u' w' Hi H.
  - apply ret_Done in H. destruct H as [-> ->]. rewrite app_nil_r. exact Hi.
  - apply bind_Done in H. destruct H as (u1 & w1 & Hx & H).
    replace (before ++ x :: l) with ((before ++ [x]) ++ l)
      by (rewrite <- app_assoc; reflexivity).
    eapply IH; [|exact H]. eapply Hstep; eassumption.
Qed.

(** ** Accounting for the probe *)

Lemma accounted_refl :
  forall (T : Type) (t : T) w, accounted probe w (Done t : Outcome Exn T) w.
Proof. intros. simpl. split; [lia | intros j Hj; lia]. Qed.

Lemma accounted_step :
  forall (T U : Type) (t : T) (o : Outcome Exn U) w w1 w',
    accounted probe w (Done t : Outcome Exn T) w1 ->
    accounted probe w1 o w' ->
    accounted probe w o w'.
Proof.
  intros T U t o w w1 w' [H1 N1] H2. destruct o as [u|e|]; simpl in *.
  - destruct H2 as [H2 N2]. split; [lia|].
    intros j Hj. destruct (Nat.lt_ge_cases j (probe_calls w1)); [apply N1 | apply N2]; lia.
  - destruct H2 as (k & E & Hk & Pk & N2). exists k. repeat split; auto; [lia|].
    intros j Hj. destruct (Nat.lt_ge_cases j (probe_calls w1)); [apply N1 | apply N2]; lia.
  - destruct H2 as [H2 N2]. split; [lia|].
    intros j Hj. destruct (Nat.lt_ge_cases j (probe_calls w1)); [apply N1 | apply N2]; lia.
Qed.

Lemma quiet_ret : forall (T : Type) (t : T), quiet probe (ret t : M Exn T).
Proof.
  intros T t. split; intros w; simpl; [|reflexivity].
  split; [lia | intros j Hj; lia].
Qed.

Lemma quiet_defined : forall (T : Type) (o : option T), quiet probe (defined o : M Exn T).
Proof.
  intros T [t|]; split; intros w; simpl; try reflexivity;
    (split; [lia | intros j Hj; lia]).
Qed.

Lemma quiet_deref : forall r, quiet probe (deref r : M Exn SupportElement).
Proof.
  intros r. split; intros w; unfold deref.
  - apply (proj1 (quiet_defined _ (get_element (heap w) r))).
  - apply (proj2 (quiet_defined _ (get_element (heap w) r))).
Qed.

Lemma quiet_throw_on_cancel : quiet probe (throw_on_cancel probe).
Proof.
  split; intros w; unfold throw_on_cancel;
    destruct (probe (probe_calls w)) as [e|] eqn:P; simpl; try reflexivity.
  - exists (probe_calls w). repeat split; auto. intros j Hj. lia.
  - split; [lia|]. intros j Hj. assert (j = probe_calls w) by lia. congruence.
Qed.

Lemma quiet_bind :
  forall (T U : Type) (m : M Exn T) (k : T -> M Exn U),
    quiet probe m -> (forall t, quiet probe (k t)) -> quiet probe (bind m k).
Proof.
  intros T U m k [Sm Hm] Hk. split; intros w; unfold bind;
    specialize (Sm w); specialize (Hm w);
    destruct (m w) as [[t|e|] w1]; simpl in *; auto.
  - apply (accounted_step T U t _ w w1); [exact Sm | apply (proj1 (Hk t))].
  - rewrite (proj2 (Hk t)). exact Hm.
Qed.

Lemma quiet_mapM :
  forall (T U : Type) (f : T -> M Exn U) (l : list T),
    (forall x, quiet probe (f x)) -> quiet probe (mapM f l).
Proof.
  intros T U f l Hf. induction l as [|x l IH]; cbn [mapM].
  - apply quiet_ret.
  - apply quiet_bind; [apply Hf|]. intros y.
    apply quiet_bind; [apply IH|]. intros ys. apply quiet_ret.
Qed.

Lemma quiet_foldM :
  forall (T U : Type) (f : U -> T -> M Exn U) (l : list T) (u : U),
    (forall u x, quiet probe (f u x)) -> quiet probe (foldM f l u).
Proof.
  intros T U f l u Hf. revert u. induction l as [|x l IH]; intros u; cbn [foldM].
  - apply quiet_ret.
  - apply quiet_bind; [apply Hf|]. intros u'. apply IH.
Qed.

(** Every step of the solver before the write-back is quiet. *)
Ltac quiet_step :=
  first
    [ apply quiet_ret
    | apply quiet_defined
    | apply quiet_deref
    | apply quiet_throw_on_cancel
    | apply quiet_mapM; intros
    | apply quiet_foldM; intros
    | apply quiet_bind; [|intros]
    | match goal with
      | |- quiet _ (if ?c then _ else _) => destruct c
      | |- quiet _ (match ?x with _ => _ end) => destruct x
      end ].

Lemma quiet_cache_add_element :
  forall cache rl, quiet probe (cache_add_element X cache rl : M Exn _).
Proof. intros. unfold cache_add_element. repeat quiet_step. Qed.

Lemma quiet_fill_layer_cache :
  forall li, quiet probe (fill_layer_cache X probe li).
Proof. intros [i l]. unfold fill_layer_cache. repeat quiet_step. Qed.

Lemma quiet_push_sphere :
  forall ldl spheres rl,
    quiet probe (push_sphere X indeterminate ldl spheres rl : M Exn _).
Proof. intros ldl spheres [r ld]. unfold push_sphere. repeat quiet_step. Qed.

Lemma quiet_propagate_max_z :
  forall ldl spheres id, quiet probe (propagate_max_z ldl spheres id : M Exn _).
Proof. intros. unfold propagate_max_z. repeat quiet_step. Qed.

Lemma quiet_limit_span :
  forall n s, quiet probe (limit_span X n s : M Exn _).
Proof. intros. unfold limit_span. repeat quiet_step. Qed.

Lemma quiet_prepare_spheres :
  forall ewld ldl, quiet probe (prepare_spheres X probe indeterminate ewld ldl).
Proof.
  intros. unfold prepare_spheres.
  repeat first
    [ apply quiet_cache_add_element | apply quiet_fill_layer_cache
    | apply quiet_push_sphere | apply quiet_propagate_max_z
    | apply quiet_limit_span | quiet_step ].
Qed.

Lemma quiet_scan_layer :
  forall cache e s layer_id, quiet probe (scan_layer X cache e s layer_id : M Exn _).
Proof.
  intros. unfold scan_layer.
  destruct (fltb fzero _); [|apply quiet_ret].
  apply quiet_bind; [apply quiet_defined|]. intros item.
  destruct (lines item); [apply quiet_ret|].
  destruct (squared_distance_to_indexed_lines _ _ _ _) as [d2 hit].
  repeat quiet_step.
Qed.

Lemma quiet_laplacian_smoothing :
  forall ldl spheres e s, quiet probe (laplacian_smoothing ldl spheres e s : M Exn _).
Proof.
  intros. unfold laplacian_smoothing, laplacian_weights, add_parents, add_below.
  repeat quiet_step.
Qed.

Lemma quiet_update_sphere :
  forall cache ldl spheres s, quiet probe (update_sphere X probe cache ldl spheres s).
Proof.
  intros. unfold update_sphere.
  destruct (locked s); [apply quiet_ret|].
  apply quiet_bind; [apply quiet_deref|]. intros e.
  apply quiet_bind; [apply quiet_foldM; intros; apply quiet_scan_layer|]. intros s1.
  destruct (nudge_away X s1) as [s2 moved].
  apply quiet_bind; [apply quiet_laplacian_smoothing|]. intros s3.
  repeat quiet_step.
Qed.

Lemma quiet_solver_pass :
  forall cache ldl spheres, quiet probe (solver_pass X probe cache ldl spheres).
Proof.
  intros. unfold solver_pass.
  apply quiet_bind; [apply quiet_mapM; intros; apply quiet_update_sphere|].
  intros rs. apply quiet_ret.
Qed.

Lemma quiet_iterate :
  forall n cache ldl spheres, quiet probe (iterate X probe n cache ldl spheres).
Proof.
  induction n as [|n IH]; intros; cbn [iterate].
  - apply quiet_ret.
  - apply quiet_bind; [apply quiet_solver_pass|]. intros [spheres' moved].
    destruct (moved =? 0)%nat; [apply quiet_ret|].
    apply quiet_bind; [apply IH|]. intros rest. apply quiet_ret.
Qed.

(** ** The write-back neither calls the probe nor throws *)

Lemma silent_ret : forall (T : Type) (t : T), silent (ret t : M Exn T).
Proof. intros T t w. simpl. split; [reflexivity | discriminate]. Qed.

Lemma silent_defined : forall (T : Type) (o : option T), silent (defined o : M Exn T).
Proof. intros T [t|] w; simpl; (split; [reflexivity | discriminate]). Qed.

Lemma silent_store_result_on_layer :
  forall r v, silent (store_result_on_layer r v : M Exn unit).
Proof.
  intros r v w. unfold store_result_on_layer.
  destruct (get_element (heap w) r); simpl; (split; [reflexivity | discriminate]).
Qed.

Lemma silent_bind :
  forall (T U : Type) (m : M Exn T) (k : T -> M Exn U),
    silent m -> (forall t, silent (k t)) -> silent (bind m k).
Proof.
  intros T U m k Hm Hk w. unfold bind. specialize (Hm w).
  destruct (m w) as [[t|e|] w1]; simpl in *.
  - destruct (Hk t w1) as [E N]. split; [lia | exact N].
  - destruct Hm as [_ N]. exfalso. apply (N e). reflexivity.
  - split; [tauto | discriminate].
Qed.

Lemma silent_foldM :
  forall (T U : Type) (f : U -> T -> M Exn U) (l : list T) (u : U),
    (forall u x, silent (f u x)) -> silent (foldM f l u).
Proof.
  intros T U f l u Hf. revert u. induction l as [|x l IH]; intros u; cbn [foldM].
  - apply silent_ret.
  - apply silent_bind; [apply Hf|]. intros u'. apply IH.
Qed.

Lemma silent_write_back :
  forall ewld spheres, silent (write_back X ewld spheres : M Exn unit).
Proof.
  intros. unfold write_back. apply silent_foldM. intros u i.
  apply silent_bind; [apply silent_defined|]. intros rl.
  apply silent_bind; [apply silent_defined|]. intros s.
  apply silent_store_result_on_layer.
Qed.

Lemma silent_probe_sound :
  forall (T : Type) (m : M Exn T), silent m -> probe_sound probe m.
Proof.
  intros T m H w. destruct (H w) as [E N].
  destruct (m w) as [[t|e|] w1]; simpl in *.
  - split; [lia | intros j Hj; lia].
  - exfalso. apply (N e). reflexivity.
  - split; [lia | intros j Hj; lia].
Qed.

Lemma probe_sound_bind :
  forall (T U : Type) (m : M Exn T) (k : T -> M Exn U),
    probe_sound probe m -> (forall t, probe_sound probe (k t)) ->
    probe_sound probe (bind m k).
Proof.
  intros T U m k Sm Hk w. unfold bind. specialize (Sm w).
  destruct (m w) as [[t|e|] w1]; simpl in *; auto.
  apply (accounted_step T U t _ w w1); [exact Sm | apply Hk].
Qed.

(** ** When the solver throws, [move_bounds] is as it was *)

Lemma quiet_raised_heap :
  forall (T : Type) (m : M Exn T), quiet probe m -> raised_heap m.
Proof.
  intros T m [_ H] w e w' E. specialize (H w). rewrite E in H. exact H.
Qed.

Lemma silent_raised_heap :
  forall (T : Type) (m : M Exn T), silent m -> raised_heap m.
Proof.
  intros T m H w e w' E. destruct (H w) as [_ N]. rewrite E in N.
  exfalso. apply (N e). reflexivity.
Qed.

Lemma raised_heap_bind :
  forall (T U : Type) (m : M Exn T) (k : T -> M Exn U),
    quiet probe m -> (forall t, raised_heap (k t)) -> raised_heap (bind m k).
Proof.
  intros T U m k [_ Hm] Hk w e w' E.
  apply bind_Raised in E. destruct E as [E|(t & w1 & E1 & E2)].
  - specialize (Hm w). rewrite E in Hm. exact Hm.
  - specialize (Hm w). rewrite E1 in Hm. simpl in Hm.
    rewrite <- Hm. eapply Hk. exact E2.
Qed.

Lemma solver_probe_sound :
  forall ewld ldl,
    probe_sound probe
      (organic_smooth_branches_avoid_collisions X probe indeterminate ewld ldl).
Proof.
  intros. unfold organic_smooth_branches_avoid_collisions.
  apply probe_sound_bind; [apply quiet_prepare_spheres|]. intros cs.
  apply probe_sound_bind; [apply quiet_iterate|]. intros r.
  apply probe_sound_bind; [apply silent_probe_sound, silent_write_back|].
  intros u. apply quiet_ret.
Qed.

Lemma solver_raised_heap :
  forall ewld ldl,
    raised_heap
      (organic_smooth_branches_avoid_collisions X probe indeterminate ewld ldl).
Proof.
  intros. unfold organic_smooth_branches_avoid_collisions.
  apply raised_heap_bind; [apply quiet_prepare_spheres|]. intros cs.
  apply raised_heap_bind; [apply quiet_iterate|]. intros r.
  apply silent_raised_heap.
  apply silent_bind; [apply silent_write_back|]. intros u. apply silent_ret.
Qed.

End SolverEffects.

(** C8. Whenever a call of the cancellation probe throws during
    [organic_smooth_branches_avoid_collisions], that call is the last
    thing the solver does: the solver ends by throwing the very value the
    probe threw, and [move_bounds] (so every [result_on_layer]) is as it
    was on entry. Conversely the solver throws only what the probe
    threw. *)
Theorem cancellation_propagates_unchanged :
  forall (F : Type) (A : Arith F) (Exn Polygons : Type)
         (X : Externals F Polygons) (probe : nat -> option Exn)
         (indeterminate : Vec3 F)
         (elements_with_link_down : list (ElemRef * Z)) (linear_data_layers : list Z)
         (w : World),
    let r := organic_smooth_branches_avoid_collisions X probe indeterminate
               elements_with_link_down linear_data_layers w in
    (forall k e,
        (probe_calls w <= k < probe_calls (snd r))%nat ->
        probe k = Some e ->
        fst r = Raised e /\ heap (snd r) = heap w /\ probe_calls (snd r) = S k) /\
    (forall e,
        fst r = Raised e ->
        heap (snd r) = heap w /\
        exists k, (probe_calls w <= k < probe_calls (snd r))%nat /\ probe k = Some e).
Proof.
  intros F A Exn Polygons X probe indeterminate ewld ldl w r.
  pose proof (solver_probe_sound X probe indeterminate ewld ldl w) as Hs.
  pose proof (solver_raised_heap X probe indeterminate ewld ldl w) as Hh.
  fold r in Hs. destruct r as [o w'] eqn:Er. simpl in *. split.
  - intros k e Hk Pk. destruct o as [t|e'|]; simpl in Hs.
    + destruct Hs as [_ N]. rewrite (N k Hk) in Pk. discriminate.
    + destruct Hs as (k' & E & Hk' & Pk' & N).
      destruct (Nat.eq_dec k k') as [->|Hne].
      * rewrite Pk in Pk'. inversion Pk'; subst.
        repeat split; auto. apply (Hh _ _ Er).
      * rewrite N in Pk by lia. discriminate.
    + destruct Hs as [_ N]. rewrite (N k Hk) in Pk. discriminate.
  - intros e ->. simpl in Hs. destruct Hs as (k & E & Hk & Pk & _).
    split; [apply (Hh _ _ Er)|]. exists k. split; [lia | exact Pk].
Qed.

(** In the scenario, a probe that throws at its sixth call (inside the
    first pass) ends the solver with that very exception and leaves
    [move_bounds] untouched. *)
Lemma cancellation_propagates_unchanged_scenario :
  fst (Scenario.run (Scenario.throws_at 5)) = Raised 7%nat /\
  heap (snd (Scenario.run (Scenario.throws_at 5))) = heap Scenario.world0 /\
  probe_calls (snd (Scenario.run (Scenario.throws_at 5))) = 6%nat.
Proof.
  apply (proj1 (cancellation_propagates_unchanged
                  _ FloatArith _ _ Scenario.externals (Scenario.throws_at 5)
                  Scenario.origin3 Scenario.elements_with_link_down
                  Scenario.linear_data_layers Scenario.world0)
               5%nat 7%nat).
  - vm_compute. lia.
  - reflexivity.
Defined.

(* ===================================================================== *)
(** * Theorems: the passes of the solver *)
(* ===================================================================== *)

Section SolverPasses.
Context {F : Type} {A : Arith F} {Exn : Type} {Polygons : Type}.
Variable X : Externals F Polygons.
Variable probe : nat -> option Exn.
Variable indeterminate : Vec3 F.

Local Notation "x <- m ;; k" := (bind m (fun x => k))
  (at level 100, m at next level, right associativity).

Lemma same_body_refl : forall s : CollisionSphere F, same_body s s.
Proof. intros s. unfold same_body. tauto. Qed.

Lemma same_body_trans :
  forall a b c : CollisionSphere F, same_body a b -> same_body b c -> same_body a c.
Proof. unfold same_body. intros a b c H1 H2. intuition congruence. Qed.

Lemma scan_layer_same_body :
  forall cache e s layer_id (w : World) s' w',
    (scan_layer X cache e s layer_id : M Exn _) w = (Done s', w') ->
    same_body s s'.
Proof.
  unfold scan_layer. intros cache e s layer_id w s' w' H.
  destruct (fltb fzero _).
  - apply bind_Done in H. destruct H as (item & w1 & _ & H).
    destruct (lines item).
    + apply ret_Done in H. destruct H as [-> _]. apply same_body_refl.
    + destruct (squared_distance_to_indexed_lines _ _ _ _) as [d2 hit].
      destruct (fleb fzero d2).
      * destruct (fltb (last_collision_depth s) _);
          apply ret_Done in H; destruct H as [-> _];
          [unfold same_body; simpl; tauto | apply same_body_refl].
      * apply ret_Done in H. destruct H as [-> _]. apply same_body_refl.
  - apply ret_Done in H. destruct H as [-> _]. apply same_body_refl.
Qed.

Lemma scan_layers_same_body :
  forall cache e l s (w : World) s' w',
    (foldM (scan_layer X cache e) l s : M Exn _) w = (Done s', w') ->
    same_body s s'.
Proof.
  intros cache e l s w s' w' H.
  apply (foldM_invariant _ _ (scan_layer X cache e)
           (fun _ u _ => same_body s u)) with (before := []) in H.
  - exact H.
  - intros before x u w1 u1 w2 Hi Hx.
    eapply same_body_trans; [exact Hi|]. eapply scan_layer_same_body. exact Hx.
  - apply same_body_refl.
Qed.

(** The nudge moves the sphere and reports whether it counts as moved;
    the depth it read stays. *)
Lemma nudge_away_spec :
  forall s s' moved,
    nudge_away X s = (s', moved) ->
    element s' = element s /\
    element_below_id s' = element_below_id s /\
    locked s' = locked s /\
    radius s' = radius s /\
    last_collision_depth s' = last_collision_depth s /\
    moved = (fltb fzero (last_collision_depth s)
             && fltb (EPSILON X) (last_collision_depth s))%bool.
Proof.
  unfold nudge_away. intros s s' moved H.
  destruct (fltb fzero (last_collision_depth s)); inversion H; subst; simpl;
    repeat split; reflexivity.
Qed.

Lemma laplacian_smoothing_spec :
  forall ldl spheres e s (w : World) s' w',
    (laplacian_smoothing ldl spheres e s : M Exn _) w = (Done s', w') ->
    exists aw, s' = smooth_towards aw s.
Proof.
  unfold laplacian_smoothing. intros ldl spheres e s w s' w' H.
  apply bind_Done in H. destruct H as (aw & w1 & _ & H).
  apply ret_Done in H. destruct H as [-> _]. eauto.
Qed.

(** What the parallel loop does to one sphere. *)
Lemma update_sphere_spec :
  forall cache ldl spheres s (w : World) s' moved w',
    update_sphere X probe cache ldl spheres s w = (Done (s', moved), w') ->
    element s' = element s /\
    element_below_id s' = element_below_id s /\
    locked s' = locked s /\
    radius s' = radius s /\
    (locked s = true -> s' = s /\ moved = false) /\
    (locked s = false ->
       moved = (fltb fzero (last_collision_depth s')
                && fltb (EPSILON X) (last_collision_depth s'))%bool).
Proof.
  unfold update_sphere. intros cache ldl spheres s w s' moved w' H.
  destruct (locked s) eqn:L.
  - apply ret_Done in H. destruct H as [H _]. inversion H; subst.
    repeat split; auto; try discriminate.
  - apply bind_Done in H. destruct H as (e & w1 & _ & H).
    apply bind_Done in H. destruct H as (s1 & w2 & Hscan & H).
    apply scan_layers_same_body in Hscan.
    destruct Hscan as (E1 & E2 & E3 & E4 & _). simpl in E1, E2, E3, E4.
    destruct (nudge_away X s1) as [s2 mv] eqn:N.
    apply nudge_away_spec in N. destruct N as (N1 & N2 & N3 & N4 & N5 & N6).
    apply bind_Done in H. destruct H as (s3 & w3 & Hsm & H).
    apply laplacian_smoothing_spec in Hsm. destruct Hsm as (aw & ->).
    apply bind_Done in H. destruct H as (u & w4 & _ & H).
    apply ret_Done in H. destruct H as [H _]. inversion H; subst. simpl.
    repeat split; congruence.
Qed.

(** ** The steps of a pass, sphere by sphere *)

Lemma mapM_Done_heap :
  forall (T U : Type) (f : T -> M Exn U) (l : list T) w ys w',
    (forall x, heap_pure (f x)) ->
    mapM f l w = (Done ys, w') ->
    Forall2 (fun x y => exists w1 w2,
               heap w1 = heap w /\ f x w1 = (Done y, w2)) l ys.
Proof.
  intros T U f l w ys w' Hf. revert w ys w'.
  induction l as [|x l IH]; cbn [mapM]; intros w ys w' H.
  - inversion H; subst. constructor.
  - apply bind_Done in H. destruct H as (y & w1 & Hx & H).
    apply bind_Done in H. destruct H as (ys' & w2 & Hl & H).
    inversion H; subst.
    assert (Hh : heap w1 = heap w).
    { pose proof (Hf x w) as Hp. rewrite Hx in Hp. exact Hp. }
    constructor; [exists w, w1; split; [reflexivity | exact Hx]|].
    eapply Forall2_impl; [|apply (IH _ _ _ Hl)].
    intros a b (wa & wb & Ha & Hab). exists wa, wb.
    split; [congruence | exact Hab].
Qed.

Lemma Forall2_map_fst :
  forall (T U V : Type) (g : T -> T) (R : T -> U * V -> Prop)
         (l : list T) (rs : list (U * V)),
    Forall2 R (map g l) rs ->
    Forall2 (fun x y => exists m, R (g x) (y, m)) l (map fst rs).
Proof.
  intros T U V g R. induction l as [|x l IH]; intros rs H; cbn [map] in *.
  - inversion H; subst. constructor.
  - inversion H as [|? [y m] ? rs' Hx Hl]; subst. cbn [map fst].
    constructor; [exists m; exact Hx | apply IH; exact Hl].
Qed.

(** What the parallel loop does to an unlocked sphere, step by step. *)
Lemma update_sphere_stages :
  forall cache ldl spheres s (w : World) s' moved w',
    locked s = false ->
    update_sphere X probe cache ldl spheres s w = (Done (s', moved), w') ->
    exists e s1,
      get_element (heap w) (element s) = Some e /\
      scanned (Exn := Exn) X cache e s s1 /\
      smoothed (Exn := Exn) ldl spheres e (fst (nudge_away X s1)) s'.
Proof.
  unfold update_sphere. intros cache ldl spheres s w s' moved w' L H.
  rewrite L in H.
  apply bind_Done in H. destruct H as (e & w1 & He & H).
  apply deref_Done in He. destruct He as [He ->].
  apply bind_Done in H. destruct H as (s1 & w2 & Hscan & H).
  destruct (nudge_away X s1) as [s2 mv] eqn:N.
  apply bind_Done in H. destruct H as (s3 & w3 & Hsm & H).
  apply bind_Done in H. destruct H as (u & w4 & _ & H).
  apply ret_Done in H. destruct H as [H _]. inversion H; subst.
  exists e, s1. split; [exact He|].
  split; [exists w, w2; exact Hscan|].
  rewrite N. cbn [fst]. exists w2, w3. exact Hsm.
Qed.

(** A pass runs these steps on every unlocked sphere, from the
    positions of before the pass. *)
Lemma solver_pass_stages :
  forall cache ldl spheres (w : World) spheres' num_moved w',
    solver_pass X probe cache ldl spheres w = (Done (spheres', num_moved), w') ->
    Forall2
      (fun s s' =>
         locked s = false ->
         exists e s1,
           get_element (heap w) (element s) = Some e /\
           scanned (Exn := Exn) X cache e (backup_position s) s1 /\
           smoothed (Exn := Exn) ldl (map backup_position spheres) e
                    (fst (nudge_away X s1)) s')
      spheres spheres'.
Proof.
  unfold solver_pass. intros cache ldl spheres w spheres' num_moved w' H.
  apply bind_Done in H. destruct H as (rs & w1 & Hm & H).
  apply ret_Done in H. destruct H as [H _]. inversion H; subst. clear H.
  apply mapM_Done_heap in Hm;
    [|intros x; apply (proj2 (quiet_update_sphere X probe _ _ _ x))].
  apply Forall2_map_fst in Hm.
  eapply Forall2_impl; [|exact Hm].
  intros s s' (m & wa & wb & Hh & Hu) L.
  destruct (update_sphere_stages _ _ _ (backup_position s) _ _ _ _ L Hu)
    as (e & s1 & He & Hs & Hsm).
  exists e, s1. rewrite <- Hh. cbn [element backup_position set_prev_position] in He.
  split; [exact He|]. split; [exact Hs | exact Hsm].
Qed.

(** The search for the deepest collision leaves the sphere where it
    is. *)
Lemma scanned_same_body :
  forall cache e s s1,
    scanned (Exn := Exn) X cache e s s1 -> same_body s s1.
Proof.
  intros cache e s s1 (w1 & w2 & H).
  apply scan_layers_same_body in H. exact H.
Qed.

(** The collision step, written out. *)
Lemma nudge_away_explicit :
  forall s1 : CollisionSphere F,
    fst (nudge_away X s1)
    = if fltb fzero (last_collision_depth s1)
      then set_position
             (add_head2 (position s1)
                (v2cast32
                   (v2scale
                      (v2scale
                         (normalized (v2sub32 (to_2d (position s1))
                                              (to_2d (last_collision s1))))
                         (fmin (fmax fzero (fadd (last_collision_depth s1) (lit 1 10)))
                               (lit 5 10)))
                      (fmin (fmax fzero (fadd (last_collision_depth s1) (lit 1 10)))
                            (lit 5 10)))))
             s1
      else s1.
Proof.
  intros s1. unfold nudge_away.
  destruct (fltb fzero (last_collision_depth s1)); reflexivity.
Qed.

Lemma nudge_away_same_body :
  forall s1 : CollisionSphere F,
    element (fst (nudge_away X s1)) = element s1 /\
    element_below_id (fst (nudge_away X s1)) = element_below_id s1 /\
    radius (fst (nudge_away X s1)) = radius s1.
Proof.
  intros s1. rewrite nudge_away_explicit.
  destruct (fltb fzero (last_collision_depth s1)); repeat split; reflexivity.
Qed.

(** The loop over the parents on the spheres of a pass: the parents
    enter with their positions of before the pass. *)
Lemma add_parents_backup :
  forall (spheres : list (CollisionSphere F)) offset_above (s : CollisionSphere F)
         (ps : list Z) (a0 : Vec2 F * F) (w : World) aw w',
    (add_parents (map backup_position spheres) offset_above s ps a0 : M Exn _) w
    = (Done aw, w') ->
    exists Ps,
      Forall2 (fun ip P => lookupZ spheres (offset_above + ip) = Some P) ps Ps /\
      aw = fold_left
             (fun aw P => (v2add (fst aw) (v2lscale (radius s) (to_2d (position P))),
                           fadd (snd aw) (radius s)))
             Ps a0.
Proof.
  intros spheres oa s. unfold add_parents.
  induction ps as [|ip ps IH]; cbn [foldM]; intros a0 w aw w' H.
  - apply ret_Done in H. destruct H as [-> _]. exists []. split; [constructor|].
    reflexivity.
  - apply bind_Done in H. destruct H as (aw1 & w1 & Hstep & H).
    apply bind_Done in Hstep. destruct Hstep as (P & w2 & HP & Hstep).
    apply defined_Done in HP. destruct HP as [HP ->].
    apply ret_Done in Hstep. destruct Hstep as [-> ->].
    rewrite lookupZ_map in HP.
    destruct (lookupZ spheres (oa + ip)) as [P0|] eqn:E0; [|discriminate HP].
    cbn [option_map] in HP. inversion HP; subst P. clear HP.
    apply IH in H. destruct H as (Ps & HPs & ->).
    exists (P0 :: Ps). split; [constructor; assumption|].
    reflexivity.
Qed.

(** The smoothing on the spheres of a pass, written out. *)
Lemma laplacian_smoothing_backup :
  forall (ldl : list Z) (spheres : list (CollisionSphere F)) (e : SupportElement)
         (s s' : CollisionSphere F),
    smoothed (Exn := Exn) ldl (map backup_position spheres) e s s' ->
    exists offset_above Ps below,
      lookupZ ldl (layer_idx (state e) + 1) = Some offset_above /\
      Forall2 (fun ip P => lookupZ spheres (offset_above + ip) = Some P)
              (parents e) Ps /\
      (if (element_below_id s =? -1)%Z then below = None
       else exists offset_below c,
              lookupZ ldl (layer_idx (state e) - 1) = Some offset_below /\
              lookupZ spheres (offset_below + element_below_id s) = Some c /\
              below = Some c) /\
      let sum := sum_with_below (sum_over_parents (radius s) Ps) below in
      let avg := v2div (fst sum) (snd sum) in
      let p := to_2d (position s) in
      let target := v2add (v2lscale (fsub (of_Z 1) (lit 5 10)) p)
                          (v2lscale (lit 5 10) avg) in
      let shift := v2sub target p in
      let step := fmin (fmax fzero (norm shift)) (lit 2 10) in
      s' = set_position
             (add_head2 (position s) (v2cast32 (v2scale (normalized shift) step)))
             s.
Proof.
  intros ldl spheres e s s' (w & w' & H).
  unfold laplacian_smoothing in H.
  apply bind_Done in H. destruct H as (aw & w1 & Hw & H).
  apply ret_Done in H. destruct H as [-> _].
  unfold laplacian_weights in Hw.
  apply bind_Done in Hw. destruct Hw as (oa & w2 & Hoa & Hw).
  apply defined_Done in Hoa. destruct Hoa as [Hoa ->].
  apply bind_Done in Hw. destruct Hw as (aw1 & w3 & Hp & Hw).
  apply add_parents_backup in Hp. destruct Hp as (Ps & HPs & ->).
  fold (sum_over_parents (radius s) Ps) in Hw.
  unfold add_below in Hw.
  destruct (element_below_id s =? -1)%Z eqn:Eb; cbn [negb] in Hw.
  - apply ret_Done in Hw. destruct Hw as [-> _].
    exists oa, Ps, None.
    split; [exact Hoa|]. split; [exact HPs|]. split; [reflexivity|].
    reflexivity.
  - apply bind_Done in Hw. destruct Hw as (ob & w4 & Hob & Hw).
    apply defined_Done in Hob. destruct Hob as [Hob ->].
    apply bind_Done in Hw. destruct Hw as (c & w5 & Hc & Hw).
    apply defined_Done in Hc. destruct Hc as [Hc ->].
    apply ret_Done in Hw. destruct Hw as [-> _].
    rewrite lookupZ_map in Hc.
    destruct (lookupZ spheres (ob + element_below_id s)) as [c0|] eqn:E0;
      [|discriminate Hc].
    cbn [option_map] in Hc. inversion Hc; subst c. clear Hc.
    exists oa, Ps, (Some c0).
    split; [exact Hoa|]. split; [exact HPs|].
    split; [exists ob, c0; auto|].
    reflexivity.
Qed.


Lemma kept_by_pass_trans :
  forall a b c : CollisionSphere F,
    kept_by_pass a b -> kept_by_pass b c -> kept_by_pass a c.
Proof.
  unfold kept_by_pass. intros a b c (A1 & A2 & A3 & A4 & A5) (B1 & B2 & B3 & B4 & B5).
  split; [congruence|]. split; [congruence|]. split; [congruence|].
  split; [congruence|]. intros L.
  destruct (A5 L) as [P D]. destruct (B5 (eq_trans A3 L)) as [P' D'].
  split; congruence.
Qed.

Lemma updated_spheres_spec :
  forall cache ldl others,
    fltb (EPSILON X) fzero = false ->
    (forall d, fltb (EPSILON X) d = true -> fltb fzero d = true) ->
    forall spheres rs,
      Forall locked_at_rest spheres ->
      Forall2 (fun x y => exists w1 w2 : World,
                 update_sphere X probe cache ldl others x w1 = (Done y, w2))
              (map backup_position spheres) rs ->
      Forall2 kept_by_pass spheres (map fst rs) /\
      Forall locked_at_rest (map fst rs) /\
      length (filter snd rs) = length (filter (deeper_than_epsilon X) (map fst rs)).
Proof.
  intros cache ldl others H1 H2.
  induction spheres as [|s spheres IH]; intros rs Hrest Hm;
    inversion Hm as [|? r ? rs' (wa & wb & Hu) Hm']; subst; simpl.
  - repeat split; constructor.
  - inversion Hrest as [|? ? Hs Hrest']; subst.
    destruct (IH rs' Hrest' Hm') as (K & R & C).
    destruct r as [s' moved].
    apply update_sphere_spec in Hu.
    destruct Hu as (E1 & E2 & E3 & E4 & Hl & Hu). simpl in E1, E2, E3, E4, Hl, Hu.
    assert (Hmoved : moved = deeper_than_epsilon X s' /\ locked_at_rest s'
                     /\ kept_by_pass s s').
    { unfold deeper_than_epsilon, locked_at_rest, kept_by_pass.
      destruct (locked s) eqn:L.
      - destruct (Hl eq_refl) as [-> ->]. simpl.
        rewrite (Hs L), H1. repeat split; auto.
      - rewrite (Hu eq_refl).
        split; [|split; [congruence|]].
        + destruct (fltb (EPSILON X) (last_collision_depth s')) eqn:Ed.
          * rewrite (H2 _ Ed). reflexivity.
          * apply andb_false_r.
        + repeat split; auto; discriminate. }
    destruct Hmoved as (-> & Hr' & Hk). simpl.
    repeat split.
    + constructor; assumption.
    + constructor; assumption.
    + destruct (deeper_than_epsilon X s'); simpl; congruence.
Qed.

(** One pass: every sphere keeps its identity, a locked sphere keeps
    everything, and [num_moved] is the number of spheres whose depth
    exceeds [EPSILON], provided [EPSILON] is not below zero. *)
Lemma solver_pass_spec :
  forall cache ldl spheres (w : World) spheres' num_moved w',
    fltb (EPSILON X) fzero = false ->
    (forall d, fltb (EPSILON X) d = true -> fltb fzero d = true) ->
    Forall locked_at_rest spheres ->
    solver_pass X probe cache ldl spheres w = (Done (spheres', num_moved), w') ->
    Forall2 kept_by_pass spheres spheres' /\
    Forall locked_at_rest spheres' /\
    num_moved = length (filter (deeper_than_epsilon X) spheres').
Proof.
  unfold solver_pass. intros cache ldl spheres w spheres' num_moved w' H1 H2 Hrest H.
  apply bind_Done in H. destruct H as (rs & w1 & Hm & H).
  apply ret_Done in H. destruct H as [H _]. inversion H; subst. clear H.
  apply mapM_Done in Hm.
  eapply updated_spheres_spec; eassumption.
Qed.

Lemma Forall2_kept_refl :
  forall l : list (CollisionSphere F), Forall2 kept_by_pass l l.
Proof.
  induction l; constructor; auto. unfold kept_by_pass. tauto.
Qed.

Lemma Forall2_kept_trans :
  forall a b c : list (CollisionSphere F),
    Forall2 kept_by_pass a b -> Forall2 kept_by_pass b c -> Forall2 kept_by_pass a c.
Proof.
  intros a b c H. revert c. induction H; intros c Hc; inversion Hc; subst;
    constructor; eauto using kept_by_pass_trans.
Qed.

Lemma last_cons_default :
  forall (T : Type) (l : list T) (x d : T), last (x :: l) d = last l x.
Proof.
  intros T. induction l as [|y l IH]; intros x d.
  - reflexivity.
  - change (last (x :: y :: l) d) with (last (y :: l) d).
    rewrite !IH. reflexivity.
Qed.

(** The loop over the passes, [n] iterations left, with its log. *)
Lemma iterate_spec :
  fltb (EPSILON X) fzero = false ->
  (forall d, fltb (EPSILON X) d = true -> fltb fzero d = true) ->
  forall n cache ldl spheres (w : World) final log w',
    Forall locked_at_rest spheres ->
    iterate X probe n cache ldl spheres w = (Done (final, log), w') ->
    Forall2 kept_by_pass spheres final /\
    (length log <= n)%nat /\
    (n <> O -> log <> []) /\
    final = last (map snd log) spheres /\
    forall i entry,
      nth_error log i = Some entry ->
      fst entry = length (filter (deeper_than_epsilon X) (snd entry)) /\
      (fst entry = O -> S i = length log) /\
      (S i = length log -> fst entry = O \/ length log = n).
Proof.
  intros H1 H2. induction n as [|n IH]; cbn [iterate];
    intros cache ldl spheres w final log w' Hrest H.
  - apply ret_Done in H. destruct H as [H _]. inversion H; subst.
    split; [apply Forall2_kept_refl|]. split; [simpl; lia|].
    split; [intros Hn; congruence|]. split; [reflexivity|].
    intros i entry Hi. destruct i; discriminate Hi.
  - apply bind_Done in H. destruct H as ([spheres' moved] & w1 & Hp & H).
    apply solver_pass_spec in Hp; auto. destruct Hp as (K & R & C).
    destruct (Nat.eqb_spec moved 0) as [Hz|Hnz].
    + apply ret_Done in H. destruct H as [H _]. inversion H; subst final log.
      split; [exact K|]. split; [simpl; lia|]. split; [discriminate|].
      split; [reflexivity|].
      intros [|i] entry Hi; simpl in Hi; [|destruct i; discriminate].
      inversion Hi; subst entry. simpl. auto.
    + apply bind_Done in H. destruct H as ([final' log'] & w2 & Hr & H).
      apply ret_Done in H. destruct H as [H _]. inversion H; subst final log.
      destruct (IH _ _ _ _ _ _ _ R Hr) as (K' & L' & Ne & Fin & Hall). simpl.
      split; [eapply Forall2_kept_trans; eassumption|].
      split; [lia|]. split; [discriminate|]. split.
      * rewrite Fin. symmetry. apply last_cons_default.
      * intros [|i] entry Hi; simpl in Hi.
        -- inversion Hi; subst entry. simpl. split; [exact C|].
           split; [intros Hz; contradiction|].
           intros Hlen. right. inversion Hlen as [Hl0].
           destruct log' as [|x log'']; [|discriminate Hl0].
           destruct n as [|n']; [reflexivity|].
           exfalso. apply Ne; [discriminate | reflexivity].
        -- destruct (Hall i entry Hi) as (Hc & Hzero & Hlast).
           split; [exact Hc|]. split; [intros Hz; rewrite (Hzero Hz); reflexivity|].
           intros Hlen. inversion Hlen as [Hl0].
           destruct (Hlast Hl0) as [Hz|Hn]; [left; exact Hz | right; lia].
Qed.

(** Without any assumption on [EPSILON]: what a pass keeps. *)
Lemma updated_spheres_kept :
  forall cache ldl others spheres rs,
    Forall2 (fun x y => exists w1 w2 : World,
               update_sphere X probe cache ldl others x w1 = (Done y, w2))
            (map backup_position spheres) rs ->
    Forall2 kept_by_pass spheres (map fst rs).
Proof.
  intros cache ldl others.
  induction spheres as [|s spheres IH]; intros rs Hm;
    inversion Hm as [|? r ? rs' (wa & wb & Hu) Hm']; subst; simpl.
  - constructor.
  - constructor; [|apply IH; exact Hm'].
    destruct r as [s' moved]. apply update_sphere_spec in Hu.
    destruct Hu as (E1 & E2 & E3 & E4 & Hl & _). simpl in *.
    unfold kept_by_pass. repeat split; auto;
      destruct (Hl H) as [-> _]; reflexivity.
Qed.

Lemma solver_pass_kept :
  forall cache ldl spheres (w : World) spheres' num_moved w',
    solver_pass X probe cache ldl spheres w = (Done (spheres', num_moved), w') ->
    Forall2 kept_by_pass spheres spheres'.
Proof.
  unfold solver_pass. intros cache ldl spheres w spheres' num_moved w' H.
  apply bind_Done in H. destruct H as (rs & w1 & Hm & H).
  apply ret_Done in H. destruct H as [H _]. inversion H; subst. clear H.
  apply mapM_Done in Hm. eapply updated_spheres_kept. exact Hm.
Qed.

Lemma iterate_kept :
  forall n cache ldl spheres (w : World) final log w',
    iterate X probe n cache ldl spheres w = (Done (final, log), w') ->
    Forall2 kept_by_pass spheres final.
Proof.
  induction n as [|n IH]; cbn [iterate]; intros cache ldl spheres w final log w' H.
  - apply ret_Done in H. destruct H as [H _]. inversion H; subst.
    apply Forall2_kept_refl.
  - apply bind_Done in H. destruct H as ([spheres' moved] & w1 & Hp & H).
    apply solver_pass_kept in Hp.
    destruct (moved =? 0)%nat.
    + apply ret_Done in H. destruct H as [H _]. inversion H; subst. exact Hp.
    + apply bind_Done in H. destruct H as ([final' log'] & w2 & Hr & H).
      apply ret_Done in H. destruct H as [H _]. inversion H; subst.
      eapply Forall2_kept_trans; [exact Hp|]. eapply IH. exact Hr.
Qed.

(** ** The spheres before the first pass *)

Lemma same_core_refl : forall s : CollisionSphere F, same_core s s.
Proof. intros s. unfold same_core, same_body. tauto. Qed.

Lemma same_core_trans :
  forall a b c : CollisionSphere F, same_core a b -> same_core b c -> same_core a c.
Proof. unfold same_core, same_body. intros a b c H1 H2. intuition congruence. Qed.

Lemma Forall2_same_core_refl :
  forall l : list (CollisionSphere F), Forall2 same_core l l.
Proof. induction l; constructor; auto using same_core_refl. Qed.

Lemma Forall2_same_core_trans :
  forall a b c : list (CollisionSphere F),
    Forall2 same_core a b -> Forall2 same_core b c -> Forall2 same_core a c.
Proof.
  intros a b c H. revert c. induction H; intros c Hc; inversion Hc; subst;
    constructor; eauto using same_core_trans.
Qed.

Lemma Forall2_same_core_update_nth :
  forall (f : CollisionSphere F -> CollisionSphere F) (l : list (CollisionSphere F)) i,
    (forall s, same_core s (f s)) -> Forall2 same_core l (update_nth i f l).
Proof.
  intros f l i Hf. revert i. induction l as [|s l IH]; intros [|i]; simpl;
    constructor; auto using same_core_refl, Forall2_same_core_refl.
Qed.

Lemma freshly_built_same_core :
  forall mb rl (s s' : CollisionSphere F),
    same_core s s' -> freshly_built X mb rl s -> freshly_built X mb rl s'.
Proof.
  unfold freshly_built, built_for, same_core, same_body.
  intros mb rl s s' ((E1 & E2 & E3 & E4 & E5) & E6) ((e & G & B1 & B2 & B3 & B4) & D & (e' & G' & P)).
  split; [|split].
  - exists e. repeat split; congruence.
  - congruence.
  - exists e'. split; congruence.
Qed.

Lemma heap_of_quiet :
  forall (T : Type) (m : M Exn T) (w : World) o w',
    m w = (o, w') -> quiet probe m -> heap w' = heap w.
Proof.
  intros T m w o w' E [_ H]. specialize (H w). rewrite E in H. exact H.
Qed.

Lemma push_sphere_fresh :
  forall ldl spheres rl (w : World) spheres' w',
    push_sphere (Exn := Exn) X indeterminate ldl spheres rl w = (Done spheres', w') ->
    exists s, spheres' = spheres ++ [s] /\ freshly_built X (heap w) rl s.
Proof.
  unfold push_sphere. intros ldl spheres [r ld] w spheres' w' H.
  apply bind_Done in H. destruct H as (e & w1 & He & H).
  apply deref_Done in He. destruct He as [G ->].
  assert (Hfresh : forall z,
             freshly_built X (heap w) (r, ld) (set_min_z z (new_sphere X indeterminate r e ld))).
  { intros z. unfold freshly_built, built_for. simpl. split; [|split].
    - exists e. repeat split; auto.
    - reflexivity.
    - exists e. auto. }
  destruct (negb (ld =? -1)%Z).
  - apply bind_Done in H. destruct H as (ob & w2 & _ & H).
    apply bind_Done in H. destruct H as (below & w3 & _ & H).
    apply ret_Done in H. destruct H as [-> _]. eauto.
  - apply ret_Done in H. destruct H as [-> _]. eauto.
Qed.

Lemma push_spheres_fresh :
  forall ldl ewld (w : World) spheres w',
    foldM (push_sphere (Exn := Exn) X indeterminate ldl) ewld [] w = (Done spheres, w') ->
    Forall2 (freshly_built X (heap w)) ewld spheres.
Proof.
  intros ldl ewld w spheres w' H.
  apply (foldM_invariant _ _ (push_sphere (Exn := Exn) X indeterminate ldl)
           (fun before u w1 =>
              heap w1 = heap w /\ Forall2 (freshly_built X (heap w)) before u))
    with (before := []) in H.
  - apply H.
  - intros before x u w1 u1 w2 [Hh Hi] Hx.
    pose proof (heap_of_quiet _ _ _ _ _ Hx (quiet_push_sphere X probe indeterminate ldl u x)) as Hh2.
    apply push_sphere_fresh in Hx. destruct Hx as (s & -> & Hs).
    split; [congruence|]. apply Forall2_app; [exact Hi|].
    constructor; [|constructor]. rewrite <- Hh. exact Hs.
  - split; [reflexivity | constructor].
Qed.

Lemma propagate_max_z_same_core :
  forall ldl spheres id (w : World) spheres' w',
    (propagate_max_z ldl spheres id : M Exn _) w = (Done spheres', w') ->
    Forall2 same_core spheres spheres'.
Proof.
  unfold propagate_max_z. intros ldl spheres id w spheres' w' H.
  apply bind_Done in H. destruct H as (s & w1 & _ & H).
  apply bind_Done in H. destruct H as (e & w2 & _ & H).
  destruct (no_parents e).
  - apply ret_Done in H. destruct H as [-> _].
    apply Forall2_same_core_update_nth. intros c.
    unfold same_core, same_body. simpl. tauto.
  - apply bind_Done in H. destruct H as (oa & w3 & _ & H).
    match type of H with
    | foldM ?f _ _ _ = _ =>
        apply (foldM_invariant _ _ f (fun _ u _ => Forall2 same_core spheres u))
          with (before := []) in H
    end.
    + exact H.
    + intros before x u wa u1 wb Hi Hx.
      apply bind_Done in Hx. destruct Hx as (parent & wc & _ & Hx).
      apply ret_Done in Hx. destruct Hx as [-> _].
      eapply Forall2_same_core_trans; [exact Hi|].
      apply Forall2_same_core_update_nth. intros c.
    unfold same_core, same_body. simpl. tauto.
    + apply Forall2_same_core_refl.
Qed.

Lemma limit_spans_same_core :
  forall n spheres (w : World) spheres' w',
    (mapM (limit_span X n) spheres : M Exn _) w = (Done spheres', w') ->
    Forall2 same_core spheres spheres'.
Proof.
  intros n spheres w spheres' w' H. apply mapM_Done in H.
  eapply Forall2_impl; [|exact H].
  intros s s' (w1 & w2 & Hs). unfold limit_span in Hs.
  apply bind_Done in Hs. destruct Hs as (e & w3 & _ & Hs).
  apply ret_Done in Hs. destruct Hs as [-> _].
  unfold same_core, same_body. simpl. tauto.
Qed.

Lemma Forall2_fresh_same_core :
  forall mb ewld (a b : list (CollisionSphere F)),
    Forall2 (freshly_built X mb) ewld a -> Forall2 same_core a b ->
    Forall2 (freshly_built X mb) ewld b.
Proof.
  intros mb ewld a b H. revert b. induction H; intros b Hb; inversion Hb; subst;
    constructor; eauto using freshly_built_same_core.
Qed.

(** The spheres handed to the first pass are the initialised ones, up to
    their search spans; the heap and the spheres agree. *)
Lemma prepare_spheres_spec :
  forall ewld ldl (w : World) cache spheres w',
    prepare_spheres X probe indeterminate ewld ldl w = (Done (cache, spheres), w') ->
    heap w' = heap w /\ Forall2 (freshly_built X (heap w)) ewld spheres.
Proof.
  intros ewld ldl w cache spheres w' H.
  split; [exact (heap_of_quiet _ _ _ _ _ H (quiet_prepare_spheres X probe indeterminate ewld ldl))|].
  unfold prepare_spheres in H.
  apply bind_Done in H. destruct H as (cache0 & w1 & H0 & H).
  apply bind_Done in H. destruct H as (u1 & w2 & H1 & H).
  apply bind_Done in H. destruct H as (cache1 & w3 & H2 & H).
  apply bind_Done in H. destruct H as (sph0 & w4 & H3 & H).
  apply bind_Done in H. destruct H as (sph1 & w5 & H4 & H).
  apply bind_Done in H. destruct H as (sph2 & w6 & H5 & H).
  apply bind_Done in H. destruct H as (u2 & w7 & H6 & H).
  apply ret_Done in H. destruct H as [H _]. inversion H; subst. clear H.
  assert (Hh : heap w3 = heap w).
  { transitivity (heap w2).
    { eapply heap_of_quiet; [exact H2|].
      apply quiet_mapM. intros li. apply quiet_fill_layer_cache. }
    transitivity (heap w1).
    { eapply heap_of_quiet; [exact H1 | apply quiet_throw_on_cancel]. }
    eapply heap_of_quiet; [exact H0|].
    apply quiet_foldM. intros c rl. apply quiet_cache_add_element. }
  apply push_spheres_fresh in H3. rewrite Hh in H3.
  eapply Forall2_fresh_same_core; [|eapply limit_spans_same_core; exact H5].
  eapply Forall2_fresh_same_core; [exact H3|].
  match type of H4 with
  | foldM ?f _ _ _ = _ =>
      apply (foldM_invariant _ _ f (fun _ u _ => Forall2 same_core sph0 u))
        with (before := []) in H4
  end.
  - exact H4.
  - intros before x u wa ub wb Hi Hx.
    eapply Forall2_same_core_trans; [exact Hi|].
    eapply propagate_max_z_same_core. exact Hx.
  - apply Forall2_same_core_refl.
Qed.

(** What every pass does to its spheres, every pass of the loop does. *)
Lemma iterate_passes :
  forall (R : list (CollisionSphere F) -> MoveBounds
              -> CollisionSphere F -> CollisionSphere F -> Prop)
         cache ldl,
    (forall spheres (w : World) spheres' m w',
        solver_pass X probe cache ldl spheres w = (Done (spheres', m), w') ->
        Forall2 (R spheres (heap w)) spheres spheres') ->
    forall n spheres (w : World) final log w',
      iterate X probe n cache ldl spheres w = (Done (final, log), w') ->
      forall i entry,
        nth_error log i = Some entry ->
        Forall2 (R (spheres_before_pass spheres log i) (heap w))
                (spheres_before_pass spheres log i) (snd entry).
Proof.
  intros R cache ldl HR. induction n as [|n IH]; cbn [iterate];
    intros spheres w final log w' H i entry Hi.
  - apply ret_Done in H. destruct H as [H _]. inversion H; subst.
    destruct i; discriminate Hi.
  - apply bind_Done in H. destruct H as ([spheres' moved] & w1 & Hp & H).
    assert (Hh : heap w1 = heap w).
    { pose proof (proj2 (quiet_solver_pass X probe cache ldl spheres) w) as Hq.
      rewrite Hp in Hq. exact Hq. }
    pose proof (HR _ _ _ _ _ Hp) as Hfirst.
    destruct (moved =? 0)%nat.
    + apply ret_Done in H. destruct H as [H _]. inversion H; subst.
      destruct i as [|i]; [|destruct i; discriminate Hi].
      cbn in Hi. inversion Hi; subst. exact Hfirst.
    + apply bind_Done in H. destruct H as ([final' log'] & w2 & Hr & H).
      apply ret_Done in H. destruct H as [H _]. inversion H; subst.
      destruct i as [|j]; cbn [nth_error] in Hi.
      * inversion Hi; subst. exact Hfirst.
      * pose proof (IH _ _ _ _ _ Hr j entry Hi) as Hj. rewrite Hh in Hj.
        assert (E : spheres_before_pass spheres ((moved, spheres') :: log') (S j)
                    = spheres_before_pass spheres' log' j).
        { unfold spheres_before_pass. cbn [map snd nth].
          destruct j as [|k]; [reflexivity|].
          apply nth_indep. rewrite length_map.
          assert (Hlt : (S k < length log')%nat)
            by (apply nth_error_Some; rewrite Hi; discriminate).
          lia. }
        rewrite E. exact Hj.
Qed.

(** The collision step of a pass, for every arithmetic. *)
Lemma solver_pass_nudged :
  forall cache ldl spheres (w : World) spheres' num_moved w',
    solver_pass X probe cache ldl spheres w = (Done (spheres', num_moved), w') ->
    Forall2 (nudged_in_pass (Exn := Exn) X cache ldl spheres (heap w))
            spheres spheres'.
Proof.
  intros cache ldl spheres w spheres' num_moved w' H.
  apply solver_pass_stages in H.
  eapply Forall2_impl; [|exact H].
  intros s s' Hs L. destruct (Hs L) as (e & s1 & He & Hscan & Hsm).
  pose proof (scanned_same_body _ _ _ _ Hscan) as (_ & _ & _ & _ & Hpos).
  cbn [position backup_position set_prev_position] in Hpos.
  exists e, s1, (fst (nudge_away X s1)).
  split; [exact He|]. split; [exact Hscan|]. split; [exact Hpos|].
  split; [|exact Hsm].
  cbv zeta. rewrite nudge_away_explicit, Hpos. reflexivity.
Qed.

(** The smoothing step of a pass, for every arithmetic. *)
Lemma solver_pass_smoothed :
  forall cache ldl spheres (w : World) spheres' num_moved w',
    solver_pass X probe cache ldl spheres w = (Done (spheres', num_moved), w') ->
    Forall2 (smoothed_in_pass (Exn := Exn) X cache ldl spheres (heap w))
            spheres spheres'.
Proof.
  intros cache ldl spheres w spheres' num_moved w' H.
  apply solver_pass_stages in H.
  eapply Forall2_impl; [|exact H].
  intros s s' Hs L. destruct (Hs L) as (e & s1 & He & Hscan & Hsm).
  pose proof (scanned_same_body _ _ _ _ Hscan) as (_ & Hb & _ & Hr & _).
  cbn [element_below_id radius backup_position set_prev_position] in Hb, Hr.
  destruct (nudge_away_same_body s1) as (_ & Nb & Nr).
  apply laplacian_smoothing_backup in Hsm.
  destruct Hsm as (oa & Ps & below & Hoa & HPs & Hbelow & Hs').
  rewrite Nb, Hb in Hbelow. cbv zeta in Hs'. rewrite Nr, Hr in Hs'.
  exists e, s1, oa, Ps, below.
  split; [exact He|]. split; [exact Hscan|]. split; [exact Hoa|].
  split; [exact HPs|]. split; [exact Hbelow|]. exact Hs'.
Qed.

End SolverPasses.

(** C4. The loop over the passes runs at least one and at most
    [num_iter = 100] passes. [num_moved] of a pass is the number of
    spheres whose [last_collision_depth] exceeds [EPSILON] at the end of
    that pass; a pass with none is the last one; and the last pass either
    had none or was the hundredth. This holds for every arithmetic in
    which [EPSILON] is not negative: [EPSILON < 0] is false and whatever
    exceeds [EPSILON] exceeds zero. *)
Theorem solver_passes_until_none_moved :
  forall (F : Type) (A : Arith F) (Exn Polygons : Type)
         (X : Externals F Polygons) (probe : nat -> option Exn)
         (indeterminate : Vec3 F)
         (elements_with_link_down : list (ElemRef * Z)) (linear_data_layers : list Z)
         (w : World) (log : PassLog F) (w' : World),
    fltb (EPSILON X) fzero = false ->
    (forall d, fltb (EPSILON X) d = true -> fltb fzero d = true) ->
    organic_smooth_branches_avoid_collisions X probe indeterminate
      elements_with_link_down linear_data_layers w = (Done log, w') ->
    (1 <= length log <= 100)%nat /\
    forall i entry,
      nth_error log i = Some entry ->
      fst entry = length (filter (deeper_than_epsilon X) (snd entry)) /\
      (fst entry = O -> S i = length log) /\
      (S i = length log -> fst entry = O \/ length log = 100%nat).
Proof.
  intros F A Exn Polygons X probe indeterminate ewld ldl w log w' H1 H2 H.
  unfold organic_smooth_branches_avoid_collisions in H.
  apply bind_Done in H. destruct H as ([cache spheres] & w1 & Hp & H).
  apply bind_Done in H. destruct H as ([final log'] & w2 & Hi & H).
  apply bind_Done in H. destruct H as (u & w3 & _ & H).
  apply ret_Done in H. destruct H as [-> _]. simpl in *.
  apply prepare_spheres_spec in Hp. destruct Hp as [_ Hfresh].
  assert (Hrest : Forall locked_at_rest spheres).
  { clear Hi. induction Hfresh as [|rl s ? ? (_ & Hd & _) _ IH]; constructor; auto.
    intros _. exact Hd. }
  destruct (iterate_spec X probe H1 H2 num_iter _ _ _ _ _ _ _ Hrest Hi)
    as (_ & Hlen & Hne & _ & Hall).
  split.
  - split; [|exact Hlen].
    destruct log' as [|x l]; [exfalso; apply Hne; [discriminate | reflexivity]|].
    simpl. lia.
  - exact Hall.
Qed.

(** In binary64 arithmetic, whatever exceeds 1/10000 exceeds zero. *)
Lemma float_above_epsilon_positive :
  forall d : PrimFloat.float,
    fltb (EPSILON Scenario.externals) d = true -> fltb fzero d = true.
Proof.
  intros d. cbn [fltb FloatArith].
  rewrite !FloatAxioms.ltb_spec.
  set (eps := FloatOps.Prim2SF (EPSILON Scenario.externals)).
  set (z := FloatOps.Prim2SF fzero).
  vm_compute in eps. vm_compute in z. subst eps z.
  destruct (FloatOps.Prim2SF d) as [s|s| |s m e]; try destruct s; cbn;
    try discriminate; auto.
Qed.

(** The scenario, run in binary64 arithmetic without cancellation,
    satisfies the hypotheses of [solver_passes_until_none_moved]: it runs
    all hundred passes. *)
Lemma solver_passes_until_none_moved_scenario :
  (1 <= length Scenario.log <= 100)%nat /\
  forall i entry,
    nth_error Scenario.log i = Some entry ->
    fst entry = length (filter (deeper_than_epsilon Scenario.externals) (snd entry)) /\
    (fst entry = O -> S i = length Scenario.log) /\
    (S i = length Scenario.log -> fst entry = O \/ length Scenario.log = 100%nat).
Proof.
  apply (solver_passes_until_none_moved
           _ FloatArith _ _ Scenario.externals Scenario.never Scenario.origin3
           Scenario.elements_with_link_down Scenario.linear_data_layers
           Scenario.world0 Scenario.log
           (snd (Scenario.run Scenario.never))).
  - vm_compute. reflexivity.
  - exact float_above_epsilon_positive.
  - vm_compute. reflexivity.
Defined.

(** C5. A sphere is locked exactly when its element has no parents, or
    it has no link down ([-1]) and its layer index is above zero; and the
    passes of the solver, however many run, leave the position of every
    locked sphere exactly as it was before the first pass (and never
    change which spheres are locked). *)
Theorem locked_spheres_never_move :
  forall (F : Type) (A : Arith F) (Exn Polygons : Type)
         (X : Externals F Polygons) (probe : nat -> option Exn)
         (indeterminate : Vec3 F)
         (elements_with_link_down : list (ElemRef * Z)) (linear_data_layers : list Z)
         (w : World) cache spheres (w1 : World) final log (w2 : World),
    prepare_spheres X probe indeterminate elements_with_link_down
      linear_data_layers w = (Done (cache, spheres), w1) ->
    iterate X probe num_iter cache linear_data_layers spheres w1
      = (Done (final, log), w2) ->
    Forall2
      (fun rl s =>
         exists e,
           get_element (heap w) (fst rl) = Some e /\
           locked s = (no_parents e
                       || ((snd rl =? -1)%Z && (0 <? layer_idx (state e))%Z))%bool)
      elements_with_link_down spheres /\
    Forall2
      (fun s s' =>
         locked s' = locked s /\
         (locked s = true -> position s' = position s))
      spheres final.
Proof.
  intros F A Exn Polygons X probe indeterminate ewld ldl w cache spheres w1
         final log w2 Hp Hi.
  split.
  - apply prepare_spheres_spec in Hp. destruct Hp as [_ Hfresh].
    eapply Forall2_impl; [|exact Hfresh].
    intros rl s ((e & G & _ & _ & L & _) & _). exists e. split; [exact G | exact L].
  - apply iterate_kept in Hi.
    eapply Forall2_impl; [|exact Hi].
    intros s s' (_ & _ & L & _ & K). split; [exact L|].
    intros Hl. apply (K Hl).
Qed.

(** The scenario satisfies the hypotheses of
    [locked_spheres_never_move]. *)
Lemma locked_spheres_never_move_scenario :
  Forall2
    (fun rl s =>
       exists e,
         get_element (heap Scenario.world0) (fst rl) = Some e /\
         locked s = (no_parents e
                     || ((snd rl =? -1)%Z && (0 <? layer_idx (state e))%Z))%bool)
    Scenario.elements_with_link_down Scenario.spheres /\
  Forall2
    (fun s s' =>
       locked s' = locked s /\
       (locked s = true -> position s' = position s))
    Scenario.spheres Scenario.final_spheres.
Proof.
  apply (locked_spheres_never_move
           _ FloatArith _ _ Scenario.externals Scenario.never Scenario.origin3
           Scenario.elements_with_link_down Scenario.linear_data_layers
           Scenario.world0
           Scenario.cache Scenario.spheres (snd Scenario.prepared)
           Scenario.final_spheres
           (snd (Scenario.value_or ([], []) (fst Scenario.iterated)))
           (snd Scenario.iterated)).
  - vm_compute. reflexivity.
  - vm_compute. reflexivity.
Defined.

(* ===================================================================== *)
(** * Theorems: the smoothing step of a pass *)
(* ===================================================================== *)

(** C6. In the smoothing step of every pass of the loop at line 388 and
    for every unlocked sphere: each parent contributes its XY position
    of before the pass ([prev_position]) with a weight equal to the
    radius of the sphere itself; the sphere below, when there is a link
    down, contributes its XY position of before the pass with the
    weight accumulated over the parents, so that above and below weigh
    the same; the sum is divided by the total weight; and the XY
    position moves from where the collision step has left it, along the
    normalised [shift = ((1 - 0.5) position + 0.5 avg) - position], by
    [min(max(0, |shift|), 0.2)], rounded to float. Nothing else of the
    sphere changes. This holds for every arithmetic, with the sums taken
    in the order of the loop. *)
Theorem laplacian_smoothing_formula :
  forall (F : Type) (A : Arith F) (Exn Polygons : Type)
         (X : Externals F Polygons) (probe : nat -> option Exn)
         (n : nat) (cache : list (LayerCollisionCache F)) (ldl : list Z)
         (spheres : list (CollisionSphere F)) (w : World)
         (final : list (CollisionSphere F)) (log : PassLog F) (w' : World),
    iterate X probe n cache ldl spheres w = (Done (final, log), w') ->
    forall i entry,
      nth_error log i = Some entry ->
      Forall2 (smoothed_in_pass (Exn := Exn) X cache ldl
                 (spheres_before_pass spheres log i) (heap w))
              (spheres_before_pass spheres log i) (snd entry).
Proof.
  intros F A Exn Polygons X probe n cache ldl spheres w final log w' H i entry Hi.
  apply (iterate_passes X probe
           (fun sph mb => smoothed_in_pass (Exn := Exn) X cache ldl sph mb)
           cache ldl (solver_pass_smoothed X probe cache ldl)
           n spheres w final log w' H i entry Hi).
Qed.

(** The first pass of the run of the scenario satisfies the hypotheses
    of [laplacian_smoothing_formula]. *)
Lemma laplacian_smoothing_formula_scenario :
  Forall2 (smoothed_in_pass (Exn := nat) Scenario.externals Scenario.cache
             Scenario.linear_data_layers
             (spheres_before_pass Scenario.spheres Scenario.log 0)
             (heap (snd Scenario.prepared)))
          (spheres_before_pass Scenario.spheres Scenario.log 0)
          (snd FirstPass.entry).
Proof.
  apply (laplacian_smoothing_formula _ FloatArith nat _
           Scenario.externals Scenario.never num_iter Scenario.cache
           Scenario.linear_data_layers Scenario.spheres (snd Scenario.prepared)
           Scenario.final_spheres Scenario.log (snd Scenario.iterated)).
  - vm_compute. reflexivity.
  - vm_compute. reflexivity.
Defined.

(* ===================================================================== *)
(** * Theorems: the solver in real arithmetic *)
(* ===================================================================== *)

(** The statements of this part read [float] and [double] as real
    numbers: no rounding, no overflow, no NaN. *)

Section RealSolver.
Context {Exn : Type} {Polygons : Type}.
Variable X : Externals R Polygons.

Local Open Scope R_scope.

Local Notation "x <- m ;; k" := (bind m (fun x => k))
  (at level 100, m at next level, right associativity).

Lemma Rltb_true : forall a b, Rltb a b = true <-> a < b.
Proof. intros a b. unfold Rltb. destruct (Rlt_dec a b); split; auto; discriminate. Qed.

Lemma Rltb_false : forall a b, Rltb a b = false <-> b <= a.
Proof.
  intros a b. unfold Rltb. destruct (Rlt_dec a b); split; auto; try discriminate; lra.
Qed.

Lemma real_fmin : forall a b : R, fmin a b = Rmin a b.
Proof.
  intros a b. unfold fmin, Rmin. cbn [fltb RealArith]. unfold Rltb.
  destruct (Rlt_dec b a), (Rle_dec a b); try reflexivity; lra.
Qed.

Lemma real_fmax : forall a b : R, fmax a b = Rmax a b.
Proof.
  intros a b. unfold fmax, Rmax. cbn [fltb RealArith]. unfold Rltb.
  destruct (Rlt_dec a b), (Rle_dec a b); try reflexivity; lra.
Qed.

Lemma real_lit : forall n d : Z, (lit n d : R) = IZR n / IZR d.
Proof. reflexivity. Qed.

Lemma real_fzero : (fzero : R) = 0.
Proof. reflexivity. Qed.

Lemma vec2_eq :
  forall a b : Vec2 R, vx a = vx b -> vy a = vy b -> a = b.
Proof. intros [ax ay] [bx b_y]. simpl. intros -> ->. reflexivity. Qed.

Lemma squaredNorm_pos :
  forall v : Vec2 R, v <> mkVec2 0 0 -> 0 < squaredNorm v.
Proof.
  intros [x y] H. unfold squaredNorm. cbn.
  destruct (Req_dec x 0) as [Hx|Hx]; destruct (Req_dec y 0) as [Hy|Hy].
  - subst. contradiction H. reflexivity.
  - nra.
  - nra.
  - nra.
Qed.

(** Away from the zero vector, [normalized] is the unit vector of the
    same direction. *)
Lemma normalized_unit :
  forall v : Vec2 R,
    v <> mkVec2 0 0 ->
    0 < norm v /\
    normalized v = mkVec2 (vx v / norm v) (vy v / norm v) /\
    squaredNorm (normalized v) = 1.
Proof.
  intros v H. pose proof (squaredNorm_pos v H) as Hp.
  assert (Hn : 0 < norm v)
    by (unfold norm; cbn [fsqrt RealArith]; apply sqrt_lt_R0; exact Hp).
  split; [exact Hn|].
  assert (Hnz : normalized v = mkVec2 (vx v / norm v) (vy v / norm v)).
  { unfold normalized. cbn [fltb RealArith].
    rewrite real_fzero. rewrite (proj2 (Rltb_true 0 (squaredNorm v)) Hp).
    reflexivity. }
  split; [exact Hnz|].
  rewrite Hnz.
  assert (Hs : norm v * norm v = squaredNorm v)
    by (unfold norm; cbn [fsqrt RealArith]; apply sqrt_sqrt, Rlt_le; exact Hp).
  revert Hs Hn. generalize (norm v) as n. intros n Hs Hn.
  destruct v as [x y]. unfold squaredNorm in *. cbn in *.
  replace (x / n * (x / n) + y / n * (y / n)) with ((x * x + y * y) / (n * n))
    by (field; lra).
  rewrite <- Hs. field. lra.
Qed.

(** The length of a scaled unit vector. *)
Lemma norm_scaled_unit :
  forall (u : Vec2 R) (k : R),
    squaredNorm u = 1 -> 0 <= k -> norm (v2scale u k) = k.
Proof.
  intros [x y] k Hu Hk. unfold norm, squaredNorm, v2scale in *. cbn in *.
  replace (x * k * (x * k) + y * k * (y * k)) with (k * k) by nra.
  apply sqrt_square. exact Hk.
Qed.

Lemma real_nudge_dist :
  forall d : R,
    fmin (fmax fzero (fadd d collision_extra_gap)) max_nudge_collision_avoidance
    = Rmin (Rmax 0 (d + 1 / 10)) (1 / 2).
Proof.
  intros d. rewrite real_fmin, real_fmax.
  unfold collision_extra_gap, max_nudge_collision_avoidance.
  rewrite !real_lit, real_fzero. cbn [fadd RealArith].
  replace (5 / 10) with (1 / 2) by lra. reflexivity.
Qed.

Lemma nudge_dist_bounds :
  forall d : R, 0 < d -> 1 / 10 < Rmin (Rmax 0 (d + 1 / 10)) (1 / 2) <= 1 / 2.
Proof.
  intros d Hd. unfold Rmin, Rmax.
  destruct (Rle_dec 0 (d + 1 / 10)); destruct (Rle_dec _ (1 / 2)); lra.
Qed.

End RealSolver.

(* ===================================================================== *)
(** * Theorems: a sphere hit at its centre, in exact arithmetic *)
(* ===================================================================== *)

Section TouchingFacts.
Context {Polygons : Type}.
Local Open Scope R_scope.

Lemma Rleb_true : forall a b : R, Rleb a b = true <-> a <= b.
Proof. intros a b. unfold Rleb. destruct (Rle_dec a b); split; auto; discriminate. Qed.

(** A layer on which the sphere is hit deeper than before, in exact
    arithmetic. *)
Lemma scan_layer_hit :
  forall (X : Externals R Polygons) (cache : list (LayerCollisionCache R))
         (e : SupportElement) (s : CollisionSphere R) (layer_id : Z)
         (item : LayerCollisionCache R) (d2 : R) (hit : Vec2 R) (w : World),
    let dz := IZR (wrap32 (layer_id - layer_idx (state e))) * layer_height X in
    let r2 := radius s * radius s - dz * dz in
    0 < r2 ->
    lookupZ cache layer_id = Some item ->
    lines item <> [] ->
    squared_distance_to_indexed_lines X (lines item) (to_2d (position s)) r2
    = (d2, hit) ->
    0 <= d2 ->
    last_collision_depth s < sqrt r2 - sqrt d2 ->
    (scan_layer X cache e s layer_id : M nat _) w
    = (Done (set_collision (sqrt r2 - sqrt d2) (to_3d hit (layer_z X layer_id)) s), w).
Proof.
  intros X cache e s layer_id item d2 hit w dz r2 Hr2 Hitem Hlines Hq Hd2 Hdeep.
  unfold scan_layer. cbv zeta.
  change (fltb fzero
            (fsub (fmul32 (radius s) (radius s))
                  (sqr (fmul (of_Z (wrap32 (layer_id - layer_idx (state e))))
                             (layer_height X)))))
    with (Rltb 0 r2).
  rewrite (proj2 (Rltb_true 0 r2) Hr2).
  unfold bind, defined. rewrite Hitem.
  destruct (lines item) as [|l ls] eqn:El; [contradiction Hlines; reflexivity|].
  change (fsub (fmul32 (radius s) (radius s))
               (sqr (fmul (of_Z (wrap32 (layer_id - layer_idx (state e))))
                          (layer_height X))))
    with r2.
  rewrite Hq.
  change (fleb fzero d2) with (Rleb 0 d2).
  rewrite (proj2 (Rleb_true 0 d2) Hd2).
  change (fltb (last_collision_depth s) (fsub (fsqrt r2) (fsqrt d2)))
    with (Rltb (last_collision_depth s) (sqrt r2 - sqrt d2)).
  rewrite (proj2 (Rltb_true _ _) Hdeep).
  reflexivity.
Qed.
End TouchingFacts.

Section TouchingScan.
Local Open Scope R_scope.

(** The search of a pass on the sphere of the example. *)
Lemma touching_scanned :
  scanned (Exn := nat) Touching.externals Touching.cache Touching.element
          Touching.sphere Touching.hit.
Proof.
  exists (mkWorld [] 0), (mkWorld [] 0).
  unfold Touching.sphere, scanned_layers.
  cbn [layer_begin layer_end set_collision last_collision].
  replace (Z.to_nat (wrap32 (2 - 1))) with 1%nat by (vm_compute; reflexivity).
  cbn [seq map foldM].
  replace (wrap32 (1 + Z.of_nat 0)) with 1%Z by (vm_compute; reflexivity).
  unfold bind at 1.
  match goal with
  | |- context [scan_layer ?X ?c ?e ?s ?l] =>
      pose proof (scan_layer_hit X c e s l
                    (mkLayerCache 0 0 [ (mkVec2 0%R 0%R, mkVec2 1%R 0%R) ])
                    0 (to_2d Touching.centre) (mkWorld [] 0)) as H
  end.
  cbv zeta in H.
  cbn [set_collision radius element element_below_id locked position
       last_collision_depth Touching.element layer_idx state layer_height
       Touching.externals lines layer_z] in H.
  replace (wrap32 (1 - 1)) with 0%Z in H by (vm_compute; reflexivity).
  assert (Hr2 : 1 * 1 - 0 * (2 / 10) * (0 * (2 / 10)) = 1) by ring.
  rewrite Hr2 in H. rewrite sqrt_1, sqrt_0 in H.
  rewrite H.
  - unfold ret, Touching.hit, set_collision, Touching.centre, to_3d, to_2d.
    cbn [px py pz vx vy element element_below_id locked radius position
         prev_position min_z max_z layer_begin layer_end].
    replace (IZR (1 + 1) * (2 / 10)) with (4 / 10).
    + replace (1 - 0) with 1 by ring. reflexivity.
    + rewrite plus_IZR. lra.
  - lra.
  - reflexivity.
  - discriminate.
  - reflexivity.
  - lra.
  - unfold fopp. cbn [fsub dbl_max RealArith]. rewrite real_fzero.
    assert (Hp : 2 ^ 971 < 2 ^ 1024) by (apply Rlt_pow; [lra | lia]).
    lra.
Qed.

End TouchingScan.

(* ===================================================================== *)
(** * Theorems: the collision step of a pass *)
(* ===================================================================== *)

(** C3, corrected. In every pass of the loop at line 388 and for every
    unlocked sphere, the search for the deepest collision leaves the
    sphere where it is, and when the depth it comes back with is
    positive, the collision step adds to the XY position the normalised
    vector from [last_collision] to the position, times
    [nudge_dist = min(max(0, last_collision_depth + 0.1), 0.5)], times
    [nudge_dist] once more, rounded to float; the smoothing goes on from
    there. This holds for every arithmetic. In exact arithmetic the
    vector added has the length [nudge_dist * nudge_dist], between 0.01
    and 0.25, along the unit vector from [last_collision] to the
    position, when the centre of the sphere is not on the point hit;
    when it is, [normalized()] leaves the null vector as it is and the
    sphere is not moved by the collision step. *)
Theorem collision_nudge_is_squared :
  (forall (F : Type) (A : Arith F) (Exn Polygons : Type)
          (X : Externals F Polygons) (probe : nat -> option Exn)
          (n : nat) (cache : list (LayerCollisionCache F)) (ldl : list Z)
          (spheres : list (CollisionSphere F)) (w : World)
          (final : list (CollisionSphere F)) (log : PassLog F) (w' : World),
      iterate X probe n cache ldl spheres w = (Done (final, log), w') ->
      forall i entry,
        nth_error log i = Some entry ->
        Forall2 (nudged_in_pass (Exn := Exn) X cache ldl
                   (spheres_before_pass spheres log i) (heap w))
                (spheres_before_pass spheres log i) (snd entry))
  /\
  (forall (p lc : Vec2 R) (depth : R),
      (0 < depth)%R ->
      let nudge_dist := fmin (fmax fzero (fadd depth (lit 1 10))) (lit 5 10) in
      let away := v2sub32 p lc in
      let shift :=
        v2cast32 (v2scale (v2scale (normalized away) nudge_dist) nudge_dist) in
      nudge_dist = Rmin (Rmax 0 (depth + 1 / 10)) (1 / 2) /\
      (1 / 10 < nudge_dist <= 1 / 2)%R /\
      (p <> lc ->
         normalized away = mkVec2 (vx away / norm away)%R (vy away / norm away)%R /\
         squaredNorm (normalized away) = 1%R /\
         shift = v2scale (normalized away) (nudge_dist * nudge_dist)%R /\
         norm shift = (nudge_dist * nudge_dist)%R) /\
      (p = lc -> shift = mkVec2 0%R 0%R)).
Proof.
  split.
  - intros F A Exn Polygons X probe n cache ldl spheres w final log w' H i entry Hi.
    apply (iterate_passes X probe
             (fun sph mb => nudged_in_pass (Exn := Exn) X cache ldl sph mb)
             cache ldl (solver_pass_nudged X probe cache ldl)
             n spheres w final log w' H i entry Hi).
  - intros p lc depth Hd nudge_dist away shift.
    assert (Hnd : nudge_dist = Rmin (Rmax 0 (depth + 1 / 10)) (1 / 2)).
    { unfold nudge_dist. rewrite real_fmin, real_fmax, !real_lit, real_fzero.
      cbn [fadd RealArith]. replace (5 / 10)%R with (1 / 2)%R by lra.
      reflexivity. }
    pose proof (nudge_dist_bounds _ Hd) as Hb. rewrite <- Hnd in Hb.
    split; [exact Hnd|]. split; [exact Hb|]. split.
    + intros Hne.
      assert (Haway : away <> mkVec2 0%R 0%R).
      { intros E. apply Hne. unfold away, v2sub32, fsub32 in E. cbn in E.
        inversion E as [[Ex Ey]]. apply vec2_eq; lra. }
      destruct (normalized_unit away Haway) as (Hn & Hnz & Hu).
      split; [exact Hnz|]. split; [exact Hu|].
      assert (Hshift : shift = v2scale (normalized away) (nudge_dist * nudge_dist)%R).
      { unfold shift. apply vec2_eq; cbn; ring. }
      split; [exact Hshift|].
      rewrite Hshift. apply norm_scaled_unit; [exact Hu | nra].
    + intros ->. unfold shift, away, normalized.
      assert (Hz : squaredNorm (v2sub32 lc lc) = 0%R).
      { unfold squaredNorm, v2sub32, fsub32. cbn. ring. }
      cbn [fltb RealArith]. rewrite real_fzero, Hz.
      rewrite (proj2 (Rltb_false 0 0)) by lra.
      apply vec2_eq; cbn; ring.
Qed.

(** The first pass of the run of the scenario satisfies the hypotheses
    of the first part of [collision_nudge_is_squared], and a depth of
    0.2 with a centre at (3, 4) hit at the origin that of the second. *)
Lemma collision_nudge_is_squared_scenario :
  Forall2 (nudged_in_pass (Exn := nat) Scenario.externals Scenario.cache
             Scenario.linear_data_layers
             (spheres_before_pass Scenario.spheres Scenario.log 0)
             (heap (snd Scenario.prepared)))
          (spheres_before_pass Scenario.spheres Scenario.log 0)
          (snd FirstPass.entry)
  /\
  (let nudge_dist := fmin (fmax fzero (fadd (1 / 5)%R (lit 1 10))) (lit 5 10) in
   let away := v2sub32 (mkVec2 3 4)%R (mkVec2 0 0)%R in
   let shift :=
     v2cast32 (v2scale (v2scale (normalized away) nudge_dist) nudge_dist) in
   nudge_dist = Rmin (Rmax 0 (1 / 5 + 1 / 10)) (1 / 2) /\
   (1 / 10 < nudge_dist <= 1 / 2)%R /\
   ((mkVec2 3 4)%R <> (mkVec2 0 0)%R ->
      normalized away = mkVec2 (vx away / norm away)%R (vy away / norm away)%R /\
      squaredNorm (normalized away) = 1%R /\
      shift = v2scale (normalized away) (nudge_dist * nudge_dist)%R /\
      norm shift = (nudge_dist * nudge_dist)%R) /\
   ((mkVec2 3 4)%R = (mkVec2 0 0)%R -> shift = mkVec2 0%R 0%R)).
Proof.
  split.
  - apply (proj1 collision_nudge_is_squared _ FloatArith nat _
             Scenario.externals Scenario.never num_iter Scenario.cache
             Scenario.linear_data_layers Scenario.spheres (snd Scenario.prepared)
             Scenario.final_spheres Scenario.log (snd Scenario.iterated)).
    + vm_compute. reflexivity.
    + vm_compute. reflexivity.
  - apply (proj2 collision_nudge_is_squared (mkVec2 3 4)%R (mkVec2 0 0)%R (1 / 5)%R).
    lra.
Defined.

(** The claim does not hold for a sphere whose centre is on the point
    hit. The sphere of radius 1 at (1/2, 0) on layer 1, where the
    outline goes through its centre, comes out of the search of a pass
    with the depth 1 and its centre as the point hit; the collision step
    then leaves it where it is, and no unit vector times
    [nudge_dist * nudge_dist = 0.25] is the null vector. *)
Lemma collision_nudge_fails_on_hit_point :
  scanned (Exn := nat) Touching.externals Touching.cache Touching.element
          Touching.sphere Touching.hit /\
  (0 < last_collision_depth Touching.hit)%R /\
  position (fst (nudge_away Touching.externals Touching.hit))
  = position Touching.hit /\
  ~ collision_step_as_claimed Touching.externals Touching.hit.
Proof.
  assert (Hstay : position (fst (nudge_away Touching.externals Touching.hit))
                  = position Touching.hit).
  { rewrite nudge_away_explicit.
    cbn [Touching.hit last_collision_depth position last_collision].
    cbn [fltb RealArith]. rewrite real_fzero.
    rewrite (proj2 (Rltb_true 0 1)) by lra.
    unfold normalized.
    assert (Hz : squaredNorm (v2sub32 (to_2d Touching.centre) (to_2d Touching.centre))
                 = 0%R).
    { unfold squaredNorm, v2sub32, fsub32. cbn. ring. }
    cbn [fltb RealArith]. rewrite real_fzero, Hz.
    rewrite (proj2 (Rltb_false 0 0)) by lra.
    unfold Touching.centre, set_position, add_head2, v2cast32, v2scale, v2sub32,
      fsub32, fadd32, to_2d.
    cbn [position px py pz vx vy to_float fadd fsub fmul RealArith].
    f_equal; ring. }
  split; [exact touching_scanned|].
  split; [cbn; lra|]. split; [exact Hstay|].
  intros Hclaim.
  destruct Hclaim as ([ux uy] & Hu & Hp); [cbn; lra|].
  rewrite Hstay in Hp.
  cbn [Touching.hit last_collision_depth position] in Hp.
  unfold Touching.centre, to_2d, v2add, v2scale in Hp.
  cbn [px py vx vy fadd fmul RealArith] in Hp.
  assert (Hn : Rmin (Rmax 0 (1 + 1 / 10)) (1 / 2) = (1 / 2)%R).
  { unfold Rmin, Rmax.
    destruct (Rle_dec 0 (1 + 1 / 10)); destruct (Rle_dec _ (1 / 2)); lra. }
  rewrite Hn in Hp. inversion Hp as [[Hx Hy]].
  unfold squaredNorm in Hu. cbn [vx vy fadd fmul RealArith] in Hu.
  nra.
Qed.

(* ===================================================================== *)
(** * Theorems: Laplacian smoothing in real arithmetic *)
(* ===================================================================== *)

Section RealSmoothing.
Context {Exn : Type}.

Local Open Scope R_scope.

Lemma v2add_assoc :
  forall a b c : Vec2 R, v2add (v2add a b) c = v2add a (v2add b c).
Proof. intros. apply vec2_eq; cbn; ring. Qed.

Lemma v2add_zero_r : forall a : Vec2 R, v2add a (mkVec2 0 0) = a.
Proof. intros. apply vec2_eq; cbn; ring. Qed.

(** The loop over the parents adds, for each parent, the sphere's own
    radius times the parent's previous position, and the radius to the
    weight. *)
Lemma add_parents_spec :
  forall (spheres : list (CollisionSphere R)) offset_above (s : CollisionSphere R)
         (ps : list Z) (a0 : Vec2 R) (w0 : R) (w : World) aw w',
    (add_parents spheres offset_above s ps (a0, w0) : M Exn _) w = (Done aw, w') ->
    exists Ps,
      Forall2 (fun ip P => lookupZ spheres (offset_above + ip) = Some P) ps Ps /\
      fst aw = v2add a0 (parents_sum (radius s) Ps) /\
      snd aw = w0 + parents_weight (radius s) Ps.
Proof.
  intros spheres oa s. unfold add_parents, parents_sum, parents_weight.
  induction ps as [|ip ps IH]; cbn [foldM]; intros a0 w0 w aw w' H.
  - apply ret_Done in H. destruct H as [-> _]. exists []. simpl.
    split; [constructor|]. split; [symmetry; apply v2add_zero_r | ring].
  - apply bind_Done in H. destruct H as (aw1 & w1 & Hstep & H).
    apply bind_Done in Hstep. destruct Hstep as (P & w2 & HP & Hstep).
    apply defined_Done in HP. destruct HP as [HP ->].
    apply ret_Done in Hstep. destruct Hstep as [-> ->].
    apply IH in H. destruct H as (Ps & HPs & Ha & Hw).
    exists (P :: Ps). split; [constructor; assumption|].
    cbn [fst snd] in *. split.
    + rewrite Ha. cbn [map vsum fold_right]. fold (vsum (map (fun p => v2lscale (radius s) (to_2d (prev_position p))) Ps)).
      apply v2add_assoc.
    + rewrite Hw. cbn [length fadd RealArith]. rewrite S_INR. ring.
Qed.

(** What [laplacian_weights] returns: the weighted sum over the parents
    and, when there is a sphere below, that sphere with the weight
    accumulated over the parents. *)
Lemma laplacian_weights_spec :
  forall (ldl : list Z) (spheres : list (CollisionSphere R)) (e : SupportElement)
         (s : CollisionSphere R) (w : World) aw w',
    (laplacian_weights ldl spheres e s : M Exn _) w = (Done aw, w') ->
    exists offset_above Ps below,
      lookupZ ldl (layer_idx (state e) + 1) = Some offset_above /\
      Forall2 (fun ip P => lookupZ spheres (offset_above + ip) = Some P)
              (parents e) Ps /\
      (if (element_below_id s =? -1)%Z then below = None
       else exists offset_below c,
              lookupZ ldl (layer_idx (state e) - 1) = Some offset_below /\
              lookupZ spheres (offset_below + element_below_id s) = Some c /\
              below = Some c) /\
      aw = weighted_sum (radius s) Ps below.
Proof.
  unfold laplacian_weights. intros ldl spheres e s w aw w' H.
  apply bind_Done in H. destruct H as (oa & w1 & Hoa & H).
  apply defined_Done in Hoa. destruct Hoa as [Hoa ->].
  apply bind_Done in H. destruct H as (aw1 & w2 & Hp & H).
  apply add_parents_spec in Hp. destruct Hp as (Ps & HPs & Ha & Hw).
  assert (Haw1 : aw1 = (parents_sum (radius s) Ps, parents_weight (radius s) Ps)).
  { destruct aw1 as [a1 wt1]. cbn [fst snd] in *. f_equal.
    - rewrite Ha. apply vec2_eq; cbn; ring.
    - rewrite Hw. rewrite real_fzero. ring. }
  unfold add_below in H.
  destruct (element_below_id s =? -1)%Z eqn:Eb; cbn [negb] in H.
  - apply ret_Done in H. destruct H as [-> _].
    exists oa, Ps, None. repeat split; auto.
  - apply bind_Done in H. destruct H as (ob & w3 & Hob & H).
    apply defined_Done in Hob. destruct Hob as [Hob ->].
    apply bind_Done in H. destruct H as (c & w4 & Hc & H).
    apply defined_Done in Hc. destruct Hc as [Hc ->].
    apply ret_Done in H. destruct H as [-> _].
    exists oa, Ps, (Some c).
    split; [exact Hoa|]. split; [exact HPs|]. split; [eauto|].
    rewrite Haw1. reflexivity.
Qed.

Lemma real_smoothing_step :
  forall m : R,
    fmin (fmax fzero m) max_nudge_smoothing = Rmin (Rmax 0 m) (2 / 10).
Proof.
  intros m. rewrite real_fmin, real_fmax. unfold max_nudge_smoothing.
  rewrite real_lit, real_fzero. reflexivity.
Qed.

End RealSmoothing.

(** C10, in real arithmetic. A sphere that reaches the smoothing step is
    unlocked; its element then has at least one parent. When the radius
    of the element is positive (and unscaling keeps positive lengths
    positive), the weight by which [avg] is divided is positive: the
    division never divides by zero. *)
Theorem smoothing_weight_positive :
  forall (Exn Polygons : Type) (X : Externals R Polygons)
         (mb : MoveBounds) (rl : ElemRef * Z) (e : SupportElement)
         (ldl : list Z) (spheres : list (CollisionSphere R)) (s : CollisionSphere R)
         (w : World) (aw : Vec2 R * R) (w' : World),
    get_element mb (fst rl) = Some e ->
    built_for X mb rl s ->
    locked s = false ->
    (0 < getRadius X (state e))%Z ->
    (forall c, (0 < c)%Z -> (0 < unscaled_float X c)%R) ->
    (laplacian_weights ldl spheres e s : M Exn _) w = (Done aw, w') ->
    parents e <> [] /\ (0 < snd aw)%R.
Proof.
  intros Exn Polygons X mb rl e ldl spheres s w aw w' G Hb Hl Hr Hu H.
  destruct Hb as (e' & G' & _ & _ & Hlock & Hrad).
  rewrite G in G'. inversion G'; subst e'. clear G'.
  rewrite Hl in Hlock. unfold locked_rule in Hlock.
  symmetry in Hlock. apply orb_false_iff in Hlock. destruct Hlock as [Hnp _].
  unfold no_parents in Hnp.
  destruct (parents e) as [|p ps] eqn:Ep; [discriminate|].
  split; [discriminate|].
  apply laplacian_weights_spec in H.
  destruct H as (oa & Ps & below & _ & HPs & _ & ->).
  rewrite Ep in HPs. inversion HPs as [|? P ? Ps' _ HPs']; subst.
  assert (Hpos : (0 < radius s)%R) by (rewrite Hrad; apply Hu; exact Hr).
  assert (Hw : (0 < parents_weight (radius s) (P :: Ps'))%R).
  { unfold parents_weight. apply Rmult_lt_0_compat; [|exact Hpos].
    apply lt_0_INR. simpl. lia. }
  destruct below; unfold weighted_sum; cbn [snd]; lra.
Qed.

(** A sphere built for the middle element of the example satisfies the
    hypotheses of [smoothing_weight_positive]. *)
Lemma smoothing_weight_positive_example :
  parents (RealExample.element_at 1 [0%Z]) <> [] /\
  (0 < snd (RealExample.value_or (mkVec2 0%R 0%R, 0%R) (fst RealExample.weights)))%R.
Proof.
  apply (smoothing_weight_positive nat unit RealExample.externals
           RealExample.move_bounds ((1, 0)%Z, 0%Z) (RealExample.element_at 1 [0%Z])
           RealExample.linear_data_layers RealExample.spheres RealExample.middle
           RealExample.world0
           (RealExample.value_or (mkVec2 0%R 0%R, 0%R) (fst RealExample.weights))
           RealExample.world0).
  - reflexivity.
  - exists (RealExample.element_at 1 [0%Z]). cbn.
    repeat split; try reflexivity. lra.
  - reflexivity.
  - reflexivity.
  - intros c Hc. cbn. apply Rdiv_lt_0_compat; [apply IZR_lt; exact Hc | lra].
  - reflexivity.
Defined.

(* ===================================================================== *)
(** * Theorems: the downward propagation of a root slice *)
(* ===================================================================== *)

Section SlicerFacts.
Context {F : Type} {A : Arith F} {Polygon : Type}.
Variable V : SlicerExternals F Polygon.

(** The loop from its step [j] on, [n] layers left: the slices pushed
    are the successive rests, each of them not below the threshold, and
    the loop ends early only on a rest below the threshold. *)
Lemma propagate_down_spec :
  forall (front : list Polygon) (stop : F) (layer_begin : Z),
    fltb (area V []) stop = true ->
    forall n j rest acc,
      (j = O -> rest = []) ->
      (j <> O -> rest = rest_below V front layer_begin (j - 1) /\ rest <> []) ->
      length acc = j ->
      (forall k, (k < j)%nat ->
         nth_error acc k = Some (pushed_entry V front layer_begin k) /\
         fltb (area V (rest_below V front layer_begin k)) stop = false) ->
      let extra :=
        propagate_down V front stop
          (map (fun k => (layer_begin - 1 - Z.of_nat k)%Z) (seq j n)) rest acc in
      (length extra <= j + n)%nat /\
      (forall k, (k < length extra)%nat ->
         nth_error extra k = Some (pushed_entry V front layer_begin k) /\
         fltb (area V (rest_below V front layer_begin k)) stop = false) /\
      ((length extra < j + n)%nat ->
         fltb (area V (rest_below V front layer_begin (length extra))) stop = true).
Proof.
  intros front stop layer_begin Hempty.
  induction n as [|n IH]; intros j rest acc H0 Hj Hlen Hacc; cbn [seq map propagate_down].
  - split; [lia|]. split; [rewrite Hlen; exact Hacc | lia].
  - set (rest' := diff_clipped V (if is_empty rest then front else rest)
                    (getCollision V 0 (layer_begin - 1 - Z.of_nat j) false)).
    assert (Hrest' : rest' = rest_below V front layer_begin j).
    { unfold rest'. destruct j as [|j'].
      - rewrite (H0 eq_refl). cbn [is_empty rest_below].
        replace (layer_begin - 1 - Z.of_nat 0)%Z with (layer_begin - 1)%Z by lia.
        reflexivity.
      - destruct (Hj (Nat.neq_succ_0 j')) as [Hr Hne].
        replace (S j' - 1)%nat with j' in Hr by lia.
        destruct rest as [|p rest0]; [contradiction Hne; reflexivity|].
        cbn [is_empty rest_below]. rewrite Hr. reflexivity. }
    cbv zeta. fold rest'.
    destruct (fltb (area V rest') stop) eqn:Hs.
    + rewrite Hlen. split; [lia|]. split; [exact Hacc|].
      intros _. rewrite <- Hrest'. exact Hs.
    + assert (Hne : rest' <> []).
      { intros E. rewrite E in Hs. rewrite Hempty in Hs. discriminate. }
      specialize (IH (S j) rest' (acc ++ [mkBottomExtraSlice rest' (area V rest')])).
      cbv zeta in IH.
      destruct IH as (L & Hall & Hstop).
      * discriminate.
      * intros _. replace (S j - 1)%nat with j by lia. split; [exact Hrest' | exact Hne].
      * rewrite length_app, Hlen. simpl. lia.
      * intros k Hk. destruct (Nat.eq_dec k j) as [->|Hkj].
        -- rewrite nth_error_app2 by lia. rewrite Hlen, Nat.sub_diag. cbn [nth_error].
           unfold pushed_entry. rewrite <- Hrest'. split; [reflexivity | exact Hs].
        -- rewrite nth_error_app1 by lia. apply Hacc. lia.
      * split; [lia|]. split; [exact Hall|].
        intros Hlt. apply Hstop. lia.
Qed.

End SlicerFacts.

(** C7. For a root branch whose first element is not
    [to_model_gracious] and whose [layer_begin] is above zero, the front
    slice is carried down layer by layer: step [k] computes
    [rest := rest - collision(0, layer_begin - 1 - k, false)] (starting
    from the front slice) and pushes [{rest, area(rest)}]. The layers
    available are those from [layer_begin - 1] down to
    [max(0, layer_begin - 5 bottom_radius / layer_height)], or down to
    layer 0 when the root is [verylost]. The loop ends on the first rest
    whose area is below
    [max(0.2 pi bottom_radius^2, 0.5 pi branch_radius^2)], which is not
    pushed, and goes through all the layers available when no rest is
    below that area; so it pushes at most
    [5 bottom_radius / layer_height] slices for a root that is not
    [verylost]. The pushed slices are put, bottommost first, in front of
    the slices of the branch. Assumed: the area of an empty polygon set
    is below the threshold. *)
Theorem root_slice_propagated_down :
  forall (F : Type) (A : Arith F) (Polygon : Type)
         (V : SlicerExternals F Polygon)
         (first : SupportElementState) (slices : list (list Polygon))
         (layer_begin : Z),
    to_model_gracious first = false ->
    (0 < layer_begin)%Z ->
    let bottom_radius := radius_of V first in
    let stop :=
      fmax (fmul (fmul (lit 2 10) m_pi) (sqr (of_Z bottom_radius)))
           (fmul (lit 5 10) (fmul m_pi (sqr (of_Z (config_branch_radius V))))) in
    fltb (area V []) stop = true ->
    let front := hd [] slices in
    let bottommost :=
      if verylost first then 0%Z
      else Z.max 0 (layer_begin
                    - Z.quot (5 * bottom_radius) (config_layer_height V)) in
    let available := Z.to_nat (layer_begin - bottommost) in
    let extra := bottom_extra_slices_of V first front layer_begin in
    let result := root_extension V true first slices layer_begin in
    snd (fst result) = (layer_begin - Z.of_nat (length extra))%Z /\
    snd result = rev (map polygons extra) ++ slices /\
    (length extra <= available)%nat /\
    (forall k, (k < length extra)%nat ->
       nth_error extra k
         = Some (mkBottomExtraSlice
                   (rest_below V front layer_begin k)
                   (area V (rest_below V front layer_begin k))) /\
       fltb (area V (rest_below V front layer_begin k)) stop = false) /\
    ((length extra < available)%nat ->
       fltb (area V (rest_below V front layer_begin (length extra))) stop = true) /\
    ((forall k, (k < available)%nat ->
        fltb (area V (rest_below V front layer_begin k)) stop = false) ->
     length extra = available) /\
    (verylost first = false ->
       (Z.of_nat (length extra)
        <= Z.max 0 (Z.quot (5 * bottom_radius) (config_layer_height V)))%Z) /\
    (verylost first = true -> Z.of_nat available = layer_begin).
Proof.
  intros F A Polygon V first slices layer_begin Hg Hl bottom_radius stop Hempty
         front bottommost available extra result.
  assert (Hres : result
                 = (fst (fst result),
                    (layer_begin - Z.of_nat (length extra))%Z,
                    rev (map polygons extra) ++ slices)).
  { unfold result, root_extension. rewrite Hg.
    rewrite (proj2 (Z.ltb_lt 0 layer_begin) Hl). reflexivity. }
  split; [rewrite Hres; reflexivity|]. split; [rewrite Hres; reflexivity|].
  assert (Hbottom : layer_bottommost V (verylost first) layer_begin bottom_radius
                    = bottommost) by reflexivity.
  assert (Hstop : support_area_stop V bottom_radius = stop) by reflexivity.
  assert (Hlayers :
            layers_down (layer_begin - 1) bottommost
            = map (fun k => (layer_begin - 1 - Z.of_nat k)%Z) (seq 0 available)).
  { unfold layers_down, available. f_equal. f_equal. f_equal. lia. }
  pose proof (propagate_down_spec V front stop layer_begin Hempty
                available 0 [] []) as Hspec.
  cbv zeta in Hspec. rewrite <- Hlayers, <- Hbottom, <- Hstop in Hspec.
  change (propagate_down V front (support_area_stop V bottom_radius)
            (layers_down (layer_begin - 1)
               (layer_bottommost V (verylost first) layer_begin bottom_radius))
            [] [])
    with extra in Hspec.
  rewrite Hstop in Hspec.
  destruct Hspec as (L & Hall & Hend); try reflexivity.
  - intros Hne. contradiction Hne. reflexivity.
  - intros k Hk. lia.
  - cbn [Nat.add] in L, Hend.
    split; [exact L|]. split; [exact Hall|]. split; [exact Hend|].
    split; [|split].
    + intros Hfull.
      destruct (Nat.lt_ge_cases (length extra) available) as [Hlt|Hge]; [|lia].
      pose proof (Hend Hlt) as Hbelow. rewrite (Hfull _ Hlt) in Hbelow.
      discriminate Hbelow.
    + intros Hv. unfold available, bottommost in L. rewrite Hv in L. lia.
    + intros Hv. unfold available, bottommost. rewrite Hv. lia.
Qed.

(** Scenario S4 satisfies the hypotheses of
    [root_slice_propagated_down]: of the ten layers available, six get a
    slice, and the seventh rest is below the threshold. *)
Lemma root_slice_propagated_down_s4 :
  length (bottom_extra_slices_of ScenarioS4.externals ScenarioS4.root
            (hd [] ScenarioS4.slices) 10) = 6%nat /\
  let bottom_radius := radius_of ScenarioS4.externals ScenarioS4.root in
  let stop :=
    fmax (fmul (fmul (lit 2 10) m_pi) (sqr (of_Z bottom_radius)))
         (fmul (lit 5 10)
               (fmul m_pi (sqr (of_Z (config_branch_radius ScenarioS4.externals))))) in
  let front := hd [] ScenarioS4.slices in
  let bottommost :=
    if verylost ScenarioS4.root then 0%Z
    else Z.max 0 (10 - Z.quot (5 * bottom_radius)
                              (config_layer_height ScenarioS4.externals)) in
  let available := Z.to_nat (10 - bottommost) in
  let extra := bottom_extra_slices_of ScenarioS4.externals ScenarioS4.root front 10 in
  let result := root_extension ScenarioS4.externals true ScenarioS4.root
                  ScenarioS4.slices 10 in
  snd (fst result) = (10 - Z.of_nat (length extra))%Z /\
  snd result = rev (map polygons extra) ++ ScenarioS4.slices /\
  (length extra <= available)%nat /\
  (forall k, (k < length extra)%nat ->
     nth_error extra k
       = Some (mkBottomExtraSlice
                 (rest_below ScenarioS4.externals front 10 k)
                 (area ScenarioS4.externals (rest_below ScenarioS4.externals front 10 k))) /\
     fltb (area ScenarioS4.externals (rest_below ScenarioS4.externals front 10 k)) stop
       = false) /\
  ((length extra < available)%nat ->
     fltb (area ScenarioS4.externals
             (rest_below ScenarioS4.externals front 10 (length extra))) stop = true) /\
  ((forall k, (k < available)%nat ->
      fltb (area ScenarioS4.externals (rest_below ScenarioS4.externals front 10 k)) stop
      = false) ->
   length extra = available) /\
  (verylost ScenarioS4.root = false ->
     (Z.of_nat (length extra)
      <= Z.max 0 (Z.quot (5 * bottom_radius)
                         (config_layer_height ScenarioS4.externals)))%Z) /\
  (verylost ScenarioS4.root = true -> Z.of_nat available = 10%Z).
Proof.
  split; [vm_compute; reflexivity|].
  apply (root_slice_propagated_down _ FloatArith _ ScenarioS4.externals
           ScenarioS4.root ScenarioS4.slices 10).
  - reflexivity.
  - reflexivity.
  - vm_compute. reflexivity.
Defined.

(* ===================================================================== *)
(** * Theorems: the shape of the extracted branches *)
(* ===================================================================== *)

Section BranchShape.

Ltac inv H := inversion H; subst; clear H.

Lemma marks_only_sym : forall mb mb', marks_only mb mb' -> marks_only mb' mb.
Proof.
  intros mb mb' H r. specialize (H r).
  destruct (get_element mb r), (get_element mb' r); try exact H; try exact I.
  unfold same_but_marked in *. intuition congruence.
Qed.

Lemma parent_link_marks_only :
  forall mb mb' a b, marks_only mb mb' -> parent_link mb a b -> parent_link mb' a b.
Proof.
  intros mb mb' a b Hm (e & G & Hl & Hin).
  specialize (Hm a). rewrite G in Hm.
  destruct (get_element mb' a) as [e'|] eqn:G'; [|contradiction].
  destruct Hm as (Hp & Hli & _). exists e'. rewrite Hp, Hli. auto.
Qed.

Lemma linked_from_marks_only :
  forall mb mb' p a, marks_only mb mb' -> linked_from mb a p -> linked_from mb' a p.
Proof.
  intros mb mb' p a Hm. revert a. induction p as [|b rest IH]; simpl; auto.
  intros a [H1 H2]. split; [eapply parent_link_marks_only; eassumption|].
  apply IH. exact H2.
Qed.

Lemma parent_count_marks_only :
  forall mb mb' r n, marks_only mb mb' -> parent_count mb r n -> parent_count mb' r n.
Proof.
  intros mb mb' r n Hm (e & G & Hn).
  specialize (Hm r). rewrite G in Hm.
  destruct (get_element mb' r) as [e'|] eqn:G'; [|contradiction].
  destruct Hm as (Hp & _). exists e'. rewrite Hp. auto.
Qed.

Lemma branch_shape_marks_only :
  forall mb mb' b, marks_only mb mb' -> branch_shape mb b -> branch_shape mb' b.
Proof.
  intros mb mb' b Hm (start & mid & top & E & Hc & Hmid & e & G & Ht & Hf).
  exists start, mid, top. split; [exact E|].
  split; [eapply linked_from_marks_only; eassumption|].
  split.
  - eapply Forall_impl; [|exact Hmid].
    intros r Hr. eapply parent_count_marks_only; eassumption.
  - specialize (Hm top). rewrite G in Hm.
    destruct (get_element mb' top) as [e'|] eqn:G'; [|contradiction].
    destruct Hm as (Hp & _). exists e'. rewrite Hp. auto.
Qed.

(** The walk up a chain: what it appends to the path is a chain of
    single-parent elements from [parent] on, and then the element that
    ended the walk. *)
Lemma walk_single_parents_shape :
  forall fuel mb parent pth mb' pth' nb,
    walk_single_parents fuel mb parent pth = Some (mb', pth', nb) ->
    exists mid top e,
      pth' = pth ++ mid ++ [top] /\
      linked_from mb parent (mid ++ [top]) /\
      Forall (fun r => parent_count mb r 1) mid /\
      get_element mb top = Some e /\
      match nb with
      | Some r => r = top /\ (2 <= length (parents e))%nat
      | None => parents e = []
      end.
Proof.
  induction fuel as [|fuel IH]; simpl; intros mb parent pth mb' pth' nb H.
  - discriminate.
  - destruct (get_element mb parent) as [p|] eqn:G; [|discriminate H].
    destruct (parents p) as [|front ps] eqn:Ep; [discriminate|].
    set (next_ref := ((layer_idx (state p) + 1)%Z, front)) in *.
    assert (Hl : parent_link mb parent next_ref).
    { exists p. rewrite Ep. simpl. auto. }
    destruct (get_element mb next_ref) as [np|] eqn:Gn; [|discriminate H].
    destruct (1 <? length (parents np))%nat eqn:H1.
    + inv H. exists [], next_ref, np. simpl.
      apply Nat.ltb_lt in H1. repeat split; auto.
    + destruct (length (parents np) =? 0)%nat eqn:H0.
      * inv H. exists [], next_ref, np. simpl.
        apply Nat.eqb_eq in H0. repeat split; auto.
        destruct (parents np); [reflexivity | discriminate].
      * pose proof (marks_only_set_marked mb next_ref true) as Hm.
        apply IH in H.
        destruct H as (mid & top & e & -> & Hc & Hmid & Gt & Hnb).
        pose proof (marks_only_sym _ _ Hm) as Hm'.
        pose proof (Hm' top) as Ht. rewrite Gt in Ht.
        destruct (get_element mb top) as [e0|] eqn:Gt0; [|contradiction].
        destruct Ht as (Hp0 & _).
        exists (next_ref :: mid), top, e0. split.
        { rewrite <- app_assoc. reflexivity. }
        split.
        { simpl. split; [exact Hl|].
          eapply linked_from_marks_only; [exact Hm' | exact Hc]. }
        split.
        { constructor.
          - exists np. split; [exact Gn|].
            apply Nat.ltb_ge in H1. apply Nat.eqb_neq in H0. lia.
          - eapply Forall_impl; [|exact Hmid].
            intros r Hr. eapply parent_count_marks_only; eassumption. }
        split; [exact Gt0|].
        rewrite Hp0. exact Hnb.
Qed.

(** One traced branch has the shape of a branch, when its first step is
    a parent link. *)
Lemma trace_branch_shape :
  forall fuel mb start la root p mb1 b nb,
    parent_link mb start (la, p) ->
    trace_branch fuel mb start la root p = Some (mb1, b, nb) ->
    branch_shape mb b.
Proof.
  unfold trace_branch. intros fuel mb start la root p mb1 b nb Hl H.
  destruct (get_element mb (la, p)) as [fp|] eqn:G; [|discriminate H].
  cbv zeta in H.
  set (mbm := if (length (parents fp) <? 2)%nat
              then update_element mb (la, p) (set_marked true) else mb) in *.
  assert (Hm : marks_only mb mbm).
  { unfold mbm. destruct (length (parents fp) <? 2)%nat;
      [apply marks_only_set_marked | apply marks_only_refl]. }
  pose proof (marks_only_sym _ _ Hm) as Hm'.
  destruct (length (parents fp) =? 1)%nat eqn:H1; cbv beta iota in H.
  - destruct (walk_single_parents _ _ _ _)
      as [[[m q] n]|] eqn:W; [|discriminate H].
    inv H. apply walk_single_parents_shape in W.
    destruct W as (mid & top & e & -> & Hc & Hmid & Gt & Hnb).
    pose proof (Hm' top) as Ht. rewrite Gt in Ht.
    destruct (get_element mb top) as [e0|] eqn:Gt0; [|contradiction].
    destruct Ht as (Hp0 & _).
    exists start, ((la, p) :: mid), top. simpl. split; [reflexivity|].
    split.
    { split; [exact Hl|]. eapply linked_from_marks_only; [exact Hm' | exact Hc]. }
    split.
    { constructor.
      - exists fp. split; [exact G|]. apply Nat.eqb_eq in H1. exact H1.
      - eapply Forall_impl; [|exact Hmid].
        intros r Hr. eapply parent_count_marks_only; eassumption. }
    exists e0. split; [exact Gt0|]. rewrite Hp0.
    destruct nb as [r|]; simpl.
    + destruct Hnb as [_ Hn]. split; [discriminate | intros _; exact Hn].
    + split; [intros _; exact Hnb | discriminate].
  - destruct (1 <? length (parents fp))%nat eqn:H2; cbv beta iota in H; inv H;
      exists start, [], (la, p); simpl.
    + split; [reflexivity|]. split; [auto|]. split; [constructor|].
      exists fp. split; [exact G|]. apply Nat.ltb_lt in H2.
      split; [discriminate | intros _; lia].
    + split; [reflexivity|]. split; [auto|]. split; [constructor|].
      exists fp. split; [exact G|].
      apply Nat.ltb_ge in H2. apply Nat.eqb_neq in H1.
      split; [|discriminate]. intros _.
      destruct (parents fp) as [|x [|y l]]; simpl in *; [reflexivity | lia | lia].
Qed.

Lemma visit_parents_shape :
  forall recurse fuel start la root,
    (forall mb s out mb' out',
        recurse mb s out = Some (mb', out') -> marks_only mb mb') ->
    (forall mb s out mb' out',
        recurse mb s out = Some (mb', out') ->
        exists new, branches out' = branches out ++ new /\
                    Forall (branch_shape mb) new) ->
    forall ps mb out mb' out',
      (forall p, In p ps -> parent_link mb start (la, p)) ->
      visit_parents recurse fuel start la root ps mb out = Some (mb', out') ->
      exists new, branches out' = branches out ++ new /\
                  Forall (branch_shape mb) new.
Proof.
  intros recurse fuel start la root Hmarks Hrec.
  induction ps as [|p ps IH]; simpl; intros mb out mb' out' Hps H.
  - inv H. exists []. rewrite app_nil_r. auto.
  - destruct (trace_branch fuel mb start la root p) as [[[mb1 b] nb]|] eqn:T;
      [|discriminate H].
    pose proof (trace_branch_marks_only _ _ _ _ _ _ _ _ _ T) as Hm1.
    pose proof (trace_branch_shape _ _ _ _ _ _ _ _ _ (Hps p (or_introl eq_refl)) T)
      as Hb.
    set (out1 := mkTree (branches out ++ [b])) in *.
    assert (Hmid : exists mb2 out2 mid,
               visit_parents recurse fuel start la root ps mb2 out2 = Some (mb', out')
               /\ branches out2 = branches out1 ++ mid
               /\ Forall (branch_shape mb1) mid
               /\ marks_only mb1 mb2).
    { destruct nb as [nb|].
      - destruct (recurse mb1 nb out1) as [[mb2 out2]|] eqn:R; [|discriminate H].
        destruct (Hrec _ _ _ _ _ R) as (mid & E & Hf).
        exists mb2, out2, mid. repeat split; auto. eapply Hmarks. exact R.
      - exists mb1, out1, []. rewrite app_nil_r. repeat split; auto.
        apply marks_only_refl. }
    destruct Hmid as (mb2 & out2 & mid & V & E2 & Hmid & Hm2).
    pose proof (marks_only_trans _ _ _ Hm1 Hm2) as Hm12.
    destruct (IH _ _ _ _ (fun q Hq => parent_link_marks_only _ _ _ _ Hm12
                                        (Hps q (or_intror Hq))) V)
      as (new & E & Hnew).
    exists (b :: mid ++ new). split.
    + rewrite E, E2. unfold out1; simpl. rewrite <- !app_assoc. reflexivity.
    + constructor; [exact Hb|]. apply Forall_app. split.
      * eapply Forall_impl; [|exact Hmid].
        intros x Hx. eapply branch_shape_marks_only; [|exact Hx].
        apply marks_only_sym. exact Hm1.
      * eapply Forall_impl; [|exact Hnew].
        intros x Hx. eapply branch_shape_marks_only; [|exact Hx].
        apply marks_only_sym. exact Hm12.
Qed.

Lemma visit_recursive_shape :
  forall fuel mb start out mb' out',
    visit_recursive fuel mb start out = Some (mb', out') ->
    exists new, branches out' = branches out ++ new /\
                Forall (branch_shape mb) new.
Proof.
  induction fuel as [|fuel IH]; simpl; intros mb start out mb' out' H.
  - discriminate.
  - destruct (get_element mb start) as [e|] eqn:G; [|discriminate H].
    pose proof (marks_only_set_marked mb start true) as Hm.
    apply visit_parents_shape in H.
    + destruct H as (new & E & Hnew). exists new. split; [exact E|].
      eapply Forall_impl; [|exact Hnew].
      intros x Hx. eapply branch_shape_marks_only; [|exact Hx].
      apply marks_only_sym. exact Hm.
    + apply visit_recursive_marks_only.
    + exact IH.
    + intros p Hp. eapply parent_link_marks_only; [exact Hm|].
      exists e. simpl. auto.
Qed.

Lemma visit_start_marks_only :
  forall fuel mb trees start mb' trees',
    visit_start fuel (mb, trees) start = Some (mb', trees') ->
    marks_only mb mb'.
Proof.
  unfold visit_start. intros fuel mb trees start mb' trees' H.
  destruct (get_element mb start) as [e|]; [|discriminate H].
  destruct (negb (marked (state e)) && _)%bool.
  - destruct (visit_recursive fuel mb start empty_tree) as [[mb1 tree]|] eqn:V;
      [|discriminate H].
    apply visit_recursive_marks_only in V.
    destruct (get_element mb1 start) as [e'|]; [|discriminate H].
    destruct (lost (state e')); [inv H; exact V|].
    destruct (verylost (state e')); inv H; exact V.
  - inv H. apply marks_only_refl.
Qed.

Lemma visit_all_marks_only :
  forall fuel starts mb trees mb' trees',
    visit_all fuel (mb, trees) starts = Some (mb', trees') ->
    marks_only mb mb'.
Proof.
  intros fuel. induction starts as [|r rest IH]; intros mb trees mb' trees' H;
    cbn [visit_all] in H.
  - inv H. apply marks_only_refl.
  - destruct (visit_start fuel (mb, trees) r) as [[mb1 trees1]|] eqn:V;
      [|discriminate H].
    apply visit_start_marks_only in V. apply IH in H.
    eapply marks_only_trans; eassumption.
Qed.

(** What the loop over the start elements adds to the list of trees. *)
Lemma visit_all_trees :
  forall fuel starts mb trees mb' trees',
    visit_all fuel (mb, trees) starts = Some (mb', trees') ->
    exists more,
      trees' = trees ++ more /\
      Forall (fun t => Forall (branch_shape mb) (branches t)) more /\
      Forall (rooted_at_lost mb) more.
Proof.
  intros fuel. induction starts as [|r rest IH]; intros mb trees mb' trees' H;
    cbn [visit_all] in H.
  - inv H. exists []. rewrite app_nil_r. auto.
  - destruct (visit_start fuel (mb, trees) r) as [[mb1 trees1]|] eqn:V;
      [|discriminate H].
    pose proof (visit_start_marks_only _ _ _ _ _ _ V) as Hm.
    pose proof (marks_only_sym _ _ Hm) as Hm'.
    apply IH in H. destruct H as (more & -> & Hshape & Hroot).
    assert (Hmore : Forall (fun t => Forall (branch_shape mb) (branches t)) more /\
                    Forall (rooted_at_lost mb) more).
    { split.
      - eapply Forall_impl; [|exact Hshape]. intros t Ht.
        eapply Forall_impl; [|exact Ht]. intros b Hb.
        eapply branch_shape_marks_only; eassumption.
      - eapply Forall_impl; [|exact Hroot].
        intros t (b & rest0 & start & e & E & Hh & G & Hl & Hp).
        pose proof (Hm' start) as Hs. rewrite G in Hs.
        destruct (get_element mb start) as [e0|] eqn:G0; [|contradiction].
        destruct Hs as (Hp0 & _ & _ & _ & Hlost & Hvery).
        exists b, rest0, start, e0. rewrite Hp0, Hlost, Hvery. auto. }
    destruct Hmore as [Hshape' Hroot'].
    destruct (get_element mb r) as [e|] eqn:G.
    2:{ unfold visit_start in V. rewrite G in V. discriminate V. }
    destruct (marked (state e)) eqn:Hmk.
    { eapply visit_start_skip in V; eauto. destruct V as [_ ->]. eauto. }
    destruct (parents e) as [|p ps] eqn:Hp.
    { eapply visit_start_skip in V; eauto. destruct V as [_ ->]. eauto. }
    eapply visit_start_spec in V; eauto; [|congruence].
    destruct V as (tree & Vr & ->).
    destruct (lost (state e) || verylost (state e))%bool eqn:Hl.
    + exists (tree :: more). split; [rewrite <- app_assoc; reflexivity|].
      destruct (visit_recursive_shape _ _ _ _ _ _ Vr) as (new & E & Hnew).
      destruct (visit_recursive_added _ _ _ _ _ _ Vr)
        as (e1 & new1 & G1 & E1 & _ & Hall & Hfirst).
      simpl in E, E1. rewrite G in G1.
      assert (Ee : e1 = e) by congruence. rewrite Ee in *. clear G1 Ee e1.
      split; constructor; auto.
      * rewrite E. exact Hnew.
      * destruct Hfirst as (b & rest0 & Eb & Hr).
        { rewrite Hp. discriminate. }
        exists b, rest0, r, e. rewrite E1, Eb.
        rewrite Forall_forall in Hall.
        repeat split; auto.
        -- apply Hall; [rewrite Eb; left; reflexivity | exact Hr].
        -- rewrite Hp. discriminate.
    + rewrite app_nil_r. eauto.
Qed.

End BranchShape.

(** On a well-formed forest the extraction returns, and every branch of
    every tree it returns is a path of at least two elements, each the
    parent of the one before it; the elements strictly inside the path
    have exactly one parent; the last element has no parents when
    [has_tip] is set and at least two when it is not. *)
Theorem extracted_branches_are_chains :
  forall n fuel mb,
    well_formed n mb ->
    (Z.to_nat n <= fuel)%nat ->
    exists mb' trees,
      extract_trees fuel mb = Some (mb', trees) /\
      Forall (fun t => Forall (branch_shape mb) (branches t)) trees.
Proof.
  intros n fuel mb Hw Hf.
  destruct (extract_trees_total n fuel mb Hw Hf) as ([mb' trees] & H).
  exists mb', trees. split; [exact H|].
  unfold extract_trees in H.
  destruct (visit_all_trees _ _ _ _ _ _ H) as (more & E & Hshape & _).
  simpl in E. subst more.
  pose proof (marks_only_sym _ _ (marks_only_unmark_all mb)) as Hm.
  eapply Forall_impl; [|exact Hshape]. intros t Ht.
  eapply Forall_impl; [|exact Ht]. intros b Hb.
  eapply branch_shape_marks_only; eassumption.
Qed.

(** The fork satisfies the hypotheses of
    [extracted_branches_are_chains]. *)
Lemma extracted_branches_are_chains_fork :
  exists mb' trees,
    extract_trees 3 fork_move_bounds = Some (mb', trees) /\
    Forall (fun t => Forall (branch_shape fork_move_bounds) (branches t)) trees.
Proof.
  apply (extracted_branches_are_chains 3 3 fork_move_bounds).
  - apply check_well_formed_sound. reflexivity.
  - simpl. lia.
Defined.

(** The extraction keeps a tree only when it was started at an element
    that is [lost] or [verylost]: on a well-formed forest it returns, and
    every tree it returns has a first branch, which leaves an element
    with parents whose [lost] or [verylost] flag is set. *)
Theorem extracted_trees_start_lost :
  forall n fuel mb,
    well_formed n mb ->
    (Z.to_nat n <= fuel)%nat ->
    exists mb' trees,
      extract_trees fuel mb = Some (mb', trees) /\
      Forall (rooted_at_lost mb) trees.
Proof.
  intros n fuel mb Hw Hf.
  destruct (extract_trees_total n fuel mb Hw Hf) as ([mb' trees] & H).
  exists mb', trees. split; [exact H|].
  unfold extract_trees in H.
  destruct (visit_all_trees _ _ _ _ _ _ H) as (more & E & _ & Hroot).
  simpl in E. subst more.
  pose proof (marks_only_sym _ _ (marks_only_unmark_all mb)) as Hm.
  eapply Forall_impl; [|exact Hroot].
  intros t (b & rest0 & start & e & E & Hh & G & Hl & Hp).
  pose proof (Hm start) as Hs. rewrite G in Hs.
  destruct (get_element mb start) as [e0|] eqn:G0; [|contradiction].
  destruct Hs as (Hp0 & _ & _ & _ & Hlost & Hvery).
  exists b, rest0, start, e0. rewrite Hp0, Hlost, Hvery. auto.
Qed.

(** The fork satisfies the hypotheses of [extracted_trees_start_lost]. *)
Lemma extracted_trees_start_lost_fork :
  exists mb' trees,
    extract_trees 3 fork_move_bounds = Some (mb', trees) /\
    Forall (rooted_at_lost fork_move_bounds) trees.
Proof.
  apply (extracted_trees_start_lost 3 3 fork_move_bounds).
  - apply check_well_formed_sound. reflexivity.
  - simpl. lia.
Defined.

(** The extraction writes [marked] flags and nothing else: when it
    returns, every element of [move_bounds] has the parents, the layer,
    the position and the flags [to_model_gracious], [lost] and
    [verylost] it had, and no element has appeared or gone. *)
Theorem extraction_writes_marks_only :
  forall fuel mb mb' trees,
    extract_trees fuel mb = Some (mb', trees) ->
    marks_only mb mb'.
Proof.
  intros fuel mb mb' trees H. unfold extract_trees in H.
  apply visit_all_marks_only in H.
  eapply marks_only_trans; [apply marks_only_unmark_all | exact H].
Qed.

(** The fork satisfies the hypothesis of
    [extraction_writes_marks_only]. *)
Lemma extraction_writes_marks_only_fork :
  marks_only fork_move_bounds
    [ [ mkElement (mkState 0 (0, 0)%Z false false true true) [0]%Z ];
      [ mkElement (mkState 1 (0, 0)%Z false false false true) [0; 1]%Z ];
      [ mkElement (mkState 2 (0, 0)%Z false false false true) [];
        mkElement (mkState 2 (0, 0)%Z false false false true) [] ] ].
Proof.
  apply (extraction_writes_marks_only 3 fork_move_bounds _
           [ mkTree [ mkBranch [(0, 0); (1, 0)]%Z true false;
                      mkBranch [(1, 0); (2, 0)]%Z false true;
                      mkBranch [(1, 0); (2, 1)]%Z false true ] ]).
  reflexivity.
Defined.

(* ===================================================================== *)
(** * Theorems: what the solver leaves behind *)
(* ===================================================================== *)

Section SolverWriteBack.
Context {F : Type} {A : Arith F} {Exn : Type} {Polygons : Type}.
Variable X : Externals F Polygons.
Variable probe : nat -> option Exn.
Variable indeterminate : Vec3 F.

Local Notation "x <- m ;; k" := (bind m (fun x => k))
  (at level 100, m at next level, right associativity).

Lemma same_ref_eqb :
  forall r r' : ElemRef,
    ((fst r =? fst r')%Z && (snd r =? snd r')%Z)%bool = true <-> r = r'.
Proof.
  intros [a b] [a' b']. simpl. rewrite andb_true_iff, !Z.eqb_eq.
  split; [intros [-> ->]; reflexivity | intros H; inversion H; auto].
Qed.

Lemma get_update_element_same :
  forall mb r f, get_element (update_element mb r f) r = option_map f (get_element mb r).
Proof.
  intros mb r f. rewrite get_update_element.
  destruct (_ && _)%bool eqn:E; [reflexivity|].
  assert (H : r = r) by reflexivity. apply same_ref_eqb in H. congruence.
Qed.

Lemma get_update_element_other :
  forall mb r f r', r <> r' -> get_element (update_element mb r f) r' = get_element mb r'.
Proof.
  intros mb r f r' Hne. rewrite get_update_element.
  destruct (_ && _)%bool eqn:E; [|reflexivity].
  apply same_ref_eqb in E. contradiction.
Qed.

Lemma store_result_on_layer_Done :
  forall r v (w : World) u w',
    (store_result_on_layer r v : M Exn unit) w = (Done u, w') ->
    exists e, get_element (heap w) r = Some e /\
              heap w' = update_element (heap w) r (set_result_on_layer v).
Proof.
  unfold store_result_on_layer. intros r v w u w' H.
  destruct (get_element (heap w) r) as [e|]; [|discriminate H].
  inversion H; subst. simpl. eauto.
Qed.

(** The write-back loop from index [k] on, [n] spheres left. *)
Lemma write_back_from :
  forall (ewld : list (ElemRef * Z)) (spheres : list (CollisionSphere F)),
    NoDup (map fst ewld) ->
    forall n k (w : World) u w',
      (foldM
         (fun (_ : unit) (i : nat) =>
            rl <- defined (nth_error ewld i) ;;
            s <- defined (nth_error spheres i) ;;
            store_result_on_layer (fst rl)
              (scaled_coord X (px (position s)), scaled_coord X (py (position s))))
         (seq k n) tt : M Exn unit) w = (Done u, w') ->
      (forall r,
          (forall i rl, (k <= i < k + n)%nat -> nth_error ewld i = Some rl ->
                        fst rl <> r) ->
          get_element (heap w') r = get_element (heap w) r) /\
      (forall i, (k <= i < k + n)%nat ->
         exists rl s e,
           nth_error ewld i = Some rl /\ nth_error spheres i = Some s /\
           get_element (heap w) (fst rl) = Some e /\
           get_element (heap w') (fst rl)
             = Some (set_result_on_layer (written_position X s) e)).
Proof.
  intros ewld spheres Hnd.
  assert (Hdistinct : forall i j a b,
             nth_error ewld i = Some a -> nth_error ewld j = Some b ->
             i <> j -> fst a <> fst b).
  { intros i j a b Ha Hb Hij E. apply Hij.
    apply (proj1 (NoDup_nth_error (map fst ewld)) Hnd).
    - rewrite length_map. apply nth_error_Some. rewrite Ha. discriminate.
    - rewrite !nth_error_map, Ha, Hb. simpl. rewrite E. reflexivity. }
  induction n as [|n IH]; intros k w u w' H; cbn [seq foldM] in H.
  - apply ret_Done in H. destruct H as [_ ->].
    split; [reflexivity | intros i Hi; lia].
  - apply bind_Done in H. destruct H as (u1 & w1 & Hstep & H).
    apply bind_Done in Hstep. destruct Hstep as (rl & wa & Hrl & Hstep).
    apply defined_Done in Hrl. destruct Hrl as [Hrl ->].
    apply bind_Done in Hstep. destruct Hstep as (s & wb & Hs & Hstep).
    apply defined_Done in Hs. destruct Hs as [Hs ->].
    apply store_result_on_layer_Done in Hstep. destruct Hstep as (e & G & Hh).
    destruct u1. destruct (IH _ _ _ _ H) as [Hout Hin]. split.
    + intros r Hr. rewrite Hout.
      * rewrite Hh. apply get_update_element_other. apply (Hr k rl); [lia | exact Hrl].
      * intros i rl' Hi. apply Hr. lia.
    + intros i Hi. destruct (Nat.eq_dec i k) as [->|Hne].
      * exists rl, s, e. split; [exact Hrl|]. split; [exact Hs|]. split; [exact G|].
        rewrite Hout.
        -- rewrite Hh, get_update_element_same, G. reflexivity.
        -- intros j rl' Hj Hrl'. apply (Hdistinct j k rl' rl Hrl' Hrl). lia.
      * destruct (Hin i) as (rl' & s' & e' & Hrl' & Hs' & G' & Gw); [lia|].
        exists rl', s', e'. split; [exact Hrl'|]. split; [exact Hs'|].
        split; [|exact Gw].
        rewrite <- G', Hh. symmetry. apply get_update_element_other.
        apply (Hdistinct k i rl rl' Hrl Hrl'). lia.
Qed.

Lemma Forall2_nth_error :
  forall (T U : Type) (R : T -> U -> Prop) (l : list T) (l' : list U),
    length l = length l' ->
    (forall i x y, nth_error l i = Some x -> nth_error l' i = Some y -> R x y) ->
    Forall2 R l l'.
Proof.
  intros T U R. induction l as [|x l IH]; intros [|y l'] Hlen H;
    try discriminate Hlen; constructor.
  - apply (H O); reflexivity.
  - apply IH; [simpl in Hlen; lia|].
    intros i a b Ha Hb. apply (H (S i)); assumption.
Qed.

Lemma write_back_spec :
  forall ewld spheres (w : World) u w',
    NoDup (map fst ewld) ->
    length spheres = length ewld ->
    (write_back X ewld spheres : M Exn unit) w = (Done u, w') ->
    Forall2
      (fun rl s =>
         exists e,
           get_element (heap w) (fst rl) = Some e /\
           get_element (heap w') (fst rl)
             = Some (set_result_on_layer (written_position X s) e))
      ewld spheres /\
    (forall r, ~ In r (map fst ewld) ->
               get_element (heap w') r = get_element (heap w) r).
Proof.
  unfold write_back. intros ewld spheres w u w' Hnd Hlen H.
  apply (write_back_from ewld spheres Hnd) in H. destruct H as [Hout Hin]. split.
  - apply Forall2_nth_error; [symmetry; exact Hlen|].
    intros i rl s Hrl Hs.
    destruct (Hin i) as (rl' & s' & e & Hrl' & Hs' & G & Gw).
    { split; [lia|]. simpl. apply nth_error_Some. rewrite Hs. discriminate. }
    rewrite Hrl in Hrl'. rewrite Hs in Hs'.
    inversion Hrl'; subst rl'. inversion Hs'; subst s'. eauto.
  - intros r Hr. apply Hout. intros i rl _ Hrl E. apply Hr.
    apply in_map_iff. exists rl. split; [exact E|].
    eapply nth_error_In. exact Hrl.
Qed.

(** The spheres the loop ends with are those of the last pass. *)
Lemma iterate_final :
  forall n cache ldl spheres (w : World) final log w',
    iterate X probe n cache ldl spheres w = (Done (final, log), w') ->
    n <> O ->
    log <> [] /\ final = snd (last log (O, [])).
Proof.
  induction n as [|n IH]; cbn [iterate]; intros cache ldl spheres w final log w' H Hn.
  - congruence.
  - apply bind_Done in H. destruct H as ([spheres' moved] & w1 & Hp & H).
    destruct (moved =? 0)%nat.
    + apply ret_Done in H. destruct H as [H _]. inversion H; subst.
      split; [discriminate | reflexivity].
    + apply bind_Done in H. destruct H as ([final' log'] & w2 & Hr & H).
      apply ret_Done in H. destruct H as [H _]. inversion H; subst. simpl fst.
      split; [discriminate|].
      destruct n as [|n'].
      * cbn [iterate] in Hr. apply ret_Done in Hr. destruct Hr as [Hr _].
        inversion Hr; subst. reflexivity.
      * destruct (IH _ _ _ _ _ _ _ Hr) as [Hne ->]; [discriminate|].
        simpl snd. destruct log' as [|x l]; [congruence | reflexivity].
Qed.

Lemma Forall2_length_eq :
  forall (T U : Type) (R : T -> U -> Prop) l l', Forall2 R l l' -> length l = length l'.
Proof. intros T U R l l' H. induction H; simpl; congruence. Qed.

(** The three stages of a run that ended normally. *)
Lemma solver_stages :
  forall ewld ldl (w : World) log w',
    organic_smooth_branches_avoid_collisions X probe indeterminate ewld ldl w
      = (Done log, w') ->
    exists cache spheres w1 final w2 u,
      prepare_spheres X probe indeterminate ewld ldl w = (Done (cache, spheres), w1) /\
      iterate X probe num_iter cache ldl spheres w1 = (Done (final, log), w2) /\
      (write_back X ewld final : M Exn unit) w2 = (Done u, w') /\
      heap w2 = heap w.
Proof.
  unfold organic_smooth_branches_avoid_collisions. intros ewld ldl w log w' H.
  apply bind_Done in H. destruct H as ([cache spheres] & w1 & Hp & H).
  apply bind_Done in H. destruct H as ([final log'] & w2 & Hi & H).
  apply bind_Done in H. destruct H as (u & w3 & Hw & H).
  apply ret_Done in H. destruct H as [-> ->]. cbn [fst snd] in *.
  exists cache, spheres, w1, final, w2, u.
  split; [exact Hp|]. split; [exact Hi|]. split; [exact Hw|].
  rewrite (heap_of_quiet probe _ _ _ _ _ Hi (quiet_iterate X probe _ _ _ _)).
  apply (heap_of_quiet probe _ _ _ _ _ Hp (quiet_prepare_spheres X probe indeterminate _ _)).
Qed.

(** ** The height and the radius of a sphere *)

Lemma same_height_refl : forall s : CollisionSphere F, same_height s s.
Proof. intros s. unfold same_height. tauto. Qed.

Lemma same_height_trans :
  forall a b c : CollisionSphere F, same_height a b -> same_height b c -> same_height a c.
Proof. unfold same_height. intros a b c H1 H2. intuition congruence. Qed.

Lemma update_sphere_same_height :
  forall cache ldl spheres s (w : World) r w',
    update_sphere X probe cache ldl spheres (backup_position s) w = (Done r, w') ->
    same_height s (fst r).
Proof.
  unfold update_sphere. intros cache ldl spheres s w [s' moved] w' H.
  change (locked (backup_position s)) with (locked s) in H.
  destruct (locked s) eqn:L.
  - apply ret_Done in H. destruct H as [H _]. inversion H; subst.
    unfold same_height. simpl. tauto.
  - apply bind_Done in H. destruct H as (e & w1 & _ & H).
    apply bind_Done in H. destruct H as (s1 & w2 & Hscan & H).
    apply scan_layers_same_body in Hscan.
    destruct Hscan as (E1 & _ & _ & E4 & E5). simpl in E1, E4, E5.
    destruct (nudge_away X s1) as [s2 mv] eqn:N.
    assert (N1 : element s2 = element s1 /\ radius s2 = radius s1 /\
                 pz (position s2) = pz (position s1)).
    { unfold nudge_away in N.
      destruct (fltb fzero (last_collision_depth s1)); inversion N; subst; simpl; auto. }
    apply bind_Done in H. destruct H as (s3 & w3 & Hsm & H).
    apply laplacian_smoothing_spec in Hsm. destruct Hsm as (aw & ->).
    apply bind_Done in H. destruct H as (u & w4 & _ & H).
    apply ret_Done in H. destruct H as [H _]. inversion H; subst. simpl.
    destruct N1 as (N1 & N2 & N3).
    unfold same_height. simpl. repeat split; congruence.
Qed.

Lemma Forall2_same_height_refl :
  forall l : list (CollisionSphere F), Forall2 same_height l l.
Proof. induction l; constructor; auto using same_height_refl. Qed.

Lemma Forall2_same_height_trans :
  forall a b c : list (CollisionSphere F),
    Forall2 same_height a b -> Forall2 same_height b c -> Forall2 same_height a c.
Proof.
  intros a b c H. revert c. induction H; intros c Hc; inversion Hc; subst;
    constructor; eauto using same_height_trans.
Qed.

Lemma solver_pass_same_height :
  forall cache ldl spheres (w : World) spheres' num_moved w',
    solver_pass X probe cache ldl spheres w = (Done (spheres', num_moved), w') ->
    Forall2 same_height spheres spheres'.
Proof.
  unfold solver_pass. intros cache ldl spheres w spheres' num_moved w' H.
  apply bind_Done in H. destruct H as (rs & w1 & Hm & H).
  apply ret_Done in H. destruct H as [H _]. inversion H; subst. clear H.
  apply mapM_Done in Hm.
  assert (Hgen : forall others l rs0,
             Forall2 (fun x y => exists w1 w2 : World,
                        update_sphere X probe cache ldl others x w1 = (Done y, w2))
                     (map backup_position l) rs0 ->
             Forall2 same_height l (map fst rs0)).
  { intros others. induction l as [|s l IH]; intros rs0 Hf;
      inversion Hf as [|? r ? rs' (wa & wb & Hu) Hf']; subst; simpl; constructor.
    - eapply update_sphere_same_height. exact Hu.
    - apply IH. exact Hf'. }
  apply (Hgen (map backup_position spheres)). exact Hm.
Qed.

Lemma iterate_same_height :
  forall n cache ldl spheres (w : World) final log w',
    iterate X probe n cache ldl spheres w = (Done (final, log), w') ->
    Forall (fun entry => Forall2 same_height spheres (snd entry)) log.
Proof.
  induction n as [|n IH]; cbn [iterate]; intros cache ldl spheres w final log w' H.
  - apply ret_Done in H. destruct H as [H _]. inversion H; subst. constructor.
  - apply bind_Done in H. destruct H as ([spheres' moved] & w1 & Hp & H).
    apply solver_pass_same_height in Hp.
    destruct (moved =? 0)%nat.
    + apply ret_Done in H. destruct H as [H _]. inversion H; subst.
      constructor; [exact Hp | constructor].
    + apply bind_Done in H. destruct H as ([final' log'] & w2 & Hr & H).
      apply ret_Done in H. destruct H as [H _]. inversion H; subst.
      constructor; [exact Hp|]. simpl snd.
      apply IH in Hr. eapply Forall_impl; [|exact Hr].
      intros entry He. eapply Forall2_same_height_trans; eassumption.
Qed.

Lemma in_layer_plane_same_height :
  forall mb ewld (a b : list (CollisionSphere F)),
    Forall2 (in_layer_plane X mb) ewld a -> Forall2 same_height a b ->
    Forall2 (in_layer_plane X mb) ewld b.
Proof.
  intros mb ewld a b H. revert b. induction H as [|rl s ewld a Hs H IH];
    intros b Hb; inversion Hb as [|? s' ? b' Hss Hb']; subst; constructor.
  - destruct Hs as (e & G & E & Hz & Hr). destruct Hss as (E' & R' & Z').
    exists e. repeat split; congruence.
  - apply IH. exact Hb'.
Qed.

(** ** When every sphere is locked *)

Lemma solver_pass_all_locked :
  forall cache ldl spheres (w : World) spheres' num_moved w',
    Forall (fun s => locked s = true) spheres ->
    solver_pass X probe cache ldl spheres w = (Done (spheres', num_moved), w') ->
    num_moved = O /\ spheres' = map backup_position spheres /\
    probe_calls w' = probe_calls w.
Proof.
  unfold solver_pass. intros cache ldl spheres w spheres' num_moved w' Hl H.
  apply bind_Done in H. destruct H as (rs & w1 & Hm & H).
  apply ret_Done in H. destruct H as [H ->]. inversion H; subst. clear H.
  assert (Hgen : forall others l (wa : World) rs0 wb,
             Forall (fun s => locked s = true) l ->
             mapM (update_sphere X probe cache ldl others) l wa = (Done rs0, wb) ->
             rs0 = map (fun s => (s, false)) l /\ wb = wa).
  { intros others. induction l as [|s l IH]; cbn [mapM]; intros wa rs0 wb Hall Hf.
    - apply ret_Done in Hf. destruct Hf as [-> ->]. auto.
    - inversion Hall as [|? ? Hs Hall']; subst.
      apply bind_Done in Hf. destruct Hf as (y & wc & Hy & Hf).
      apply bind_Done in Hf. destruct Hf as (ys & wd & Hys & Hf).
      apply ret_Done in Hf. destruct Hf as [-> ->].
      unfold update_sphere in Hy. rewrite Hs in Hy.
      apply ret_Done in Hy. destruct Hy as [-> ->].
      destruct (IH _ _ _ Hall' Hys) as [-> ->]. auto. }
  destruct (Hgen (map backup_position spheres) (map backup_position spheres) w rs w1)
    as [-> ->].
  - apply Forall_forall. intros s Hs.
    apply in_map_iff in Hs. destruct Hs as (s0 & <- & Hs0).
    rewrite Forall_forall in Hl. apply (Hl s0 Hs0).
  - exact Hm.
  - split; [|split; [|reflexivity]].
    + clear. induction (map backup_position spheres); simpl; auto.
    + rewrite map_map. simpl. apply map_id.
Qed.

Lemma iterate_all_locked :
  forall n cache ldl spheres (w : World) final log w',
    Forall (fun s => locked s = true) spheres ->
    iterate X probe (S n) cache ldl spheres w = (Done (final, log), w') ->
    log = [(O, map backup_position spheres)].
Proof.
  intros n cache ldl spheres w final log w' Hl Hi. cbn [iterate] in Hi.
  apply bind_Done in Hi. destruct Hi as ([spheres' moved] & w3 & Hpass & Hi).
  destruct (solver_pass_all_locked _ _ _ _ _ _ _ Hl Hpass) as (-> & -> & _).
  change (0 =? 0)%nat with true in Hi. cbv iota in Hi.
  apply ret_Done in Hi. destruct Hi as [Hi _]. inversion Hi; subst. reflexivity.
Qed.

End SolverWriteBack.

(** A run of the solver that ends normally writes [result_on_layer] and
    nothing else. When the listed element pointers are distinct, the
    element of every sphere ends with the scaled position the sphere has
    after the last pass, all its other fields as they were, and every
    element that is not listed is as it was. *)
Theorem solver_writes_positions_only :
  forall (F : Type) (A : Arith F) (Exn Polygons : Type)
         (X : Externals F Polygons) (probe : nat -> option Exn)
         (indeterminate : Vec3 F)
         (elements_with_link_down : list (ElemRef * Z)) (linear_data_layers : list Z)
         (w : World) (log : PassLog F) (w' : World),
    NoDup (map fst elements_with_link_down) ->
    organic_smooth_branches_avoid_collisions X probe indeterminate
      elements_with_link_down linear_data_layers w = (Done log, w') ->
    log <> [] /\
    Forall2
      (fun rl s =>
         exists e,
           get_element (heap w) (fst rl) = Some e /\
           get_element (heap w') (fst rl)
             = Some (set_result_on_layer (written_position X s) e))
      elements_with_link_down (snd (last log (O, []))) /\
    (forall r, ~ In r (map fst elements_with_link_down) ->
               get_element (heap w') r = get_element (heap w) r).
Proof.
  intros F A Exn Polygons X probe indeterminate ewld ldl w log w' Hnd H.
  destruct (solver_stages X probe indeterminate _ _ _ _ _ H)
    as (cache & spheres & w1 & final & w2 & u & Hp & Hi & Hw & Hh).
  destruct (iterate_final X probe _ _ _ _ _ _ _ _ Hi) as [Hne Hfin];
    [discriminate|].
  split; [exact Hne|]. rewrite <- Hfin, <- Hh.
  apply (write_back_spec (Exn := Exn) X ewld final w2 u w' Hnd); [|exact Hw].
  apply prepare_spheres_spec in Hp. destruct Hp as [_ Hfresh].
  apply iterate_kept in Hi.
  rewrite <- (Forall2_length_eq _ _ _ _ _ Hi).
  symmetry. apply (Forall2_length_eq _ _ _ _ _ Hfresh).
Qed.

(** The scenario satisfies the hypotheses of
    [solver_writes_positions_only]. *)
Lemma solver_writes_positions_only_scenario :
  Scenario.log <> [] /\
  Forall2
    (fun rl s =>
       exists e,
         get_element (heap Scenario.world0) (fst rl) = Some e /\
         get_element (heap (snd (Scenario.run Scenario.never))) (fst rl)
           = Some (set_result_on_layer (written_position Scenario.externals s) e))
    Scenario.elements_with_link_down (snd (last Scenario.log (O, []))) /\
  (forall r, ~ In r (map fst Scenario.elements_with_link_down) ->
             get_element (heap (snd (Scenario.run Scenario.never))) r
             = get_element (heap Scenario.world0) r).
Proof.
  apply (solver_writes_positions_only
           _ FloatArith _ _ Scenario.externals Scenario.never Scenario.origin3
           Scenario.elements_with_link_down Scenario.linear_data_layers
           Scenario.world0 Scenario.log
           (snd (Scenario.run Scenario.never))).
  - repeat constructor; simpl; intuition discriminate.
  - vm_compute. reflexivity.
Defined.

(** The solver moves spheres in x and y only: after every pass of a run
    that ends normally, each sphere is still the sphere of its element,
    at the height of the layer of that element (rounded to [float]) and
    with the radius of that element. *)
Theorem spheres_stay_in_layer_plane :
  forall (F : Type) (A : Arith F) (Exn Polygons : Type)
         (X : Externals F Polygons) (probe : nat -> option Exn)
         (indeterminate : Vec3 F)
         (elements_with_link_down : list (ElemRef * Z)) (linear_data_layers : list Z)
         (w : World) (log : PassLog F) (w' : World),
    organic_smooth_branches_avoid_collisions X probe indeterminate
      elements_with_link_down linear_data_layers w = (Done log, w') ->
    Forall
      (fun entry =>
         Forall2 (in_layer_plane X (heap w)) elements_with_link_down (snd entry))
      log.
Proof.
  intros F A Exn Polygons X probe indeterminate ewld ldl w log w' H.
  destruct (solver_stages X probe indeterminate _ _ _ _ _ H)
    as (cache & spheres & w1 & final & w2 & u & Hp & Hi & _ & _).
  apply prepare_spheres_spec in Hp. destruct Hp as [_ Hfresh].
  assert (H0 : Forall2 (in_layer_plane X (heap w)) ewld spheres).
  { eapply Forall2_impl; [|exact Hfresh].
    intros rl s ((e & G & E & _ & _ & R) & _ & (e' & G' & P)).
    rewrite G in G'. inversion G'; subst e'.
    exists e. rewrite P. simpl. auto. }
  apply iterate_same_height in Hi.
  eapply Forall_impl; [|exact Hi].
  intros entry He. eapply in_layer_plane_same_height; eassumption.
Qed.

(** The scenario satisfies the hypothesis of
    [spheres_stay_in_layer_plane]. *)
Lemma spheres_stay_in_layer_plane_scenario :
  Forall
    (fun entry =>
       Forall2 (in_layer_plane Scenario.externals (heap Scenario.world0))
               Scenario.elements_with_link_down (snd entry))
    Scenario.log.
Proof.
  apply (spheres_stay_in_layer_plane
           _ FloatArith _ _ Scenario.externals Scenario.never Scenario.origin3
           Scenario.elements_with_link_down Scenario.linear_data_layers
           Scenario.world0 Scenario.log
           (snd (Scenario.run Scenario.never))).
  vm_compute. reflexivity.
Defined.

(** The element of a locked sphere gets its own position back, taken to
    unscaled [float] coordinates and scaled again: when the listed
    element pointers are distinct and the run ends normally, every listed
    element that the rule of line 343 locks ends with
    [scaled(unscaled(result_on_layer))], and is unchanged altogether when
    that round trip gives its coordinates back. *)
Theorem locked_elements_keep_position :
  forall (F : Type) (A : Arith F) (Exn Polygons : Type)
         (X : Externals F Polygons) (probe : nat -> option Exn)
         (indeterminate : Vec3 F)
         (elements_with_link_down : list (ElemRef * Z)) (linear_data_layers : list Z)
         (w : World) (log : PassLog F) (w' : World),
    NoDup (map fst elements_with_link_down) ->
    organic_smooth_branches_avoid_collisions X probe indeterminate
      elements_with_link_down linear_data_layers w = (Done log, w') ->
    forall rl e,
      In rl elements_with_link_down ->
      get_element (heap w) (fst rl) = Some e ->
      locked_rule e (snd rl) = true ->
      get_element (heap w') (fst rl)
        = Some (set_result_on_layer
                  (there_and_back X (result_on_layer (state e))) e) /\
      (there_and_back X (result_on_layer (state e)) = result_on_layer (state e) ->
       get_element (heap w') (fst rl) = Some e).
Proof.
  intros F A Exn Polygons X probe indeterminate ewld ldl w log w' Hnd H rl e Hin G Hl.
  destruct (solver_stages X probe indeterminate _ _ _ _ _ H)
    as (cache & spheres & w1 & final & w2 & u & Hp & Hi & Hw & Hh).
  apply prepare_spheres_spec in Hp. destruct Hp as [_ Hfresh].
  apply iterate_kept in Hi.
  assert (Hlen : length final = length ewld).
  { rewrite <- (Forall2_length_eq _ _ _ _ _ Hi).
    symmetry. apply (Forall2_length_eq _ _ _ _ _ Hfresh). }
  destruct (write_back_spec (Exn := Exn) X ewld final w2 u w' Hnd Hlen Hw) as [Hwb _].
  rewrite Hh in Hwb.
  assert (Hfinal : Forall2
            (fun rl s => forall e, get_element (heap w) (fst rl) = Some e ->
                                   locked_rule e (snd rl) = true ->
                                   position s = initial_position X e)
            ewld final).
  { clear - Hfresh Hi. revert final Hi.
    induction Hfresh as [|rl0 s ewld spheres Hs Hf IH]; intros final Hi;
      inversion Hi as [|? s' ? final' Hk Hi']; subst; constructor.
    - intros e0 G0 L0.
      destruct Hs as ((e1 & G1 & _ & _ & L1 & _) & _ & (e2 & G2 & P)).
      rewrite G0 in G1, G2. inversion G1; subst e1. inversion G2; subst e2.
      destruct Hk as (_ & _ & _ & _ & K).
      destruct K as [K _]; [rewrite L1; exact L0|]. rewrite K. exact P.
    - apply IH. exact Hi'. }
  assert (Hgoal : get_element (heap w') (fst rl)
                  = Some (set_result_on_layer
                            (there_and_back X (result_on_layer (state e))) e)).
  { clear - Hwb Hfinal Hin G Hl. revert Hfinal Hin.
    induction Hwb as [|rl0 s ewld final (e0 & G0 & Gw) Hf IH]; intros Hfinal Hin;
      [destruct Hin|].
    inversion Hfinal as [|? ? ? ? Hp Hfinal']; subst.
    destruct Hin as [->|Hin]; [|apply IH; assumption].
    rewrite G in G0. inversion G0; subst e0.
    rewrite Gw. unfold written_position. rewrite (Hp e G Hl). reflexivity. }
  split; [exact Hgoal|].
  intros Hrt. rewrite Hgoal, Hrt.
  destruct e as [[l p g lo vl m] ps]. reflexivity.
Qed.

(** The scenario satisfies the hypotheses of
    [locked_elements_keep_position]: its tip is locked. *)
Lemma locked_elements_keep_position_scenario :
  get_element (heap (snd (Scenario.run Scenario.never))) (fst ((2, 0), 0))%Z
    = Some (set_result_on_layer
              (there_and_back Scenario.externals
                 (result_on_layer (state (Scenario.element_at 2 []))))
              (Scenario.element_at 2 [])) /\
  (there_and_back Scenario.externals
     (result_on_layer (state (Scenario.element_at 2 [])))
   = result_on_layer (state (Scenario.element_at 2 [])) ->
   get_element (heap (snd (Scenario.run Scenario.never))) (fst ((2, 0), 0))%Z
     = Some (Scenario.element_at 2 [])).
Proof.
  apply (locked_elements_keep_position
           _ FloatArith _ _ Scenario.externals Scenario.never Scenario.origin3
           Scenario.elements_with_link_down Scenario.linear_data_layers
           Scenario.world0 Scenario.log
           (snd (Scenario.run Scenario.never))).
  - repeat constructor; simpl; intuition discriminate.
  - vm_compute. reflexivity.
  - simpl. auto.
  - reflexivity.
  - reflexivity.
Defined.

(** When the rule of line 343 locks every listed element, a run that
    ends normally makes exactly one pass: that pass counts no moved
    sphere and the loop ends with it; every sphere is locked and is
    where it was before the pass. *)
Theorem all_locked_single_pass :
  forall (F : Type) (A : Arith F) (Exn Polygons : Type)
         (X : Externals F Polygons) (probe : nat -> option Exn)
         (indeterminate : Vec3 F)
         (elements_with_link_down : list (ElemRef * Z)) (linear_data_layers : list Z)
         (w : World) (log : PassLog F) (w' : World),
    all_locked (heap w) elements_with_link_down ->
    organic_smooth_branches_avoid_collisions X probe indeterminate
      elements_with_link_down linear_data_layers w = (Done log, w') ->
    exists spheres,
      log = [(O, spheres)] /\
      Forall (fun s => locked s = true /\ prev_position s = position s) spheres.
Proof.
  intros F A Exn Polygons X probe indeterminate ewld ldl w log w' Hall H.
  destruct (solver_stages X probe indeterminate _ _ _ _ _ H)
    as (cache & spheres & w1 & final & w2 & u & Hp & Hi & _ & _).
  apply prepare_spheres_spec in Hp. destruct Hp as [_ Hfresh].
  assert (Hl : Forall (fun s => locked s = true) spheres).
  { clear - Hall Hfresh. unfold all_locked in Hall.
    induction Hfresh as [|rl s ewld spheres Hs Hf IH];
      inversion Hall as [|? ? (e & G & L) Hall']; subst; constructor.
    - destruct Hs as ((e1 & G1 & _ & _ & L1 & _) & _).
      rewrite G in G1. inversion G1; subst e1. rewrite L1. exact L.
    - apply IH. exact Hall'. }
  change num_iter with (S 99) in Hi.
  rewrite (iterate_all_locked X probe _ _ _ _ _ _ _ _ Hl Hi).
  eexists. split; [reflexivity|].
  apply Forall_forall. intros s Hs. apply in_map_iff in Hs.
  destruct Hs as (s0 & <- & Hs0). rewrite Forall_forall in Hl.
  split; [exact (Hl s0 Hs0) | reflexivity].
Qed.

(** The two tips satisfy the hypotheses of [all_locked_single_pass]. *)
Lemma all_locked_single_pass_tips :
  exists spheres,
    LockedScenario.log = [(O, spheres)] /\
    Forall (fun s => locked s = true /\ prev_position s = position s) spheres.
Proof.
  apply (all_locked_single_pass
           _ FloatArith _ _ Scenario.externals Scenario.never Scenario.origin3
           LockedScenario.elements_with_link_down LockedScenario.linear_data_layers
           LockedScenario.world0 LockedScenario.log (snd LockedScenario.run)).
  - repeat constructor; eexists; (split; [reflexivity | reflexivity]).
  - vm_compute. reflexivity.
Defined.

(* ===================================================================== *)
(** * Theorems: the elements in linear order *)
(* ===================================================================== *)

Section FlattenFacts.
Variable result_on_layer_is_set : SupportElementState -> bool.
Variable sort_links : list (ElemRef * Z) -> list (ElemRef * Z).

Lemma ref_eqb_eq : forall a b : ElemRef, ref_eqb a b = true <-> a = b.
Proof.
  intros [a1 a2] [b1 b2]. unfold ref_eqb. simpl.
  rewrite andb_true_iff, !Z.eqb_eq.
  split; [intros [-> ->]; reflexivity | intros H; inversion H; auto].
Qed.

Lemma ref_ltb_irrefl : forall a : ElemRef, ref_ltb a a = false.
Proof.
  intros [a1 a2]. unfold ref_ltb. simpl.
  rewrite !Z.ltb_irrefl, andb_false_r. reflexivity.
Qed.

Lemma ref_ltb_spec :
  forall a b : ElemRef,
    ref_ltb a b = true <->
    (fst a < fst b \/ (fst a = fst b /\ snd a < snd b))%Z.
Proof.
  intros [a1 a2] [b1 b2]. unfold ref_ltb. simpl.
  rewrite orb_true_iff, andb_true_iff, !Z.ltb_lt, Z.eqb_eq. tauto.
Qed.

Lemma ref_ltb_total :
  forall a b : ElemRef, ref_ltb a b = false -> ref_ltb b a = false -> a = b.
Proof.
  intros [a1 a2] [b1 b2] H1 H2.
  destruct (ref_ltb (a1, a2) (b1, b2)) eqn:E1; [discriminate|].
  destruct (ref_ltb (b1, b2) (a1, a2)) eqn:E2; [discriminate|].
  assert (N1 : ~ (a1 < b1 \/ (a1 = b1 /\ a2 < b2))%Z).
  { intros H. apply (ref_ltb_spec (a1, a2) (b1, b2)) in H. congruence. }
  assert (N2 : ~ (b1 < a1 \/ (b1 = a1 /\ b2 < a2))%Z).
  { intros H. apply (ref_ltb_spec (b1, b2) (a1, a2)) in H. congruence. }
  f_equal; lia.
Qed.

Lemma ref_ltb_trans :
  forall a b c : ElemRef, ref_ltb a b = true -> ref_ltb b c = true -> ref_ltb a c = true.
Proof.
  intros a b c H1 H2. apply ref_ltb_spec in H1. apply ref_ltb_spec in H2.
  apply ref_ltb_spec. lia.
Qed.

(** ** The search for the child *)

(** A child that was found is an entry of the vector that was searched. *)
Lemma find_child_found :
  forall links r c,
    find_child links r = c -> c <> (-1)%Z -> In (r, c) links.
Proof.
  unfold find_child. intros links r c H Hc.
  destruct (find _ links) as [[p i]|] eqn:Ef; [|congruence].
  simpl in H. destruct (ref_eqb p r) eqn:E; [|congruence].
  apply ref_eqb_eq in E. subst p c.
  apply find_some in Ef. apply Ef.
Qed.

(** In a sorted vector the search finds an entry of every pointer that
    has one. *)
Lemma find_child_complete :
  forall links r c,
    StronglySorted (fun a b => ref_ltb (fst b) (fst a) = false) links ->
    In (r, c) links ->
    exists c', In (r, c') links /\ find_child links r = c'.
Proof.
  unfold find_child. induction links as [|[p i] links IH]; intros r c Hs Hin.
  - destruct Hin.
  - inversion Hs as [|? ? Hs' Hall]; subst. cbn [find fst].
    destruct (ref_ltb p r) eqn:Elt; cbn [negb].
    + destruct Hin as [Hin|Hin].
      * inversion Hin; subst. rewrite ref_ltb_irrefl in Elt. discriminate.
      * destruct (IH r c Hs' Hin) as (c' & Hin' & Hf).
        exists c'. split; [right; exact Hin' | exact Hf].
    + cbn [fst snd]. destruct (ref_eqb p r) eqn:Eeq.
      * apply ref_eqb_eq in Eeq. subst p. exists i. split; [left|]; reflexivity.
      * exfalso. destruct Hin as [Hin|Hin].
        -- inversion Hin; subst.
           assert (r = r) as Hr by reflexivity. apply ref_eqb_eq in Hr. congruence.
        -- rewrite Forall_forall in Hall. specialize (Hall _ Hin). simpl in Hall.
           pose proof (ref_ltb_total _ _ Elt Hall) as Hpr. subst p.
           assert (r = r) as Hr by reflexivity. apply ref_eqb_eq in Hr. congruence.
Qed.

(** ** The loops *)

Lemma links_up_spec :
  forall mb l i ps acc new,
    links_up result_on_layer_is_set mb l i ps acc = Some new ->
    new = acc ++ links_of_element result_on_layer_is_set mb l i ps.
Proof.
  intros mb l i. induction ps as [|p ps IH]; cbn [links_up]; intros acc new H.
  - inversion H. unfold links_of_element. simpl. rewrite app_nil_r. reflexivity.
  - destruct (get_element mb ((l + 1)%Z, p)) as [e|] eqn:G; [|discriminate H].
    apply IH in H. rewrite H. unfold links_of_element, parent_is_set.
    cbn [filter]. rewrite G.
    destruct (result_on_layer_is_set (state e)); cbn [map].
    + rewrite <- app_assoc. reflexivity.
    + reflexivity.
Qed.

Lemma links_up_total :
  forall mb l i ps acc,
    (forall p, In p ps -> exists e, get_element mb ((l + 1)%Z, p) = Some e) ->
    exists new, links_up result_on_layer_is_set mb l i ps acc = Some new.
Proof.
  intros mb l i. induction ps as [|p ps IH]; cbn [links_up]; intros acc Hv.
  - eauto.
  - destruct (Hv p (or_introl eq_refl)) as (e & ->).
    apply IH. intros q Hq. apply Hv. right. exact Hq.
Qed.

Lemma flatten_elements_spec :
  forall mb l old ies new ewld new' ewld',
    flatten_elements result_on_layer_is_set mb l old ies (new, ewld)
      = Some (new', ewld') ->
    new' = new ++ links_of_elements result_on_layer_is_set mb l ies /\
    ewld' = ewld ++ map (fun ie => ((l, Z.of_nat (fst ie)),
                                    if (0 <? l)%Z
                                    then find_child old (l, Z.of_nat (fst ie))
                                    else (-1)%Z)) ies.
Proof.
  intros mb l old. induction ies as [|[i e] ies IH];
    cbn [flatten_elements]; intros new ewld new' ewld' H.
  - inversion H; subst. unfold links_of_elements. simpl.
    rewrite !app_nil_r. auto.
  - unfold flatten_element in H.
    destruct (links_up _ mb l (Z.of_nat i) (parents e) new) as [new1|] eqn:L;
      [|discriminate H].
    apply links_up_spec in L. apply IH in H. destruct H as [-> ->].
    rewrite L. unfold links_of_elements. cbn [flat_map map fst snd].
    rewrite <- !app_assoc. auto.
Qed.

Lemma flatten_elements_total :
  forall mb l old ies st,
    (forall ie p, In ie ies -> In p (parents (snd ie)) ->
                  exists e, get_element mb ((l + 1)%Z, p) = Some e) ->
    exists st', flatten_elements result_on_layer_is_set mb l old ies st = Some st'.
Proof.
  intros mb l old. induction ies as [|[i e] ies IH];
    cbn [flatten_elements]; intros [new ewld] Hv.
  - eauto.
  - unfold flatten_element.
    destruct (links_up_total mb l (Z.of_nat i) (parents e) new) as (new1 & ->).
    { intros p Hp. apply (Hv (i, e) p); [left; reflexivity | exact Hp]. }
    apply IH. intros ie p Hie Hp. apply (Hv ie p); [right; exact Hie | exact Hp].
Qed.

Lemma map_combine_seq :
  forall (T U : Type) (f : nat -> U) (l : list T) (k : nat),
    map (fun ie => f (fst ie)) (combine (seq k (length l)) l)
    = map f (seq k (length l)).
Proof.
  intros T U f. induction l as [|x l IH]; intros k; simpl.
  - reflexivity.
  - rewrite IH. reflexivity.
Qed.

Lemma flatten_layers_spec :
  forall (mb : MoveBounds) (ls : list SupportElements) k old ewld ldl new' ewld' ldl',
    flatten_layers result_on_layer_is_set sort_links mb
      (combine (seq k (length ls)) ls) (old, ewld, ldl) = Some (new', ewld', ldl') ->
    ewld' = ewld ++ entries_from result_on_layer_is_set sort_links mb old k ls /\
    ldl' = ldl ++ map (fun j => Z.of_nat (length ewld
                                           + length (concat (firstn (S j) ls))))
                      (seq 0 (length ls)).
Proof.
  intros mb. induction ls as [|layer ls IH];
    intros k old ewld ldl new' ewld' ldl' H; cbn [length seq combine flatten_layers] in H.
  - inversion H; subst. simpl. rewrite !app_nil_r. auto.
  - unfold flatten_layer in H.
    destruct (flatten_elements _ mb (Z.of_nat k) (sort_links old)
                (combine (seq 0 (length layer)) layer) ([], ewld))
      as [[new1 ewld1]|] eqn:E; [|discriminate H].
    apply flatten_elements_spec in E. destruct E as [Hnew Hewld].
    simpl in Hnew. subst new1.
    apply IH in H. destruct H as [He Hl].
    rewrite (map_combine_seq _ _
               (fun i => ((Z.of_nat k, Z.of_nat i),
                          if (0 <? Z.of_nat k)%Z
                          then find_child (sort_links old) (Z.of_nat k, Z.of_nat i)
                          else (-1)%Z)) layer 0) in Hewld.
    split.
    + rewrite He, Hewld. cbn [entries_from]. unfold child_of, links_of_layer.
      rewrite <- !app_assoc. reflexivity.
    + assert (Hlen : length ewld1 = (length ewld + length layer)%nat).
      { rewrite Hewld, length_app, length_map, length_seq. reflexivity. }
      rewrite Hl, Hlen, <- app_assoc. f_equal.
      change (seq 0 (length (layer :: ls))) with (0%nat :: seq 1 (length ls)).
      cbn [map app]. f_equal.
      * f_equal. f_equal. cbn [firstn concat]. rewrite app_nil_r. reflexivity.
      * rewrite <- seq_shift, map_map. apply map_ext. intros j.
        change (firstn (S (S j)) (layer :: ls)) with (layer :: firstn (S j) ls).
        change (concat (layer :: firstn (S j) ls))
          with (layer ++ concat (firstn (S j) ls)).
        rewrite length_app. f_equal. lia.
Qed.

End FlattenFacts.

Section FlattenOrder.
Variable result_on_layer_is_set : SupportElementState -> bool.
Variable sort_links : list (ElemRef * Z) -> list (ElemRef * Z).

Lemma in_combine_seq :
  forall (T : Type) (l : list T) (s n : nat) (x : T),
    In (n, x) (combine (seq s (length l)) l) ->
    (s <= n)%nat /\ nth_error l (n - s) = Some x.
Proof.
  intros T. induction l as [|y l IH]; intros s n x H; simpl in H.
  - destruct H.
  - destruct H as [H|H].
    + inversion H; subst. rewrite Nat.sub_diag. split; [lia | reflexivity].
    + apply IH in H. destruct H as [Hle Hn]. split; [lia|].
      replace (n - s)%nat with (S (n - S s)) by lia. exact Hn.
Qed.

Lemma get_element_of_nat :
  forall (mb : MoveBounds) (l i : nat),
    get_element mb (Z.of_nat l, Z.of_nat i)
    = match nth_error mb l with
      | Some layer => nth_error layer i
      | None => None
      end.
Proof.
  intros mb l i. unfold get_element. cbn [fst snd].
  rewrite lookupZ_of_nat. destruct (nth_error mb l); [|reflexivity].
  apply lookupZ_of_nat.
Qed.

Lemma get_element_nat :
  forall (mb : MoveBounds) (r : ElemRef) (e : SupportElement),
    get_element mb r = Some e ->
    exists (l i : nat) (layer : SupportElements),
      r = (Z.of_nat l, Z.of_nat i) /\
      nth_error mb l = Some layer /\ nth_error layer i = Some e.
Proof.
  intros mb [l i] e G. unfold get_element, lookupZ in G. cbn [fst snd] in G.
  destruct (l <? 0)%Z eqn:Hl; [discriminate G|]. apply Z.ltb_ge in Hl.
  destruct (nth_error mb (Z.to_nat l)) as [layer|] eqn:El; [|discriminate G].
  destruct (i <? 0)%Z eqn:Hi; [discriminate G|]. apply Z.ltb_ge in Hi.
  exists (Z.to_nat l), (Z.to_nat i), layer.
  rewrite !Z2Nat.id by assumption. auto.
Qed.

Lemma flatten_layers_total :
  forall (mb : MoveBounds) (ls : list SupportElements) k st,
    (forall j (layer : SupportElements) i e p,
        nth_error ls j = Some layer -> nth_error layer i = Some e ->
        In p (parents e) ->
        exists e', get_element mb ((Z.of_nat (k + j) + 1)%Z, p) = Some e') ->
    exists st',
      flatten_layers result_on_layer_is_set sort_links mb
        (combine (seq k (length ls)) ls) st = Some st'.
Proof.
  intros mb. induction ls as [|layer ls IH]; intros k [[old ewld] ldl] Hv;
    cbn [length seq combine flatten_layers].
  - eauto.
  - unfold flatten_layer.
    destruct (flatten_elements_total result_on_layer_is_set mb (Z.of_nat k)
                (sort_links old) (combine (seq 0 (length layer)) layer) ([], ewld))
      as ([new1 ewld1] & ->).
    { intros [i e] p Hie Hp. apply in_combine_seq in Hie.
      destruct Hie as [_ Hie]. rewrite Nat.sub_0_r in Hie.
      destruct (Hv 0%nat layer i e p eq_refl Hie Hp) as (e' & G).
      rewrite Nat.add_0_r in G. eauto. }
    apply IH. intros j layer' i e p Hl Hi Hp.
    destruct (Hv (S j) layer' i e p Hl Hi Hp) as (e' & G).
    replace (S k + j)%nat with (k + S j)%nat by lia. eauto.
Qed.

(** ** The entries and their pointers *)

Lemma entries_from_refs :
  forall (mb : MoveBounds) (ls : list SupportElements) old k,
    map fst (entries_from result_on_layer_is_set sort_links mb old k ls)
    = refs_from k ls.
Proof.
  intros mb. induction ls as [|layer ls IH]; intros old k; cbn [entries_from refs_from].
  - reflexivity.
  - rewrite map_app, map_map, IH. reflexivity.
Qed.

Lemma in_refs_from :
  forall (ls : list SupportElements) k r,
    In r (refs_from k ls) ->
    exists j i (layer : SupportElements),
      r = (Z.of_nat (k + j), Z.of_nat i) /\
      nth_error ls j = Some layer /\ (i < length layer)%nat.
Proof.
  induction ls as [|layer ls IH]; intros k r H; cbn [refs_from] in H.
  - destruct H.
  - apply in_app_or in H. destruct H as [H|H].
    + apply in_map_iff in H. destruct H as (i & <- & Hi). apply in_seq in Hi.
      exists 0%nat, i, layer. rewrite Nat.add_0_r.
      split; [reflexivity|]. split; [reflexivity | lia].
    + apply IH in H. destruct H as (j & i & layer' & -> & Hl & Hi).
      exists (S j), i, layer'. split; [f_equal; f_equal; lia | auto].
Qed.

Lemma NoDup_map_injective :
  forall (T U : Type) (f : T -> U) (l : list T),
    (forall a b, f a = f b -> a = b) -> NoDup l -> NoDup (map f l).
Proof.
  intros T U f l Hf H. induction H as [|x l Hx H IH]; simpl; constructor; auto.
  intros Hin. apply in_map_iff in Hin. destruct Hin as (y & E & Hy).
  apply Hf in E. subst. contradiction.
Qed.

Lemma NoDup_refs_from : forall ls k, NoDup (refs_from k ls).
Proof.
  induction ls as [|layer ls IH]; intros k; cbn [refs_from].
  - constructor.
  - apply NoDup_app.
    + apply NoDup_map_injective; [|apply seq_NoDup].
      intros a b H. inversion H. lia.
    + apply IH.
    + intros r H1 H2. apply in_map_iff in H1. destruct H1 as (i & <- & _).
      apply in_refs_from in H2. destruct H2 as (j & i' & layer' & E & _).
      inversion E. lia.
Qed.

Lemma nth_error_refs_from :
  forall (ls : list SupportElements) k j (layer : SupportElements) i,
    nth_error ls j = Some layer -> (i < length layer)%nat ->
    nth_error (refs_from k ls) (length (concat (firstn j ls)) + i)
    = Some (Z.of_nat (k + j), Z.of_nat i).
Proof.
  induction ls as [|layer0 ls IH]; intros k j layer i Hl Hi.
  - destruct j; discriminate Hl.
  - destruct j as [|j]; cbn [refs_from].
    + inversion Hl; subst layer0. cbn [firstn concat length].
      rewrite nth_error_app1 by (rewrite length_map, length_seq; lia).
      rewrite nth_error_map, nth_error_seq.
      change (0 + i)%nat with i.
      rewrite (proj2 (Nat.ltb_lt _ _) Hi).
      simpl. rewrite Nat.add_0_r. reflexivity.
    + cbn [firstn concat]. rewrite length_app.
      rewrite nth_error_app2 by (rewrite length_map, length_seq; lia).
      rewrite length_map, length_seq.
      replace (length layer0 + length (concat (firstn j ls)) + i - length layer0)%nat
        with (length (concat (firstn j ls)) + i)%nat by lia.
      etransitivity; [apply (IH (S k) j layer i Hl Hi)|].
      f_equal. f_equal. lia.
Qed.

(** ** The children *)

Lemma in_links_of_layer :
  forall (mb : MoveBounds) l (layer : SupportElements) r c,
    In (r, c) (links_of_layer result_on_layer_is_set mb l layer) ->
    exists (cn : nat) e_c,
      c = Z.of_nat cn /\ nth_error layer cn = Some e_c /\
      fst r = (Z.of_nat l + 1)%Z /\ In (snd r) (parents e_c) /\
      parent_is_set result_on_layer_is_set mb (Z.of_nat l) (snd r) = true.
Proof.
  unfold links_of_layer, links_of_elements. intros mb l layer r c H.
  apply in_flat_map in H. destruct H as ([i e] & Hie & H).
  apply in_combine_seq in Hie. destruct Hie as [_ Hie]. rewrite Nat.sub_0_r in Hie.
  unfold links_of_element in H. apply in_map_iff in H.
  destruct H as (p & E & Hp). inversion E; subst. cbn [fst snd] in *.
  apply filter_In in Hp. destruct Hp as [Hp Hs].
  exists i, e. auto.
Qed.

Lemma links_of_layer_in :
  forall (mb : MoveBounds) l (layer : SupportElements) (cn : nat) e_c p,
    nth_error layer cn = Some e_c -> In p (parents e_c) ->
    parent_is_set result_on_layer_is_set mb (Z.of_nat l) p = true ->
    In (((Z.of_nat l + 1)%Z, p), Z.of_nat cn)
       (links_of_layer result_on_layer_is_set mb l layer).
Proof.
  unfold links_of_layer, links_of_elements. intros mb l layer cn e_c p Hn Hp Hs.
  apply in_flat_map. exists (cn, e_c). split.
  - apply (nth_error_combine_seq _ layer 0%nat cn e_c Hn).
  - unfold links_of_element. cbn [fst snd]. apply in_map_iff.
    exists p. split; [reflexivity|]. apply filter_In. auto.
Qed.

(** Which links an entry was looked up in. *)
Lemma in_entries_from :
  forall (mb : MoveBounds) (ls : list SupportElements) old k r c,
    In (r, c) (entries_from result_on_layer_is_set sort_links mb old k ls) ->
    exists (l i : nat),
      r = (Z.of_nat l, Z.of_nat i) /\
      ((l = k /\ c = child_of sort_links old (Z.of_nat k) i) \/
       (exists j (below : SupportElements),
           l = (k + S j)%nat /\ nth_error ls j = Some below /\
           c = child_of sort_links
                 (links_of_layer result_on_layer_is_set mb (k + j) below)
                 (Z.of_nat l) i)).
Proof.
  intros mb. induction ls as [|layer ls IH]; intros old k r c H; cbn [entries_from] in H.
  - destruct H.
  - apply in_app_or in H. destruct H as [H|H].
    + apply in_map_iff in H. destruct H as (i & E & _). inversion E; subst.
      exists k, i. auto.
    + apply IH in H. destruct H as (l & i & -> & [[-> ->]|(j & below & -> & Hb & ->)]).
      * exists (S k), i. split; [reflexivity|]. right.
        exists 0%nat, layer. rewrite !Nat.add_0_r.
        split; [lia|]. split; [reflexivity|]. reflexivity.
      * exists (S k + S j)%nat, i. split; [reflexivity|]. right.
        exists (S j), below. split; [lia|]. split; [exact Hb|].
        replace (k + S j)%nat with (S k + j)%nat by lia. reflexivity.
Qed.

Lemma link_elements_down_spec :
  forall mb ewld ldl,
    link_elements_down result_on_layer_is_set sort_links mb = Some (ewld, ldl) ->
    ewld = entries_from result_on_layer_is_set sort_links mb [] 0 mb /\
    ldl = map (elements_below mb) (seq 0 (S (length mb))).
Proof.
  unfold link_elements_down. intros mb ewld ldl H.
  destruct (flatten_layers _ _ mb _ _) as [[[new' ewld'] ldl']|] eqn:E;
    [|discriminate H].
  inversion H; subst. apply flatten_layers_spec in E. destruct E as [-> ->].
  split; [reflexivity|].
  change (seq 0 (S (length mb))) with (0%nat :: seq 1 (length mb)).
  cbn [map app]. f_equal.
  rewrite <- seq_shift, map_map. apply map_ext. intros j. reflexivity.
Qed.

Lemma link_elements_down_total :
  forall mb,
    parents_in_range mb ->
    exists ewld ldl,
      link_elements_down result_on_layer_is_set sort_links mb = Some (ewld, ldl).
Proof.
  intros mb Hv. unfold link_elements_down.
  destruct (flatten_layers_total mb mb 0 ([], [], [0%Z])) as ([[new' ewld] ldl] & E).
  - intros j layer i e p Hl Hi Hp.
    apply (Hv (Z.of_nat j, Z.of_nat i) e p); [|exact Hp].
    rewrite get_element_of_nat, Hl. exact Hi.
  - exists ewld, ldl.
    match goal with
    | |- match ?t with _ => _ end = _ =>
        replace t with (Some (new', ewld, ldl)) by (symmetry; exact E)
    end.
    reflexivity.
Qed.

End FlattenOrder.

Section FlattenChildren.
Variable result_on_layer_is_set : SupportElementState -> bool.
Variable sort_links : list (ElemRef * Z) -> list (ElemRef * Z).

Lemma entries_from_in :
  forall (mb : MoveBounds) (ls : list SupportElements) old k j
         (below above : SupportElements) (pn : nat),
    nth_error ls j = Some below -> nth_error ls (S j) = Some above ->
    (pn < length above)%nat ->
    In ((Z.of_nat (k + S j), Z.of_nat pn),
        child_of sort_links (links_of_layer result_on_layer_is_set mb (k + j) below)
                 (Z.of_nat (k + S j)) pn)
       (entries_from result_on_layer_is_set sort_links mb old k ls).
Proof.
  intros mb. induction ls as [|layer ls IH]; intros old k j below above pn Hb Ha Hp.
  - destruct j; discriminate Hb.
  - cbn [entries_from]. apply in_or_app. right.
    destruct j as [|j].
    + inversion Hb; subst layer. destruct ls as [|layer1 ls]; [discriminate Ha|].
      inversion Ha; subst layer1. cbn [entries_from]. apply in_or_app. left.
      apply in_map_iff. exists pn. rewrite Nat.add_0_r.
      replace (k + 1)%nat with (S k) by lia.
      split; [reflexivity | apply in_seq; lia].
    + replace (k + S (S j))%nat with (S k + S j)%nat by lia.
      replace (k + S j)%nat with (S k + j)%nat by lia.
      apply (IH _ (S k) j below above pn Hb Ha Hp).
Qed.

Lemma entries_from_first :
  forall (mb : MoveBounds) (ls : list SupportElements) old k r c,
    In (r, c) (entries_from result_on_layer_is_set sort_links mb old k ls) ->
    fst r = Z.of_nat k -> exists i, c = child_of sort_links old (Z.of_nat k) i.
Proof.
  intros mb ls old k r c H Hk. apply in_entries_from in H.
  destruct H as (l & i & -> & [[-> ->]|(j & below & -> & _)]).
  - eauto.
  - simpl in Hk. lia.
Qed.

End FlattenChildren.

(** ** Insertion sort meets the contract of [std::sort] *)

Lemma insert_link_perm :
  forall x l, Permutation (x :: l) (insert_link x l).
Proof.
  intros x. induction l as [|y l IH]; cbn [insert_link].
  - apply Permutation_refl.
  - destruct (ref_ltb (fst x) (fst y)); [apply Permutation_refl|].
    eapply perm_trans; [apply perm_swap|]. apply perm_skip. exact IH.
Qed.

Lemma insert_link_sorted :
  forall x l,
    StronglySorted (fun a b => ref_ltb (fst b) (fst a) = false) l ->
    StronglySorted (fun a b => ref_ltb (fst b) (fst a) = false) (insert_link x l).
Proof.
  intros x. induction l as [|y l IH]; cbn [insert_link]; intros Hs.
  - constructor; [constructor | constructor].
  - inversion Hs as [|? ? Hs' Hall]; subst.
    destruct (ref_ltb (fst x) (fst y)) eqn:E.
    + constructor; [exact Hs|]. constructor.
      * destruct (ref_ltb (fst y) (fst x)) eqn:E'; [|reflexivity].
        pose proof (ref_ltb_trans _ _ _ E E') as Hc.
        rewrite ref_ltb_irrefl in Hc. discriminate.
      * rewrite Forall_forall in Hall. apply Forall_forall. intros z Hz.
        specialize (Hall z Hz). cbn beta in Hall.
        destruct (ref_ltb (fst z) (fst x)) eqn:E'; [|reflexivity].
        rewrite (ref_ltb_trans _ _ _ E' E) in Hall. discriminate.
    + constructor; [apply IH; exact Hs'|].
      apply Forall_forall. intros z Hz.
      apply (Permutation_in _ (Permutation_sym (insert_link_perm x l))) in Hz.
      destruct Hz as [<-|Hz]; [exact E|].
      rewrite Forall_forall in Hall. apply (Hall z Hz).
Qed.

Lemma insertion_sort_sorts : sorts_by_pointer insertion_sort.
Proof.
  intros l. unfold insertion_sort. induction l as [|x l [IHp IHs]]; cbn [fold_right].
  - split; [apply Permutation_refl | constructor].
  - split.
    + eapply perm_trans; [apply perm_skip; exact IHp | apply insert_link_perm].
    + apply insert_link_sorted. exact IHs.
Qed.

(** What the linear order looks like, once the loop has returned. *)
Lemma link_elements_down_addresses :
  forall (result_on_layer_is_set : SupportElementState -> bool)
         (sort_links : list (ElemRef * Z) -> list (ElemRef * Z))
         (mb : MoveBounds) (ewld : list (ElemRef * Z)) (ldl : list Z),
    link_elements_down result_on_layer_is_set sort_links mb = Some (ewld, ldl) ->
    length ldl = S (length mb) /\
    NoDup (map fst ewld) /\
    Z.of_nat (length ewld) = elements_below mb (length mb) /\
    (forall l, (l <= length mb)%nat ->
               nth_error ldl l = Some (elements_below mb l)) /\
    (forall l i e,
        get_element mb (l, i) = Some e ->
        exists offset child,
          lookupZ ldl l = Some offset /\
          lookupZ ewld (offset + i) = Some ((l, i), child)).
Proof.
  intros risset sort mb ewld ldl H.
  apply link_elements_down_spec in H. destruct H as [He Hl].
  assert (Hrefs : map fst ewld = refs_from 0 mb).
  { rewrite He. apply entries_from_refs. }
  assert (Hnth : forall l, (l <= length mb)%nat ->
                           nth_error ldl l = Some (elements_below mb l)).
  { intros l Hle. rewrite Hl, nth_error_map, nth_error_seq.
    rewrite (proj2 (Nat.ltb_lt l (S (length mb)))) by lia. reflexivity. }
  split; [rewrite Hl, length_map, length_seq; reflexivity|].
  split; [rewrite Hrefs; apply NoDup_refs_from|].
  assert (Hlen : forall (ls : list SupportElements) k,
             length (refs_from k ls) = length (concat ls)).
  { induction ls as [|layer ls IH]; intros k; cbn [refs_from concat].
    - reflexivity.
    - rewrite !length_app, length_map, length_seq, IH. reflexivity. }
  split.
  { unfold elements_below. rewrite firstn_all, <- (Hlen mb 0%nat), <- Hrefs, length_map.
    reflexivity. }
  split; [exact Hnth|].
  intros l i e G. apply get_element_nat in G.
  destruct G as (ln & inn & layer & E & Hln & Hin). inversion E; subst l i.
  assert (Hlt : (ln < length mb)%nat).
  { apply nth_error_Some. rewrite Hln. discriminate. }
  assert (Hit : (inn < length layer)%nat).
  { apply nth_error_Some. rewrite Hin. discriminate. }
  pose proof (nth_error_refs_from mb 0 ln layer inn Hln Hit) as Hr.
  rewrite <- Hrefs, nth_error_map in Hr. cbn [Nat.add] in Hr.
  destruct (nth_error ewld (length (concat (firstn ln mb)) + inn))
    as [[r child]|] eqn:En; [|discriminate Hr].
  simpl in Hr. inversion Hr; subst r.
  exists (elements_below mb ln), child. split.
  - rewrite lookupZ_of_nat. apply Hnth. lia.
  - unfold elements_below. rewrite <- Nat2Z.inj_add, lookupZ_of_nat. exact En.
Qed.

(** The loop at lines 601 to 634 puts every element of [move_bounds]
    into [elements_with_link_down], layer by layer and index by index,
    and [linear_data_layers[l]] is the number of elements below layer
    [l]. So, when every parent index names an element of the next layer,
    the loop returns; [linear_data_layers] has one entry more than there
    are layers; no element pointer is listed twice; and the element [i]
    of layer [l] is the entry [linear_data_layers[l] + i]. *)
Theorem linear_order_addresses_elements :
  forall (result_on_layer_is_set : SupportElementState -> bool)
         (sort_links : list (ElemRef * Z) -> list (ElemRef * Z))
         (mb : MoveBounds),
    parents_in_range mb ->
    exists ewld ldl,
      link_elements_down result_on_layer_is_set sort_links mb = Some (ewld, ldl) /\
      length ldl = S (length mb) /\
      NoDup (map fst ewld) /\
      Z.of_nat (length ewld) = elements_below mb (length mb) /\
      (forall l, (l <= length mb)%nat ->
                 nth_error ldl l = Some (elements_below mb l)) /\
      (forall l i e,
          get_element mb (l, i) = Some e ->
          exists offset child,
            lookupZ ldl l = Some offset /\
            lookupZ ewld (offset + i) = Some ((l, i), child)).
Proof.
  intros risset sort mb Hv.
  destruct (link_elements_down_total risset sort mb Hv) as (ewld & ldl & H).
  exists ewld, ldl. split; [exact H|].
  apply (link_elements_down_addresses risset sort mb ewld ldl H).
Qed.

(** The merging forest satisfies the hypothesis of
    [linear_order_addresses_elements]. *)
Lemma linear_order_addresses_elements_merging :
  exists ewld ldl,
    link_elements_down (not_the_unset_point 5) insertion_sort merging_move_bounds
      = Some (ewld, ldl) /\
    length ldl = S (length merging_move_bounds) /\
    NoDup (map fst ewld) /\
    Z.of_nat (length ewld)
      = elements_below merging_move_bounds (length merging_move_bounds) /\
    (forall l, (l <= length merging_move_bounds)%nat ->
               nth_error ldl l = Some (elements_below merging_move_bounds l)) /\
    (forall l i e,
        get_element merging_move_bounds (l, i) = Some e ->
        exists offset child,
          lookupZ ldl l = Some offset /\
          lookupZ ewld (offset + i) = Some ((l, i), child)).
Proof.
  apply (linear_order_addresses_elements (not_the_unset_point 5) insertion_sort
           merging_move_bounds).
  intros r e p G Hp.
  apply (check_parents_sound merging_move_bounds r e p); [reflexivity | exact G | exact Hp].
Defined.

(** [link_down] names an element below that lists the element as a
    parent: when [std::sort] rearranges its input, every entry of an
    element of layer 0 has [link_down = -1], and every entry
    [(element, link_down)] with [link_down] other than [-1] is such that
    the element [link_down] of the layer below has the element among its
    parents, and the [result_on_layer] of the element is set. *)
Theorem link_down_names_a_child :
  forall (result_on_layer_is_set : SupportElementState -> bool)
         (sort_links : list (ElemRef * Z) -> list (ElemRef * Z))
         (mb : MoveBounds) (ewld : list (ElemRef * Z)) (ldl : list Z),
    sorts_by_pointer sort_links ->
    link_elements_down result_on_layer_is_set sort_links mb = Some (ewld, ldl) ->
    forall r child,
      In (r, child) ewld ->
      (fst r = 0%Z -> child = (-1)%Z) /\
      (child <> (-1)%Z ->
       exists e_c e_p,
         get_element mb ((fst r - 1)%Z, child) = Some e_c /\
         In (snd r) (parents e_c) /\
         get_element mb r = Some e_p /\
         result_on_layer_is_set (state e_p) = true).
Proof.
  intros risset sort mb ewld ldl Hsort H r child Hin.
  apply link_elements_down_spec in H. destruct H as [He _]. subst ewld.
  apply in_entries_from in Hin.
  destruct Hin as (l & i & -> & [[-> ->]|(j & below & -> & Hb & ->)]); cbn [fst snd].
  - unfold child_of. cbn. split; [reflexivity | congruence].
  - split; [intros Hz; lia|]. intros Hc.
    unfold child_of in Hc |- *.
    destruct (0 <? Z.of_nat (0 + S j))%Z eqn:Hpos; [|congruence].
    set (links := links_of_layer risset mb (0 + j) below) in *.
    pose proof (find_child_found (sort links) _ _ eq_refl Hc) as Hf.
    apply (Permutation_in _ (Permutation_sym (proj1 (Hsort links)))) in Hf.
    apply in_links_of_layer in Hf.
    destruct Hf as (cn & e_c & Ec & Hn & _ & Hp & Hs). cbn [fst snd] in Hp, Hs.
    unfold parent_is_set in Hs.
    replace (Z.of_nat (0 + j) + 1)%Z with (Z.of_nat (0 + S j)) in Hs by lia.
    destruct (get_element mb (Z.of_nat (0 + S j), Z.of_nat i)) as [e_p|] eqn:Gp;
      [|discriminate Hs].
    exists e_c, e_p. rewrite Ec.
    replace (Z.of_nat (0 + S j) - 1)%Z with (Z.of_nat j) by lia.
    rewrite get_element_of_nat, Hb. auto.
Qed.

(** The merging forest satisfies the hypotheses of
    [link_down_names_a_child]: the element 2 of layer 1 is linked down to
    the element 1 of layer 0. *)
Lemma link_down_names_a_child_merging :
  (fst (1, 2)%Z = 0%Z -> 1%Z = (-1)%Z) /\
  (1%Z <> (-1)%Z ->
   exists e_c e_p,
     get_element merging_move_bounds ((fst (1, 2) - 1)%Z, 1%Z) = Some e_c /\
     In (snd (1, 2)%Z) (parents e_c) /\
     get_element merging_move_bounds (1, 2)%Z = Some e_p /\
     not_the_unset_point 5 (state e_p) = true).
Proof.
  apply (link_down_names_a_child (not_the_unset_point 5) insertion_sort
           merging_move_bounds
           [ ((0, 0), -1); ((0, 1), -1);
             ((1, 0), 1); ((1, 1), 0); ((1, 2), 1); ((1, 3), -1) ]%Z
           [0; 2; 6]%Z).
  - exact insertion_sort_sorts.
  - reflexivity.
  - simpl. auto 10.
Defined.

(** An element with a parent whose [result_on_layer] is set is found
    from above: when [std::sort] sorts by pointer, the entry of that
    parent has a [link_down] other than [-1], and it is the element
    itself when no other element of its layer lists the same parent. *)
Theorem linked_parent_finds_child :
  forall (result_on_layer_is_set : SupportElementState -> bool)
         (sort_links : list (ElemRef * Z) -> list (ElemRef * Z))
         (mb : MoveBounds) (ewld : list (ElemRef * Z)) (ldl : list Z),
    sorts_by_pointer sort_links ->
    link_elements_down result_on_layer_is_set sort_links mb = Some (ewld, ldl) ->
    forall l c e_c p e_p,
      get_element mb (l, c) = Some e_c ->
      In p (parents e_c) ->
      get_element mb ((l + 1)%Z, p) = Some e_p ->
      result_on_layer_is_set (state e_p) = true ->
      exists child,
        In (((l + 1)%Z, p), child) ewld /\
        child <> (-1)%Z /\
        ((forall c' e', get_element mb (l, c') = Some e' -> In p (parents e') ->
                        c' = c) ->
         child = c).
Proof.
  intros risset sort mb ewld ldl Hsort H l c e_c p e_p Gc Hp Gp Hs.
  apply link_elements_down_spec in H. destruct H as [He _]. subst ewld.
  apply get_element_nat in Gc.
  destruct Gc as (ln & cn & below & E & Hln & Hcn). inversion E; subst l c. clear E.
  apply get_element_nat in Gp.
  destruct Gp as (ln1 & pn & above & E & Hln1 & Hpn). inversion E as [[E1 E2]].
  assert (ln1 = S ln) by lia. subst ln1 p. clear E E1.
  assert (Hset : parent_is_set risset mb (Z.of_nat ln) (Z.of_nat pn) = true).
  { unfold parent_is_set.
    replace (Z.of_nat ln + 1)%Z with (Z.of_nat (S ln)) by lia.
    rewrite get_element_of_nat, Hln1, Hpn. exact Hs. }
  set (links := links_of_layer risset mb ln below).
  assert (Hl : In (((Z.of_nat ln + 1)%Z, Z.of_nat pn), Z.of_nat cn) links).
  { apply (links_of_layer_in risset mb ln below cn e_c (Z.of_nat pn) Hcn Hp Hset). }
  apply (Permutation_in _ (proj1 (Hsort links))) in Hl.
  destruct (find_child_complete (sort links) _ _ (proj2 (Hsort links)) Hl)
    as (c' & Hin' & Hf).
  assert (Hpl : (pn < length above)%nat).
  { apply nth_error_Some. rewrite Hpn. discriminate. }
  pose proof (entries_from_in risset sort mb mb [] 0 ln below above pn Hln Hln1 Hpl)
    as Hentry.
  cbn [Nat.add] in Hentry.
  replace (Z.of_nat ln + 1)%Z with (Z.of_nat (S ln)) in * by lia.
  assert (Hchild : child_of sort links (Z.of_nat (S ln)) pn = c').
  { unfold child_of. destruct (0 <? Z.of_nat (S ln))%Z eqn:Hpos.
    - exact Hf.
    - apply Z.ltb_ge in Hpos. lia. }
  fold links in Hentry. rewrite Hchild in Hentry.
  exists c'. split; [exact Hentry|].
  apply (Permutation_in _ (Permutation_sym (proj1 (Hsort links)))) in Hin'.
  apply in_links_of_layer in Hin'.
  destruct Hin' as (cn' & e' & Ec' & Hn' & _ & Hp' & _). cbn [fst snd] in Hp'.
  split; [lia|].
  intros Huniq. rewrite Ec'. apply (Huniq (Z.of_nat cn') e'); [|exact Hp'].
  rewrite get_element_of_nat, Hln. exact Hn'.
Qed.

(** The merging forest satisfies the hypotheses of
    [linked_parent_finds_child]: the element 0 of layer 0 is the only one
    that lists the element 1 of layer 1. *)
Lemma linked_parent_finds_child_merging :
  exists child,
    In (((0 + 1)%Z, 1%Z), child)
       [ ((0, 0), -1); ((0, 1), -1);
         ((1, 0), 1); ((1, 1), 0); ((1, 2), 1); ((1, 3), -1) ]%Z /\
    child <> (-1)%Z /\
    ((forall c' e', get_element merging_move_bounds (0%Z, c') = Some e' ->
                    In 1%Z (parents e') -> c' = 0%Z) ->
     child = 0%Z).
Proof.
  apply (linked_parent_finds_child (not_the_unset_point 5) insertion_sort
           merging_move_bounds
           [ ((0, 0), -1); ((0, 1), -1);
             ((1, 0), 1); ((1, 1), 0); ((1, 2), 1); ((1, 3), -1) ]%Z
           [0; 2; 6]%Z
           insertion_sort_sorts eq_refl
           0%Z 0%Z (mkElement (mkState 0 (0, 0)%Z false false false false) [1]%Z)
           1%Z (mkElement (mkState 1 (2, 0)%Z false false false false) [])).
  - reflexivity.
  - simpl. auto.
  - reflexivity.
  - reflexivity.
Defined.

Lemma Forall2_lookupZ :
  forall (T U : Type) (R : T -> U -> Prop) (l : list T) (l' : list U) (z : Z) (x : T),
    Forall2 R l l' -> lookupZ l z = Some x ->
    exists y, lookupZ l' z = Some y /\ R x y.
Proof.
  unfold lookupZ. intros T U R l l' z x H Hx.
  destruct (z <? 0)%Z; [discriminate Hx|].
  revert Hx. generalize (Z.to_nat z). intros n. revert n.
  induction H as [|a b l l' Hab H IH]; intros [|n] Hx; try discriminate Hx.
  - inversion Hx; subst. exists b. auto.
  - apply IH. exact Hx.
Qed.

(** The spheres follow the linear order: when the solver is handed what
    lines 596 to 635 compute from [move_bounds], the sphere at index
    [linear_data_layers[l] + i] is the sphere of the element [i] of layer
    [l], with the radius and the starting position of that element, and
    locked by the rule of line 343. This is how the solver finds the
    spheres of the parents and of the element below. *)
Theorem spheres_follow_linear_order :
  forall (F : Type) (A : Arith F) (Exn Polygons : Type)
         (X : Externals F Polygons) (probe : nat -> option Exn)
         (indeterminate : Vec3 F)
         (result_on_layer_is_set : SupportElementState -> bool)
         (sort_links : list (ElemRef * Z) -> list (ElemRef * Z))
         (w : World) (ewld : list (ElemRef * Z)) (ldl : list Z)
         cache spheres (w1 : World),
    link_elements_down result_on_layer_is_set sort_links (heap w) = Some (ewld, ldl) ->
    prepare_spheres X probe indeterminate ewld ldl w = (Done (cache, spheres), w1) ->
    forall l i e,
      get_element (heap w) (l, i) = Some e ->
      exists offset s,
        lookupZ ldl l = Some offset /\
        lookupZ spheres (offset + i) = Some s /\
        element s = (l, i) /\
        radius s = unscaled_float X (getRadius X (state e)) /\
        position s = initial_position X e /\
        locked s = locked_rule e (element_below_id s).
Proof.
  intros F A Exn Polygons X probe indeterminate risset sort w ewld ldl
         cache spheres w1 Hlink Hp l i e G.
  destruct (link_elements_down_addresses risset sort _ _ _ Hlink)
    as (_ & _ & _ & _ & Haddr).
  destruct (Haddr l i e G) as (offset & child & Ho & He).
  apply prepare_spheres_spec in Hp. destruct Hp as [_ Hfresh].
  destruct (Forall2_lookupZ _ _ _ _ _ _ _ Hfresh He)
    as (s & Hn & ((e1 & G1 & E1 & E2 & L & R) & _ & (e2 & G2 & P))).
  cbn [fst snd] in *. rewrite G in G1, G2.
  inversion G1; subst e1. inversion G2; subst e2.
  exists offset, s. rewrite E2. auto 10.
Qed.

(** The scenario satisfies the hypotheses of
    [spheres_follow_linear_order]: its pairs and offsets are those of the
    loop at lines 601 to 634. *)
Lemma spheres_follow_linear_order_scenario :
  exists offset s,
    lookupZ Scenario.linear_data_layers 1 = Some offset /\
    lookupZ Scenario.spheres (offset + 0) = Some s /\
    element s = (1, 0)%Z /\
    radius s = unscaled_float Scenario.externals
                 (getRadius Scenario.externals (state (Scenario.element_at 1 [0%Z]))) /\
    position s = initial_position Scenario.externals (Scenario.element_at 1 [0%Z]) /\
    locked s = locked_rule (Scenario.element_at 1 [0%Z]) (element_below_id s).
Proof.
  apply (spheres_follow_linear_order
           _ FloatArith _ _ Scenario.externals Scenario.never Scenario.origin3
           (not_the_unset_point 5) insertion_sort
           Scenario.world0 Scenario.elements_with_link_down
           Scenario.linear_data_layers Scenario.cache Scenario.spheres
           (snd Scenario.prepared)).
  - reflexivity.
  - vm_compute. reflexivity.
  - reflexivity.
Defined.

(* ===================================================================== *)
(** * Theorems: fans and strips *)
(* ===================================================================== *)

Section FanFacts.
Context {F : Type} {A : Arith F}.

Lemma fan_loop_spec :
  forall flip ifan (vs : list Z) u idx,
    exists new,
      fan_loop flip ifan vs u idx = idx ++ new /\
      length new = length vs /\
      forall k v,
        nth_error vs k = Some v ->
        nth_error new k
        = Some (let p := match k with O => u | S k' => nth k' vs u end in
                if flip then (ifan, p, v) else (ifan, v, p)).
Proof.
  intros flip ifan. induction vs as [|v0 vs IH]; intros u idx; cbn [fan_loop].
  - exists []. rewrite app_nil_r. split; [reflexivity|]. split; [reflexivity|].
    intros k v H. destruct k; discriminate H.
  - destruct (IH v0 (idx ++ [if flip then (ifan, u, v0) else (ifan, v0, u)]))
      as (new & E & Hl & Hn).
    exists ((if flip then (ifan, u, v0) else (ifan, v0, u)) :: new).
    split; [rewrite E, <- app_assoc; reflexivity|].
    split; [simpl; rewrite Hl; reflexivity|].
    intros [|k] v H; cbn [nth_error] in *.
    + inversion H; subst. reflexivity.
    + rewrite (Hn k v H). destruct k as [|k']; [reflexivity|].
      cbn [nth]. rewrite (nth_indep vs v0 u); [reflexivity|].
      assert (Hlt : (S k' < length vs)%nat).
      { apply nth_error_Some. rewrite H. discriminate. }
      lia.
Qed.

Lemma nth_error_index_range :
  forall b e k, (k < Z.to_nat (e - b))%nat ->
                nth_error (index_range b e) k = Some (b + Z.of_nat k)%Z.
Proof.
  intros b e k Hk. unfold index_range.
  rewrite nth_error_map, nth_error_seq, (proj2 (Nat.ltb_lt _ _) Hk). reflexivity.
Qed.

Lemma length_index_range : forall b e, length (index_range b e) = Z.to_nat (e - b).
Proof. intros. unfold index_range. rewrite length_map, length_seq. reflexivity. Qed.

End FanFacts.

(** [triangulate_fan] closes a ring with a fan: for a ring
    [[ibegin, iend)] that is not reversed, the call returns, leaves the
    vertices and the earlier faces alone and appends one face per ring
    vertex; the face of the vertex [v] joins [ifan], [v] and the vertex
    before [v] on the ring (the last vertex for the first), in the order
    [(ifan, v, before)], and in the order [(ifan, before, v)] when the
    normals are flipped. *)
Theorem triangulate_fan_faces :
  forall (F : Type) (A : Arith F) (flip_normals : bool)
         (its : indexed_triangle_set F) (ifan ibegin iend : Z),
    (ibegin <= iend)%Z ->
    exists new,
      triangulate_fan flip_normals its ifan ibegin iend
        = Some (mkITS (vertices its) (indices its ++ new)) /\
      Z.of_nat (length new) = (iend - ibegin)%Z /\
      forall k, (k < length new)%nat ->
        let v := (ibegin + Z.of_nat k)%Z in
        nth_error new k
        = Some (if flip_normals then (ifan, prev_on_ring ibegin iend v, v)
                else (ifan, v, prev_on_ring ibegin iend v)).
Proof.
  intros F A flip its ifan ibegin iend Hle. unfold triangulate_fan. cbv zeta.
  destruct (Z.ltb_spec (Z.of_nat (length (indices its)) + (iend - ibegin) * 3) 0)
    as [Hneg|_]; [lia|].
  destruct (fan_loop_spec flip ifan (index_range ibegin iend) (iend - 1)%Z (indices its))
    as (new & -> & Hl & Hn).
  rewrite length_index_range in Hl.
  exists new. split; [reflexivity|]. split; [lia|].
  intros k Hk. set (v := (ibegin + Z.of_nat k)%Z). rewrite Hl in Hk.
  rewrite (Hn k v (nth_error_index_range ibegin iend k Hk)).
  assert (Hp : match k with
               | O => (iend - 1)%Z
               | S k' => nth k' (index_range ibegin iend) (iend - 1)%Z
               end = prev_on_ring ibegin iend v).
  { unfold prev_on_ring, v. destruct k as [|k'].
    - rewrite Z.add_0_r, Z.eqb_refl. reflexivity.
    - destruct (Z.eqb_spec (ibegin + Z.of_nat (S k')) ibegin) as [E|_]; [lia|].
      rewrite (nth_error_nth _ _ _ (nth_error_index_range ibegin iend k' ltac:(lia))).
      lia. }
  cbv zeta. rewrite Hp. reflexivity.
Qed.

(** A ring of four vertices satisfies the hypothesis of
    [triangulate_fan_faces]. *)
Lemma triangulate_fan_faces_square :
  exists new,
    triangulate_fan true two_squares 0 4 8
      = Some (mkITS (vertices two_squares) (indices two_squares ++ new)) /\
    Z.of_nat (length new) = (8 - 4)%Z /\
    forall k, (k < length new)%nat ->
      let v := (4 + Z.of_nat k)%Z in
      nth_error new k
      = Some (if true then (0%Z, prev_on_ring 4 8 v, v)
              else (0%Z, v, prev_on_ring 4 8 v)).
Proof.
  apply (triangulate_fan_faces _ FloatArith true two_squares 0 4 8). lia.
Defined.

Section StripFacts.
Context {F : Type} {A : Arith F}.

Lemma index_range_cons :
  forall b e, (b < e)%Z -> index_range b e = b :: index_range (b + 1) e.
Proof.
  intros b e H. unfold index_range.
  replace (Z.to_nat (e - b)) with (S (Z.to_nat (e - (b + 1)))) by lia.
  cbn [seq map]. f_equal; [lia|].
  rewrite <- seq_shift, map_map. apply map_ext. intros k. lia.
Qed.

Lemma index_range_nil : forall b e, (e <= b)%Z -> index_range b e = [].
Proof.
  intros b e H. unfold index_range.
  replace (Z.to_nat (e - b)) with 0%nat by lia. reflexivity.
Qed.

Lemma index_range_app :
  forall b x e, (b <= x <= e)%Z ->
                index_range b e = index_range b x ++ index_range x e.
Proof.
  intros b x e H. remember (Z.to_nat (x - b)) as n eqn:En.
  revert b H En. induction n as [|n IH]; intros b H En.
  - assert (b = x) by lia. subst b. rewrite (index_range_nil x x) by lia. reflexivity.
  - rewrite (index_range_cons b e), (index_range_cons b x) by lia.
    cbn [app]. f_equal. apply IH; lia.
Qed.

(** A walk that does not pass the end of the ring starts its edges at
    consecutive vertices. *)
Lemma ring_walk_straight :
  forall b e m x,
    (b <= x)%Z -> (x + Z.of_nat m <= e)%Z ->
    map fst (ring_walk b e m x) = index_range x (x + Z.of_nat m).
Proof.
  intros b e. induction m as [|m IH]; intros x Hb He; cbn [ring_walk map fst].
  - rewrite index_range_nil by lia. reflexivity.
  - rewrite index_range_cons by lia. f_equal.
    destruct m as [|m'].
    + cbn [ring_walk map]. rewrite index_range_nil by lia. reflexivity.
    + unfold next_on_ring at 1.
      destruct (Z.eqb_spec (x + 1) e) as [E|_]; [lia|].
      rewrite IH by lia. f_equal. lia.
Qed.

Lemma ring_walk_app :
  forall b e k m x,
    (b <= x < e)%Z -> Z.of_nat k = (e - x)%Z ->
    map fst (ring_walk b e (k + m) x)
    = index_range x e ++ map fst (ring_walk b e m b).
Proof.
  intros b e. induction k as [|k IH]; intros m x Hx Hk; [lia|].
  cbn [Nat.add ring_walk map fst]. rewrite (index_range_cons x e) by lia.
  cbn [app]. f_equal. unfold next_on_ring at 1.
  destruct (Z.eqb_spec (x + 1) e) as [E|Hne].
  - assert (k = 0%nat) by lia. subst k. cbn [Nat.add].
    rewrite index_range_nil by lia. reflexivity.
  - apply IH; lia.
Qed.

(** A walk once around the ring starts one edge at every vertex. *)
Lemma ring_walk_around :
  forall b e x,
    (b <= x < e)%Z ->
    Permutation (map fst (ring_walk b e (Z.to_nat (e - b)) x)) (index_range b e).
Proof.
  intros b e x Hx.
  replace (Z.to_nat (e - b)) with (Z.to_nat (e - x) + Z.to_nat (x - b))%nat by lia.
  rewrite ring_walk_app by lia.
  rewrite ring_walk_straight by lia.
  replace (b + Z.of_nat (Z.to_nat (x - b)))%Z with x by lia.
  rewrite (index_range_app b x e) by lia.
  apply Permutation_app_comm.
Qed.

Lemma ring_walk_edges :
  forall b e n x, ring_edges b e (ring_walk b e n x).
Proof.
  intros b e. unfold ring_edges.
  induction n as [|n IH]; intros x; cbn [ring_walk]; constructor; auto.
Qed.

Lemma in_ring_true :
  forall b e i, (b <= i < e)%Z -> in_ring b e i = true.
Proof.
  intros b e i H. unfold in_ring.
  rewrite (proj2 (Z.leb_le _ _)), (proj2 (Z.ltb_lt _ _)) by lia. reflexivity.
Qed.

Lemma in_ring_false :
  forall b e i, (i < b \/ e <= i)%Z -> in_ring b e i = false.
Proof.
  intros b e i H. unfold in_ring.
  destruct (Z.leb_spec b i); destruct (Z.ltb_spec i e); try reflexivity; lia.
Qed.

(** The zig-zag loop walks both rings: entered at [u] and [v] with
    [n1] and [n2] edges to go, it adds faces that go along the next [n1]
    edges of the first ring and the next [n2] edges of the second. *)
Lemma strip_loop_edges :
  forall (vs : list (Vec3 F)) ibegin1 iend1 ibegin2 iend2,
    (0 <= ibegin1)%Z -> (iend1 <= Z.of_nat (length vs))%Z ->
    (0 <= ibegin2)%Z -> (iend2 <= Z.of_nat (length vs))%Z ->
    (iend1 <= ibegin2 \/ iend2 <= ibegin1)%Z ->
    forall fuel u v n1 n2 idx,
      (ibegin1 <= u < iend1)%Z -> (ibegin2 <= v < iend2)%Z ->
      (0 <= n1)%Z -> (0 <= n2)%Z ->
      (Z.to_nat (n1 + n2) <= fuel)%nat ->
      exists new,
        strip_loop fuel vs ibegin1 iend1 ibegin2 iend2 u v n1 n2 idx
          = Some (idx ++ new) /\
        Forall (strip_face ibegin1 iend1 ibegin2 iend2) new /\
        first_ring_edges ibegin1 iend1 new
          = ring_walk ibegin1 iend1 (Z.to_nat n1) u /\
        second_ring_edges ibegin2 iend2 new
          = ring_walk ibegin2 iend2 (Z.to_nat n2) v.
Proof.
  intros vs ibegin1 iend1 ibegin2 iend2 Hb1 He1 Hb2 He2 Hdis.
  induction fuel as [|fuel IH]; intros u v n1 n2 idx Hu Hv Hn1 Hn2 Hf;
    cbn [strip_loop].
  - assert (n1 = 0 /\ n2 = 0)%Z as [-> ->] by lia. simpl.
    exists []. rewrite app_nil_r. repeat split. constructor.
  - destruct ((0 <? n1)%Z || (0 <? n2)%Z)%bool eqn:Hc.
    + pose proof (next_on_ring_bounds ibegin1 iend1 u Hu) as Hu2.
      pose proof (next_on_ring_bounds ibegin2 iend2 v Hv) as Hv2.
      assert (Htake1 :
        (0 < n1)%Z ->
        exists new,
          strip_loop fuel vs ibegin1 iend1 ibegin2 iend2
                     (next_on_ring ibegin1 iend1 u) v (n1 - 1) n2
                     (idx ++ [(u, next_on_ring ibegin1 iend1 u, v)])
            = Some (idx ++ new) /\
          Forall (strip_face ibegin1 iend1 ibegin2 iend2) new /\
          first_ring_edges ibegin1 iend1 new
            = ring_walk ibegin1 iend1 (Z.to_nat n1) u /\
          second_ring_edges ibegin2 iend2 new
            = ring_walk ibegin2 iend2 (Z.to_nat n2) v).
      { intros Hpos.
        destruct (IH (next_on_ring ibegin1 iend1 u) v (n1 - 1)%Z n2
                     (idx ++ [(u, next_on_ring ibegin1 iend1 u, v)]))
          as (new' & E & Hall & H1 & H2); try lia.
        exists ((u, next_on_ring ibegin1 iend1 u, v) :: new').
        split; [rewrite E, <- app_assoc; reflexivity|].
        split; [constructor; [unfold strip_face; auto | exact Hall]|].
        unfold first_ring_edges, second_ring_edges in *. cbn [flat_map].
        rewrite (in_ring_true ibegin1 iend1 _ Hu2).
        rewrite (in_ring_false ibegin2 iend2 (next_on_ring ibegin1 iend1 u)) by lia.
        rewrite H1, H2. cbn [app].
        replace (Z.to_nat n1) with (S (Z.to_nat (n1 - 1))) by lia.
        split; reflexivity. }
      assert (Htake2 :
        (0 < n2)%Z ->
        exists new,
          strip_loop fuel vs ibegin1 iend1 ibegin2 iend2
                     u (next_on_ring ibegin2 iend2 v) n1 (n2 - 1)
                     (idx ++ [(u, next_on_ring ibegin2 iend2 v, v)])
            = Some (idx ++ new) /\
          Forall (strip_face ibegin1 iend1 ibegin2 iend2) new /\
          first_ring_edges ibegin1 iend1 new
            = ring_walk ibegin1 iend1 (Z.to_nat n1) u /\
          second_ring_edges ibegin2 iend2 new
            = ring_walk ibegin2 iend2 (Z.to_nat n2) v).
      { intros Hpos.
        destruct (IH u (next_on_ring ibegin2 iend2 v) n1 (n2 - 1)%Z
                     (idx ++ [(u, next_on_ring ibegin2 iend2 v, v)]))
          as (new' & E & Hall & H1 & H2); try lia.
        exists ((u, next_on_ring ibegin2 iend2 v, v) :: new').
        split; [rewrite E, <- app_assoc; reflexivity|].
        split; [constructor; [unfold strip_face; auto | exact Hall]|].
        unfold first_ring_edges, second_ring_edges in *. cbn [flat_map].
        rewrite (in_ring_true ibegin2 iend2 _ Hv2).
        rewrite (in_ring_false ibegin1 iend1 (next_on_ring ibegin2 iend2 v)) by lia.
        rewrite H1, H2. cbn [app].
        replace (Z.to_nat n2) with (S (Z.to_nat (n2 - 1))) by lia.
        split; reflexivity. }
      apply orb_true_iff in Hc. rewrite !Z.ltb_lt in Hc.
      destruct (Z.eqb_spec n1 0) as [E1|E1].
      * apply Htake2. lia.
      * destruct (Z.eqb_spec n2 0) as [E2|E2].
        -- apply Htake1. lia.
        -- destruct (lookupZ_in_range vs (next_on_ring ibegin1 iend1 u)) as [pu2 ->];
             [lia|].
           destruct (lookupZ_in_range vs v) as [pv ->]; [lia|].
           destruct (lookupZ_in_range vs (next_on_ring ibegin2 iend2 v)) as [pv2 ->];
             [lia|].
           destruct (lookupZ_in_range vs u) as [pu ->]; [lia|].
           destruct (fltb _ _); [apply Htake1 | apply Htake2]; lia.
    + apply orb_false_iff in Hc. rewrite !Z.ltb_ge in Hc.
      assert (n1 = 0 /\ n2 = 0)%Z as [-> ->] by lia. simpl.
      exists []. rewrite app_nil_r. repeat split. constructor.
Qed.

End StripFacts.

(** [triangulate_strip] uses every edge of both rings exactly once: for
    two rings that are not empty, lie inside the vertex buffer and do not
    overlap, the call returns; every face it appends has its first vertex
    on the first ring, its third vertex on the second ring and goes along
    the ring edge that leaves one of the two; and the edges so used on a
    ring start one at each vertex of the ring. This holds whatever the
    floating-point comparisons answer. *)
Theorem triangulate_strip_uses_every_edge_once :
  forall (F : Type) (A : Arith F) (its : indexed_triangle_set F)
         (ibegin1 iend1 ibegin2 iend2 : Z) (fuel : nat),
    (0 <= ibegin1 < iend1)%Z -> (iend1 <= Z.of_nat (length (vertices its)))%Z ->
    (0 <= ibegin2 < iend2)%Z -> (iend2 <= Z.of_nat (length (vertices its)))%Z ->
    (iend1 <= ibegin2 \/ iend2 <= ibegin1)%Z ->
    (Z.to_nat ((iend1 - ibegin1) + (iend2 - ibegin2)) <= fuel)%nat ->
    exists new,
      triangulate_strip fuel its ibegin1 iend1 ibegin2 iend2
        = Some (mkITS (vertices its) (indices its ++ new)) /\
      Forall (strip_face ibegin1 iend1 ibegin2 iend2) new /\
      ring_edges ibegin1 iend1 (first_ring_edges ibegin1 iend1 new) /\
      Permutation (map fst (first_ring_edges ibegin1 iend1 new))
                  (index_range ibegin1 iend1) /\
      ring_edges ibegin2 iend2 (second_ring_edges ibegin2 iend2 new) /\
      Permutation (map fst (second_ring_edges ibegin2 iend2 new))
                  (index_range ibegin2 iend2).
Proof.
  intros F A its ibegin1 iend1 ibegin2 iend2 fuel H1 H2 H3 H4 Hdis Hf.
  unfold triangulate_strip.
  destruct (closest_on_second_bounds (vertices its) ibegin1 ibegin2 iend2)
    as (istart2 & -> & Hs); try lia.
  destruct (strip_loop_edges (vertices its) ibegin1 iend1 ibegin2 iend2
              ltac:(lia) H2 ltac:(lia) H4 Hdis
              fuel ibegin1 istart2 (iend1 - ibegin1)%Z (iend2 - ibegin2)%Z (indices its))
    as (new & -> & Hall & E1 & E2); try lia.
  exists new. split; [reflexivity|]. split; [exact Hall|].
  rewrite E1, E2.
  split; [apply ring_walk_edges|].
  split; [apply ring_walk_around; lia|].
  split; [apply ring_walk_edges|].
  apply ring_walk_around; lia.
Qed.

(** The two squares satisfy the hypotheses of
    [triangulate_strip_uses_every_edge_once]. *)
Lemma triangulate_strip_uses_every_edge_once_two_squares :
  exists new,
    triangulate_strip 8 two_squares 0 4 4 8
      = Some (mkITS (vertices two_squares) (indices two_squares ++ new)) /\
    Forall (strip_face 0 4 4 8) new /\
    ring_edges 0 4 (first_ring_edges 0 4 new) /\
    Permutation (map fst (first_ring_edges 0 4 new)) (index_range 0 4) /\
    ring_edges 4 8 (second_ring_edges 4 8 new) /\
    Permutation (map fst (second_ring_edges 4 8 new)) (index_range 4 8).
Proof.
  apply (triangulate_strip_uses_every_edge_once _ FloatArith two_squares 0 4 4 8 8);
    simpl; lia.
Defined.

(* ===================================================================== *)
(** * Theorems: the closest vertex, in real arithmetic *)
(* ===================================================================== *)

Section ClosestVertex.
Local Open Scope R_scope.

Lemma closest_fold_none :
  forall (vs : list (Vec3 R)) p1 l, fold_left (closest_step vs p1) l None = None.
Proof. intros vs p1. induction l as [|i l IH]; simpl; auto. Qed.

(** The search over the indices [[b, e)], entered with the distance [d]
    and the index [j]: it ends with a distance that no vertex of the
    range undercuts, and either keeps what it was entered with or ends
    on the first vertex of the range at that distance. *)
Lemma closest_fold_min :
  forall (vs : list (Vec3 R)) p1 (n : nat) b e d j d' j',
    n = Z.to_nat (e - b) ->
    fold_left (closest_step vs p1) (index_range b e) (Some (d, j)) = Some (d', j') ->
    d' <= d /\
    (forall i p, (b <= i < e)%Z -> lookupZ vs i = Some p ->
                 d' <= squared_distance32 p p1) /\
    ((d' = d /\ j' = j) \/
     (d' < d /\ (b <= j' < e)%Z /\
      exists q, lookupZ vs j' = Some q /\ squared_distance32 q p1 = d' /\
                forall i p, (b <= i < e)%Z -> lookupZ vs i = Some p ->
                            squared_distance32 p p1 = d' -> (j' <= i)%Z)).
Proof.
  intros vs p1. induction n as [|n IH]; intros b e d j d' j' Hn H.
  - rewrite index_range_nil in H by lia. simpl in H. inversion H; subst.
    split; [lra|]. split; [intros i p Hi; lia|]. left. auto.
  - rewrite index_range_cons in H by lia. cbn [fold_left] in H.
    unfold closest_step at 2 in H.
    destruct (lookupZ vs b) as [p2|] eqn:Gb;
      [|rewrite closest_fold_none in H; discriminate H].
    cbv zeta in H. cbn [fltb RealArith] in H.
    destruct (Rltb (squared_distance32 p2 p1) d) eqn:Hlt.
    + apply Rltb_true in Hlt.
      apply IH in H; [|lia]. destruct H as (Hle & Hall & Hcase).
      split; [lra|]. split.
      * intros i p Hi Gi. destruct (Z.eq_dec i b) as [->|Hne].
        -- rewrite Gb in Gi. inversion Gi; subst. exact Hle.
        -- apply (Hall i p); [lia | exact Gi].
      * right. split; [lra|].
        destruct Hcase as [[-> ->]|(Hl & Hj & q & Gq & Dq & Hfirst)].
        -- split; [lia|]. exists p2. split; [exact Gb|]. split; [reflexivity|].
           intros i p Hi _ _. lia.
        -- split; [lia|]. exists q. split; [exact Gq|]. split; [exact Dq|].
           intros i p Hi Gi Di. destruct (Z.eq_dec i b) as [->|Hne].
           ++ rewrite Gb in Gi. inversion Gi; subst. lra.
           ++ apply (Hfirst i p); [lia | exact Gi | exact Di].
    + apply Rltb_false in Hlt.
      apply IH in H; [|lia]. destruct H as (Hle & Hall & Hcase).
      split; [exact Hle|]. split.
      * intros i p Hi Gi. destruct (Z.eq_dec i b) as [->|Hne].
        -- rewrite Gb in Gi. inversion Gi; subst. lra.
        -- apply (Hall i p); [lia | exact Gi].
      * destruct Hcase as [[-> ->]|(Hl & Hj & q & Gq & Dq & Hfirst)]; [left; auto|].
        right. split; [exact Hl|]. split; [lia|].
        exists q. split; [exact Gq|]. split; [exact Dq|].
        intros i p Hi Gi Di. destruct (Z.eq_dec i b) as [->|Hne].
        -- rewrite Gb in Gi. inversion Gi; subst. lra.
        -- apply (Hfirst i p); [lia | exact Gi | exact Di].
Qed.

End ClosestVertex.

(** Lines 80 to 92 find the closest vertex, in real arithmetic: for a
    second ring that is not empty and lies inside the vertex buffer, the
    search ends on a vertex of the second ring which is at least as close
    to the first vertex of the first ring as every vertex of the second
    ring that is closer than [FLT_MAX] (in squared distance), and it is
    the first such vertex of the ring. *)
Theorem closest_on_second_is_closest :
  forall (vs : list (Vec3 R)) (ibegin1 ibegin2 iend2 : Z),
    (0 <= ibegin1 < Z.of_nat (length vs))%Z ->
    (0 <= ibegin2 < iend2)%Z -> (iend2 <= Z.of_nat (length vs))%Z ->
    exists p1 istart2 q,
      lookupZ vs ibegin1 = Some p1 /\
      closest_on_second vs ibegin1 ibegin2 iend2 = Some istart2 /\
      (ibegin2 <= istart2 < iend2)%Z /\
      lookupZ vs istart2 = Some q /\
      forall i p,
        (ibegin2 <= i < iend2)%Z -> lookupZ vs i = Some p ->
        (squared_distance32 p p1 < flt_max)%R ->
        (squared_distance32 q p1 <= squared_distance32 p p1)%R /\
        (squared_distance32 p p1 = squared_distance32 q p1 -> (istart2 <= i)%Z).
Proof.
  intros vs ibegin1 ibegin2 iend2 H1 H2 H3.
  destruct (closest_on_second_bounds vs ibegin1 ibegin2 iend2 H1 ltac:(lia) ltac:(lia) H3)
    as (istart2 & E & Hs).
  destruct (lookupZ_in_range vs ibegin1 H1) as [p1 G1].
  destruct (lookupZ_in_range vs istart2 ltac:(lia)) as [q Gq].
  exists p1, istart2, q. split; [exact G1|]. split; [exact E|].
  split; [exact Hs|]. split; [exact Gq|].
  unfold closest_on_second in E. rewrite G1 in E.
  destruct (fold_left _ _ _) as [[d' j']|] eqn:Ef; [|discriminate E].
  simpl in E. inversion E; subst j'.
  apply (closest_fold_min vs p1 _ _ _ _ _ _ _ eq_refl) in Ef.
  destruct Ef as (Hle & Hall & Hcase).
  intros i p Hi Gi Hd.
  pose proof (Hall i p Hi Gi) as Hdi.
  destruct Hcase as [[-> _]|(_ & _ & q' & Gq' & Dq & Hfirst)]; [lra|].
  rewrite Gq in Gq'. inversion Gq'; subst q'.
  rewrite Dq. split; [exact Hdi|].
  intros Heq. apply (Hfirst i p Hi Gi Heq).
Qed.

(** Three points satisfy the hypotheses of
    [closest_on_second_is_closest]. *)
Lemma closest_on_second_is_closest_three_points :
  exists p1 istart2 q,
    lookupZ three_points 0 = Some p1 /\
    closest_on_second three_points 0 1 3 = Some istart2 /\
    (1 <= istart2 < 3)%Z /\
    lookupZ three_points istart2 = Some q /\
    forall i p,
      (1 <= i < 3)%Z -> lookupZ three_points i = Some p ->
      (squared_distance32 p p1 < flt_max)%R ->
      (squared_distance32 q p1 <= squared_distance32 p p1)%R /\
      (squared_distance32 p p1 = squared_distance32 q p1 -> (istart2 <= i)%Z).
Proof.
  apply (closest_on_second_is_closest three_points 0 1 3); simpl; lia.
Defined.

(* ===================================================================== *)
(** * Theorems: the slices of a branch join its tree *)
(* ===================================================================== *)

Section TreeSlicesFacts.
Context {Polygon : Type}.

Lemma lookupZ_neg :
  forall (T : Type) (l : list T) (k : Z), (k < 0)%Z -> lookupZ l k = None.
Proof.
  intros T l k H. unfold lookupZ.
  rewrite (proj2 (Z.ltb_lt k 0) H). reflexivity.
Qed.

Lemma lookupZ_beyond :
  forall (T : Type) (l : list T) (k : Z),
    (Z.of_nat (length l) <= k)%Z -> lookupZ l k = None.
Proof.
  intros T l k H. unfold lookupZ.
  destruct (k <? 0)%Z; [reflexivity|]. apply nth_error_None. lia.
Qed.

Lemma lookupZ_app_l :
  forall (T : Type) (l1 l2 : list T) (k : Z),
    (k < Z.of_nat (length l1))%Z -> lookupZ (l1 ++ l2) k = lookupZ l1 k.
Proof.
  intros T l1 l2 k H. unfold lookupZ.
  destruct (k <? 0)%Z eqn:E; [reflexivity|]. apply Z.ltb_ge in E.
  apply nth_error_app1. lia.
Qed.

Lemma lookupZ_app_r :
  forall (T : Type) (l1 l2 : list T) (k : Z),
    (Z.of_nat (length l1) <= k)%Z ->
    lookupZ (l1 ++ l2) k = lookupZ l2 (k - Z.of_nat (length l1)).
Proof.
  intros T l1 l2 k H. unfold lookupZ.
  destruct (k <? 0)%Z eqn:E; [apply Z.ltb_lt in E; lia|].
  destruct (k - Z.of_nat (length l1) <? 0)%Z eqn:E'; [apply Z.ltb_lt in E'; lia|].
  rewrite nth_error_app2 by lia. f_equal. lia.
Qed.

Lemma lookupZ_repeat :
  forall (T : Type) (x : T) (n : nat) (k : Z),
    (0 <= k < Z.of_nat n)%Z -> lookupZ (repeat x n) k = Some x.
Proof.
  intros T x n k H. unfold lookupZ.
  destruct (k <? 0)%Z eqn:E; [apply Z.ltb_lt in E; lia|].
  apply nth_error_repeat. lia.
Qed.

Lemma get_slice_padded :
  forall (old : list (Slice Polygon)) (n m : nat) (k : Z),
    get_slice (repeat empty_slice n ++ old ++ repeat empty_slice m) k
    = get_slice old (k - Z.of_nat n).
Proof.
  intros old n m k. unfold get_slice.
  destruct (Z.lt_ge_cases k 0) as [Hneg|Hpos].
  { rewrite !lookupZ_neg by lia. reflexivity. }
  destruct (Z.lt_ge_cases k (Z.of_nat n)) as [H1|H1].
  { rewrite lookupZ_app_l by (rewrite repeat_length; exact H1).
    rewrite lookupZ_repeat by lia. rewrite lookupZ_neg by lia. reflexivity. }
  rewrite lookupZ_app_r by (rewrite repeat_length; exact H1).
  rewrite repeat_length.
  destruct (Z.lt_ge_cases (k - Z.of_nat n) (Z.of_nat (length old))) as [H2|H2].
  { rewrite lookupZ_app_l by exact H2. reflexivity. }
  rewrite lookupZ_app_r by exact H2.
  rewrite (lookupZ_beyond _ old) by exact H2.
  destruct (Z.lt_ge_cases (k - Z.of_nat n - Z.of_nat (length old)) (Z.of_nat m))
    as [H3|H3].
  - rewrite lookupZ_repeat by lia. reflexivity.
  - rewrite lookupZ_beyond by (rewrite repeat_length; exact H3). reflexivity.
Qed.

Lemma slice_ok_empty : slice_ok (@empty_slice Polygon).
Proof. intros _. split; reflexivity. Qed.

Lemma slice_ok_get :
  forall (l : list (Slice Polygon)) k, Forall slice_ok l -> slice_ok (get_slice l k).
Proof.
  intros l k H. unfold get_slice. destruct (lookupZ l k) as [s|] eqn:E.
  - unfold lookupZ in E. destruct (k <? 0)%Z; [discriminate E|].
    apply nth_error_In in E. rewrite Forall_forall in H. apply H. exact E.
  - apply slice_ok_empty.
Qed.

Lemma Forall_slice_ok_get :
  forall l : list (Slice Polygon),
    (forall k, slice_ok (get_slice l k)) -> Forall slice_ok l.
Proof.
  intros l H. apply Forall_forall. intros s Hs.
  apply In_nth_error in Hs. destruct Hs as [n Hn].
  specialize (H (Z.of_nat n)). unfold get_slice in H.
  rewrite lookupZ_of_nat, Hn in H. exact H.
Qed.

Lemma get_slice_repeat_empty :
  forall (n : nat) (k : Z), get_slice (repeat (@empty_slice Polygon) n) k = empty_slice.
Proof.
  intros n k. unfold get_slice, lookupZ.
  destruct (k <? 0)%Z; [reflexivity|].
  destruct (nth_error (repeat empty_slice n) (Z.to_nat k)) as [s|] eqn:E; [|reflexivity].
  apply nth_error_In, repeat_spec in E. exact E.
Qed.

(** Growing the vector keeps every slice at its layer. *)
Lemma grow_tree_slices_spec :
  forall (t : TreeSlices Polygon) (new_begin new_end : Z),
    tree_slices_ok t ->
    (new_begin <= new_end)%Z ->
    (first_layer_id t <> (-1)%Z ->
     (new_begin <= first_layer_id t)%Z /\
     (first_layer_id t + Z.of_nat (length (tree_slices t)) <= new_end)%Z) ->
    exists grown,
      grow_tree_slices t new_begin new_end = Some grown /\
      Z.of_nat (length grown) = (new_end - new_begin)%Z /\
      Forall slice_ok grown /\
      forall l, get_slice grown (l - new_begin) = slice_at t l.
Proof.
  intros [old first] nb ne (Hok & Hunset & Hset) Hle Hin. cbn [tree_slices first_layer_id] in *.
  unfold grow_tree_slices. cbn [tree_slices first_layer_id].
  destruct (Z.eqb_spec first (-1)) as [E|E].
  - rewrite (Hunset E). cbn [length]. 
    destruct (Z.ltb_spec (ne - nb) (Z.of_nat 0)) as [Hc|_]; [lia|].
    eexists. split; [reflexivity|]. cbn [app].
    split; [rewrite repeat_length; lia|].
    split; [apply Forall_forall; intros s Hs; apply repeat_spec in Hs; subst s;
            apply slice_ok_empty|].
    intros l. unfold slice_at. cbn [tree_slices first_layer_id].
    rewrite get_slice_repeat_empty. symmetry. apply (get_slice_repeat_empty 0).
  - destruct (Hin E) as [Hb He].
    set (dif := (first - nb)%Z).
    set (fronted := if (0 <? dif)%Z then repeat empty_slice (Z.to_nat dif) ++ old
                    else old).
    assert (Hf : fronted = repeat empty_slice (Z.to_nat dif) ++ old).
    { unfold fronted. destruct (Z.ltb_spec 0 dif) as [_|Hd]; [reflexivity|].
      replace (Z.to_nat dif) with 0%nat by lia. reflexivity. }
    assert (Hlen : Z.of_nat (length fronted) = (dif + Z.of_nat (length old))%Z).
    { rewrite Hf, length_app, repeat_length. unfold dif. lia. }
    destruct (Z.ltb_spec (ne - nb) (Z.of_nat (length fronted))) as [Hc|_];
      [unfold dif in Hlen; lia|].
    eexists. split; [reflexivity|].
    split; [rewrite length_app, repeat_length; unfold dif in Hlen; lia|].
    assert (Hget : forall l,
               get_slice (fronted ++ repeat empty_slice
                            (Z.to_nat (ne - nb - Z.of_nat (length fronted)))) (l - nb)
               = get_slice old (l - first)).
    { intros l. rewrite Hf at 1. rewrite <- app_assoc, get_slice_padded.
      f_equal. unfold dif. lia. }
    split; [|exact Hget].
    apply Forall_slice_ok_get. intros k.
    replace k with ((k + nb) - nb)%Z by lia. rewrite Hget.
    apply slice_ok_get. exact Hok.
Qed.

Lemma get_slice_updateZ :
  forall (l : list (Slice Polygon)) (k k' : Z) (s : Slice Polygon),
    (0 <= k < Z.of_nat (length l))%Z ->
    get_slice (updateZ l k (fun _ => s)) k'
    = if (k =? k')%Z then s else get_slice l k'.
Proof.
  intros l k k' s Hk. unfold get_slice.
  destruct (Z.eqb_spec k k') as [<-|Hne].
  - rewrite lookupZ_updateZ_eq.
    destruct (lookupZ_in_range l k Hk) as [x ->]. reflexivity.
  - rewrite lookupZ_updateZ_ne by exact Hne. reflexivity.
Qed.

(** The loop over the slices of the branch: the slice of index [j] joins
    the slice of its layer when it is not empty, and nothing else
    changes. *)
Lemma join_slices_spec :
  forall (slices bc : list (list Polygon)) (lb nb : Z) (m a : nat)
         (dsts : list (Slice Polygon)),
    (a + m <= length slices)%nat ->
    (forall j src, (a <= j < a + m)%nat -> nth_error slices j = Some src ->
                   src <> [] ->
                   (0 <= lb + Z.of_nat j - nb < Z.of_nat (length dsts))%Z) ->
    exists dsts',
      join_slices (seq a m) lb nb slices bc dsts = Some dsts' /\
      length dsts' = length dsts /\
      forall k,
        get_slice dsts' k =
        let j := (k + nb - lb)%Z in
        if ((Z.of_nat a <=? j)%Z && (j <? Z.of_nat (a + m))%Z)%bool then
          match lookupZ slices j with
          | Some src =>
              if is_empty src then get_slice dsts k
              else join_slice (get_slice dsts k) src (lookupZ bc j)
          | None => get_slice dsts k
          end
        else get_slice dsts k.
Proof.
  intros slices bc lb nb. induction m as [|m IH]; intros a dsts Hlen Hrange;
    cbn [seq join_slices].
  - exists dsts. split; [reflexivity|]. split; [reflexivity|].
    intros k. cbv zeta.
    destruct (Z.leb_spec (Z.of_nat a) (k + nb - lb));
      destruct (Z.ltb_spec (k + nb - lb) (Z.of_nat (a + 0))); try reflexivity; lia.
  - destruct (nth_error slices a) as [src|] eqn:Ea.
    2:{ apply nth_error_None in Ea. lia. }
    assert (Hla : lookupZ slices (Z.of_nat a) = Some src).
    { rewrite lookupZ_of_nat. exact Ea. }
    destruct (is_empty src) eqn:Eempty.
    + destruct (IH (S a) dsts) as (dsts' & E & Hl & Hget).
      * lia.
      * intros j s Hj Hs Hn. apply (Hrange j s); [lia | exact Hs | exact Hn].
      * exists dsts'. split; [exact E|]. split; [exact Hl|].
        intros k. rewrite Hget. cbv zeta.
        destruct (Z.eq_dec (k + nb - lb) (Z.of_nat a)) as [Ej|Ej].
        -- rewrite Ej, Hla, Eempty.
           destruct (Z.leb_spec (Z.of_nat (S a)) (Z.of_nat a)); [lia|].
           cbn [andb].
           destruct (Z.leb_spec (Z.of_nat a) (Z.of_nat a)); [|lia].
           destruct (Z.ltb_spec (Z.of_nat a) (Z.of_nat (a + S m))); [|lia].
           reflexivity.
        -- destruct (Z.leb_spec (Z.of_nat (S a)) (k + nb - lb));
             destruct (Z.leb_spec (Z.of_nat a) (k + nb - lb));
             destruct (Z.ltb_spec (k + nb - lb) (Z.of_nat (S a + m)));
             destruct (Z.ltb_spec (k + nb - lb) (Z.of_nat (a + S m)));
             cbn [andb]; try reflexivity; lia.
    + assert (Hne : src <> []).
      { intros ->. discriminate Eempty. }
      pose proof (Hrange a src ltac:(lia) Ea Hne) as Hk.
      set (ka := (lb + Z.of_nat a - nb)%Z) in *.
      destruct (lookupZ_in_range dsts ka Hk) as [dst Gd]. rewrite Gd.
      set (joined := join_slice dst src (nth_error bc a)).
      destruct (IH (S a) (updateZ dsts ka (fun _ => joined))) as (dsts' & E & Hl & Hget).
      * lia.
      * intros j s Hj Hs Hn. rewrite length_updateZ.
        apply (Hrange j s); [lia | exact Hs | exact Hn].
      * exists dsts'. split; [exact E|].
        split; [rewrite Hl; apply length_updateZ|].
        intros k. rewrite Hget. cbv zeta.
        rewrite !get_slice_updateZ by exact Hk.
        destruct (Z.eq_dec (k + nb - lb) (Z.of_nat a)) as [Ej|Ej].
        -- rewrite Ej, Hla, Eempty.
           destruct (Z.leb_spec (Z.of_nat (S a)) (Z.of_nat a)); [lia|].
           cbn [andb].
           destruct (Z.leb_spec (Z.of_nat a) (Z.of_nat a)); [|lia].
           destruct (Z.ltb_spec (Z.of_nat a) (Z.of_nat (a + S m))); [|lia].
           cbn [andb].
           destruct (Z.eqb_spec ka k) as [Ek|Ek]; [|unfold ka in Ek; lia].
           unfold joined, get_slice. subst k. rewrite Gd, lookupZ_of_nat. reflexivity.
        -- destruct (Z.eqb_spec ka k) as [Ek|Ek]; [unfold ka in Ek; lia|].
           destruct (Z.leb_spec (Z.of_nat (S a)) (k + nb - lb));
             destruct (Z.leb_spec (Z.of_nat a) (k + nb - lb));
             destruct (Z.ltb_spec (k + nb - lb) (Z.of_nat (S a + m)));
             destruct (Z.ltb_spec (k + nb - lb) (Z.of_nat (a + S m)));
             cbn [andb]; try reflexivity; lia.
Qed.

End TreeSlicesFacts.

Section MergeFacts.
Context {Polygon : Type}.

Lemma is_empty_nil :
  forall p : list Polygon, is_empty p = true -> p = [].
Proof. intros [|x p] H; [reflexivity | discriminate H]. Qed.

Lemma join_slice_joined :
  forall (dst : Slice Polygon) (src : list Polygon) (contacts : option (list Polygon)),
    slice_ok dst ->
    slice_polygons (join_slice dst src contacts) = slice_polygons dst ++ src /\
    slice_bottom_contacts (join_slice dst src contacts)
    = slice_bottom_contacts dst ++ match contacts with Some c => c | None => [] end /\
    num_branches (join_slice dst src contacts) = (num_branches dst + 1)%nat.
Proof.
  intros dst src contacts Hok. unfold join_slice.
  destruct (num_branches dst) as [|n] eqn:En.
  - destruct (Hok En) as [-> ->]. cbn. destruct contacts; auto.
  - cbn. split; [reflexivity|].
    split; [|f_equal; lia].
    destruct contacts; [reflexivity | rewrite app_nil_r; reflexivity].
Qed.

(** Lines 863 to 899, layer by layer. *)
Lemma merge_branch_slices_spec :
  forall (t : TreeSlices Polygon) (slices bc : list (list Polygon))
         (lb le : Z) (ne : nat),
    tree_slices_ok t ->
    branch_slices_ok slices lb le ne ->
    exists t',
      merge_branch_slices t slices bc lb le ne = Some t' /\
      tree_slices_ok t' /\
      forall l, joined_at t t' slices bc lb l.
Proof.
  intros t slices bc lb le ne Ht (Hlb & Hlen & Hempty).
  pose proof Ht as (Hok & Hunset & Hset).
  unfold merge_branch_slices. cbv zeta.
  destruct (Z.ltb_spec (lb + Z.of_nat ne) le) as [Hlt|Hge].
  - set (nb := if (first_layer_id t =? -1)%Z then (lb + Z.of_nat ne)%Z
               else Z.min (first_layer_id t) (lb + Z.of_nat ne)).
    set (nE := if (first_layer_id t =? -1)%Z then le
               else Z.max (first_layer_id t + Z.of_nat (length (tree_slices t))) le).
    assert (Hnb : (0 <= nb <= lb + Z.of_nat ne)%Z /\ (le <= nE)%Z /\ (nb <= nE)%Z /\
                  (first_layer_id t <> (-1)%Z ->
                   (nb <= first_layer_id t)%Z /\
                   (first_layer_id t + Z.of_nat (length (tree_slices t)) <= nE)%Z)).
    { unfold nb, nE. destruct (Z.eqb_spec (first_layer_id t) (-1)) as [E|E].
      - repeat split; try lia; contradiction.
      - specialize (Hset E). repeat split; lia. }
    destruct Hnb as (Hnb0 & HnE & Hnbe & Hin).
    destruct (grow_tree_slices_spec t nb nE Ht Hnbe Hin) as (grown & -> & Hgl & Hgok & Hgget).
    destruct (join_slices_spec slices bc lb nb (Z.to_nat (le - lb)) 0 grown)
      as (joined & -> & Hjl & Hjget).
    { lia. }
    { intros j src Hj Hs Hn.
      assert (Hjne : (ne <= j)%nat).
      { destruct (Nat.le_gt_cases ne j) as [H|H]; [exact H|].
        contradiction Hn. apply (Hempty j src H Hs). }
      lia. }
    eexists. split; [reflexivity|].
    assert (Hat : forall l,
               slice_at (mkTreeSlices joined nb) l
               = match lookupZ slices (l - lb) with
                 | Some src =>
                     if is_empty src then slice_at t l
                     else join_slice (slice_at t l) src (lookupZ bc (l - lb))
                 | None => slice_at t l
                 end).
    { intros l. unfold slice_at at 1. cbn [tree_slices first_layer_id].
      rewrite Hjget. cbv zeta.
      replace (l - nb + nb - lb)%Z with (l - lb)%Z by lia.
      rewrite Hgget.
      destruct (lookupZ slices (l - lb)) as [src|] eqn:El.
      - apply lookupZ_Some_range in El.
        destruct (Z.leb_spec (Z.of_nat 0) (l - lb)); [|lia].
        destruct (Z.ltb_spec (l - lb) (Z.of_nat (0 + Z.to_nat (le - lb)))); [|lia].
        reflexivity.
      - destruct (_ && _)%bool; reflexivity. }
    split.
    + split; [|split].
      * cbn [tree_slices]. apply Forall_slice_ok_get. intros k.
        replace k with ((k + nb) - nb)%Z by lia.
        change (get_slice joined (k + nb - nb))
          with (slice_at (mkTreeSlices joined nb) (k + nb)).
        rewrite Hat.
        destruct (lookupZ slices (k + nb - lb)) as [src|];
          [|apply slice_ok_get; exact Hok].
        destruct (is_empty src); [apply slice_ok_get; exact Hok|].
        intros Hz. unfold join_slice in Hz.
        destruct (1 <? S (num_branches (slice_at t (k + nb))))%nat; discriminate Hz.
      * cbn [first_layer_id]. intros E. lia.
      * cbn [first_layer_id]. intros _. lia.
    + intros l. unfold joined_at. rewrite Hat. unfold polygons_at.
      destruct (lookupZ slices (l - lb)) as [src|] eqn:El.
      * destruct (is_empty src) eqn:Ee.
        -- rewrite (is_empty_nil _ Ee). rewrite !app_nil_r. repeat split; lia.
        -- destruct (join_slice_joined (slice_at t l) src (lookupZ bc (l - lb))
                       (slice_ok_get _ _ Hok)) as (H1 & H2 & H3).
           rewrite H1, H2, H3. repeat split.
      * cbn [is_empty]. rewrite !app_nil_r. repeat split; lia.
  - exists t. split; [reflexivity|]. split; [exact Ht|].
    intros l. unfold joined_at, polygons_at.
    destruct (lookupZ slices (l - lb)) as [src|] eqn:El.
    + pose proof (lookupZ_Some_range _ _ _ El) as Hr.
      unfold lookupZ in El. destruct (l - lb <? 0)%Z; [discriminate El|].
      rewrite (Hempty (Z.to_nat (l - lb)) src ltac:(lia) El).
      cbn [is_empty]. rewrite !app_nil_r. repeat split; lia.
    + cbn [is_empty]. rewrite !app_nil_r. repeat split; lia.
Qed.

End MergeFacts.

(** The slices of a branch join the slices of its tree layer by layer
    (lines 863 to 899): for a tree as earlier branches left it and the
    slices of a branch for the layers [[layer_begin, layer_end)], of
    which the first [num_empty] are empty, the merge returns, and the
    slice that the tree then has for any layer is the slice it had with
    the polygons of the branch for that layer appended; its count of
    branches is one more where the branch has polygons; and the bottom
    contacts of the same index are appended there. *)
Theorem branch_slices_join_by_layer :
  forall (Polygon : Type) (t : TreeSlices Polygon)
         (slices bottom_contacts : list (list Polygon))
         (layer_begin layer_end : Z) (num_empty : nat),
    tree_slices_ok t ->
    branch_slices_ok slices layer_begin layer_end num_empty ->
    exists t',
      merge_branch_slices t slices bottom_contacts layer_begin layer_end num_empty
        = Some t' /\
      tree_slices_ok t' /\
      forall l, joined_at t t' slices bottom_contacts layer_begin l.
Proof.
  intros Polygon t slices bc lb le ne Ht Hb.
  apply merge_branch_slices_spec; assumption.
Qed.

(** The example tree and branch satisfy the hypotheses of
    [branch_slices_join_by_layer]. *)
Lemma branch_slices_join_by_layer_example :
  exists t',
    merge_branch_slices sliced_tree (firstn 3 branch_slices) [] 2 5 1 = Some t' /\
    tree_slices_ok t' /\
    forall l, joined_at sliced_tree t' (firstn 3 branch_slices) [] 2 l.
Proof.
  apply (branch_slices_join_by_layer nat sliced_tree (firstn 3 branch_slices) [] 2 5 1).
  - split; [|split].
    + constructor; [intros H; discriminate H|].
      constructor; [intros H; discriminate H|]. constructor.
    + intros H. discriminate H.
    + intros _. simpl. lia.
  - split; [lia|]. split; [reflexivity|].
    intros j p Hj Hp. destruct j as [|j]; [|lia].
    simpl in Hp. inversion Hp. reflexivity.
Defined.

Section PlaceFacts.
Context {F : Type} {A : Arith F} {Polygon : Type}.
Variable V : SlicerExternals F Polygon.

Lemma count_leading_empty_spec :
  forall (slices : list (list Polygon)) j p,
    (j < count_leading_empty slices)%nat -> nth_error slices j = Some p -> p = [].
Proof.
  induction slices as [|s slices IH]; intros j p Hj Hp; cbn [count_leading_empty] in Hj.
  - lia.
  - destruct (is_empty s) eqn:E; [|lia].
    destruct j as [|j]; cbn [nth_error] in Hp.
    + inversion Hp; subst. apply is_empty_nil. exact E.
    + apply (IH j p); [lia | exact Hp].
Qed.

Lemma drop_leading_empty_spec :
  forall (r : list (list Polygon)) le r' le',
    drop_leading_empty r le = (r', le') ->
    exists k, r = repeat [] k ++ r' /\ le' = (le - Z.of_nat k)%Z.
Proof.
  induction r as [|s r IH]; intros le r' le' H; cbn [drop_leading_empty] in H.
  - inversion H; subst. exists 0%nat. split; [reflexivity | lia].
  - destruct (is_empty s) eqn:E.
    + apply IH in H. destruct H as (k & -> & ->).
      exists (S k). rewrite (is_empty_nil _ E). split; [reflexivity | lia].
    + inversion H; subst. exists 0%nat. split; [reflexivity | lia].
Qed.

Lemma pop_trailing_empty_spec :
  forall (slices : list (list Polygon)) le slices' le',
    pop_trailing_empty slices le = (slices', le') ->
    exists k, slices = slices' ++ repeat [] k /\ le' = (le - Z.of_nat k)%Z.
Proof.
  unfold pop_trailing_empty. intros slices le slices' le' H.
  destruct (drop_leading_empty (rev slices) le) as [r le0] eqn:E.
  inversion H; subst. apply drop_leading_empty_spec in E.
  destruct E as (k & Er & ->). exists k. split; [|reflexivity].
  rewrite <- (rev_involutive slices), Er, rev_app_distr.
  f_equal. clear. induction k as [|k IH]; [reflexivity|].
  cbn [repeat rev]. rewrite IH. clear.
  induction k as [|k IH]; [reflexivity|]. cbn [repeat app]. rewrite IH. reflexivity.
Qed.

Lemma polygons_at_trailing :
  forall (slices : list (list Polygon)) (k : nat) lb l,
    polygons_at (slices ++ repeat [] k) lb l = polygons_at slices lb l.
Proof.
  intros slices k lb l. unfold polygons_at.
  destruct (Z.lt_ge_cases (l - lb) (Z.of_nat (length slices))) as [H|H].
  - rewrite lookupZ_app_l by exact H. reflexivity.
  - rewrite lookupZ_app_r by exact H. rewrite (lookupZ_beyond _ slices) by exact H.
    destruct (lookupZ (repeat [] k) _) as [p|] eqn:E; [|reflexivity].
    unfold lookupZ in E. destruct (_ <? 0)%Z; [discriminate E|].
    apply nth_error_In, repeat_spec in E. exact E.
Qed.

Lemma polygons_at_leading :
  forall (extras slices : list (list Polygon)) lb l,
    (lb <= l)%Z ->
    polygons_at (extras ++ slices) (lb - Z.of_nat (length extras)) l
    = polygons_at slices lb l.
Proof.
  intros extras slices lb l H. unfold polygons_at.
  rewrite lookupZ_app_r by lia.
  replace (l - (lb - Z.of_nat (length extras)) - Z.of_nat (length extras))%Z
    with (l - lb)%Z by lia.
  reflexivity.
Qed.

Lemma length_clip_to_collision :
  forall lb (sliced : list (list Polygon)),
    length (clip_to_collision V lb sliced) = length sliced.
Proof.
  intros. unfold clip_to_collision.
  rewrite length_map, length_combine, length_seq. lia.
Qed.

Lemma nth_error_combine_seq_eq :
  forall (T : Type) (l : list T) (a n : nat) (x : T),
    nth_error l n = Some x ->
    nth_error (combine (seq a (length l)) l) n = Some ((a + n)%nat, x).
Proof.
  intros T. induction l as [|y l IH]; intros a n x H; [destruct n; discriminate H|].
  destruct n as [|n]; cbn [length seq combine nth_error] in *.
  - inversion H; subst. rewrite Nat.add_0_r. reflexivity.
  - rewrite (IH (S a) n x H). f_equal. f_equal. lia.
Qed.

Lemma polygons_at_clip :
  forall lb (sliced : list (list Polygon)) l,
    (lb <= l < lb + Z.of_nat (length sliced))%Z ->
    polygons_at (clip_to_collision V lb sliced) lb l
    = diff_clipped V (polygons_at sliced lb l) (getCollision V 0 l true).
Proof.
  intros lb sliced l Hl. unfold polygons_at, clip_to_collision, lookupZ.
  destruct (l - lb <? 0)%Z eqn:E; [apply Z.ltb_lt in E; lia|].
  rewrite nth_error_map.
  destruct (nth_error sliced (Z.to_nat (l - lb))) as [p|] eqn:Ep.
  2:{ apply nth_error_None in Ep. lia. }
  rewrite (nth_error_combine_seq_eq _ sliced 0 _ _ Ep).
  cbn [option_map fst snd Nat.add]. f_equal. f_equal. lia.
Qed.

Lemma propagate_down_length :
  forall front stop layers rest (acc : list (BottomExtraSlice F Polygon)),
    (length (propagate_down V front stop layers rest acc)
     <= length acc + length layers)%nat.
Proof.
  intros front stop. induction layers as [|l layers IH]; intros rest acc;
    cbn [propagate_down].
  - lia.
  - cbv zeta. destruct (fltb _ stop); [simpl; lia|].
    eapply Nat.le_trans; [apply IH|]. rewrite length_app. simpl. lia.
Qed.

(** The root extension only puts slices in front. *)
Lemma root_extension_shape :
  forall has_root first (slices : list (list Polygon)) lb,
    (0 <= lb)%Z ->
    exists bc extras,
      root_extension V has_root first slices lb
      = (bc, (lb - Z.of_nat (length extras))%Z, extras ++ slices) /\
      (Z.of_nat (length extras) <= lb)%Z /\
      (has_root = false -> extras = []).
Proof.
  intros has_root first slices lb Hlb. unfold root_extension. cbv zeta.
  assert (Hsame : forall bc : list (list Polygon),
             exists (bc' : list (list Polygon)) (extras : list (list Polygon)),
               (bc, lb, slices)
               = (bc', (lb - Z.of_nat (length extras))%Z, extras ++ slices) /\
               (Z.of_nat (length extras) <= lb)%Z /\
               (has_root = false -> extras = [])).
  { intros bc. exists bc, []. cbn [length app].
    split; [f_equal; f_equal; lia|]. split; [exact Hlb | reflexivity]. }
  destruct has_root; [|apply Hsame].
  destruct (to_model_gracious first).
  { destruct (0 <? support_floor_layers V)%Z; apply Hsame. }
  destruct (0 <? lb)%Z eqn:Hpos; [|apply Hsame].
  eexists. exists (rev (map polygons (bottom_extra_slices_of V first (hd [] slices) lb))).
  rewrite length_rev, length_map.
  split; [reflexivity|]. split; [|discriminate].
  unfold bottom_extra_slices_of.
  set (bottommost := layer_bottommost V (verylost first) lb (radius_of V first)).
  assert (Hb : (0 <= bottommost)%Z).
  { unfold bottommost, layer_bottommost. destruct (verylost first); lia. }
  pose proof (propagate_down_length (hd [] slices)
                (support_area_stop V (radius_of V first))
                (layers_down (lb - 1) bottommost) [] []) as Hl.
  assert (Hlays : length (layers_down (lb - 1) bottommost)
                  = Z.to_nat (lb - 1 - bottommost + 1)).
  { unfold layers_down. rewrite length_map, length_seq. reflexivity. }
  rewrite Hlays in Hl. cbn [length] in Hl. lia.
Qed.

End PlaceFacts.

Section PlaceBranch.
Context {F : Type} {A : Arith F} {Polygon : Type}.
Variable V : SlicerExternals F Polygon.

(** Lines 794 to 862 only put slices in front, and count the empty
    slices at the front when they put none. *)
Lemma after_front_shape :
  forall has_root first (slices : list (list Polygon)) lb,
    (0 <= lb)%Z -> slices <> [] ->
    exists bc extras ne,
      after_front V has_root first slices lb
      = Some (bc, (lb - Z.of_nat (length extras))%Z, extras ++ slices, ne) /\
      (Z.of_nat (length extras) <= lb)%Z /\
      (has_root = false -> extras = []) /\
      (forall j p, (j < ne)%nat -> nth_error (extras ++ slices) j = Some p -> p = []).
Proof.
  intros has_root first slices lb Hlb Hne. unfold after_front.
  destruct slices as [|front rest] eqn:Es; [congruence|]. rewrite <- Es.
  destruct (is_empty front) eqn:Ee.
  - exists [], [], (count_leading_empty slices). cbn [length app].
    split; [f_equal; f_equal; f_equal; f_equal; lia|].
    split; [exact Hlb|]. split; [reflexivity|].
    apply count_leading_empty_spec.
  - destruct (root_extension_shape V has_root first slices lb Hlb)
      as (bc & extras & E & Hl & Hr).
    rewrite E. exists bc, extras, 0%nat.
    split; [reflexivity|]. split; [exact Hl|]. split; [exact Hr|].
    intros j p Hj. lia.
Qed.

Lemma joined_at_nothing :
  forall (t t' : TreeSlices Polygon) slices bc lb l,
    joined_at t t' slices bc lb l -> polygons_at slices lb l = [] ->
    slice_at t' l = slice_at t l.
Proof.
  unfold joined_at. intros t t' slices bc lb l (H1 & H2 & H3) Hn.
  rewrite Hn in *. cbn [is_empty] in *. rewrite app_nil_r in H1, H2.
  rewrite Nat.add_0_r in H3.
  destruct (slice_at t' l), (slice_at t l). cbn in *. congruence.
Qed.

End PlaceBranch.

(** Every slice of a branch lands on its own layer (lines 789 to 899):
    for a tree as earlier branches left it and the slices that
    [slice_mesh] returned for the layers [[layer_begin, layer_end)], one
    for each layer, the code returns; the slice that the tree then has
    for such a layer is the slice it had with the mesh slice of that
    layer minus the collision of that layer appended; the slices of the
    layers from [layer_end] on are as they were; and so are the slices
    of the layers below [layer_begin] when the branch has no root. *)
Theorem branch_slices_land_on_their_layers :
  forall (F : Type) (A : Arith F) (Polygon : Type)
         (V : SlicerExternals F Polygon) (t : TreeSlices Polygon)
         (has_root_flag : bool) (first : SupportElementState)
         (sliced : list (list Polygon)) (layer_begin layer_end : Z),
    tree_slices_ok t ->
    (0 <= layer_begin < layer_end)%Z ->
    Z.of_nat (length sliced) = (layer_end - layer_begin)%Z ->
    exists t',
      place_branch_slices V t has_root_flag first sliced layer_begin layer_end
        = Some t' /\
      tree_slices_ok t' /\
      (forall l, (layer_begin <= l < layer_end)%Z ->
         slice_polygons (slice_at t' l)
         = slice_polygons (slice_at t l)
           ++ diff_clipped V (polygons_at sliced layer_begin l)
                           (getCollision V 0 l true)) /\
      (forall l, (layer_end <= l)%Z -> slice_at t' l = slice_at t l) /\
      (has_root_flag = false ->
       forall l, (l < layer_begin)%Z -> slice_at t' l = slice_at t l).
Proof.
  intros F A Polygon V t has_root first sliced lb le Ht Hlb Hlen.
  unfold place_branch_slices.
  set (clipped := clip_to_collision V lb sliced).
  assert (Hcl : length clipped = length sliced) by apply length_clip_to_collision.
  assert (Hne : clipped <> []).
  { intros E. rewrite E in Hcl. simpl in Hcl. lia. }
  destruct (after_front_shape V has_root first clipped lb ltac:(lia) Hne)
    as (bc & extras & ne & -> & Hel & Hroot & Hempty).
  destruct (pop_trailing_empty (extras ++ clipped) le) as [slices' le'] eqn:Ep.
  apply pop_trailing_empty_spec in Ep. destruct Ep as (k & Ewhole & ->).
  assert (Hlw : (length slices' + k = length extras + length clipped)%nat).
  { rewrite <- length_app, Ewhole, length_app, repeat_length. reflexivity. }
  destruct (merge_branch_slices_spec t slices' bc
              (lb - Z.of_nat (length extras)) (le - Z.of_nat k) ne Ht)
    as (t' & -> & Ht' & Hj).
  { split; [lia|]. split; [lia|].
    intros j p Hjn Hp. apply (Hempty j p Hjn).
    rewrite Ewhole. rewrite nth_error_app1; [exact Hp|].
    apply nth_error_Some. rewrite Hp. discriminate. }
  assert (Hpoly : forall l, (lb <= l)%Z ->
             polygons_at slices' (lb - Z.of_nat (length extras)) l
             = polygons_at clipped lb l).
  { intros l Hl. rewrite <- (polygons_at_trailing slices' k), <- Ewhole.
    apply polygons_at_leading. exact Hl. }
  exists t'. split; [reflexivity|]. split; [exact Ht'|]. split; [|split].
  - intros l Hl. destruct (Hj l) as (H1 & _). rewrite H1, Hpoly by lia.
    unfold clipped. rewrite polygons_at_clip by lia. reflexivity.
  - intros l Hl. apply (joined_at_nothing _ _ _ _ _ _ (Hj l)).
    rewrite Hpoly by lia. unfold polygons_at.
    rewrite lookupZ_beyond by lia. reflexivity.
  - intros Hr l Hl. apply (joined_at_nothing _ _ _ _ _ _ (Hj l)).
    rewrite (Hroot Hr). cbn [length]. unfold polygons_at.
    rewrite lookupZ_neg by lia. reflexivity.
Qed.

(** The example tree and branch satisfy the hypotheses of
    [branch_slices_land_on_their_layers], with the stand-ins of
    scenario S4 for the polygon operations. *)
Lemma branch_slices_land_on_their_layers_example :
  exists t',
    place_branch_slices ScenarioS4.externals
      (mkTreeSlices [ mkSlice ScenarioS4.front [] 1 ] 4)
      false ScenarioS4.root [ []; ScenarioS4.front; [] ] 2 5
      = Some t' /\
    tree_slices_ok t' /\
    (forall l, (2 <= l < 5)%Z ->
       slice_polygons (slice_at t' l)
       = slice_polygons (slice_at (mkTreeSlices [ mkSlice ScenarioS4.front [] 1 ] 4) l)
         ++ diff_clipped ScenarioS4.externals
              (polygons_at [ []; ScenarioS4.front; [] ] 2 l)
              (getCollision ScenarioS4.externals 0 l true)) /\
    (forall l, (5 <= l)%Z ->
       slice_at t' l = slice_at (mkTreeSlices [ mkSlice ScenarioS4.front [] 1 ] 4) l) /\
    (false = false ->
     forall l, (l < 2)%Z ->
       slice_at t' l = slice_at (mkTreeSlices [ mkSlice ScenarioS4.front [] 1 ] 4) l).
Proof.
  apply (branch_slices_land_on_their_layers _ FloatArith _ ScenarioS4.externals
           (mkTreeSlices [ mkSlice ScenarioS4.front [] 1 ] 4)
           false ScenarioS4.root [ []; ScenarioS4.front; [] ] 2 5).
  - split; [|split].
    + constructor; [intros H; discriminate H | constructor].
    + intros H. discriminate H.
    + intros _. simpl. lia.
  - lia.
  - reflexivity.
Defined.

(* ===================================================================== *)
(** * Theorems: the slices of all trees *)
(* ===================================================================== *)

Section GatherFacts.
Context {Polygon : Type}.

Lemma num_layers_from :
  forall (trees : list (TreeSlices Polygon)) (n0 : nat),
    (n0 <= fold_left
             (fun n t =>
                if (0 <=? first_layer_id t)%Z
                then Nat.max n (Z.to_nat (first_layer_id t
                                          + Z.of_nat (length (tree_slices t))))
                else n)
             trees n0)%nat /\
    forall t, In t trees -> (0 <= first_layer_id t)%Z ->
      (Z.to_nat (first_layer_id t + Z.of_nat (length (tree_slices t)))
       <= fold_left
            (fun n t =>
               if (0 <=? first_layer_id t)%Z
               then Nat.max n (Z.to_nat (first_layer_id t
                                         + Z.of_nat (length (tree_slices t))))
               else n)
            trees n0)%nat.
Proof.
  induction trees as [|t0 trees IH]; intros n0; cbn [fold_left].
  - split; [lia | intros t []].
  - destruct (IH (if (0 <=? first_layer_id t0)%Z
                  then Nat.max n0 (Z.to_nat (first_layer_id t0
                                             + Z.of_nat (length (tree_slices t0))))
                  else n0)) as [Hle Hall].
    split.
    + destruct (0 <=? first_layer_id t0)%Z; lia.
    + intros t [<-|Hin] Hpos; [|apply Hall; assumption].
      rewrite (proj2 (Z.leb_le _ _) Hpos) in Hle |- *. lia.
Qed.

(** Every tree with a first layer ends below [num_layers]. *)
Lemma num_layers_covers :
  forall (trees : list (TreeSlices Polygon)) t,
    In t trees -> (0 <= first_layer_id t)%Z ->
    (first_layer_id t + Z.of_nat (length (tree_slices t))
     <= Z.of_nat (num_layers trees))%Z.
Proof.
  intros trees t Hin Hpos.
  pose proof (proj2 (num_layers_from trees 0) t Hin Hpos) as H.
  unfold num_layers. lia.
Qed.

(** The loop over the slices of a tree is the loop that joins the slices
    of a branch, over the polygons and bottom contacts of the slices. *)
Lemma gather_slices_join :
  forall (all : list (Slice Polygon)) (first : Z) (m a : nat)
         (dsts : list (Slice Polygon)),
    (a + m = length all)%nat ->
    gather_slices (skipn a all) (first + Z.of_nat a) dsts
    = join_slices (seq a m) first 0
        (map slice_polygons all) (map slice_bottom_contacts all) dsts.
Proof.
  intros all first. induction m as [|m IH]; intros a dsts Hlen; cbn [seq join_slices].
  - rewrite skipn_all2 by lia. reflexivity.
  - destruct (nth_error all a) as [src|] eqn:Ea.
    2:{ apply nth_error_None in Ea. lia. }
    assert (Hskip : skipn a all = src :: skipn (S a) all).
    { clear -Ea. revert a Ea. induction all as [|x all IHall]; intros [|a] Ea;
        try discriminate Ea.
      - cbn in Ea. injection Ea as ->. reflexivity.
      - cbn [skipn]. apply IHall. exact Ea. }
    rewrite Hskip. cbn [gather_slices].
    rewrite !nth_error_map, Ea. cbn [option_map].
    replace (first + Z.of_nat a + 1)%Z with (first + Z.of_nat (S a))%Z by lia.
    replace (first + Z.of_nat a - 0)%Z with (first + Z.of_nat a)%Z by lia.
    destruct (is_empty (slice_polygons src)).
    + apply IH. lia.
    + destruct (lookupZ dsts (first + Z.of_nat a)) as [dst|]; [|reflexivity].
      apply IH. lia.
Qed.

(** One tree joins the slices of all trees, layer by layer. *)
Lemma gather_tree_spec :
  forall (dsts : list (Slice Polygon)) (t : TreeSlices Polygon),
    Forall slice_ok dsts ->
    ((0 <= first_layer_id t)%Z ->
     (first_layer_id t + Z.of_nat (length (tree_slices t))
      <= Z.of_nat (length dsts))%Z) ->
    exists dsts',
      gather_tree dsts t = Some dsts' /\
      length dsts' = length dsts /\
      Forall slice_ok dsts' /\
      forall l,
        slice_polygons (get_slice dsts' l)
        = slice_polygons (get_slice dsts l) ++ slice_polygons (given_to t l) /\
        slice_bottom_contacts (get_slice dsts' l)
        = slice_bottom_contacts (get_slice dsts l)
          ++ slice_bottom_contacts (given_to t l) /\
        num_branches (get_slice dsts' l)
        = (num_branches (get_slice dsts l)
           + (if gives_polygons t l then 1 else 0))%nat.
Proof.
  intros dsts t Hok Hcover. unfold gather_tree, given_to, gives_polygons, given_to.
  destruct (Z.leb_spec 0 (first_layer_id t)) as [Hpos|Hneg].
  2:{ exists dsts. split; [reflexivity|]. split; [reflexivity|]. split; [exact Hok|].
      intros l. cbn. rewrite !app_nil_r. repeat split; lia. }
  specialize (Hcover Hpos).
  pose proof (gather_slices_join (tree_slices t) (first_layer_id t)
                (length (tree_slices t)) 0 dsts eq_refl) as Hjoin.
  cbn [skipn] in Hjoin.
  replace (first_layer_id t + Z.of_nat 0)%Z with (first_layer_id t) in Hjoin by lia.
  rewrite Hjoin. clear Hjoin.
  destruct (join_slices_spec (map slice_polygons (tree_slices t))
              (map slice_bottom_contacts (tree_slices t))
              (first_layer_id t) 0 (length (tree_slices t)) 0 dsts)
    as (dsts' & -> & Hl & Hget).
  { rewrite length_map. lia. }
  { intros j src Hj _ _. lia. }
  assert (Hat : forall l,
             get_slice dsts' l
             = if is_empty (slice_polygons (slice_at t l)) then get_slice dsts l
               else join_slice (get_slice dsts l) (slice_polygons (slice_at t l))
                               (Some (slice_bottom_contacts (slice_at t l)))).
  { intros l. rewrite Hget. cbv zeta.
    replace (l + 0 - first_layer_id t)%Z with (l - first_layer_id t)%Z by lia.
    assert (Hs : slice_at t l
                 = match lookupZ (tree_slices t) (l - first_layer_id t) with
                   | Some s => s
                   | None => empty_slice
                   end) by reflexivity.
    rewrite Hs, !lookupZ_map.
    destruct (lookupZ (tree_slices t) (l - first_layer_id t)) as [s|] eqn:El;
      cbn [option_map].
    - apply lookupZ_Some_range in El.
      rewrite (proj2 (Z.leb_le _ _)) by lia.
      rewrite (proj2 (Z.ltb_lt _ _)) by lia.
      reflexivity.
    - cbn [empty_slice slice_polygons is_empty].
      destruct (_ && _)%bool; reflexivity. }
  exists dsts'. split; [reflexivity|]. split; [exact Hl|]. split.
  - apply Forall_slice_ok_get. intros k. rewrite Hat.
    destruct (is_empty _); [apply slice_ok_get; exact Hok|].
    intros Hz. unfold join_slice in Hz.
    destruct (1 <? S (num_branches (get_slice dsts k)))%nat; discriminate Hz.
  - intros l. rewrite Hat.
    destruct (is_empty (slice_polygons (slice_at t l))) eqn:Ee.
    + cbn. rewrite !app_nil_r. repeat split; lia.
    + rewrite Ee. cbn [negb].
      destruct (join_slice_joined (get_slice dsts l) (slice_polygons (slice_at t l))
                  (Some (slice_bottom_contacts (slice_at t l)))
                  (slice_ok_get _ _ Hok)) as (H1 & H2 & H3).
      rewrite H1, H2, H3. repeat split.
Qed.

Lemma gather_trees_spec :
  forall (trees : list (TreeSlices Polygon)) (dsts : list (Slice Polygon)),
    Forall slice_ok dsts ->
    (forall t, In t trees -> (0 <= first_layer_id t)%Z ->
               (first_layer_id t + Z.of_nat (length (tree_slices t))
                <= Z.of_nat (length dsts))%Z) ->
    exists dsts',
      gather_trees trees dsts = Some dsts' /\
      length dsts' = length dsts /\
      forall l,
        slice_polygons (get_slice dsts' l)
        = slice_polygons (get_slice dsts l)
          ++ concat (map (fun t => slice_polygons (given_to t l)) trees) /\
        slice_bottom_contacts (get_slice dsts' l)
        = slice_bottom_contacts (get_slice dsts l)
          ++ concat (map (fun t => slice_bottom_contacts (given_to t l)) trees) /\
        num_branches (get_slice dsts' l)
        = (num_branches (get_slice dsts l)
           + length (filter (fun t => gives_polygons t l) trees))%nat.
Proof.
  induction trees as [|t trees IH]; intros dsts Hok Hcover; cbn [gather_trees].
  - exists dsts. split; [reflexivity|]. split; [reflexivity|].
    intros l. cbn. rewrite !app_nil_r. repeat split; lia.
  - destruct (gather_tree_spec dsts t Hok (Hcover t (or_introl eq_refl)))
      as (dsts1 & -> & Hl1 & Hok1 & Hget1).
    destruct (IH dsts1 Hok1) as (dsts' & -> & Hl & Hget).
    { intros t' Hin Hpos. rewrite Hl1. apply Hcover; [right; exact Hin | exact Hpos]. }
    exists dsts'. split; [reflexivity|]. split; [congruence|].
    intros l. destruct (Hget l) as (H1 & H2 & H3).
    destruct (Hget1 l) as (G1 & G2 & G3).
    rewrite H1, H2, H3, G1, G2, G3. cbn [map concat filter].
    rewrite <- !app_assoc. split; [reflexivity|]. split; [reflexivity|].
    destruct (gives_polygons t l); cbn [length]; lia.
Qed.

End GatherFacts.

(** The slices of all trees are gathered layer by layer (lines 918 to
    936): the loop never indexes out of range; [slices] has one entry
    for each layer up to the highest layer of a tree; and for every
    layer the polygons of [slices[l]] are the polygons that the trees
    have for that layer, in the order of the trees, its bottom contacts
    are those of the trees that have polygons there, and its
    [num_branches] is the number of such trees. *)
Theorem slices_gathered_by_layer :
  forall (Polygon : Type) (trees : list (TreeSlices Polygon)),
    exists slices,
      gathered_slices trees = Some slices /\
      length slices = num_layers trees /\
      forall l,
        slice_polygons (get_slice slices l)
        = concat (map (fun t => slice_polygons (given_to t l)) trees) /\
        slice_bottom_contacts (get_slice slices l)
        = concat (map (fun t => slice_bottom_contacts (given_to t l)) trees) /\
        num_branches (get_slice slices l)
        = length (filter (fun t => gives_polygons t l) trees).
Proof.
  intros Polygon trees. unfold gathered_slices.
  destruct (gather_trees_spec trees (repeat empty_slice (num_layers trees)))
    as (slices & -> & Hl & Hget).
  - apply Forall_forall. intros s Hs. apply repeat_spec in Hs. subst s.
    apply slice_ok_empty.
  - intros t Hin Hpos. rewrite repeat_length. apply num_layers_covers; assumption.
  - exists slices. split; [reflexivity|].
    split; [rewrite Hl; apply repeat_length|].
    intros l. destruct (Hget l) as (H1 & H2 & H3).
    rewrite get_slice_repeat_empty in H1, H2, H3. exact (conj H1 (conj H2 H3)).
Qed.

(* ===================================================================== *)
(** * Theorems: the mesh of a branch *)
(* ===================================================================== *)

Section TubeFacts.
Context {F : Type} {A : Arith F} {Polygons : Type}.
Variable X : Externals F Polygons.
Variable L : Libm F.

Lemma face_in_range_mono :
  forall (n m : Z) (t : Triangle),
    (n <= m)%Z -> face_in_range n t -> face_in_range m t.
Proof.
  intros n m [[a b] c] Hle H. unfold face_in_range in *. lia.
Qed.

Lemma Forall_face_in_range_mono :
  forall (n m : Z) (l : list Triangle),
    (n <= m)%Z -> Forall (face_in_range n) l -> Forall (face_in_range m) l.
Proof.
  intros n m l Hle H. eapply Forall_impl; [|exact H].
  intros t. apply face_in_range_mono. exact Hle.
Qed.

Lemma length_circle_points :
  forall n center x y angle angle_step,
    length (circle_points L n center x y angle angle_step) = n.
Proof.
  induction n as [|n IH]; intros; cbn [circle_points length]; [reflexivity|].
  rewrite IH. reflexivity.
Qed.

(** A circle of at least one step appends its points and returns their
    range. *)
Lemma discretize_circle_spec :
  forall center normal radius eps (pts : list (Vec3 F)),
    (1 <= circle_steps L eps radius)%Z ->
    exists new,
      discretize_circle L center normal radius eps pts
      = Some (Z.of_nat (length pts),
              (Z.of_nat (length pts) + circle_steps L eps radius)%Z,
              pts ++ new) /\
      Z.of_nat (length new) = circle_steps L eps radius.
Proof.
  intros center normal radius eps pts Hsteps. unfold discretize_circle. cbv zeta.
  destruct (Z.ltb_spec (Z.of_nat (length pts) + circle_steps L eps radius) 0); [lia|].
  eexists. split.
  - rewrite length_app, length_circle_points. do 2 f_equal. f_equal. lia.
  - rewrite length_circle_points. lia.
Qed.

(** The zig-zag loop on a first ring that may be empty. *)
Lemma strip_loop_valid :
  forall (vs : list (Vec3 F)) b1 e1 b2 e2,
    (0 <= b1)%Z -> (e1 <= Z.of_nat (length vs))%Z ->
    (0 <= b2)%Z -> (e2 <= Z.of_nat (length vs))%Z ->
    forall fuel u v n1 n2 idx,
      (0 <= u < Z.of_nat (length vs))%Z ->
      ((0 < n1)%Z -> (b1 <= u < e1)%Z) ->
      (b2 <= v < e2)%Z ->
      (0 <= n1)%Z -> (0 <= n2)%Z ->
      (Z.to_nat (n1 + n2) <= fuel)%nat ->
      exists new,
        strip_loop fuel vs b1 e1 b2 e2 u v n1 n2 idx = Some (idx ++ new) /\
        length new = Z.to_nat (n1 + n2) /\
        Forall (face_in_range (Z.of_nat (length vs))) new.
Proof.
  intros vs b1 e1 b2 e2 Hb1 He1 Hb2 He2.
  induction fuel as [|fuel IH]; intros u v n1 n2 idx Hu Hring Hv Hn1 Hn2 Hf;
    cbn [strip_loop].
  - assert (n1 = 0 /\ n2 = 0)%Z as [-> ->] by lia. simpl.
    exists []. rewrite app_nil_r. repeat split. constructor.
  - destruct ((0 <? n1)%Z || (0 <? n2)%Z)%bool eqn:Hc.
    + pose proof (next_on_ring_bounds b2 e2 v Hv) as Hv2.
      set (u2 := next_on_ring b1 e1 u) in *.
      set (v2 := next_on_ring b2 e2 v) in *.
      assert (Htake1 :
        (0 < n1)%Z ->
        exists new,
          strip_loop fuel vs b1 e1 b2 e2 u2 v (n1 - 1) n2 (idx ++ [(u, u2, v)])
          = Some (idx ++ new) /\
          length new = Z.to_nat (n1 + n2) /\
          Forall (face_in_range (Z.of_nat (length vs))) new).
      { intros Hpos.
        pose proof (next_on_ring_bounds b1 e1 u (Hring Hpos)) as Hu2. fold u2 in Hu2.
        destruct (IH u2 v (n1 - 1)%Z n2 (idx ++ [(u, u2, v)])) as (new' & E & Hl & Hall);
          try lia.
        exists ((u, u2, v) :: new'). split; [|split].
        - rewrite E, <- app_assoc. reflexivity.
        - cbn [length]. rewrite Hl. lia.
        - constructor; [|exact Hall]. unfold face_in_range. lia. }
      assert (Htake2 :
        (0 < n2)%Z ->
        exists new,
          strip_loop fuel vs b1 e1 b2 e2 u v2 n1 (n2 - 1) (idx ++ [(u, v2, v)])
          = Some (idx ++ new) /\
          length new = Z.to_nat (n1 + n2) /\
          Forall (face_in_range (Z.of_nat (length vs))) new).
      { intros Hpos.
        destruct (IH u v2 n1 (n2 - 1)%Z (idx ++ [(u, v2, v)])) as (new' & E & Hl & Hall);
          try lia.
        exists ((u, v2, v) :: new'). split; [|split].
        - rewrite E, <- app_assoc. reflexivity.
        - cbn [length]. rewrite Hl. lia.
        - constructor; [|exact Hall]. unfold face_in_range. lia. }
      apply orb_true_iff in Hc. rewrite !Z.ltb_lt in Hc.
      destruct (Z.eqb_spec n1 0) as [E1|E1].
      * apply Htake2. lia.
      * destruct (Z.eqb_spec n2 0) as [E2|E2].
        -- apply Htake1. lia.
        -- assert (Hpos : (0 < n1)%Z) by lia.
           pose proof (next_on_ring_bounds b1 e1 u (Hring Hpos)) as Hu2. fold u2 in Hu2.
           destruct (lookupZ_in_range vs u2) as [pu2 ->]; [lia|].
           destruct (lookupZ_in_range vs v) as [pv ->]; [lia|].
           destruct (lookupZ_in_range vs v2) as [pv2 ->]; [lia|].
           destruct (lookupZ_in_range vs u) as [pu ->]; [lia|].
           destruct (fltb _ _); [apply Htake1 | apply Htake2]; lia.
    + apply orb_false_iff in Hc. rewrite !Z.ltb_ge in Hc.
      assert (n1 = 0 /\ n2 = 0)%Z as [-> ->] by lia. simpl.
      exists []. rewrite app_nil_r. repeat split. constructor.
Qed.

(** The strip between the last ring and a new ring that is not empty. *)
Lemma strip_between_spec :
  forall (its : indexed_triangle_set F) (ps strip : Z * Z),
    ring_ok (Z.of_nat (length (vertices its))) ps ->
    (0 <= fst strip < snd strip)%Z ->
    (snd strip <= Z.of_nat (length (vertices its)))%Z ->
    exists new,
      strip_between its ps strip
      = Some (mkITS (vertices its) (indices its ++ new)) /\
      Z.of_nat (length new) = (ring_size ps + ring_size strip)%Z /\
      Forall (face_in_range (Z.of_nat (length (vertices its)))) new.
Proof.
  intros its [b1 e1] [b2 e2] (H1 & H2 & H3) Hs He. cbn [fst snd] in *.
  unfold strip_between, triangulate_strip, ring_size. cbn [fst snd].
  destruct (closest_on_second_bounds (vertices its) b1 b2 e2)
    as (istart2 & -> & Hi); try lia.
  destruct (strip_loop_valid (vertices its) b1 e1 b2 e2 ltac:(lia) ltac:(lia)
              ltac:(lia) ltac:(lia)
              (Z.to_nat (e1 - b1 + (e2 - b2))) b1 istart2 (e1 - b1)%Z (e2 - b2)%Z
              (indices its))
    as (new & -> & Hl & Hall); try lia.
  exists new. split; [reflexivity|]. split; [lia | exact Hall].
Qed.

Lemma fan_loop_in_range :
  forall (n : Z) flip ifan (vs : list Z) u idx,
    (0 <= ifan < n)%Z ->
    (forall v, In v vs -> (0 <= v < n)%Z) ->
    (vs <> [] -> (0 <= u < n)%Z) ->
    exists new,
      fan_loop flip ifan vs u idx = idx ++ new /\
      length new = length vs /\
      Forall (face_in_range n) new.
Proof.
  intros n flip ifan. induction vs as [|v0 vs IH]; intros u idx Hfan Hvs Hu;
    cbn [fan_loop].
  - exists []. rewrite app_nil_r. repeat split. constructor.
  - assert (Hv0 : (0 <= v0 < n)%Z) by (apply Hvs; left; reflexivity).
    assert (Hu' : (0 <= u < n)%Z) by (apply Hu; discriminate).
    destruct (IH v0 (idx ++ [if flip then (ifan, u, v0) else (ifan, v0, u)]) Hfan)
      as (new & E & Hl & Hall).
    { intros v Hv. apply Hvs. right. exact Hv. }
    { intros _. exact Hv0. }
    exists ((if flip then (ifan, u, v0) else (ifan, v0, u)) :: new).
    split; [rewrite E, <- app_assoc; reflexivity|].
    split; [cbn [length]; rewrite Hl; reflexivity|].
    constructor; [|exact Hall].
    destruct flip; unfold face_in_range; lia.
Qed.

(** The fan that closes a ring. *)
Lemma triangulate_fan_in_range :
  forall flip (its : indexed_triangle_set F) (ifan b e : Z),
    (0 <= ifan < Z.of_nat (length (vertices its)))%Z ->
    (0 <= b <= e)%Z -> (e <= Z.of_nat (length (vertices its)))%Z ->
    exists new,
      triangulate_fan flip its ifan b e
      = Some (mkITS (vertices its) (indices its ++ new)) /\
      Z.of_nat (length new) = (e - b)%Z /\
      Forall (face_in_range (Z.of_nat (length (vertices its)))) new.
Proof.
  intros flip its ifan b e Hfan Hb He. unfold triangulate_fan. cbv zeta.
  destruct (Z.ltb_spec (Z.of_nat (length (indices its)) + (e - b) * 3) 0); [lia|].
  destruct (fan_loop_in_range (Z.of_nat (length (vertices its))) flip ifan
              (index_range b e) (e - 1)%Z (indices its) Hfan)
    as (new & -> & Hl & Hall).
  { intros v Hv. apply index_range_bounds in Hv. lia. }
  { intros Hne. destruct (Z.le_gt_cases e b) as [Hle|Hlt]; [|lia].
    exfalso. apply Hne. apply index_range_nil. exact Hle. }
  rewrite length_index_range in Hl.
  exists new. split; [reflexivity|]. split; [lia | exact Hall].
Qed.

Lemma grows_refl :
  forall (its : indexed_triangle_set F) ps,
    ring_ok (Z.of_nat (length (vertices its))) ps -> grows 0 its its ps ps.
Proof.
  intros its ps H. exists [], []. rewrite !app_nil_r.
  repeat split; try apply H. constructor.
Qed.

Lemma grows_trans :
  forall n n' (its1 its2 its3 : indexed_triangle_set F) ps1 ps2 ps3,
    grows n its1 its2 ps1 ps2 -> grows n' its2 its3 ps2 ps3 ->
    grows (n + n') its1 its3 ps1 ps3.
Proof.
  intros n n' its1 its2 its3 ps1 ps2 ps3
         (dv & df & Hv & Hi & Hn & Hc & Hall & Hok)
         (dv' & df' & Hv' & Hi' & Hn' & Hc' & Hall' & Hok').
  exists (dv ++ dv'), (df ++ df').
  split; [rewrite Hv', Hv, app_assoc; reflexivity|].
  split; [rewrite Hi', Hi, app_assoc; reflexivity|].
  split; [rewrite length_app; lia|].
  split; [rewrite !length_app; lia|].
  split; [|exact Hok'].
  apply Forall_app. split; [|exact Hall'].
  eapply Forall_face_in_range_mono; [|exact Hall].
  rewrite Hv', length_app. lia.
Qed.

Lemma grows_closes :
  forall n n' (its1 its2 its3 : indexed_triangle_set F) ps1 ps2 zmax,
    grows n its1 its2 ps1 ps2 -> closes n' its2 its3 ps2 zmax ->
    closes (n + n') its1 its3 ps1 zmax.
Proof.
  intros n n' its1 its2 its3 ps1 ps2 zmax
         (dv & df & Hv & Hi & Hn & Hc & Hall & Hok)
         (dv' & df' & pole & Hv' & Hz & Hi' & Hn' & Hc' & Hall').
  exists (dv ++ dv'), (df ++ df'), pole.
  split; [rewrite Hv', Hv, <- !app_assoc; reflexivity|].
  split; [exact Hz|].
  split; [rewrite Hi', Hi, app_assoc; reflexivity|].
  split; [rewrite length_app; lia|].
  split; [rewrite !length_app; lia|].
  apply Forall_app. split; [|exact Hall'].
  eapply Forall_face_in_range_mono; [|exact Hall].
  rewrite Hv', !length_app. lia.
Qed.

Lemma grows_ring_ok :
  forall n (its its' : indexed_triangle_set F) ps ps',
    grows n its its' ps ps' -> ring_ok (Z.of_nat (length (vertices its'))) ps'.
Proof.
  intros n its its' ps ps' (dv & df & _ & _ & _ & _ & _ & Hok). exact Hok.
Qed.

Lemma total_steps_app :
  forall a b : list F,
    total_steps L (a ++ b) = (total_steps L a + total_steps L b)%Z.
Proof.
  unfold total_steps. induction a as [|r a IH]; intros b; cbn [app fold_right].
  - lia.
  - rewrite IH. lia.
Qed.

(** A circle and the strip that joins it to the last ring. *)
Lemma circle_and_strip :
  forall (its : indexed_triangle_set F) ps center normal radius,
    ring_ok (Z.of_nat (length (vertices its))) ps ->
    (1 <= circle_steps L tube_eps radius)%Z ->
    exists b e pts its2,
      discretize_circle L center normal radius tube_eps (vertices its)
      = Some (b, e, pts) /\
      strip_between (mkITS pts (indices its)) ps (b, e) = Some its2 /\
      grows (circle_steps L tube_eps radius) its its2 ps (b, e).
Proof.
  intros its ps center normal radius Hok Hsteps.
  destruct (discretize_circle_spec center normal radius tube_eps (vertices its) Hsteps)
    as (new & Ed & Hl).
  set (b := Z.of_nat (length (vertices its))) in *.
  set (e := (b + circle_steps L tube_eps radius)%Z) in *.
  assert (Hlen : Z.of_nat (length (vertices its ++ new)) = e).
  { rewrite length_app. unfold e, b. lia. }
  destruct (strip_between_spec (mkITS (vertices its ++ new) (indices its)) ps (b, e))
    as (faces & Es & Hf & Hall); cbn [vertices indices fst snd] in *.
  { destruct Hok as (H1 & H2 & H3). unfold ring_ok. rewrite Hlen. unfold e. fold b. lia. }
  { unfold e, b. lia. }
  { rewrite Hlen. lia. }
  exists b, e, (vertices its ++ new), (mkITS (vertices its ++ new) (indices its ++ faces)).
  split; [exact Ed|]. split; [exact Es|].
  exists new, faces. cbn [vertices indices].
  split; [reflexivity|]. split; [reflexivity|].
  split; [exact Hl|].
  split; [unfold ring_size in *; cbn [fst snd] in *; unfold e; lia|].
  split; [exact Hall|].
  unfold ring_ok. cbn [fst snd]. rewrite Hlen. unfold e, b. lia.
Qed.

(** A circle and the fan that closes it at the bottom. *)
Lemma circle_and_fan :
  forall (its : indexed_triangle_set F) ps ifan center normal radius,
    (0 <= ifan < Z.of_nat (length (vertices its)))%Z ->
    ring_size ps = 0%Z ->
    (1 <= circle_steps L tube_eps radius)%Z ->
    exists b e pts its2,
      discretize_circle L center normal radius tube_eps (vertices its)
      = Some (b, e, pts) /\
      triangulate_fan false (mkITS pts (indices its)) ifan b e = Some its2 /\
      grows (circle_steps L tube_eps radius) its its2 ps (b, e).
Proof.
  intros its ps ifan center normal radius Hfan Hps Hsteps.
  destruct (discretize_circle_spec center normal radius tube_eps (vertices its) Hsteps)
    as (new & Ed & Hl).
  set (b := Z.of_nat (length (vertices its))) in *.
  set (e := (b + circle_steps L tube_eps radius)%Z) in *.
  assert (Hlen : Z.of_nat (length (vertices its ++ new)) = e).
  { rewrite length_app. unfold e, b. lia. }
  destruct (triangulate_fan_in_range false (mkITS (vertices its ++ new) (indices its))
              ifan b e)
    as (faces & Es & Hf & Hall); cbn [vertices indices] in *.
  { rewrite Hlen. unfold e. lia. }
  { unfold e, b. lia. }
  { rewrite Hlen. lia. }
  exists b, e, (vertices its ++ new), (mkITS (vertices its ++ new) (indices its ++ faces)).
  split; [exact Ed|]. split; [exact Es|].
  exists new, faces. cbn [vertices indices].
  split; [reflexivity|]. split; [reflexivity|].
  split; [exact Hl|].
  split; [unfold ring_size in *; cbn [fst snd] in *; unfold e; lia|].
  split; [exact Hall|].
  unfold ring_ok. cbn [fst snd]. rewrite Hlen. unfold e, b. lia.
Qed.

End TubeFacts.

Section TubeLoops.
Context {F : Type} {A : Arith F} {Polygons : Type}.
Variable X : Externals F Polygons.
Variable L : Libm F.

Local Abbreviation enough_steps :=
  (Forall (fun r => (1 <= circle_steps L tube_eps r)%Z)).

(** The rounds of the bottom loop after the first. *)
Lemma bottom_rings_strips :
  forall (ivals : list Z) p1 nprev radius angle angle_step ifan ps
         (its : indexed_triangle_set F),
    Forall (fun i => i <> 1%Z) ivals ->
    enough_steps (cap_radii L fadd32 (length ivals) radius angle angle_step) ->
    ring_ok (Z.of_nat (length (vertices its))) ps ->
    exists ps' its',
      bottom_rings L ivals p1 nprev radius angle angle_step ifan ps its
      = Some (ps', its') /\
      grows (total_steps L (cap_radii L fadd32 (length ivals) radius angle angle_step))
            its its' ps ps'.
Proof.
  induction ivals as [|i ivals IH];
    intros p1 nprev radius angle angle_step ifan ps its Hne Hsteps Hok;
    cbn [bottom_rings length cap_radii total_steps fold_right] in *.
  - exists ps, its. split; [reflexivity | apply grows_refl; exact Hok].
  - apply Forall_cons_iff in Hne. destruct Hne as [Hi Hne].
    apply Forall_cons_iff in Hsteps. destruct Hsteps as [Hr Hsteps].
    destruct (circle_and_strip L its ps
                (v3cast32 (v3sub p1 (v3scale (v3scale nprev radius) (cos32 L angle))))
                (v3cast32 nprev) (fmul32 radius (sin32 L angle)) Hok Hr)
      as (b & e & pts & its2 & -> & Es & G).
    destruct (Z.eqb_spec i 1) as [E|_]; [contradiction|].
    rewrite Es.
    destruct (IH p1 nprev radius (fadd32 angle angle_step) angle_step ifan (b, e) its2
                 Hne Hsteps (grows_ring_ok _ _ _ _ _ G)) as (ps' & its' & -> & G').
    exists ps', its'. split; [reflexivity|].
    exact (grows_trans _ _ _ _ _ _ _ _ G G').
Qed.

(** The bottom half sphere: a pole, then rings. *)
Lemma bottom_half_sphere_spec :
  forall prev p1 v1 (its : indexed_triangle_set F),
    enough_steps (bottom_radii X L prev) ->
    exists ps' its' pole,
      bottom_half_sphere X L prev p1 v1 (0, 0)%Z its = Some (ps', pz pole, its') /\
      grows (total_steps L (bottom_radii X L prev))
            (mkITS (vertices its ++ [pole]) (indices its)) its' (0, 0)%Z ps'.
Proof.
  intros prev p1 v1 its Hsteps. unfold bottom_half_sphere, bottom_radii in *.
  cbv zeta in *.
  destruct (cap_steps L (element_radius X prev)) as [nsteps angle_step] eqn:Ecap.
  cbn [fst snd] in *.
  set (radius := element_radius X prev) in *.
  set (pole := v3cast32 (v3sub p1 (v3scale v1 radius))).
  set (its1 := mkITS (vertices its ++ [pole]) (indices its)).
  assert (Hlen1 : Z.of_nat (length (vertices its1))
                  = (Z.of_nat (length (vertices its)) + 1)%Z).
  { unfold its1. cbn [vertices]. rewrite length_app. cbn [length]. lia. }
  assert (Hok0 : ring_ok (Z.of_nat (length (vertices its1))) (0, 0)%Z).
  { unfold ring_ok. cbn [fst snd]. lia. }
  destruct (Z.le_gt_cases nsteps 1) as [Hle|Hgt].
  - rewrite index_range_nil by lia. cbn [bottom_rings].
    replace (Z.to_nat (nsteps - 1)) with O by lia.
    exists (0, 0)%Z, its1, pole. split; [reflexivity|].
    apply grows_refl. exact Hok0.
  - rewrite index_range_cons by lia. cbn [bottom_rings].
    replace (Z.to_nat (nsteps - 1)) with (S (Z.to_nat (nsteps - 2))) in * by lia.
    cbn [cap_radii total_steps fold_right] in *.
    apply Forall_cons_iff in Hsteps. destruct Hsteps as [Hr Hsteps].
    destruct (circle_and_fan L its1 (0, 0)%Z (Z.of_nat (length (vertices its)))
                (v3cast32 (v3sub p1 (v3scale (v3scale v1 radius) (cos32 L angle_step))))
                (v3cast32 v1) (fmul32 radius (sin32 L angle_step)))
      as (b & e & pts & its2 & Ed & Ef & G); [lia | reflexivity | exact Hr |].
    fold its1. rewrite Ed. rewrite Z.eqb_refl, Ef.
    destruct (bottom_rings_strips (index_range (1 + 1) nsteps) p1 v1 radius
                (fadd32 angle_step angle_step) angle_step
                (Z.of_nat (length (vertices its))) (b, e) its2)
      as (ps' & its' & -> & G').
    { apply Forall_forall. intros i Hi. apply index_range_bounds in Hi. lia. }
    { rewrite length_index_range.
      replace (Z.to_nat (nsteps - (1 + 1))) with (Z.to_nat (nsteps - 2)) by lia.
      exact Hsteps. }
    { exact (grows_ring_ok _ _ _ _ _ G). }
    exists ps', its', pole. split; [reflexivity|].
    rewrite length_index_range in G'.
    replace (Z.to_nat (nsteps - (1 + 1))) with (Z.to_nat (nsteps - 2)) in G' by lia.
    exact (grows_trans _ _ _ _ _ _ _ _ G G').
Qed.

(** The rounds of the top loop. *)
Lemma top_rings_spec :
  forall (n : nat) p2 ncurrent radius angle angle_step ps
         (its : indexed_triangle_set F),
    enough_steps (cap_radii L fsub32 n radius angle angle_step) ->
    ring_ok (Z.of_nat (length (vertices its))) ps ->
    exists ps' its',
      top_rings L n p2 ncurrent radius angle angle_step ps its = Some (ps', its') /\
      grows (total_steps L (cap_radii L fsub32 n radius angle angle_step))
            its its' ps ps'.
Proof.
  induction n as [|n IH]; intros p2 ncurrent radius angle angle_step ps its Hsteps Hok;
    cbn [top_rings cap_radii total_steps fold_right] in *.
  - exists ps, its. split; [reflexivity | apply grows_refl; exact Hok].
  - apply Forall_cons_iff in Hsteps. destruct Hsteps as [Hr Hsteps].
    destruct (circle_and_strip L its ps
                (v3cast32 (v3add p2 (v3scale (v3scale ncurrent radius) (cos32 L angle))))
                (v3cast32 ncurrent) (fmul32 radius (sin32 L angle)) Hok Hr)
      as (b & e & pts & its2 & -> & -> & G).
    destruct (IH p2 ncurrent radius (fsub32 angle angle_step) angle_step (b, e) its2
                 Hsteps (grows_ring_ok _ _ _ _ _ G)) as (ps' & its' & -> & G').
    exists ps', its'. split; [reflexivity|].
    exact (grows_trans _ _ _ _ _ _ _ _ G G').
Qed.

(** The top half sphere: rings, a pole and the fan that closes the last
    ring. *)
Lemma top_half_sphere_spec :
  forall current p2 v1 ps (its : indexed_triangle_set F),
    enough_steps (top_radii X L current) ->
    ring_ok (Z.of_nat (length (vertices its))) ps ->
    exists zmax its',
      top_half_sphere X L current p2 v1 ps its = Some (zmax, its') /\
      closes (total_steps L (top_radii X L current)) its its' ps zmax.
Proof.
  intros current p2 v1 ps its Hsteps Hok. unfold top_half_sphere, top_radii in *.
  cbv zeta in *.
  destruct (cap_steps L (element_radius X current)) as [nsteps angle_step] eqn:Ecap.
  cbn [fst snd] in *.
  set (radius := element_radius X current) in *.
  destruct (top_rings_spec (Z.to_nat nsteps) p2 v1 radius
              (to_float (fdiv m_pi (of_Z 2))) angle_step ps its Hsteps Hok)
    as (ps' & its1 & -> & (dv & df & Hv & Hi & Hn & Hc & Hall & Hok')).
  set (pole := v3cast32 (v3add p2 (v3scale v1 radius))).
  set (its2 := mkITS (vertices its1 ++ [pole]) (indices its1)).
  assert (Hlen2 : Z.of_nat (length (vertices its2))
                  = (Z.of_nat (length (vertices its1)) + 1)%Z).
  { unfold its2. cbn [vertices]. rewrite length_app. cbn [length]. lia. }
  destruct Hok' as (H1 & H2 & H3).
  destruct (triangulate_fan_in_range true its2 (Z.of_nat (length (vertices its1)))
              (fst ps') (snd ps'))
    as (faces & -> & Hf & Hfaces); [lia | lia | lia |].
  eexists _, _. split; [reflexivity|].
  exists dv, (df ++ faces), pole. cbn [vertices indices].
  split; [unfold its2; cbn [vertices]; rewrite Hv, <- app_assoc; reflexivity|].
  split; [reflexivity|].
  split; [unfold its2; cbn [indices]; rewrite Hi, app_assoc; reflexivity|].
  split; [exact Hn|].
  split; [rewrite length_app; unfold ring_size in *; lia|].
  apply Forall_app. split.
  - eapply Forall_face_in_range_mono; [|exact Hall]. lia.
  - exact Hfaces.
Qed.

(** A ring between two segments. *)
Lemma middle_ring_spec :
  forall current next p2 v1 ps (its : indexed_triangle_set F),
    (1 <= circle_steps L tube_eps (element_radius X current))%Z ->
    ring_ok (Z.of_nat (length (vertices its))) ps ->
    exists strip its',
      middle_ring X L current next p2 v1 ps its = Some (strip, its') /\
      grows (circle_steps L tube_eps (element_radius X current)) its its' ps strip.
Proof.
  intros current next p2 v1 ps its Hr Hok. unfold middle_ring. cbv zeta.
  destruct (circle_and_strip L its ps (v3cast32 p2)
              (v3cast32 (normalized3
                           (v3add v1 (normalized3 (v3sub (position3 X next) p2)))))
              (element_radius X current) Hok Hr)
    as (b & e & pts & its2 & -> & -> & G).
  exists (b, e), its2. split; [reflexivity | exact G].
Qed.

(** The loop over the path after its first round has made the bottom
    half sphere. *)
Lemma extrude_loop_spec :
  forall (rest : list SupportElement) prev ps z (its : indexed_triangle_set F),
    rest <> [] ->
    enough_steps (tube_radii X L rest) ->
    ring_ok (Z.of_nat (length (vertices its))) ps ->
    exists zmax its',
      extrude_loop X L false prev rest ps (Some z) its = Some (z, zmax, its') /\
      closes (total_steps L (tube_radii X L rest)) its its' ps zmax.
Proof.
  induction rest as [|current rest IH]; intros prev ps z its Hne Hsteps Hok;
    [contradiction|].
  cbn [extrude_loop tube_radii] in *. cbv zeta.
  destruct rest as [|next rest'].
  - destruct (top_half_sphere_spec current (position3 X current)
                (normalized3 (v3sub (position3 X current) (position3 X prev)))
                ps its Hsteps Hok) as (zmax & its' & -> & Hc).
    exists zmax, its'. split; [reflexivity | exact Hc].
  - apply Forall_cons_iff in Hsteps. destruct Hsteps as [Hr Hsteps].
    destruct (middle_ring_spec current next (position3 X current)
                (normalized3 (v3sub (position3 X current) (position3 X prev)))
                ps its Hr Hok) as (strip & its2 & -> & G).
    destruct (IH current strip z its2) as (zmax & its' & E & Hc).
    { discriminate. }
    { exact Hsteps. }
    { exact (grows_ring_ok _ _ _ _ _ G). }
    exists zmax, its'. split; [exact E|].
    cbn [total_steps fold_right].
    exact (grows_closes _ _ _ _ _ _ _ _ G Hc).
Qed.

(** The first round of the loop makes the bottom half sphere and goes on
    as every other round. *)
Lemma extrude_loop_first :
  forall prev current (rest : list SupportElement) ps (its : indexed_triangle_set F),
    extrude_loop X L true prev (current :: rest) ps None its
    = match bottom_half_sphere X L prev (position3 X prev)
              (normalized3 (v3sub (position3 X current) (position3 X prev)))
              ps its with
      | None => None
      | Some (ps', z, its') =>
          extrude_loop X L false prev (current :: rest) ps' (Some z) its'
      end.
Proof.
  intros prev current rest ps its. cbn [extrude_loop]. cbv zeta.
  destruct (bottom_half_sphere X L prev (position3 X prev)
              (normalized3 (v3sub (position3 X current) (position3 X prev))) ps its)
    as [[[ps' z] its']|]; reflexivity.
Qed.

End TubeLoops.

(** The mesh of a branch is a closed tube (lines 160 to 257, with
    [discretize_circle], [triangulate_fan] and [triangulate_strip]). For
    a path of at least two elements, all of whose circles get at least
    one step, [extrude_branch] returns; it leaves the vertices and faces
    that the mesh has alone and appends a bottom vertex, the vertices of
    the rings, as many as all circles have steps, and a top vertex;
    [zmin] is the height of the bottom vertex and [zmax] that of the top
    vertex; it appends two faces for each ring vertex; and every face it
    appends joins three vertices of the mesh. *)
Theorem extrude_branch_closes_the_tube :
  forall (F : Type) (A : Arith F) (Polygons : Type)
         (X : Externals F Polygons) (L : Libm F)
         (path : list SupportElement) (its : indexed_triangle_set F),
    (2 <= length path)%nat ->
    Forall (fun r => (1 <= circle_steps L tube_eps r)%Z) (ring_radii X L path) ->
    exists zmin zmax its' bottom rings top faces,
      extrude_branch X L path its = Some (zmin, zmax, its') /\
      vertices its' = vertices its ++ bottom :: rings ++ [top] /\
      zmin = pz bottom /\ zmax = pz top /\
      Z.of_nat (length rings) = total_steps L (ring_radii X L path) /\
      indices its' = indices its ++ faces /\
      length faces = (2 * length rings)%nat /\
      Forall (face_in_range (Z.of_nat (length (vertices its')))) faces.
Proof.
  intros F A Polygons X L path its Hlen Hsteps.
  destruct path as [|prev [|current rest]]; cbn [length] in Hlen; try lia.
  unfold extrude_branch, ring_radii in *.
  rewrite total_steps_app.
  apply Forall_app in Hsteps. destruct Hsteps as [Hbottom Htube].
  rewrite extrude_loop_first.
  destruct (bottom_half_sphere_spec X L prev (position3 X prev)
              (normalized3 (v3sub (position3 X current) (position3 X prev)))
              its Hbottom)
    as (ps' & its1 & bottom & -> & (dv & df & Hv & Hi & Hn & Hc & Hall & Hok)).
  destruct (extrude_loop_spec X L (current :: rest) prev ps' (pz bottom) its1)
    as (zmax & its' & -> & (dv' & df' & top & Hv' & Hz & Hi' & Hn' & Hc' & Hall'));
    [discriminate | exact Htube | exact Hok |].
  cbn [vertices indices] in Hv, Hi.
  exists (pz bottom), zmax, its', bottom, (dv ++ dv'), top, (df ++ df').
  split; [reflexivity|].
  split; [rewrite Hv', Hv, <- !app_assoc; reflexivity|].
  split; [reflexivity|]. split; [exact Hz|].
  split; [rewrite length_app; lia|].
  split; [rewrite Hi', Hi, <- app_assoc; reflexivity|].
  split.
  - unfold ring_size in *. cbn [fst snd] in *. rewrite !length_app. lia.
  - apply Forall_app. split; [|exact Hall'].
    eapply Forall_face_in_range_mono; [|exact Hall].
    rewrite Hv', !length_app. lia.
Qed.

(** The tube of three elements has ten circles of eleven to nineteen
    steps: [extrude_branch_closes_the_tube] applies to it. *)
Lemma extrude_branch_closes_the_tube_example :
  exists zmin zmax its' bottom rings top faces,
    extrude_branch Scenario.externals TubeExample.libm TubeExample.path
                   TubeExample.empty_mesh
    = Some (zmin, zmax, its') /\
    vertices its' = vertices TubeExample.empty_mesh ++ bottom :: rings ++ [top] /\
    zmin = pz bottom /\ zmax = pz top /\
    Z.of_nat (length rings)
    = total_steps TubeExample.libm
        (ring_radii Scenario.externals TubeExample.libm TubeExample.path) /\
    indices its' = indices TubeExample.empty_mesh ++ faces /\
    length faces = (2 * length rings)%nat /\
    Forall (face_in_range (Z.of_nat (length (vertices its')))) faces.
Proof.
  apply (extrude_branch_closes_the_tube PrimFloat.float FloatArith _
           Scenario.externals TubeExample.libm TubeExample.path
           TubeExample.empty_mesh).
  - cbn [TubeExample.path length]. lia.
  - apply Forall_forall. intros r Hr. apply Z.leb_le. revert r Hr.
    apply (proj1 (forallb_forall
                    (fun r => (1 <=? circle_steps TubeExample.libm tube_eps r)%Z)
                    (ring_radii Scenario.externals TubeExample.libm
                                TubeExample.path))).
    vm_compute. reflexivity.
Defined.

(* ===================================================================== *)
(** * Theorems: the circles of the tube, in exact arithmetic *)
(* ===================================================================== *)

Section CircleFacts.
Local Open Scope R_scope.

Lemma real_normalized3_32 :
  forall v : Vec3 R,
    0 < squaredNorm3_32 v ->
    normalized3_32 v
    = mkVec3 (px v / sqrt (squaredNorm3_32 v)) (py v / sqrt (squaredNorm3_32 v))
             (pz v / sqrt (squaredNorm3_32 v)).
Proof.
  intros v H. unfold normalized3_32. cbv zeta.
  cbn [fltb RealArith]. rewrite real_fzero.
  rewrite (proj2 (Rltb_true 0 (squaredNorm3_32 v)) H).
  reflexivity.
Qed.

Lemma real_normalized3_32_zero :
  forall v : Vec3 R, squaredNorm3_32 v <= 0 -> normalized3_32 v = v.
Proof.
  intros v H. unfold normalized3_32. cbv zeta.
  cbn [fltb RealArith]. rewrite real_fzero.
  rewrite (proj2 (Rltb_false 0 (squaredNorm3_32 v)) H).
  reflexivity.
Qed.

(** The frame of the circle plane. *)
Lemma circle_frame :
  forall a b c : R,
    a <> 0 \/ c <> 0 ->
    let n := mkVec3 a b c in
    let x := normalized3_32 (cross32 n (mkVec3 (of_Z 0) (of_Z (-1)) (of_Z 0))) in
    let y := normalized3_32 (cross32 n x) in
    dot3 x x = 1 /\ dot3 y y = 1 /\ dot3 x y = 0 /\ dot3 x n = 0 /\ dot3 y n = 0.
Proof.
  intros a b c Hac n x y.
  assert (Hs : 0 < c * c + a * a) by (destruct Hac; nra).
  set (t := sqrt (c * c + a * a)).
  assert (Ht : t * t = c * c + a * a) by (apply sqrt_sqrt; lra).
  assert (Ht0 : 0 < t) by (apply sqrt_lt_R0; exact Hs).
  assert (Hx : x = mkVec3 (c / t) 0 (- a / t)).
  { unfold x. rewrite real_normalized3_32.
    - unfold n, cross32, squaredNorm3_32, fsub32, fmul32, fadd32.
      cbn [px py pz to_float fsub fmul fadd of_Z RealArith].
      replace (b * 0 - c * -1 ) with c by ring.
      replace (c * 0 - a * 0) with 0 by ring.
      replace (a * -1 - b * 0) with (- a) by ring.
      replace (c * c + 0 * 0 + - a * - a) with (c * c + a * a) by ring.
      fold t. f_equal. unfold Rdiv. ring.
    - unfold n, cross32, squaredNorm3_32, fsub32, fmul32, fadd32.
      cbn [px py pz to_float fsub fmul fadd of_Z RealArith]. nra. }
  set (u := sqrt (b * b + c * c + a * a)).
  assert (Hu : u * u = b * b + c * c + a * a) by (apply sqrt_sqrt; nra).
  assert (Hu0 : 0 < u) by (apply sqrt_lt_R0; nra).
  assert (Hz : squaredNorm3_32 (cross32 n x) = b * b + c * c + a * a).
  { rewrite Hx. unfold n, cross32, squaredNorm3_32, fsub32, fmul32, fadd32.
    cbn [px py pz to_float fsub fmul fadd of_Z RealArith].
    unfold Rdiv. set (it := / t).
    assert (Hit : it * t = 1) by (apply Rinv_l; lra).
    nsatz. }
  assert (Hy : y = mkVec3 (- a * b / t / u) (t / u) (- b * c / t / u)).
  { unfold y. rewrite real_normalized3_32 by (rewrite Hz; nra).
    rewrite Hz. fold u. rewrite Hx. unfold n, cross32, fsub32, fmul32.
    cbn [px py pz to_float fsub fmul fadd of_Z RealArith].
    f_equal; field_simplify_eq; try lra; nsatz. }
  rewrite Hx, Hy. unfold n, dot3.
  cbn [px py pz fmul fadd RealArith].
  unfold Rdiv. set (it := / t). set (iu := / u).
  assert (Hit : it * t = 1) by (apply Rinv_l; lra).
  assert (Hiu : iu * u = 1) by (apply Rinv_l; lra).
  repeat split; nsatz.
Qed.

(** A point of the circle loop, in a frame of the circle plane. *)
Lemma circle_point_on_circle :
  forall (center normal x y : Vec3 R) (radius C S : R),
    dot3 x x = 1 -> dot3 y y = 1 -> dot3 x y = 0 ->
    dot3 x normal = 0 -> dot3 y normal = 0 ->
    C * C + S * S = 1 ->
    let p := v3add32 (v3add32 center (v3scale32 (v3scale32 x radius) C))
                     (v3scale32 (v3scale32 y radius) S) in
    squaredNorm3 (v3sub p center) = radius * radius /\
    dot3 (v3sub p center) normal = 0.
Proof.
  intros [c1 c2 c3] [n1 n2 n3] [x1 x2 x3] [y1 y2 y3] radius C S.
  unfold dot3, squaredNorm3, v3sub, v3add32, v3scale32, fadd32, fmul32.
  cbn [px py pz to_float fsub fmul fadd RealArith].
  intros Hxx Hyy Hxy Hxn Hyn Hcs. split; nsatz.
Qed.

Lemma circle_points_on_circle :
  forall (L : Libm R) (center normal x y : Vec3 R) (radius : R),
    dot3 x x = 1 -> dot3 y y = 1 -> dot3 x y = 0 ->
    dot3 x normal = 0 -> dot3 y normal = 0 ->
    (forall a, cos32 L a * cos32 L a + sin32 L a * sin32 L a = 1) ->
    forall (n : nat) (angle angle_step : R),
      Forall (fun p => squaredNorm3 (v3sub p center) = radius * radius /\
                       dot3 (v3sub p center) normal = 0)
             (circle_points L n center (v3scale32 x radius) (v3scale32 y radius)
                            angle angle_step).
Proof.
  intros L center normal x y radius Hxx Hyy Hxy Hxn Hyn Htrig.
  induction n as [|n IH]; intros angle angle_step; cbn [circle_points].
  - constructor.
  - constructor; [|apply IH].
    apply circle_point_on_circle; auto.
Qed.

(** The circle loop on a frame of two null vectors. *)
Lemma circle_points_collapse :
  forall (L : Libm R) (center : Vec3 R) (radius : R) (n : nat) (angle angle_step : R),
    Forall (fun p => p = center)
           (circle_points L n center
              (v3scale32 (mkVec3 0 0 0) radius) (v3scale32 (mkVec3 0 0 0) radius)
              angle angle_step).
Proof.
  intros L [c1 c2 c3] radius. induction n as [|n IH]; intros angle angle_step;
    cbn [circle_points].
  - constructor.
  - constructor; [|apply IH].
    unfold v3add32, v3scale32, fadd32, fmul32.
    cbn [px py pz to_float fmul fadd RealArith]. f_equal; ring.
Qed.

Lemma Rdiv_le_upper :
  forall a b c : R, 0 < c -> a <= b * c -> a / c <= b.
Proof.
  intros a b c Hc H. assert (E : a / c * c = a) by (field; lra). nra.
Qed.

Lemma Rdiv_le_lower :
  forall a b c : R, 0 < c -> a * c <= b -> a <= b / c.
Proof.
  intros a b c Hc H. assert (E : b / c * c = b) by (field; lra). nra.
Qed.

(** In exact arithmetic a circle has at least one step, and half its
    step is at most the angle whose chord deviates by [eps]. *)
Lemma real_circle_steps :
  forall eps radius : R,
    0 < eps -> eps <= 2 * radius ->
    (1 <= circle_steps real_libm eps radius)%Z /\
    0 < circle_angle_step real_libm eps radius / 2
      <= Ratan.acos (1 - eps / radius) /\
    Ratan.acos (1 - eps / radius) <= PI.
Proof.
  intros eps radius Heps Hrad.
  assert (Hr : 0 < radius) by lra.
  set (q := 1 - eps / radius).
  assert (Hq : -1 <= q < 1).
  { unfold q. split.
    - assert (eps / radius <= 2); [|lra].
      apply Rdiv_le_upper; lra.
    - assert (0 < eps / radius); [|lra].
      apply Rdiv_lt_0_compat; lra. }
  assert (Hacos : 0 < Ratan.acos q <= PI).
  { split; [|apply acos_bound].
    destruct (Req_dec q (-1)) as [E|Hne].
    - rewrite E. replace (IZR (-1)) with (Ropp 1) by lra.
      rewrite acos_opp, acos_1. pose proof PI_RGT_0. lra.
    - apply acos_bound_lt. lra. }
  pose proof PI_RGT_0 as Hpi.
  unfold circle_angle_step, circle_steps, chord_angle, fdiv32.
  cbn [to_float fdiv fmul fsub of_Z m_pi RealArith real_libm acos ceil int_of].
  fold q.
  set (ratio := 2 * PI / (2 * Ratan.acos q)).
  assert (Hratio : 1 <= ratio).
  { unfold ratio. apply Rdiv_le_lower; lra. }
  pose proof (Zceil_bound ratio) as [_ Hk].
  set (k := Zceil ratio) in *.
  assert (Hk1 : 1 <= IZR k) by lra.
  destruct (Rle_dec 0 (IZR k)) as [_|Hn]; [|lra].
  rewrite ZfloorZ.
  split; [apply le_IZR; exact Hk1|].
  split; [|apply Hacos].
  assert (Hstep : 2 * PI / IZR k / 2 = PI / IZR k) by (field; lra).
  rewrite Hstep.
  split.
  - apply Rdiv_lt_0_compat; lra.
  - apply Rdiv_le_upper; [lra|].
    assert (E : ratio * (2 * Ratan.acos q) = 2 * PI) by (unfold ratio; field; lra).
    nra.
Qed.
End CircleFacts.

(** The points of a circle lie on the circle (lines 134 to 157), in
    exact arithmetic: when the cosine and the sine that the C library
    gives satisfy [cos^2 + sin^2 = 1], the normal is not parallel to the
    y axis and the number of steps is not negative, [discretize_circle]
    returns, appends one point for each step, and every point it appends
    is at the distance [radius] from the centre, in the plane through
    the centre that is perpendicular to the normal. *)
Theorem circle_points_lie_on_the_circle :
  forall (L : Libm R) (center normal : Vec3 R) (radius eps : R)
         (pts : list (Vec3 R)),
    (forall a, cos32 L a * cos32 L a + sin32 L a * sin32 L a = 1)%R ->
    (px normal <> 0 \/ pz normal <> 0)%R ->
    (0 <= circle_steps L eps radius)%Z ->
    exists new,
      discretize_circle L center normal radius eps pts
      = Some (Z.of_nat (length pts), Z.of_nat (length (pts ++ new)), pts ++ new) /\
      Z.of_nat (length new) = circle_steps L eps radius /\
      Forall (fun p => squaredNorm3 (v3sub p center) = (radius * radius)%R /\
                       dot3 (v3sub p center) normal = 0%R) new.
Proof.
  intros L center [a b c] radius eps pts Htrig Hn Hsteps.
  cbn [px pz] in Hn.
  unfold discretize_circle. cbv zeta.
  destruct (Z.ltb_spec (Z.of_nat (length pts) + circle_steps L eps radius) 0); [lia|].
  eexists. split; [reflexivity|].
  split; [rewrite length_circle_points; lia|].
  pose proof (circle_frame a b c Hn) as Hf. cbv zeta in Hf.
  destruct Hf as (Hxx & Hyy & Hxy & Hxn & Hyn).
  apply circle_points_on_circle; assumption.
Qed.

(** The unit circle around the origin in the plane of x and y, with the
    C library of exact arithmetic, satisfies the hypotheses of
    [circle_points_lie_on_the_circle]. *)
Lemma circle_points_lie_on_the_circle_unit :
  exists new,
    discretize_circle real_libm (mkVec3 0 0 0)%R (mkVec3 0 0 1)%R 1%R (15 / 1000)%R []
    = Some (Z.of_nat (length (@nil (Vec3 R))), Z.of_nat (length ([] ++ new)),
            [] ++ new) /\
    Z.of_nat (length new) = circle_steps real_libm (15 / 1000)%R 1%R /\
    Forall (fun p => squaredNorm3 (v3sub p (mkVec3 0 0 0)%R) = (1 * 1)%R /\
                     dot3 (v3sub p (mkVec3 0 0 0)%R) (mkVec3 0 0 1)%R = 0%R) new.
Proof.
  apply (circle_points_lie_on_the_circle real_libm (mkVec3 0 0 0)%R (mkVec3 0 0 1)%R
           1%R (15 / 1000)%R []).
  - intros a. cbn [cos32 sin32 real_libm].
    pose proof (sin2_cos2 a) as H. unfold Rsqr in H. lra.
  - right. cbn [pz]. lra.
  - destruct (real_circle_steps (15 / 1000)%R 1%R) as [H _]; [lra | lra | lia].
Defined.

(** A circle whose normal is parallel to the y axis collapses (lines 142
    to 153), in exact arithmetic: the two axes of the circle plane are
    null vectors, and every point that [discretize_circle] appends is
    the centre. *)
Theorem circle_along_y_collapses :
  forall (L : Libm R) (center normal : Vec3 R) (radius eps : R)
         (pts : list (Vec3 R)),
    px normal = 0%R -> pz normal = 0%R ->
    (0 <= circle_steps L eps radius)%Z ->
    exists new,
      discretize_circle L center normal radius eps pts
      = Some (Z.of_nat (length pts), Z.of_nat (length (pts ++ new)), pts ++ new) /\
      Z.of_nat (length new) = circle_steps L eps radius /\
      Forall (fun p => p = center) new.
Proof.
  intros L center [a b c] radius eps pts Ha Hc Hsteps.
  cbn [px pz] in Ha, Hc. subst a c.
  unfold discretize_circle. cbv zeta.
  destruct (Z.ltb_spec (Z.of_nat (length pts) + circle_steps L eps radius) 0); [lia|].
  eexists. split; [reflexivity|].
  split; [rewrite length_circle_points; lia|].
  assert (Hx : normalized3_32
                 (cross32 (mkVec3 0%R b 0%R) (mkVec3 (of_Z 0) (of_Z (-1)) (of_Z 0)))
               = mkVec3 0%R 0%R 0%R).
  { rewrite real_normalized3_32_zero.
    - unfold cross32, fsub32, fmul32.
      cbn [px py pz to_float fsub fmul of_Z RealArith]. f_equal; ring.
    - unfold cross32, squaredNorm3_32, fsub32, fmul32, fadd32.
      cbn [px py pz to_float fsub fmul fadd of_Z RealArith]. nra. }
  rewrite Hx.
  assert (Hy : normalized3_32 (cross32 (mkVec3 0%R b 0%R) (mkVec3 0%R 0%R 0%R))
               = mkVec3 0%R 0%R 0%R).
  { rewrite real_normalized3_32_zero.
    - unfold cross32, fsub32, fmul32.
      cbn [px py pz to_float fsub fmul RealArith]. f_equal; ring.
    - unfold cross32, squaredNorm3_32, fsub32, fmul32, fadd32.
      cbn [px py pz to_float fsub fmul fadd RealArith]. nra. }
  rewrite Hy.
  apply circle_points_collapse.
Qed.

(** A circle of normal [(0, 1, 0)] satisfies the hypotheses of
    [circle_along_y_collapses]. *)
Lemma circle_along_y_collapses_unit :
  exists new,
    discretize_circle real_libm (mkVec3 1 2 3)%R (mkVec3 0 1 0)%R 1%R (15 / 1000)%R []
    = Some (Z.of_nat (length (@nil (Vec3 R))), Z.of_nat (length ([] ++ new)),
            [] ++ new) /\
    Z.of_nat (length new) = circle_steps real_libm (15 / 1000)%R 1%R /\
    Forall (fun p => p = (mkVec3 1 2 3)%R) new.
Proof.
  apply (circle_along_y_collapses real_libm (mkVec3 1 2 3)%R (mkVec3 0 1 0)%R
           1%R (15 / 1000)%R []).
  - reflexivity.
  - reflexivity.
  - destruct (real_circle_steps (15 / 1000)%R 1%R) as [H _]; [lra | lra | lia].
Defined.

(** The chords of a circle stay within [eps] of it (lines 137 to 139),
    in exact arithmetic with the exact C library: for [0 < eps] and
    [eps <= 2 * radius] the circle has at least one step, and the middle
    of a chord of the final [angle_step] is at most [eps] inside the
    circle: [radius * (1 - cos (angle_step / 2)) <= eps]. *)
Theorem circle_chords_within_eps :
  forall eps radius : R,
    (0 < eps)%R -> (eps <= 2 * radius)%R ->
    (1 <= circle_steps real_libm eps radius)%Z /\
    (radius * (1 - cos (circle_angle_step real_libm eps radius / 2)) <= eps)%R.
Proof.
  intros eps radius Heps Hrad.
  destruct (real_circle_steps eps radius Heps Hrad) as (Hsteps & Hhalf & Hpi).
  split; [exact Hsteps|].
  assert (Hr : (0 < radius)%R) by lra.
  assert (Hq : (-1 <= 1 - eps / radius <= 1)%R).
  { split.
    - assert (eps / radius <= 2)%R; [|lra]. apply Rdiv_le_upper; lra.
    - assert (0 < eps / radius)%R; [|lra]. apply Rdiv_lt_0_compat; lra. }
  assert (Hcos : (1 - eps / radius
                  <= cos (circle_angle_step real_libm eps radius / 2))%R).
  { rewrite <- (cos_acos (1 - eps / radius) Hq) at 1.
    apply cos_decr_1; lra. }
  assert (E : (radius * (eps / radius) = eps)%R) by (field; lra).
  nra.
Qed.

(** A circle of radius 1 with [eps = 0.015] satisfies the hypotheses of
    [circle_chords_within_eps]. *)
Lemma circle_chords_within_eps_unit :
  (1 <= circle_steps real_libm (15 / 1000)%R 1%R)%Z /\
  (1 * (1 - cos (circle_angle_step real_libm (15 / 1000)%R 1 / 2)) <= 15 / 1000)%R.
Proof.
  apply (circle_chords_within_eps (15 / 1000)%R 1%R); lra.
Defined.
